(** * lunr.ts: token sets, vectors, index builder and query executor

    A shallow embedding of the TypeScript sources of lunr.ts.  JavaScript
    objects that the code mutates and shares (the [TokenSet] nodes) live in
    an explicit store addressed by the node identifier; plain functions of
    the source are Rocq functions, loops over a work list take fuel.

    Conventions.
    - A JavaScript string is a [list ascii]; a character stands for one
      UTF-16 code unit (restricted to the code units 0..255).
    - A [TokenSet] object is identified with its [id] field, which the
      constructor draws from the process-wide counter [TokenSet._nextId]. *)

From Stdlib Require Import ZArith List Ascii String Bool Lia Arith.
From Stdlib Require Import Decimal DecimalString DecimalNat.
From Stdlib Require Import Floats.
From stdpp Require Import functions gmap strings list.

Local Open Scope nat_scope.
Local Open Scope list_scope.

(** A string literal as a list of characters. *)
Definition chars (s : string) : list ascii := list_ascii_of_string s.

Definition star : ascii := "*"%char.

(* ================================================================== *)
(** * JavaScript strings and object keys *)

Module JsString.

Definition code (c : ascii) : nat := nat_of_ascii c.

(** [a < b] on strings: lexicographic on code units. *)
Fixpoint ltb (a b : list ascii) : bool :=
  match a, b with
  | _, [] => false
  | [], _ :: _ => true
  | x :: a', y :: b' =>
      if code x <? code y then true
      else if code y <? code x then false
      else ltb a' b'
  end.

Definition is_digit (c : ascii) : bool :=
  (48 <=? code c) && (code c <=? 57).

Definition digits : list ascii :=
  chars "0123456789".

(** [String(n)] for a non-negative integer. *)
Definition of_nat (n : nat) : list ascii :=
  chars (NilEmpty.string_of_uint (Nat.to_uint n)).

(** Insertion sort by code unit: [Array.prototype.sort] on an array of
    one-character strings. *)
Fixpoint insert_sorted (c : ascii) (l : list ascii) : list ascii :=
  match l with
  | [] => [c]
  | d :: l' => if code c <=? code d then c :: l else d :: insert_sorted c l'
  end.

Definition sort (l : list ascii) : list ascii :=
  foldr insert_sorted [] l.

End JsString.

(* ================================================================== *)
(** * The [edges] object of a token set

    [edges : { [key: string]: TokenSet }] is keyed by one-character
    strings.  The association list keeps the insertion order of the keys;
    [keys] is [Object.keys]: integer-like keys (the digits) in ascending
    order first, then the other keys in insertion order. *)

Module Edges.

Definition t := list (ascii * nat).

Fixpoint get (e : t) (c : ascii) : option nat :=
  match e with
  | [] => None
  | (d, n) :: e' => if decide (d = c) then Some n else get e' c
  end.

(** [c in edges] *)
Definition has (e : t) (c : ascii) : bool :=
  match get e c with Some _ => true | None => false end.

(** [edges[c] = n] *)
Fixpoint set (e : t) (c : ascii) (n : nat) : t :=
  match e with
  | [] => [(c, n)]
  | (d, m) :: e' => if decide (d = c) then (d, n) :: e' else (d, m) :: set e' c n
  end.

Definition keys (e : t) : list ascii :=
  filter (fun d => has e d = true) JsString.digits
    ++ filter (fun d => JsString.is_digit d = false) (map fst e).

End Edges.

(* ================================================================== *)
(** * Token sets (src/TokenSet.ts) *)

Record TokenSet := mkTokenSet {
  final : bool;
  edges : Edges.t;
  _str : list ascii;
}.

(** The store of all [TokenSet] objects together with the static counter
    [TokenSet._nextId]. *)
Record world := mkWorld {
  nodes : gmap nat TokenSet;
  _nextId : nat;
}.

Definition fresh_node : TokenSet := mkTokenSet false [] [].

Definition initial_world : world := mkWorld ∅ 1.

Definition node_at (w : world) (id : nat) : TokenSet :=
  default fresh_node (nodes w !! id).

(** [new TokenSet()] *)
Definition new_TokenSet (w : world) : nat * world :=
  (_nextId w, mkWorld (<[_nextId w := fresh_node]> (nodes w)) (S (_nextId w))).

Definition update_node (w : world) (id : nat) (f : TokenSet → TokenSet) : world :=
  mkWorld (<[id := f (node_at w id)]> (nodes w)) (_nextId w).

Definition set_final (b : bool) (n : TokenSet) : TokenSet :=
  mkTokenSet b (edges n) (_str n).

Definition set_edge (c : ascii) (m : nat) (n : TokenSet) : TokenSet :=
  mkTokenSet (final n) (Edges.set (edges n) c m) (_str n).

Definition set_str (s : list ascii) (n : TokenSet) : TokenSet :=
  mkTokenSet (final n) (edges n) s.

(** ** [TokenSet.fromString] *)

(** The body of the [for] loop, for the characters from position [i] on;
    [len] is [str.length]. *)
Fixpoint fromString_loop (w : world) (node : nat) (i len : nat)
    (str : list ascii) : world :=
  match str with
  | [] => w
  | char :: rest =>
      let final := Nat.eqb i (len - 1) in
      if decide (char = star) then
        let w1 := update_node w node (set_edge char node) in
        let w2 := update_node w1 node (set_final final) in
        fromString_loop w2 node (S i) len rest
      else
        let '(next, w1) := new_TokenSet w in
        let w2 := update_node w1 next (set_final final) in
        let w3 := update_node w2 node (set_edge char next) in
        fromString_loop w3 next (S i) len rest
  end.

Definition fromString (w : world) (str : list ascii) : nat * world :=
  let '(root, w1) := new_TokenSet w in
  (root, fromString_loop w1 root 0 (length str) str).

(** ** [TokenSet.prototype.toArray] *)

Record array_frame := mkArrayFrame {
  af_prefix : list ascii;
  af_node : nat;
}.

(** One iteration of the [while] loop after [stack.pop()]: the words
    array and the frames pushed, the last pushed first. *)
Definition toArray_step (w : world) (frame : array_frame)
    (words : list (list ascii)) : list (list ascii) * list array_frame :=
  let n := node_at w (af_node frame) in
  let words' := if final n then words ++ [af_prefix frame] else words in
  let pushed :=
    map (fun edge =>
           mkArrayFrame (af_prefix frame ++ [edge])
                        (default 0 (Edges.get (edges n) edge)))
        (Edges.keys (edges n)) in
  (words', rev pushed).

(** The stack is kept with its top first. *)
Fixpoint toArray_loop (fuel : nat) (w : world) (words : list (list ascii))
    (stack : list array_frame) : option (list (list ascii)) :=
  match stack with
  | [] => Some words
  | frame :: rest =>
      match fuel with
      | 0 => None
      | S fuel' =>
          let '(words', pushed) := toArray_step w frame words in
          toArray_loop fuel' w words' (pushed ++ rest)
      end
  end.

Definition toArray (fuel : nat) (w : world) (this : nat)
    : option (list (list ascii)) :=
  toArray_loop fuel w [] [mkArrayFrame [] this].

(** ** [TokenSet.prototype.toString] *)

(** The string built when no key is cached: the finality bit, then label
    and child identifier of every edge, the labels in sorted order. *)
Definition compute_key (n : TokenSet) : list ascii :=
  let str := if final n then chars "1" else chars "0" in
  let labels := JsString.sort (Edges.keys (edges n)) in
  fold_left
    (fun str label =>
       str ++ [label]
           ++ JsString.of_nat (default 0 (Edges.get (edges n) label)))
    labels str.

Definition toString (w : world) (this : nat) : list ascii :=
  let n := node_at w this in
  match _str n with
  | _ :: _ => _str n
  | [] => compute_key n
  end.

(** ** [TokenSet.prototype.intersect] *)

Record isect_frame := mkIsectFrame {
  qNode : nat;
  output : nat;
  node : nat;
}.

(** The test of the inner loop: [nEdge == qEdge || qEdge == '*']. *)
Definition admits (nEdge qEdge : ascii) : bool :=
  bool_decide (nEdge = qEdge) || bool_decide (qEdge = star).

(** The body of the inner loop for one pair of edges. *)
Definition intersect_pair (frame : isect_frame) (qEdge nEdge : ascii)
    (st : world * list isect_frame) : world * list isect_frame :=
  let '(w, stack) := st in
  if admits nEdge qEdge then
    let node' := default 0 (Edges.get (edges (node_at w (node frame))) nEdge) in
    let qNode' := default 0 (Edges.get (edges (node_at w (qNode frame))) qEdge) in
    let final' := final (node_at w node') && final (node_at w qNode') in
    match Edges.get (edges (node_at w (output frame))) nEdge with
    | Some next =>
        let w1 := update_node w next
                    (fun n => set_final (final n || final') n) in
        (w1, mkIsectFrame qNode' next node' :: stack)
    | None =>
        let '(next, w1) := new_TokenSet w in
        let w2 := update_node w1 next (set_final final') in
        let w3 := update_node w2 (output frame) (set_edge nEdge next) in
        (w3, mkIsectFrame qNode' next node' :: stack)
    end
  else (w, stack).

(** One iteration of the [while] loop after [stack.pop()]: both [for]
    loops over the keys read before the loops start. *)
Definition intersect_step (frame : isect_frame)
    (st : world * list isect_frame) : world * list isect_frame :=
  let w := fst st in
  let qEdges := Edges.keys (edges (node_at w (qNode frame))) in
  let nEdges := Edges.keys (edges (node_at w (node frame))) in
  fold_left
    (fun st qEdge =>
       fold_left (fun st nEdge => intersect_pair frame qEdge nEdge st) nEdges st)
    qEdges st.

Fixpoint intersect_loop (fuel : nat) (w : world) (stack : list isect_frame)
    : option world :=
  match stack with
  | [] => Some w
  | frame :: rest =>
      match fuel with
      | 0 => None
      | S fuel' =>
          let '(w', stack') := intersect_step frame (w, rest) in
          intersect_loop fuel' w' stack'
      end
  end.

(** [this.intersect(b)] *)
Definition intersect (fuel : nat) (w : world) (this b : nat)
    : option (nat * world) :=
  let '(out, w1) := new_TokenSet w in
  match intersect_loop fuel w1 [mkIsectFrame b out this] with
  | Some w2 => Some (out, w2)
  | None => None
  end.

(** ** [TokenSet.fromFuzzyString] *)

Record fuzzy_frame := mkFuzzyFrame {
  ff_node : nat;
  editsRemaining : nat;
  ff_str : list ascii;
}.

(** [if (c in node.edges) x = node.edges[c] else { x = new TokenSet();
    node.edges[c] = x }] *)
Definition edge_or_new (w : world) (node : nat) (c : ascii) : nat * world :=
  match Edges.get (edges (node_at w node)) c with
  | Some x => (x, w)
  | None =>
      let '(x, w1) := new_TokenSet w in
      (x, update_node w1 node (set_edge c x))
  end.

Definition mark_final_if (b : bool) (w : world) (id : nat) : world :=
  if b then update_node w id (set_final true) else w.

(** One iteration of the [while] loop after [stack.pop()]. *)
Definition fuzzy_step (frame : fuzzy_frame)
    (st : world * list fuzzy_frame) : world * list fuzzy_frame :=
  let '(w, stack) := st in
  let str := ff_str frame in
  let len := length str in
  (* no edit *)
  let '(w, stack) :=
    match str with
    | char :: rest =>
        let '(noEditNode, w1) := edge_or_new w (ff_node frame) char in
        let w2 := mark_final_if (Nat.eqb len 1) w1 noEditNode in
        (w2, mkFuzzyFrame noEditNode (editsRemaining frame) rest :: stack)
    | [] => (w, stack)
    end in
  match editsRemaining frame with
  | 0 => (w, stack)
  | S edits =>
      (* insertion *)
      let '(insertionNode, w) := edge_or_new w (ff_node frame) star in
      let w := mark_final_if (Nat.eqb len 0) w insertionNode in
      let stack := mkFuzzyFrame insertionNode edits str :: stack in
      (* deletion *)
      let stack :=
        if 1 <? len then mkFuzzyFrame (ff_node frame) edits (tail str) :: stack
        else stack in
      let w := mark_final_if (Nat.eqb len 1) w (ff_node frame) in
      (* substitution *)
      let '(w, stack) :=
        if 1 <=? len then
          let '(substitutionNode, w1) := edge_or_new w (ff_node frame) star in
          let w2 := mark_final_if (Nat.eqb len 1) w1 substitutionNode in
          (w2, mkFuzzyFrame substitutionNode edits (tail str) :: stack)
        else (w, stack) in
      (* transposition *)
      match str with
      | charA :: charB :: rest =>
          let '(transposeNode, w1) := edge_or_new w (ff_node frame) charB in
          let w2 := mark_final_if (Nat.eqb len 1) w1 transposeNode in
          (w2, mkFuzzyFrame transposeNode edits (charA :: rest) :: stack)
      | _ => (w, stack)
      end
  end.

Fixpoint fuzzy_loop (fuel : nat) (w : world) (stack : list fuzzy_frame)
    : option world :=
  match stack with
  | [] => Some w
  | frame :: rest =>
      match fuel with
      | 0 => None
      | S fuel' =>
          let '(w', stack') := fuzzy_step frame (w, rest) in
          fuzzy_loop fuel' w' stack'
      end
  end.

Definition fromFuzzyString (fuel : nat) (w : world) (str : list ascii)
    (editDistance : nat) : option (nat * world) :=
  let '(root, w1) := new_TokenSet w in
  match fuzzy_loop fuel w1 [mkFuzzyFrame root editDistance str] with
  | Some w2 => Some (root, w2)
  | None => None
  end.

(* ================================================================== *)
(** * The builder of minimal token sets (TokenSetBuilder.ts) *)

Record TokenSetNode := mkTokenSetNode {
  tn_parent : nat;
  tn_char : ascii;
  tn_child : nat;
}.

(** [uncheckedNodes] is kept with its last element first;
    [minimizedNodes] is keyed by the strings [toString] returns. *)
Record TokenSetBuilder := mkBuilder {
  previousWord : list ascii;
  root : nat;
  uncheckedNodes : list TokenSetNode;
  minimizedNodes : gmap string nat;
}.

Definition key_of (k : list ascii) : string := string_of_list_ascii k.

(** [new TokenSetBuilder()] *)
Definition new_TokenSetBuilder (w : world) : TokenSetBuilder * world :=
  let '(r, w1) := new_TokenSet w in
  (mkBuilder [] r [] ∅, w1).

(** The body of the [for] loop of [minimize], for the node on top of
    [uncheckedNodes]. *)
Definition minimize_node (nd : TokenSetNode)
    (st : gmap string nat * world) : gmap string nat * world :=
  let '(minimized, w) := st in
  let childKey := toString w (tn_child nd) in
  match minimized !! key_of childKey with
  | Some m =>
      (minimized, update_node w (tn_parent nd) (set_edge (tn_char nd) m))
  | None =>
      (<[key_of childKey := tn_child nd]> minimized,
       update_node w (tn_child nd) (set_str childKey))
  end.

(** [count] iterations of the loop, each ending in [uncheckedNodes.pop()]. *)
Fixpoint minimize_loop (count : nat) (unchecked : list TokenSetNode)
    (st : gmap string nat * world)
    : list TokenSetNode * (gmap string nat * world) :=
  match count, unchecked with
  | S count', nd :: rest => minimize_loop count' rest (minimize_node nd st)
  | _, _ => (unchecked, st)
  end.

Definition minimize (downTo : nat) (b : TokenSetBuilder) (w : world)
    : TokenSetBuilder * world :=
  let '(unchecked, (minimized, w')) :=
    minimize_loop (length (uncheckedNodes b) - downTo) (uncheckedNodes b)
                  (minimizedNodes b, w) in
  (mkBuilder (previousWord b) (root b) unchecked minimized, w').

Fixpoint commonPrefix (word previous : list ascii) : nat :=
  match word, previous with
  | c :: word', d :: previous' =>
      if decide (c = d) then S (commonPrefix word' previous') else 0
  | _, _ => 0
  end.

(** The second [for] loop of [insert]: one new node per remaining
    character. *)
Fixpoint extend (chars : list ascii) (node : nat)
    (unchecked : list TokenSetNode) (w : world)
    : nat * list TokenSetNode * world :=
  match chars with
  | [] => (node, unchecked, w)
  | char :: rest =>
      let '(nextNode, w1) := new_TokenSet w in
      let w2 := update_node w1 node (set_edge char nextNode) in
      extend rest nextNode (mkTokenSetNode node char nextNode :: unchecked) w2
  end.

Inductive error :=
| OutOfOrderWordInsertion.

(** [builder.insert(word)]; [inr] is the exception thrown. *)
Definition insert (word : list ascii) (b : TokenSetBuilder) (w : world)
    : (TokenSetBuilder * world) + error :=
  if JsString.ltb word (previousWord b) then inr OutOfOrderWordInsertion
  else
    let cp := commonPrefix word (previousWord b) in
    let '(b1, w1) := minimize cp b w in
    let node :=
      match uncheckedNodes b1 with
      | [] => root b1
      | nd :: _ => tn_child nd
      end in
    let '(node', unchecked, w2) :=
      extend (drop cp word) node (uncheckedNodes b1) w1 in
    let w3 := update_node w2 node' (set_final true) in
    inl (mkBuilder word (root b1) unchecked (minimizedNodes b1), w3).

Definition finish (b : TokenSetBuilder) (w : world) : TokenSetBuilder * world :=
  minimize 0 b w.

Fixpoint insert_all (arr : list (list ascii)) (b : TokenSetBuilder) (w : world)
    : (TokenSetBuilder * world) + error :=
  match arr with
  | [] => inl (b, w)
  | word :: arr' =>
      match insert word b w with
      | inl (b', w') => insert_all arr' b' w'
      | inr e => inr e
      end
  end.

(** [TokenSet.fromArray(arr)] *)
Definition fromArray (w : world) (arr : list (list ascii))
    : (nat * world) + error :=
  let '(builder, w1) := new_TokenSetBuilder w in
  match insert_all arr builder w1 with
  | inl (b, w2) => let '(b', w3) := finish b w2 in inl (root b', w3)
  | inr e => inr e
  end.

(** [TokenSet.fromArray(V).intersect(TokenSet.fromString(p)).toArray()]:
    the receiver is built before the argument. *)
Definition matching_words (fuel : nat) (w : world) (V : list (list ascii))
    (p : list ascii) : option (list (list ascii)) + error :=
  match fromArray w V with
  | inr e => inr e
  | inl (a, w1) =>
      let '(b, w2) := fromString w1 p in
      match intersect fuel w2 a b with
      | Some (out, w3) => inl (toArray fuel w3 out)
      | None => inl None
      end
  end.

(** [TokenSet.fromString(t).intersect(TokenSet.fromFuzzyString(s, k)).toArray()],
    as the index and the tests of the library intersect. *)
Definition fuzzy_matches (fuel : nat) (w : world) (t s : list ascii) (k : nat)
    : option (list (list ascii)) :=
  let '(a, w1) := fromString w t in
  match fromFuzzyString fuel w1 s k with
  | None => None
  | Some (b, w2) =>
      match intersect fuel w2 a b with
      | Some (out, w3) => toArray fuel w3 out
      | None => None
      end
  end.

(** [TokenSet.fromFuzzyString(s, k).intersect(TokenSet.fromString(t)).toArray()] *)
Definition fuzzy_receiver (fuel : nat) (w : world) (s : list ascii) (k : nat)
    (t : list ascii) : option (list (list ascii)) :=
  match fromFuzzyString fuel w s k with
  | None => None
  | Some (a, w1) =>
      let '(b, w2) := fromString w1 t in
      match intersect fuel w2 a b with
      | Some (out, w3) => toArray fuel w3 out
      | None => None
      end
  end.


(* ================================================================== *)
(** * Basic facts about the store and about [edges] *)

Section StoreFacts.

Lemma node_at_update_eq w id f :
  node_at (update_node w id f) id = f (node_at w id).
Proof. unfold node_at, update_node; simpl. by rewrite lookup_insert_eq. Qed.

Lemma node_at_update_ne w id id' f :
  id ≠ id' → node_at (update_node w id f) id' = node_at w id'.
Proof.
  intros Hne. unfold node_at, update_node; simpl.
  by rewrite lookup_insert_ne.
Qed.

Lemma node_at_update w id id' f :
  node_at (update_node w id f) id'
  = if decide (id = id') then f (node_at w id) else node_at w id'.
Proof.
  case_decide; subst; auto using node_at_update_eq, node_at_update_ne.
Qed.

Lemma nextId_update w id f : _nextId (update_node w id f) = _nextId w.
Proof. done. Qed.

Lemma node_at_new_eq w : node_at (new_TokenSet w).2 (_nextId w) = fresh_node.
Proof. unfold node_at, new_TokenSet; simpl. by rewrite lookup_insert_eq. Qed.

Lemma node_at_new_ne w id :
  id ≠ _nextId w → node_at (new_TokenSet w).2 id = node_at w id.
Proof.
  intros Hne. unfold node_at, new_TokenSet; simpl.
  by rewrite lookup_insert_ne.
Qed.

Lemma world_eq w w' :
  _nextId w = _nextId w' → (∀ x, nodes w !! x = nodes w' !! x) → w = w'.
Proof.
  destruct w as [m i], w' as [m' i']. simpl. intros -> H. f_equal.
  by apply map_eq.
Qed.

Lemma lookup_update w id f x :
  nodes (update_node w id f) !! x
  = if decide (id = x) then Some (f (node_at w id)) else nodes w !! x.
Proof.
  unfold update_node. simpl. case_decide.
  - subst. by rewrite lookup_insert_eq.
  - by rewrite lookup_insert_ne.
Qed.

Lemma lookup_new w x :
  nodes (new_TokenSet w).2 !! x
  = if decide (_nextId w = x) then Some fresh_node else nodes w !! x.
Proof.
  unfold new_TokenSet. simpl. case_decide.
  - subst. by rewrite lookup_insert_eq.
  - by rewrite lookup_insert_ne.
Qed.

Lemma new_TokenSet_eq w : new_TokenSet w = (_nextId w, (new_TokenSet w).2).
Proof. done. Qed.

Lemma edges_get_set_eq e c n : Edges.get (Edges.set e c n) c = Some n.
Proof.
  induction e as [|[d m] e IH]; simpl.
  - by rewrite decide_True.
  - destruct (decide (d = c)); simpl.
    + by rewrite decide_True.
    + by rewrite decide_False.
Qed.

Lemma edges_get_set_ne e c d n :
  c ≠ d → Edges.get (Edges.set e c n) d = Edges.get e d.
Proof.
  intros Hne. induction e as [|[x m] e IH]; simpl.
  - by rewrite decide_False.
  - destruct (decide (x = c)); simpl.
    + subst x. by rewrite !decide_False.
    + destruct (decide (x = d)); auto.
Qed.

Lemma edges_get_set e c d n :
  Edges.get (Edges.set e c n) d
  = if decide (c = d) then Some n else Edges.get e d.
Proof.
  case_decide; subst; auto using edges_get_set_eq, edges_get_set_ne.
Qed.

End StoreFacts.

(* ================================================================== *)
(** * Ordering of the inserted words *)

(** [sorted_from prev arr]: no word of [arr] is strictly smaller than the
    word before it, [prev] standing before the first one. *)
Fixpoint sorted_from (prev : list ascii) (arr : list (list ascii)) : bool :=
  match arr with
  | [] => true
  | word :: arr' => negb (JsString.ltb word prev) && sorted_from word arr'
  end.

Lemma ltb_nil_r (a : list ascii) : JsString.ltb a [] = false.
Proof. by destruct a. Qed.

Lemma minimize_previousWord downTo b w :
  previousWord (fst (minimize downTo b w)) = previousWord b.
Proof.
  unfold minimize.
  destruct (minimize_loop _ _ _) as [unchecked [minimized w']]. done.
Qed.

Lemma insert_previousWord word b w b' w' :
  insert word b w = inl (b', w') → previousWord b' = word.
Proof.
  unfold insert. destruct (JsString.ltb word (previousWord b)); [done|].
  destruct (minimize _ b w) as [b1 w1].
  destruct (extend _ _ _ _) as [[node' unchecked] w2].
  intros [= <- _]. done.
Qed.

Lemma insert_throws word b w :
  (∃ e, insert word b w = inr e) ↔ JsString.ltb word (previousWord b) = true.
Proof.
  unfold insert. destruct (JsString.ltb word (previousWord b)).
  - split; [done | eauto].
  - destruct (minimize _ b w) as [b1 w1].
    destruct (extend _ _ _ _) as [[node' unchecked] w2].
    split; [intros [e ?]; done | done].
Qed.

Lemma insert_all_throws arr : ∀ b w,
  (∃ e, insert_all arr b w = inr e) ↔ sorted_from (previousWord b) arr = false.
Proof.
  induction arr as [|word arr IH]; intros b w; simpl.
  - split; [intros [e ?]; done | done].
  - destruct (insert word b w) as [[b' w']|e] eqn:Hins.
    + assert (JsString.ltb word (previousWord b) = false) as ->.
      { destruct (JsString.ltb word (previousWord b)) eqn:Hlt; [|done].
        destruct (proj2 (insert_throws word b w) Hlt) as [e He]. congruence. }
      rewrite IH. by rewrite (insert_previousWord _ _ _ _ _ Hins).
    + assert (JsString.ltb word (previousWord b) = true) as ->.
      { apply (insert_throws word b w). eauto. }
      split; [done | eauto].
Qed.

(** C6 (as amended): an insertion throws the ordering error exactly when
    the word is strictly smaller than the word inserted before it, so a
    repeated word is accepted; [fromArray] throws exactly when some word
    of the array is strictly smaller than its predecessor. *)
Theorem insert_out_of_order word b w arr w0 :
  (insert word b w = inr OutOfOrderWordInsertion
     ↔ JsString.ltb word (previousWord b) = true)
  ∧ (fromArray w0 arr = inr OutOfOrderWordInsertion
     ↔ sorted_from [] arr = false).
Proof.
  split.
  - rewrite <- insert_throws. split; [eauto|]. intros [e He]. by destruct e.
  - unfold fromArray. destruct (new_TokenSetBuilder w0) as [b0 w1] eqn:Hnew.
    assert (previousWord b0 = []) as Hprev.
    { unfold new_TokenSetBuilder in Hnew. by injection Hnew as <- _. }
    rewrite <- Hprev, <- (insert_all_throws arr b0 w1).
    destruct (insert_all arr b0 w1) as [[b' w']|[]].
    + destruct (finish b' w'). split; [done | intros [e ?]; done].
    + split; eauto.
Qed.

(** C6, counterexample: the word ["a"] inserted after the word ["a"] is
    not strictly greater than it, and the insertion succeeds. *)
Lemma insert_repeated_word_accepted :
  JsString.ltb (chars "a") (chars "a") = false
  ∧ match fromArray initial_world [chars "a"; chars "a"] with
    | inl (r, w) => toArray 10 w r
    | inr _ => None
    end = Some [chars "a"].
Proof. split; vm_compute; reflexivity. Qed.

(* ================================================================== *)
(** * Admission of edge pairs by [intersect] *)


(* ================================================================== *)
(** * A sorted vocabulary that [fromArray] does not reproduce *)

(** Six words in strictly increasing order.  The key of a node is its
    finality bit followed by label and child identifier of each edge, so
    with digits as labels two different nodes can have one key: the node
    below ["c"] has the edges ['0' -> 23] and ['1' -> 2], the node below
    ["d"] the edges ['0' -> 2] and ['3' -> 12], and both have the key
    ["002312"]. *)
Definition colliding_vocabulary : list (list ascii) :=
  map chars ["a"; "bxxxxxxxxxxxxxxxxxxxxxx"; "c0xx"; "c1"; "d0";
             "d3xxxxxxxxxxxxx"]%string.

(** C3, the code at the failing input: started with [TokenSet._nextId = 1]
    on the sorted vocabulary above, [fromArray(V).toArray()] lacks the
    words ["d0"] and ["d3xxxxxxxxxxxxx"] of [V] and holds ["d1"] and
    ["d0xx"], which are not words of [V]. *)
Theorem fromArray_key_collision :
  sorted_from [] colliding_vocabulary = true
  ∧ match fromArray initial_world colliding_vocabulary with
    | inl (r, w) => toArray 100 w r
    | inr _ => None
    end
    = Some (map chars ["d1"; "d0xx"; "c1"; "c0xx";
                       "bxxxxxxxxxxxxxxxxxxxxxx"; "a"]%string).
Proof. split; vm_compute; reflexivity. Qed.

(* ================================================================== *)
(** * The language of a token set *)

(** [step w n c m]: the node [n] has an edge labelled [c] to [m]. *)
Definition step (w : world) (n : nat) (c : ascii) (m : nat) : Prop :=
  Edges.get (edges (node_at w n)) c = Some m.

Definition is_final (w : world) (n : nat) : Prop :=
  final (node_at w n) = true.

(** A path that reads the labels [cs] as they are. *)
Fixpoint path (w : world) (n : nat) (cs : list ascii) (m : nat) : Prop :=
  match cs with
  | [] => n = m
  | c :: cs' => ∃ k, step w n c k ∧ path w k cs' m
  end.

(** The words a token set holds: what [toArray] enumerates. *)
Definition accepts (w : world) (n : nat) (cs : list ascii) : Prop :=
  ∃ m, path w n cs m ∧ is_final w m.

(** An edge label of the argument of [intersect] takes a character when
    it is that character or when it is ['*']. *)
Definition lmatch (label c : ascii) : Prop := label = c ∨ label = star.

(** A path of the argument of [intersect], whose ['*'] edges take any
    character. *)
Fixpoint qpath (w : world) (q : nat) (cs : list ascii) (q' : nat) : Prop :=
  match cs with
  | [] => q = q'
  | c :: cs' => ∃ label k, step w q label k ∧ lmatch label c ∧ qpath w k cs' q'
  end.

Definition qaccepts (w : world) (q : nat) (cs : list ascii) : Prop :=
  ∃ q', qpath w q cs q' ∧ is_final w q'.

(** A set of nodes closed under the edges, on which [rank] decreases
    along every edge: the token sets without cycles. *)
Record acyclic (w : world) (P : nat → Prop) (rank : nat → nat) : Prop := {
  acyclic_closed : ∀ n c m, P n → step w n c m → P m;
  acyclic_rank : ∀ n c m, P n → step w n c m → rank m < rank n;
}.

(** Two stores with the same nodes on [P]. *)
Definition agree (P : nat → Prop) (w w' : world) : Prop :=
  ∀ n, P n → node_at w n = node_at w' n.

Section LanguageFacts.

Lemma elem_of_rev {A} (x : A) (l : list A) : x ∈ rev l ↔ x ∈ l.
Proof. rewrite !list_elem_of_In. symmetry. apply in_rev. Qed.

Lemma elem_of_map {A B} (f : A → B) (l : list A) (y : B) :
  y ∈ map f l ↔ ∃ x, y = f x ∧ x ∈ l.
Proof.
  rewrite list_elem_of_In, in_map_iff. split.
  - intros (x & <- & ?). exists x. by rewrite list_elem_of_In.
  - intros (x & -> & ?). exists x. by rewrite <- list_elem_of_In.
Qed.

Lemma is_digit_digits c : JsString.is_digit c = true ↔ c ∈ JsString.digits.
Proof.
  split.
  - intros H. destruct c as [[] [] [] [] [] [] [] []]; try discriminate H;
      vm_compute; repeat (first [apply list_elem_of_here | apply list_elem_of_further]).
  - intros H. unfold JsString.digits, chars in H. simpl in H.
    repeat (apply elem_of_cons in H as [->|H]; [reflexivity|]).
    by apply elem_of_nil in H.
Qed.

Lemma edges_get_in_fst (e : Edges.t) c :
  is_Some (Edges.get e c) ↔ c ∈ map fst e.
Proof.
  induction e as [|[d n] e IH]; simpl.
  - split; [intros [? ?]; done | intros H; by apply elem_of_nil in H].
  - destruct (decide (d = c)) as [->|Hne].
    + split; [intros _; left | eauto].
    + rewrite IH. split; [by right|].
      intros [?|?]%elem_of_cons; [congruence | done].
Qed.

Lemma keys_spec (e : Edges.t) c :
  c ∈ Edges.keys e ↔ is_Some (Edges.get e c).
Proof.
  unfold Edges.keys. rewrite elem_of_app, !list_elem_of_filter.
  rewrite <- is_digit_digits, <- edges_get_in_fst. unfold Edges.has.
  split.
  - intros [[H _]|[_ H]]; [|done]. by destruct (Edges.get e c).
  - intros [n Hn]. rewrite Hn.
    destruct (JsString.is_digit c); [left | right]; eauto.
Qed.

Lemma path_app w n cs1 cs2 m :
  path w n (cs1 ++ cs2) m ↔ ∃ k, path w n cs1 k ∧ path w k cs2 m.
Proof.
  revert n. induction cs1 as [|c cs1 IH]; intros n; simpl.
  - split; [eauto | by intros (k & -> & ?)].
  - split.
    + intros (k & Hs & Hp). apply IH in Hp as (k' & ? & ?). eauto.
    + intros (k' & (k & Hs & Hp) & Hp2). exists k. split; [done|].
      apply IH. eauto.
Qed.

Lemma path_snoc w n cs c m :
  path w n (cs ++ [c]) m ↔ ∃ k, path w n cs k ∧ step w k c m.
Proof.
  rewrite path_app. simpl. split.
  - intros (k & ? & k' & ? & ->). eauto.
  - intros (k & ? & ?). eauto.
Qed.

Lemma path_det w n cs m1 m2 : path w n cs m1 → path w n cs m2 → m1 = m2.
Proof.
  revert n. induction cs as [|c cs IH]; intros n; simpl.
  - congruence.
  - intros (k1 & Hs1 & Hp1) (k2 & Hs2 & Hp2).
    unfold step in *. assert (k1 = k2) by congruence. subst. eauto.
Qed.

Lemma qpath_app w q cs1 cs2 q' :
  qpath w q (cs1 ++ cs2) q' ↔ ∃ k, qpath w q cs1 k ∧ qpath w k cs2 q'.
Proof.
  revert q. induction cs1 as [|c cs1 IH]; intros q; simpl.
  - split; [eauto | by intros (k & -> & ?)].
  - split.
    + intros (l & k & Hs & Hm & Hp). apply IH in Hp as (k' & ? & ?).
      exists k'. eauto 10.
    + intros (k' & (l & k & Hs & Hm & Hp) & Hp2). exists l, k.
      split; [done|]. split; [done|]. apply IH. eauto.
Qed.

Lemma acyclic_path w P rank n cs m :
  acyclic w P rank → P n → path w n cs m → P m ∧ rank m + length cs ≤ rank n.
Proof.
  intros [Hcl Hrk]. revert n. induction cs as [|c cs IH]; intros n Hn; simpl.
  - intros <-. split; [done | lia].
  - intros (k & Hs & Hp). destruct (IH k) as [? ?]; eauto.
    split; [done|]. specialize (Hrk _ _ _ Hn Hs). lia.
Qed.

Lemma agree_step P w w' n c m : agree P w w' → P n → step w n c m ↔ step w' n c m.
Proof. intros Hag Hn. unfold step. by rewrite (Hag n Hn). Qed.

Lemma agree_path P w w' n cs m :
  agree P w w' → (∀ n c m, P n → step w n c m → P m) →
  P n → path w n cs m ↔ path w' n cs m.
Proof.
  intros Hag Hcl. revert n. induction cs as [|c cs IH]; intros n Hn; simpl; [done|].
  split; intros (k & Hs & Hp); exists k.
  - split; [by apply (agree_step P w w')|]. apply IH; eauto.
  - assert (step w n c k) by (by apply (agree_step P w w')).
    split; [done|]. apply IH; eauto.
Qed.

End LanguageFacts.

(* ================================================================== *)
(** * [toArray] enumerates the language *)

Section ToArray.

Context (w : world) (P : nat → Prop) (rank : nat → nat).
Hypothesis Hacyclic : acyclic w P rank.

Lemma accepts_unfold n cs :
  accepts w n cs ↔
    (cs = [] ∧ is_final w n)
    ∨ (∃ c m cs', cs = c :: cs' ∧ step w n c m ∧ accepts w m cs').
Proof.
  unfold accepts. destruct cs as [|c cs]; simpl.
  - split.
    + intros (m & <- & ?). by left.
    + intros [[_ ?]|(? & ? & ? & ? & _)]; [eauto | done].
  - split.
    + intros (m & (k & ? & ?) & ?). right. eauto 10.
    + intros [[? _]|(c' & m & cs' & [= <- <-] & ? & m' & ? & ?)]; [done|].
      eauto.
Qed.

Lemma toArray_frames r : ∀ frames,
  Forall (λ fr, P (af_node fr) ∧ rank (af_node fr) < r) frames →
  ∀ words rest, ∃ k new,
    (∀ fuel, toArray_loop (k + fuel) w words (frames ++ rest)
             = toArray_loop fuel w (words ++ new) rest)
    ∧ ∀ x, x ∈ new ↔
        ∃ fr σ, fr ∈ frames ∧ x = af_prefix fr ++ σ ∧ accepts w (af_node fr) σ.
Proof.
  induction r as [|r IHr]; intros frames.
  - intros Hall words rest. destruct frames as [|fr frames].
    + exists 0, []. split; [intros; by rewrite app_nil_r|].
      intros x. split; [by intros ?%elem_of_nil|].
      by intros (? & ? & ?%elem_of_nil & _).
    + apply Forall_cons in Hall as [[_ ?] _]. lia.
  - induction frames as [|fr frames IHf]; intros Hall words rest.
    + exists 0, []. split; [intros; by rewrite app_nil_r|].
      intros x. split; [by intros ?%elem_of_nil|].
      by intros (? & ? & ?%elem_of_nil & _).
    + apply Forall_cons in Hall as [[HP Hrk] Hall].
      set (n := node_at w (af_node fr)).
      set (pushed := rev (map (λ edge, mkArrayFrame (af_prefix fr ++ [edge])
                      (default 0 (Edges.get (edges n) edge)))
                      (Edges.keys (edges n)))).
      set (words1 := if final n then words ++ [af_prefix fr] else words).
      assert (Forall (λ fr', P (af_node fr') ∧ rank (af_node fr') < r) pushed)
        as Hpushed.
      { apply Forall_forall. intros fr' Hin. unfold pushed in Hin.
        apply elem_of_rev, elem_of_map in Hin as (c & -> & Hc).
        apply keys_spec in Hc as [m Hm]. simpl. fold n in Hm |- *.
        rewrite Hm. simpl. destruct Hacyclic as [Hcl Hdec].
        split; [eapply Hcl; eauto|].
        specialize (Hdec (af_node fr) c m HP Hm). lia. }
      destruct (IHr pushed Hpushed words1 (frames ++ rest))
        as (k1 & new1 & Hrun1 & Hnew1).
      destruct (IHf Hall (words1 ++ new1) rest) as (k2 & new2 & Hrun2 & Hnew2).
      exists (S (k1 + k2)),
        ((if final n then [af_prefix fr] else []) ++ new1 ++ new2).
      split.
      * intros fuel. simpl. fold n pushed words1.
        replace (k1 + k2 + fuel) with (k1 + (k2 + fuel)) by lia.
        rewrite Hrun1, Hrun2. f_equal. unfold words1.
        destruct (final n); by rewrite <- ?app_assoc.
      * intros x. rewrite !elem_of_app, Hnew1, Hnew2. split.
        -- intros [Hx|[(fr' & σ & Hin & -> & Hacc)|(fr' & σ & Hin & -> & Hacc)]].
           ++ destruct (final n) eqn:Hfin; [|by apply elem_of_nil in Hx].
              apply list_elem_of_singleton in Hx as ->.
              exists fr, []. rewrite app_nil_r. split; [left|].
              split; [done|]. exists (af_node fr). done.
           ++ unfold pushed in Hin.
              apply elem_of_rev, elem_of_map in Hin as (c & -> & Hc).
              apply keys_spec in Hc as [m Hm]. simpl in *. rewrite Hm in Hacc.
              exists fr, (c :: σ). split; [left|].
              rewrite <- app_assoc. split; [done|].
              apply accepts_unfold. right. eauto 10.
           ++ exists fr', σ. split; [by right | done].
        -- intros (fr' & σ & Hin & -> & Hacc).
           apply elem_of_cons in Hin as [->|Hin]; [|right; right; eauto].
           apply accepts_unfold in Hacc
             as [[-> Hfin]|(c & m & σ' & -> & Hs & Hacc)].
           ++ left. unfold is_final in Hfin. fold n in Hfin. rewrite Hfin.
              rewrite app_nil_r. apply list_elem_of_singleton. done.
           ++ right. left.
              exists (mkArrayFrame (af_prefix fr ++ [c]) m), σ'. simpl.
              rewrite <- app_assoc. split; [|done].
              unfold pushed. apply elem_of_rev, elem_of_map.
              exists c. unfold step in Hs. fold n in Hs. rewrite Hs.
              split; [done|]. apply keys_spec. eauto.
Qed.

(** With enough fuel [toArray] returns, and it returns the words the
    token set accepts. *)
Lemma toArray_spec this :
  P this →
  ∃ k words,
    (∀ fuel, k ≤ fuel → toArray fuel w this = Some words)
    ∧ ∀ x, x ∈ words ↔ accepts w this x.
Proof.
  intros HP.
  destruct (toArray_frames (S (rank this)) [mkArrayFrame [] this]) with
    (words := @nil (list ascii)) (rest := @nil array_frame)
    as (k & new & Hrun & Hnew).
  { apply Forall_singleton. simpl. split; [done | lia]. }
  exists k, new. split.
  - intros fuel Hle. unfold toArray.
    replace fuel with (k + (fuel - k)) by lia.
    specialize (Hrun (fuel - k)). simpl in Hrun. rewrite Hrun.
    by destruct (fuel - k).
  - intros x. rewrite Hnew. split.
    + intros (fr & σ & ->%list_elem_of_singleton & -> & ?). done.
    + intros Hacc. exists (mkArrayFrame [] this), x.
      split; [apply list_elem_of_singleton|]; done.
Qed.

End ToArray.

(* ================================================================== *)
(** * Well-formed stores *)

(** Every node the store holds, and every target of an edge, was
    allocated by [new TokenSet()]. *)
Record wf (w : world) : Prop := {
  wf_alloc : ∀ id, _nextId w ≤ id → nodes w !! id = None;
  wf_edges : ∀ n c m, step w n c m → m < _nextId w;
}.

Section WfFacts.

Lemma wf_initial : wf initial_world.
Proof.
  split.
  - intros id _. apply lookup_empty.
  - intros n c m. unfold step, node_at. simpl. by rewrite lookup_empty.
Qed.

Lemma node_at_unallocated w id : wf w → _nextId w ≤ id → node_at w id = fresh_node.
Proof. intros [Ha _] Hle. unfold node_at. by rewrite Ha. Qed.

Lemma step_allocated w n c m : wf w → step w n c m → n < _nextId w ∧ m < _nextId w.
Proof.
  intros Hwf Hs. split; [|by eapply wf_edges].
  destruct (decide (n < _nextId w)); [done|].
  unfold step in Hs. rewrite node_at_unallocated in Hs; [done | done | lia].
Qed.

Lemma path_allocated w n cs m : wf w → n < _nextId w → path w n cs m → m < _nextId w.
Proof.
  intros Hwf. revert n. induction cs as [|c cs IH]; intros n Hn; simpl.
  - by intros <-.
  - intros (k & Hs & Hp). apply (IH k); [|done].
    by apply (step_allocated w n c k).
Qed.

Lemma qpath_allocated w n cs m : wf w → n < _nextId w → qpath w n cs m → m < _nextId w.
Proof.
  intros Hwf. revert n. induction cs as [|c cs IH]; intros n Hn; simpl.
  - by intros <-.
  - intros (l & k & Hs & _ & Hp). apply (IH k); [|done].
    by apply (step_allocated w n l k).
Qed.

(** The nodes of [w0] are the same in [w]. *)
Definition extends (w0 w : world) : Prop :=
  _nextId w0 ≤ _nextId w ∧ ∀ n, n < _nextId w0 → node_at w n = node_at w0 n.

Lemma extends_refl w : extends w w.
Proof. split; [lia | done]. Qed.

Lemma extends_trans w1 w2 w3 : extends w1 w2 → extends w2 w3 → extends w1 w3.
Proof.
  intros [H1 H1'] [H2 H2']. split; [lia|].
  intros n Hn. rewrite H2' by lia. by apply H1'.
Qed.

Lemma extends_step w0 w n c m :
  extends w0 w → n < _nextId w0 → step w n c m ↔ step w0 n c m.
Proof. intros [_ H] Hn. unfold step. by rewrite H. Qed.

Lemma extends_path w0 w n cs m :
  wf w0 → extends w0 w → n < _nextId w0 → path w n cs m ↔ path w0 n cs m.
Proof.
  intros Hwf Hext. revert n. induction cs as [|c cs IH]; intros n Hn; simpl; [done|].
  split; intros (k & Hs & Hp); exists k.
  - apply (extends_step w0 w) in Hs; [|done..]. split; [done|].
    apply IH; [|done]. by apply (step_allocated w0 n c k).
  - split; [by apply (extends_step w0 w)|].
    apply IH; [|done]. by apply (step_allocated w0 n c k).
Qed.

Lemma extends_qpath w0 w n cs m :
  wf w0 → extends w0 w → n < _nextId w0 → qpath w n cs m ↔ qpath w0 n cs m.
Proof.
  intros Hwf Hext. revert n. induction cs as [|c cs IH]; intros n Hn; simpl; [done|].
  split; intros (l & k & Hs & Hm & Hp); exists l, k.
  - apply (extends_step w0 w) in Hs; [|done..]. split; [done|]. split; [done|].
    apply IH; [|done]. by apply (step_allocated w0 n l k).
  - split; [by apply (extends_step w0 w)|]. split; [done|].
    apply IH; [|done]. by apply (step_allocated w0 n l k).
Qed.

Lemma extends_final w0 w n : extends w0 w → n < _nextId w0 → is_final w n ↔ is_final w0 n.
Proof. intros [_ H] Hn. unfold is_final. by rewrite H. Qed.

Lemma extends_accepts w0 w n cs :
  wf w0 → extends w0 w → n < _nextId w0 → accepts w n cs ↔ accepts w0 n cs.
Proof.
  intros Hwf Hext Hn. unfold accepts. split; intros (m & Hp & Hf).
  - apply (extends_path w0 w) in Hp; [|done..]. exists m. split; [done|].
    apply (extends_final w0 w); [done| |done]. by eapply path_allocated.
  - exists m. split; [by apply (extends_path w0 w)|].
    apply (extends_final w0 w); [done| |done]. by eapply path_allocated.
Qed.

Lemma extends_qaccepts w0 w n cs :
  wf w0 → extends w0 w → n < _nextId w0 → qaccepts w n cs ↔ qaccepts w0 n cs.
Proof.
  intros Hwf Hext Hn. unfold qaccepts. split; intros (m & Hp & Hf).
  - apply (extends_qpath w0 w) in Hp; [|done..]. exists m. split; [done|].
    apply (extends_final w0 w); [done| |done]. by eapply qpath_allocated.
  - exists m. split; [by apply (extends_qpath w0 w)|].
    apply (extends_final w0 w); [done| |done]. by eapply qpath_allocated.
Qed.

Lemma wf_new w : wf w → wf (new_TokenSet w).2.
Proof.
  intros [Ha He]. split; simpl.
  - intros id Hid. rewrite lookup_insert_ne by lia. apply Ha. lia.
  - intros n c m. unfold step, node_at. simpl.
    destruct (decide (_nextId w = n)) as [<-|Hne].
    + by rewrite lookup_insert_eq.
    + rewrite lookup_insert_ne by done. intros H. apply He in H. lia.
Qed.

Lemma wf_update w id f :
  wf w → id < _nextId w →
  (∀ c m, Edges.get (edges (f (node_at w id))) c = Some m → m < _nextId w) →
  wf (update_node w id f).
Proof.
  intros [Ha He] Hid Hf. split; simpl.
  - intros id' Hid'. rewrite lookup_insert_ne by lia. by apply Ha.
  - intros n c m. unfold step. rewrite node_at_update. case_decide.
    + apply Hf.
    + apply He.
Qed.

Lemma wf_update_final w id (g : TokenSet → bool) :
  wf w → id < _nextId w → wf (update_node w id (λ n, set_final (g n) n)).
Proof.
  intros Hwf Hid. apply wf_update; [done..|]. simpl. intros c m.
  apply (wf_edges w Hwf id).
Qed.

Lemma wf_update_edge w id c m :
  wf w → id < _nextId w → m < _nextId w → wf (update_node w id (set_edge c m)).
Proof.
  intros Hwf Hid Hm. apply wf_update; [done..|]. simpl. intros d k.
  rewrite edges_get_set. case_decide; [by intros [= <-]|].
  apply (wf_edges w Hwf id).
Qed.

Lemma extends_new w : extends w (new_TokenSet w).2.
Proof.
  split; simpl; [lia|]. intros n Hn. apply node_at_new_ne. lia.
Qed.

Lemma extends_update w0 w id f :
  extends w0 w → _nextId w0 ≤ id → extends w0 (update_node w id f).
Proof.
  intros [H1 H2] Hid. split; [done|]. intros n Hn.
  rewrite node_at_update_ne by lia. by apply H2.
Qed.

End WfFacts.

(* ================================================================== *)
(** * Tries built in fresh nodes

    [intersect] and [fromFuzzyString] build their result in nodes they
    allocate themselves: the root is the first node allocated, every other
    node is created as the child of an existing one under a label that
    node did not have, and nodes are then only marked final.  [pth n] is
    the sequence of labels from the root to [n]. *)

Section Trie.

Context (w0 : world).
Hypothesis Hwf0 : wf w0.

Record trie (w : world) (pth : nat → list ascii) : Prop := {
  trie_wf : wf w;
  trie_ext : extends w0 w;
  trie_next : _nextId w0 < _nextId w;
  trie_root : pth (_nextId w0) = [];
  trie_edge : ∀ n c m,
    _nextId w0 ≤ n → step w n c m → _nextId w0 < m ∧ pth m = pth n ++ [c];
  trie_reach : ∀ n,
    _nextId w0 ≤ n < _nextId w → path w (_nextId w0) (pth n) n;
}.

(** The label sequences of the final nodes of the trie. *)
Definition Fin (w : world) (pth : nat → list ascii) (π : list ascii) : Prop :=
  ∃ m, _nextId w0 ≤ m < _nextId w ∧ pth m = π ∧ is_final w m.

Lemma trie_path w pth n cs m :
  trie w pth → _nextId w0 ≤ n → path w n cs m →
  _nextId w0 ≤ m ∧ pth m = pth n ++ cs.
Proof.
  intros Ht. revert n. induction cs as [|c cs IH]; intros n Hn; simpl.
  - intros <-. by rewrite app_nil_r.
  - intros (k & Hs & Hp). destruct (trie_edge w pth Ht n c k Hn Hs) as [Hk Hpk].
    destruct (IH k) as [? ->]; [lia | done |]. split; [done|].
    by rewrite Hpk, <- app_assoc.
Qed.

Lemma trie_accepts w pth π :
  trie w pth → accepts w (_nextId w0) π ↔ Fin w pth π.
Proof.
  intros Ht. split.
  - intros (m & Hp & Hf).
    destruct (trie_path w pth _ _ _ Ht (le_n _) Hp) as [Hm Hpm].
    rewrite (trie_root w pth Ht) in Hpm. simpl in Hpm. exists m.
    split; [|done]. split; [done|]. eapply path_allocated; [| |done].
    + by apply (trie_wf w pth).
    + by apply (trie_next w pth).
  - intros (m & Hm & <- & Hf). exists m. split; [|done].
    by apply (trie_reach w pth).
Qed.

(** A trie has no cycle: the depth of a node bounds what lies below. *)
Lemma trie_acyclic w pth bound :
  trie w pth →
  (∀ m, _nextId w0 ≤ m < _nextId w → length (pth m) ≤ bound) →
  acyclic w (λ n, _nextId w0 ≤ n < _nextId w) (λ n, bound - length (pth n)).
Proof.
  intros Ht Hb. split.
  - intros n c m [Hn _] Hs. destruct (trie_edge w pth Ht n c m Hn Hs) as [? _].
    split; [lia|]. by apply (wf_edges w (trie_wf w pth Ht) n c m).
  - intros n c m [Hn _] Hs. destruct (trie_edge w pth Ht n c m Hn Hs) as [? Hp].
    assert (length (pth m) ≤ bound) as Hm.
    { apply Hb. split; [lia|]. by apply (wf_edges w (trie_wf w pth Ht) n c m). }
    rewrite Hp, length_app in *. simpl in *. lia.
Qed.

(** Marking a node final. *)
Lemma trie_mark w pth id (g : TokenSet → bool) :
  trie w pth → _nextId w0 ≤ id < _nextId w →
  trie (update_node w id (λ n, set_final (g n) n)) pth.
Proof.
  intros Ht Hid.
  assert (∀ n c m, step (update_node w id (λ n, set_final (g n) n)) n c m
                   ↔ step w n c m) as Hstep.
  { intros n c m. unfold step. rewrite node_at_update.
    by case_decide; subst. }
  assert (∀ n cs m, path (update_node w id (λ n, set_final (g n) n)) n cs m
                    ↔ path w n cs m) as Hpath.
  { intros n cs. revert n. induction cs as [|c cs IH]; intros n m; simpl; [done|].
    split; intros (k & Hs & Hp); exists k; split;
      try (by apply Hstep); by apply IH. }
  split.
  - apply wf_update_final; [by apply (trie_wf w pth) | lia].
  - apply extends_update; [by apply (trie_ext w pth) | lia].
  - simpl. by apply (trie_next w pth).
  - by apply (trie_root w pth).
  - intros n c m Hn Hs. apply Hstep in Hs. by apply (trie_edge w pth Ht).
  - intros n Hn. apply Hpath. by apply (trie_reach w pth Ht).
Qed.

Lemma Fin_mark w pth id (g : TokenSet → bool) π :
  trie w pth → _nextId w0 ≤ id < _nextId w →
  Fin (update_node w id (λ n, set_final (g n) n)) pth π
  ↔ (∃ m, _nextId w0 ≤ m < _nextId w ∧ m ≠ id ∧ pth m = π ∧ is_final w m)
    ∨ (pth id = π ∧ g (node_at w id) = true).
Proof.
  intros Ht Hid. unfold Fin, is_final. simpl. split.
  - intros (m & Hm & Hp & Hf). rewrite node_at_update in Hf.
    case_decide; subst; simpl in Hf; [by right | left; eauto].
  - intros [(m & Hm & Hne & Hp & Hf)|[Hp Hf]].
    + exists m. rewrite node_at_update_ne by done. done.
    + exists id. by rewrite node_at_update_eq.
Qed.

(** Following an edge or creating it. *)
Lemma trie_edge_or_new w pth n c x w' :
  trie w pth → _nextId w0 ≤ n < _nextId w →
  edge_or_new w n c = (x, w') →
  ∃ pth',
    trie w' pth'
    ∧ _nextId w ≤ _nextId w'
    ∧ (∀ m, m < _nextId w → pth' m = pth m)
    ∧ _nextId w0 ≤ x < _nextId w'
    ∧ pth' x = pth n ++ [c]
    ∧ (∀ π, Fin w' pth' π ↔ Fin w pth π)
    ∧ (∀ m, m < _nextId w → final (node_at w' m) = final (node_at w m))
    ∧ (_nextId w ≤ x → final (node_at w' x) = false)
    ∧ (∀ m, _nextId w ≤ m < _nextId w' → m = x).
Proof.
  intros Ht Hn. unfold edge_or_new.
  destruct (Edges.get (edges (node_at w n)) c) as [y|] eqn:Hget.
  - intros [= <- <-]. exists pth.
    destruct (trie_edge w pth Ht n c y) as [Hy Hpy]; [lia | done |].
    assert (y < _nextId w) by (by apply (wf_edges w (trie_wf w pth Ht) n c y)).
    split; [done|]. split; [lia|]. split; [done|]. split; [lia|].
    split; [done|]. split; [done|]. split; [done|]. split; intros; lia.
  - intros [= <- <-]. simpl.
    set (x := _nextId w). set (w1 := (new_TokenSet w).2).
    set (w2 := update_node w1 n (set_edge c x)).
    set (pth' := <[x := pth n ++ [c]]> pth).
    assert (wf w) as Hwf by (by apply (trie_wf w pth)).
    assert (∀ m, m ≠ x → pth' m = pth m) as Hpth'.
    { intros m Hm. unfold pth'. by rewrite fn_lookup_insert_ne. }
    assert (pth' x = pth n ++ [c]) as Hpx.
    { unfold pth'. by rewrite fn_lookup_insert. }
    assert (∀ m, node_at w2 m =
              if decide (m = n) then set_edge c x (node_at w n)
              else if decide (m = x) then fresh_node else node_at w m) as Hnode.
    { intros m. unfold w2. rewrite node_at_update.
      case_decide as Hd; [subst m|].
      - rewrite decide_True by done. unfold w1.
        rewrite node_at_new_ne; [done | unfold x; lia].
      - rewrite decide_False by done. case_decide; [subst m|].
        + apply node_at_new_eq.
        + by apply node_at_new_ne. }
    assert (∀ m d k, step w m d k → step w2 m d k) as Hmono.
    { intros m d k Hs. destruct (step_allocated w m d k Hwf Hs) as [Hm Hk].
      unfold step in *. rewrite Hnode. case_decide; [subst m|].
      - simpl. rewrite edges_get_set. case_decide; [congruence | done].
      - rewrite decide_False; [done | unfold x; lia]. }
    assert (∀ m d k, step w2 m d k → (m = n ∧ d = c ∧ k = x) ∨ step w m d k)
      as Hinv.
    { intros m d k. unfold step. rewrite Hnode. case_decide; [subst m|].
      - simpl. rewrite edges_get_set. case_decide; [|by right].
        intros [= <-]. by left.
      - case_decide; [done | by right]. }
    assert (∀ m cs k, path w m cs k → path w2 m cs k) as Hpmono.
    { intros m cs. revert m. induction cs as [|d cs IH]; intros m k; simpl; [done|].
      intros (j & Hs & Hp). exists j. split; [by apply Hmono | by apply IH]. }
    exists pth'. split; [split|].
    + apply wf_update_edge; [by apply wf_new | simpl; lia | simpl; lia].
    + apply extends_update; [|lia].
      eapply extends_trans; [by apply (trie_ext w pth) | apply extends_new].
    + simpl. pose proof (trie_next w pth Ht). lia.
    + rewrite Hpth' by (unfold x; pose proof (trie_next w pth Ht); lia).
      by apply (trie_root w pth).
    + intros m d k Hm Hs. apply Hinv in Hs as [(-> & -> & ->)|Hs].
      * rewrite Hpx, Hpth' by (unfold x; lia). split; [unfold x; lia | done].
      * destruct (step_allocated w m d k Hwf Hs) as [? ?].
        rewrite !Hpth' by (unfold x; lia). by apply (trie_edge w pth Ht).
    + intros m Hm. simpl in Hm. destruct (decide (m = x)) as [->|Hne].
      * rewrite Hpx. apply path_snoc. exists n. split.
        -- apply Hpmono. by apply (trie_reach w pth Ht).
        -- unfold step. rewrite Hnode, decide_True by done. simpl.
           apply edges_get_set_eq.
      * rewrite Hpth' by done. apply Hpmono. apply (trie_reach w pth Ht).
        unfold x in Hne. lia.
    + simpl. split; [lia|]. split; [|split; [unfold x; lia|]].
      { intros m Hm. apply Hpth'. unfold x. lia. }
      split; [done|]. split; [|split; [|split]].
      * intros π. unfold Fin, is_final. simpl. split.
        -- intros (m & Hm & Hp & Hf). rewrite Hnode in Hf.
           case_decide; [subst m|].
           ++ exists n. rewrite Hpth' in Hp by (unfold x; lia). done.
           ++ case_decide; [done|]. rewrite Hpth' in Hp by done.
              exists m. split; [unfold x in *; lia | done].
        -- intros (m & Hm & Hp & Hf). exists m. rewrite Hnode.
           rewrite Hpth' by (unfold x; lia). split; [lia|]. split; [done|].
           case_decide; [by subst m|]. rewrite decide_False; [done|unfold x; lia].
      * intros m Hm. rewrite Hnode. case_decide; [by subst m|].
        rewrite decide_False; [done | unfold x; lia].
      * intros _. rewrite Hnode. rewrite decide_False by (unfold x; lia).
        by rewrite decide_True.
      * intros m Hm. unfold x. lia.
Qed.

End Trie.

(* ================================================================== *)
(** * [intersect] computes the intersection

    The receiver [a] has no cycle; the argument [b] is any token set, its
    ['*'] edges taking any character. *)

Section Intersect.

Context (w0 : world) (a b : nat) (P : nat → Prop) (rank : nat → nat).
Hypothesis Hwf0 : wf w0.
Hypothesis Hacyclic : acyclic w0 P rank.
Hypothesis Ha : P a.
Hypothesis Ha_alloc : a < _nextId w0.
Hypothesis Hb_alloc : b < _nextId w0.

Record isect_inv (w : world) (pth : nat → list ascii) : Prop := {
  inv_trie : trie w0 w pth;
  inv_apath : ∀ m, _nextId w0 ≤ m < _nextId w → ∃ k, path w0 a (pth m) k;
}.

Definition fr_ok (w : world) (pth : nat → list ascii) (fr : isect_frame) : Prop :=
  _nextId w0 ≤ output fr < _nextId w
  ∧ P (node fr) ∧ node fr < _nextId w0 ∧ qNode fr < _nextId w0
  ∧ path w0 a (pth (output fr)) (node fr).

(** What a frame adds to the output: the words from its pair of nodes. *)
Definition contrib (pre : list ascii) (q n : nat) (π : list ascii) : Prop :=
  ∃ σ, σ ≠ [] ∧ π = pre ++ σ ∧ accepts w0 n σ ∧ qaccepts w0 q σ.

Lemma admits_lmatch nEdge qEdge : admits nEdge qEdge = true ↔ lmatch qEdge nEdge.
Proof.
  unfold admits, lmatch. rewrite orb_true_iff, !bool_decide_eq_true.
  split; intros [?|?]; auto.
Qed.

Lemma contrib_unfold pre q n π :
  contrib pre q n π ↔
    (∃ qe ne n' q', step w0 n ne n' ∧ step w0 q qe q' ∧ admits ne qe = true
       ∧ π = pre ++ [ne] ∧ is_final w0 n' ∧ is_final w0 q')
    ∨ (∃ qe ne n' q', step w0 n ne n' ∧ step w0 q qe q' ∧ admits ne qe = true
       ∧ contrib (pre ++ [ne]) q' n' π).
Proof.
  unfold contrib. split.
  - intros (σ & Hne & -> & (m & Hp & Hf) & (m' & Hq & Hf')).
    destruct σ as [|c σ]; [done|]. simpl in Hp, Hq.
    destruct Hp as (n' & Hs & Hp). destruct Hq as (qe & q' & Hs' & Hm & Hq).
    apply admits_lmatch in Hm. destruct σ as [|d σ].
    + left. simpl in Hp, Hq. subst. eauto 10.
    + right. exists qe, c, n', q'. split; [done|]. split; [done|].
      split; [done|]. exists (d :: σ). split; [done|].
      rewrite <- app_assoc. split; [done|]. split; [exists m | exists m']; done.
  - intros [(qe & ne & n' & q' & Hs & Hs' & Hadm & -> & Hf & Hf')
           |(qe & ne & n' & q' & Hs & Hs' & Hadm & σ & Hne & -> & Hacc & Hqacc)];
      apply admits_lmatch in Hadm.
    + exists [ne]. split; [done|]. split; [done|]. split.
      * exists n'. simpl. eauto.
      * exists q'. simpl. eauto 10.
    + exists (ne :: σ). split; [done|]. rewrite <- app_assoc. split; [done|].
      destruct Hacc as (m & Hp & Hf). destruct Hqacc as (m' & Hq & Hf'). split.
      * exists m. simpl. eauto.
      * exists m'. simpl. eauto 10.
Qed.

Lemma fr_ok_mono w pth w' pth' fr :
  fr_ok w pth fr → _nextId w ≤ _nextId w' →
  (∀ m, m < _nextId w → pth' m = pth m) → fr_ok w' pth' fr.
Proof.
  intros (Ho & HP & Hn & Hq & Hp) Hle Hpth. unfold fr_ok.
  rewrite Hpth by lia. repeat split; try done; lia.
Qed.

(** The body of the inner loop, written with [edge_or_new]. *)
Lemma intersect_pair_eq fr qe ne w st :
  output fr < _nextId w → admits ne qe = true →
  intersect_pair fr qe ne (w, st) =
    let n' := default 0 (Edges.get (edges (node_at w (node fr))) ne) in
    let q' := default 0 (Edges.get (edges (node_at w (qNode fr))) qe) in
    let f := final (node_at w n') && final (node_at w q') in
    let '(next, w1) := edge_or_new w (output fr) ne in
    (update_node w1 next (λ n, set_final (final n || f) n),
     mkIsectFrame q' next n' :: st).
Proof.
  intros Ho Hadm. unfold intersect_pair, edge_or_new. rewrite Hadm.
  cbv zeta.
  destruct (Edges.get (edges (node_at w (output fr))) ne) as [next|]; [done|].
  rewrite new_TokenSet_eq. cbv iota beta. f_equal.
  apply world_eq; [done|]. intros x.
  rewrite !lookup_update, !node_at_update, lookup_new.
  rewrite ?(decide_False (P := output fr = _nextId w)) by lia.
  rewrite ?(decide_True (P := _nextId w = _nextId w)) by done.
  rewrite ?node_at_new_eq, ?node_at_new_ne by lia.
  repeat case_decide; subst; try done; lia.
Qed.

Lemma intersect_pair_spec fr qe ne n' q' w pth st :
  isect_inv w pth → fr_ok w pth fr →
  step w0 (node fr) ne n' → step w0 (qNode fr) qe q' → admits ne qe = true →
  ∃ w1 pth1 o',
    intersect_pair fr qe ne (w, st) = (w1, mkIsectFrame q' o' n' :: st)
    ∧ isect_inv w1 pth1
    ∧ _nextId w ≤ _nextId w1
    ∧ (∀ m, m < _nextId w → pth1 m = pth m)
    ∧ fr_ok w1 pth1 (mkIsectFrame q' o' n')
    ∧ pth1 o' = pth (output fr) ++ [ne]
    ∧ (∀ π, Fin w0 w1 pth1 π ↔
             Fin w0 w pth π
             ∨ (π = pth (output fr) ++ [ne] ∧ is_final w0 n' ∧ is_final w0 q')).
Proof.
  intros [Ht Hap] (Ho & HP & Hn & Hq & Hpath) Hs Hs' Hadm.
  pose proof (trie_ext w0 w pth Ht) as Hext.
  rewrite intersect_pair_eq by (done || lia). cbv zeta.
  rewrite (proj2 Hext (node fr)), (proj2 Hext (qNode fr)) by done.
  unfold step in Hs, Hs'. rewrite Hs, Hs'. simpl.
  assert (n' < _nextId w0) as Hn' by (by apply (wf_edges w0 Hwf0 (node fr) ne)).
  assert (q' < _nextId w0) as Hq' by (by apply (wf_edges w0 Hwf0 (qNode fr) qe)).
  rewrite (proj2 Hext n'), (proj2 Hext q') by done.
  set (f := final (node_at w0 n') && final (node_at w0 q')).
  destruct (edge_or_new w (output fr) ne) as [o' w1] eqn:Heon.
  destruct (trie_edge_or_new w0 w pth (output fr) ne o' w1 Ht Ho Heon)
    as (pth1 & Ht1 & Hle & Hpth & Ho' & Hpo' & HFin & _ & _ & Hfresh).
  set (w2 := update_node w1 o' (λ n, set_final (final n || f) n)).
  assert (trie w0 w2 pth1) as Ht2 by (by apply trie_mark).
  exists w2, pth1, o'. split; [done|].
  assert (path w0 a (pth1 o') n') as Hpath'.
  { rewrite Hpo'. apply path_snoc. eauto. }
  split; [split|]; [done| |].
  { intros m Hm. simpl in Hm. destruct (decide (m < _nextId w)).
    - rewrite Hpth by done. apply Hap. lia.
    - rewrite (Hfresh m) by lia. eauto. }
  split; [done|]. split; [done|]. split.
  { unfold fr_ok. simpl. destruct Hacyclic as [Hcl _].
    split; [lia|]. split; [by eapply Hcl|]. done. }
  split; [done|].
  intros π. unfold w2. rewrite Fin_mark by done. rewrite <- HFin.
  unfold f, is_final. split.
  - intros [(m & Hm & Hne & Hp & Hf)|[Hp Hf]].
    + left. exists m. done.
    + apply orb_true_iff in Hf as [Hf|Hf].
      * left. exists o'. done.
      * right. apply andb_true_iff in Hf. by rewrite <- Hp, Hpo'.
  - intros [(m & Hm & Hp & Hf)|(-> & Hf1 & Hf2)].
    + destruct (decide (m = o')) as [->|Hne].
      * right. split; [done|]. unfold is_final in Hf. by rewrite Hf.
      * left. exists m. done.
    + right. split; [done|]. rewrite Hf1, Hf2. apply orb_true_r.
Qed.

(** The admitted pairs of edges of a frame. *)
Definition pair_of (fr : isect_frame) (p : ascii * ascii) (n' q' : nat) : Prop :=
  step w0 (node fr) p.2 n' ∧ step w0 (qNode fr) p.1 q' ∧ admits p.2 p.1 = true.

Lemma intersect_pairs_spec fr ps : ∀ w pth st,
  isect_inv w pth → fr_ok w pth fr →
  (∀ p, p ∈ ps → is_Some (Edges.get (edges (node_at w0 (qNode fr))) p.1)
                 ∧ is_Some (Edges.get (edges (node_at w0 (node fr))) p.2)) →
  ∃ w1 pth1 pushed,
    fold_left (λ st p, intersect_pair fr p.1 p.2 st) ps (w, st)
      = (w1, pushed ++ st)
    ∧ isect_inv w1 pth1
    ∧ _nextId w ≤ _nextId w1
    ∧ (∀ m, m < _nextId w → pth1 m = pth m)
    ∧ Forall (λ fr', fr_ok w1 pth1 fr' ∧ rank (node fr') < rank (node fr)) pushed
    ∧ (∀ π, Fin w0 w1 pth1 π ↔
             Fin w0 w pth π
             ∨ ∃ p n' q', p ∈ ps ∧ pair_of fr p n' q'
                 ∧ π = pth (output fr) ++ [p.2]
                 ∧ is_final w0 n' ∧ is_final w0 q')
    ∧ (∀ π, (∃ fr', fr' ∈ pushed
                ∧ contrib (pth1 (output fr')) (qNode fr') (node fr') π) ↔
             ∃ p n' q', p ∈ ps ∧ pair_of fr p n' q'
                 ∧ contrib (pth (output fr) ++ [p.2]) q' n' π).
Proof.
  induction ps as [|[qe ne] ps IH]; intros w pth st Hinv Hok Hkeys.
  - exists w, pth, []. simpl. split; [done|]. split; [done|]. split; [lia|].
    split; [done|]. split; [done|]. split.
    + intros π. split; [by left|]. intros [?|(p & ? & ? & ?%elem_of_nil & _)]; done.
    + intros π. split.
      * by intros (? & ?%elem_of_nil & _).
      * by intros (? & ? & ? & ?%elem_of_nil & _).
  - cbn [fold_left fst snd]. destruct (admits ne qe) eqn:Hadm.
    + destruct (Hkeys (qe, ne)) as [[q' Hq'] [n' Hn']]; [left|].
      cbn [fst snd] in Hq', Hn'.
      destruct (intersect_pair_spec fr qe ne n' q' w pth st Hinv Hok Hn' Hq' Hadm)
        as (w1 & pth1 & o' & Heq & Hinv1 & Hle1 & Hpth1 & Hok1 & Hpo' & HFin1).
      rewrite Heq.
      destruct (IH w1 pth1 (mkIsectFrame q' o' n' :: st) Hinv1) as
        (w2 & pth2 & pushed & Hfold & Hinv2 & Hle2 & Hpth2 & Hall & HFin2 & Hcon2).
      { by eapply fr_ok_mono. }
      { intros p Hp. apply Hkeys. by right. }
      assert (pth1 (output fr) = pth (output fr)) as Hpo.
      { apply Hpth1. destruct Hok as ([_ ?] & _). done. }
      assert (pth2 o' = pth (output fr) ++ [ne]) as Hpo2.
      { rewrite Hpth2; [done|]. destruct Hok1 as ([_ ?] & _). done. }
      exists w2, pth2, (pushed ++ [mkIsectFrame q' o' n']).
      split; [by rewrite Hfold, <- app_assoc|]. split; [done|].
      split; [lia|]. split; [intros m Hm; rewrite Hpth2, Hpth1; [done|lia..]|].
      split.
      { apply Forall_app. split; [done|]. apply Forall_singleton. split.
        - by eapply fr_ok_mono.
        - simpl. destruct Hacyclic as [_ Hrk]. destruct Hok as (_ & HP & _).
          by apply (Hrk (node fr) ne n'). }
      split.
      * intros π. rewrite HFin2, HFin1, Hpo. split.
        -- intros [[?|(-> & ? & ?)]|(p & n1 & q1 & Hp & Hrest)].
           ++ by left.
           ++ right. exists (qe, ne), n', q'. split; [left|]. done.
           ++ right. exists p, n1, q1. split; [by right | done].
        -- intros [?|(p & n1 & q1 & Hp & Hpair & -> & Hf1 & Hf2)]; [by left; left|].
           apply elem_of_cons in Hp as [->|Hp].
           ++ left. right. destruct Hpair as (Hs1 & Hs2 & _). simpl in *.
              unfold step in *. assert (n1 = n') as -> by congruence.
              assert (q1 = q') as -> by congruence. done.
           ++ right. exists p, n1, q1. done.
      * intros π. split.
        -- intros (fr' & Hin & Hc). apply elem_of_app in Hin as [Hin|Hin].
           ++ destruct (proj1 (Hcon2 π)) as (p & n1 & q1 & Hp & Hrest);
                [by exists fr'|].
              rewrite Hpo in Hrest. exists p, n1, q1. split; [by right | done].
           ++ apply list_elem_of_singleton in Hin as ->. simpl in Hc.
              rewrite Hpo2 in Hc. exists (qe, ne), n', q'. split; [left|]. done.
        -- intros (p & n1 & q1 & Hp & Hpair & Hc).
           apply elem_of_cons in Hp as [->|Hp].
           ++ exists (mkIsectFrame q' o' n'). split.
              { apply elem_of_app. right. by apply list_elem_of_singleton. }
              simpl. rewrite Hpo2. destruct Hpair as (Hs1 & Hs2 & _). simpl in *.
              unfold step in *. assert (n1 = n') as -> by congruence.
              assert (q1 = q') as -> by congruence. done.
           ++ destruct (proj2 (Hcon2 π)) as (fr' & Hin & Hc').
              { exists p, n1, q1. rewrite Hpo. done. }
              exists fr'. split; [|done]. apply elem_of_app. by left.
    + replace (intersect_pair fr qe ne (w, st)) with (w, st).
      2:{ unfold intersect_pair. by rewrite Hadm. }
      destruct (IH w pth st Hinv Hok) as
        (w2 & pth2 & pushed & Hfold & Hinv2 & Hle2 & Hpth2 & Hall & HFin2 & Hcon2).
      { intros p Hp. apply Hkeys. by right. }
      exists w2, pth2, pushed. split; [done|]. split; [done|]. split; [done|].
      split; [done|]. split; [done|]. split.
      * intros π. rewrite HFin2. split.
        -- intros [?|(p & n1 & q1 & Hp & Hrest)]; [by left|].
           right. exists p, n1, q1. split; [by right | done].
        -- intros [?|(p & n1 & q1 & Hp & Hpair & Hrest)]; [by left|].
           apply elem_of_cons in Hp as [->|Hp].
           ++ destruct Hpair as (_ & _ & Hadm'). simpl in Hadm'. congruence.
           ++ right. exists p, n1, q1. done.
      * intros π. rewrite Hcon2. split.
        -- intros (p & n1 & q1 & Hp & Hrest).
           exists p, n1, q1. split; [by right | done].
        -- intros (p & n1 & q1 & Hp & Hpair & Hrest).
           apply elem_of_cons in Hp as [->|Hp].
           ++ destruct Hpair as (_ & _ & Hadm'). simpl in Hadm'. congruence.
           ++ exists p, n1, q1. done.
Qed.

Lemma fold_left_prod {A B S} (g : A → B → S → S) (L1 : list A) (L2 : list B) :
  ∀ st, fold_left (λ st x, fold_left (λ st y, g x y st) L2 st) L1 st
        = fold_left (λ st p, g p.1 p.2 st) (list_prod L1 L2) st.
Proof.
  assert (∀ x (L : list B) st,
            fold_left (λ st y, g x y st) L st
            = fold_left (λ st p, g p.1 p.2 st) (map (λ y, (x, y)) L) st) as Hmap.
  { intros x L. induction L as [|y L IHL]; intros st; simpl; [done|]. apply IHL. }
  induction L1 as [|x L1 IH]; intros st; simpl; [done|].
  by rewrite fold_left_app, <- IH, <- Hmap.
Qed.

Lemma intersect_step_spec fr w pth st :
  isect_inv w pth → fr_ok w pth fr →
  ∃ w1 pth1 pushed,
    intersect_step fr (w, st) = (w1, pushed ++ st)
    ∧ isect_inv w1 pth1
    ∧ _nextId w ≤ _nextId w1
    ∧ (∀ m, m < _nextId w → pth1 m = pth m)
    ∧ Forall (λ fr', fr_ok w1 pth1 fr' ∧ rank (node fr') < rank (node fr)) pushed
    ∧ (∀ π, Fin w0 w1 pth1 π
             ∨ (∃ fr', fr' ∈ pushed
                  ∧ contrib (pth1 (output fr')) (qNode fr') (node fr') π)
           ↔ Fin w0 w pth π
             ∨ contrib (pth (output fr)) (qNode fr) (node fr) π).
Proof.
  intros Hinv Hok. unfold intersect_step. cbn [fst].
  rewrite (fold_left_prod (intersect_pair fr)).
  pose proof (trie_ext w0 w pth (inv_trie w pth Hinv)) as [_ Hag].
  destruct Hok as (Ho & HP & Hn & Hq & Hpath).
  rewrite (Hag (node fr)), (Hag (qNode fr)) by done.
  set (ps := list_prod _ _).
  assert (∀ p, p ∈ ps ↔ is_Some (Edges.get (edges (node_at w0 (qNode fr))) p.1)
                       ∧ is_Some (Edges.get (edges (node_at w0 (node fr))) p.2))
    as Hps.
  { intros [qe ne]. unfold ps. rewrite list_elem_of_In, in_prod_iff.
    rewrite <- !list_elem_of_In, !keys_spec. done. }
  destruct (intersect_pairs_spec fr ps w pth st Hinv) as
    (w1 & pth1 & pushed & Hfold & Hinv1 & Hle & Hpth & Hall & HFin & Hcon).
  { done. }
  { intros p Hp. by apply Hps. }
  exists w1, pth1, pushed. split; [done|]. split; [done|]. split; [done|].
  split; [done|]. split; [done|].
  intros π. rewrite HFin, Hcon, (contrib_unfold (pth (output fr))).
  split.
  - intros [[?|(p & n' & q' & Hp & (Hs & Hs' & Hadm) & Hrest)]
           |(p & n' & q' & Hp & (Hs & Hs' & Hadm) & Hrest)].
    + by left.
    + right. left. exists p.1, p.2, n', q'. done.
    + right. right. exists p.1, p.2, n', q'. done.
  - intros [?|[(qe & ne & n' & q' & Hs & Hs' & Hadm & Hrest)
              |(qe & ne & n' & q' & Hs & Hs' & Hadm & Hrest)]].
    + by left; left.
    + left. right. exists (qe, ne), n', q'. split; [|done].
      apply Hps. simpl. unfold step in Hs, Hs'. rewrite Hs, Hs'. eauto.
    + right. exists (qe, ne), n', q'. split; [|done].
      apply Hps. simpl. unfold step in Hs, Hs'. rewrite Hs, Hs'. eauto.
Qed.

(** The frames of the stack are worked off one after the other, each
    with all the frames it pushes. *)
Lemma intersect_frames r : ∀ frames w pth rest,
  isect_inv w pth →
  Forall (λ fr, fr_ok w pth fr ∧ rank (node fr) < r) frames →
  ∃ k w' pth',
    (∀ fuel, intersect_loop (k + fuel) w (frames ++ rest)
             = intersect_loop fuel w' rest)
    ∧ isect_inv w' pth'
    ∧ _nextId w ≤ _nextId w'
    ∧ (∀ m, m < _nextId w → pth' m = pth m)
    ∧ (∀ π, Fin w0 w' pth' π ↔
             Fin w0 w pth π
             ∨ ∃ fr, fr ∈ frames
                 ∧ contrib (pth (output fr)) (qNode fr) (node fr) π).
Proof.
  induction r as [|r IHr]; intros frames.
  - intros w pth rest Hinv Hall. destruct frames as [|fr frames].
    + exists 0, w, pth. split; [done|]. split; [done|]. split; [lia|].
      split; [done|]. intros π. split; [by left|].
      intros [?|(? & ?%elem_of_nil & _)]; done.
    + apply Forall_cons in Hall as [[_ ?] _]. lia.
  - induction frames as [|fr frames IHf]; intros w pth rest Hinv Hall.
    + exists 0, w, pth. split; [done|]. split; [done|]. split; [lia|].
      split; [done|]. intros π. split; [by left|].
      intros [?|(? & ?%elem_of_nil & _)]; done.
    + apply Forall_cons in Hall as [[Hok Hrk] Hall].
      destruct (intersect_step_spec fr w pth (frames ++ rest) Hinv Hok) as
        (w1 & pth1 & pushed & Hstep & Hinv1 & Hle1 & Hpth1 & Hpushed & Hsem).
      destruct (IHr pushed w1 pth1 (frames ++ rest) Hinv1) as
        (k1 & w2 & pth2 & Hrun1 & Hinv2 & Hle2 & Hpth2 & HFin2).
      { eapply Forall_impl; [done|]. simpl. intros fr' [? ?]. split; [done|lia]. }
      destruct (IHf w2 pth2 rest Hinv2) as
        (k2 & w3 & pth3 & Hrun2 & Hinv3 & Hle3 & Hpth3 & HFin3).
      { eapply Forall_impl; [done|]. simpl. intros fr' [? ?]. split; [|done].
        eapply fr_ok_mono; [done|lia|].
        intros m Hm. rewrite Hpth2, Hpth1; [done|lia..]. }
      exists (S (k1 + k2)), w3, pth3. split.
      { intros fuel. simpl. rewrite Hstep.
        replace (k1 + k2 + fuel) with (k1 + (k2 + fuel)) by lia.
        by rewrite Hrun1, Hrun2. }
      split; [done|]. split; [lia|].
      split; [intros m Hm; rewrite Hpth3, Hpth2, Hpth1; [done|lia..]|].
      intros π. rewrite HFin3, HFin2.
      assert (∀ fr', fr' ∈ frames → pth2 (output fr') = pth (output fr')) as Hfr.
      { intros fr' Hin. rewrite Forall_forall in Hall.
        destruct (Hall fr' Hin) as [([_ ?] & _) _].
        rewrite Hpth2, Hpth1; [done|lia..]. }
      split.
      * intros [Hl|(fr' & Hin & Hc)].
        -- apply Hsem in Hl as [?|?]; [by left|]. right. exists fr.
           split; [left | done].
        -- right. exists fr'. split; [by right|]. by rewrite <- Hfr.
      * intros [Hl|(fr' & Hin & Hc)].
        -- left. apply Hsem. by left.
        -- apply elem_of_cons in Hin as [->|Hin].
           ++ left. apply Hsem. by right.
           ++ right. exists fr'. split; [done|]. by rewrite Hfr.
Qed.

(** [a.intersect(b)] returns when it has fuel enough; it leaves the nodes
    of [w0] as they are, and its result, a token set without cycles, holds
    the non-empty words that [a] holds and that [b] takes. *)
Lemma intersect_spec :
  ∃ k w',
    (∀ fuel, k ≤ fuel → intersect fuel w0 a b = Some (_nextId w0, w'))
    ∧ wf w' ∧ extends w0 w'
    ∧ _nextId w0 < _nextId w'
    ∧ (∃ rank', acyclic w' (λ n, _nextId w0 ≤ n < _nextId w') rank')
    ∧ ∀ π, accepts w' (_nextId w0) π ↔
           π ≠ [] ∧ accepts w0 a π ∧ qaccepts w0 b π.
Proof.
  set (w1 := (new_TokenSet w0).2).
  set (pth0 := λ _ : nat, @nil ascii).
  assert (isect_inv w1 pth0) as Hinv.
  { split; [split|].
    - by apply wf_new.
    - apply extends_new.
    - simpl. lia.
    - done.
    - intros n c m Hn Hs. exfalso. unfold step, w1 in Hs.
      destruct (decide (n = _nextId w0)) as [->|Hne].
      + by rewrite node_at_new_eq in Hs.
      + rewrite node_at_new_ne in Hs by done.
        rewrite node_at_unallocated in Hs; [done | done | lia].
    - intros n Hn. simpl in Hn. assert (n = _nextId w0) as -> by lia. done.
    - intros m Hm. exists a. done. }
  destruct (intersect_frames (S (rank a)) [mkIsectFrame b (_nextId w0) a]
              w1 pth0 [] Hinv) as (k & w' & pth' & Hrun & Hinv' & Hle & Hpth & HFin).
  { apply Forall_singleton. split; [|simpl; lia].
    unfold fr_ok. simpl. repeat split; try done; lia. }
  destruct Hinv' as [Ht' Hap'].
  exists k, w'. split.
  { intros fuel Hfuel. unfold intersect. rewrite new_TokenSet_eq. cbv iota beta.
    fold w1. replace fuel with (k + (fuel - k)) by lia.
    specialize (Hrun (fuel - k)). simpl in Hrun. rewrite Hrun.
    by destruct (fuel - k). }
  split; [by apply (trie_wf w0 w' pth')|].
  split; [by apply (trie_ext w0 w' pth')|].
  split; [by apply (trie_next w0 w' pth')|].
  split.
  { exists (λ n, rank a - length (pth' n)). apply (trie_acyclic w0); [done|].
    intros m Hm. destruct (Hap' m Hm) as [n Hn].
    destruct (acyclic_path w0 P rank a (pth' m) n Hacyclic Ha Hn). lia. }
  intros π. rewrite (trie_accepts w0 w' pth') by done. rewrite HFin.
  split.
  - intros [(m & Hm & _ & Hf)|(fr & ->%list_elem_of_singleton & Hc)].
    + simpl in Hm. assert (m = _nextId w0) as -> by lia.
      unfold is_final, w1 in Hf. by rewrite node_at_new_eq in Hf.
    + destruct Hc as (σ & Hne & -> & Hacc & Hq). simpl in *. done.
  - intros (Hne & Hacc & Hq). right. exists (mkIsectFrame b (_nextId w0) a).
    split; [by apply list_elem_of_singleton|]. exists π. done.
Qed.

End Intersect.

(* ================================================================== *)
(** * Wildcard patterns *)

(** [matches p s]: the pattern [p] matches the string [s], a ['*'] of
    [p] matching any run of characters, the empty run too, and any other
    character of [p] matching itself. *)
Inductive matches : list ascii → list ascii → Prop :=
| matches_nil : matches [] []
| matches_star_empty p s : matches p s → matches (star :: p) s
| matches_star_more p c s : matches (star :: p) s → matches (star :: p) (c :: s)
| matches_char c p s : c ≠ star → matches p s → matches (c :: p) (c :: s).

Section Matches.

Lemma matches_star_run p s1 s2 : matches p s2 → matches (star :: p) (s1 ++ s2).
Proof.
  intros H. induction s1 as [|c s1 IH]; simpl.
  - by apply matches_star_empty.
  - by apply matches_star_more.
Qed.

Lemma matches_star_inv p s :
  matches (star :: p) s → ∃ s1 s2, s = s1 ++ s2 ∧ matches p s2.
Proof.
  intros H. remember (star :: p) as sp eqn:Hsp.
  induction H as [|p' s H _|p' c s H IH|c p' s Hne H _].
  - done.
  - injection Hsp as ->. by exists [], s.
  - destruct (IH Hsp) as (s1 & s2 & -> & ?). by exists (c :: s1), s2.
  - injection Hsp as -> _. done.
Qed.

Lemma matches_star_iff p s :
  matches (star :: p) s ↔ ∃ s1 s2, s = s1 ++ s2 ∧ matches p s2.
Proof.
  split; [apply matches_star_inv|]. intros (s1 & s2 & -> & ?).
  by apply matches_star_run.
Qed.

Lemma matches_only_star s : matches [star] s.
Proof.
  apply matches_star_iff. exists s, []. rewrite app_nil_r.
  split; [done | constructor].
Qed.

Lemma matches_star_star p s : matches (star :: star :: p) s ↔ matches (star :: p) s.
Proof.
  rewrite !(matches_star_iff (star :: p)). split.
  - intros (s1 & s2 & -> & H). apply matches_star_iff. 
    apply matches_star_inv in H as (s3 & s4 & -> & H).
    exists (s1 ++ s3), s4. by rewrite app_assoc.
  - intros H. by exists [], s.
Qed.

Lemma matches_nil_inv s : matches [] s ↔ s = [].
Proof. split; [by inversion 1 | intros ->; constructor]. Qed.

Lemma matches_char_inv c p s :
  c ≠ star → matches (c :: p) s ↔ ∃ s', s = c :: s' ∧ matches p s'.
Proof.
  intros Hne. split.
  - inversion 1; subst; try done. eauto.
  - intros (s' & -> & ?). by constructor.
Qed.

End Matches.

(* ================================================================== *)
(** * [fromString] builds the automaton of a pattern *)

Section FromString.

Lemma qaccepts_nil w q : qaccepts w q [] ↔ is_final w q.
Proof.
  unfold qaccepts. simpl. split; [by intros (? & <- & ?) | eauto].
Qed.

Lemma qaccepts_cons w q d s :
  qaccepts w q (d :: s) ↔ ∃ l k, step w q l k ∧ lmatch l d ∧ qaccepts w k s.
Proof.
  unfold qaccepts. simpl. split.
  - intros (q' & (l & k & ? & ? & ?) & ?). eauto 10.
  - intros (l & k & ? & ? & q' & ? & ?). eauto 10.
Qed.

Lemma matches_star_cons p d s :
  matches (star :: p) (d :: s) ↔ matches p (d :: s) ∨ matches (star :: p) s.
Proof.
  split.
  - inversion 1; subst; auto. done.
  - intros [?|?]; by constructor.
Qed.

Lemma fromString_loop_props str : ∀ w node i len,
  wf w → node < _nextId w →
  wf (fromString_loop w node i len str)
  ∧ _nextId w ≤ _nextId (fromString_loop w node i len str)
  ∧ (∀ x, x < _nextId w → x ≠ node →
       node_at (fromString_loop w node i len str) x = node_at w x).
Proof.
  induction str as [|char rest IH]; intros w node i len Hwf Hnode;
    cbn [fromString_loop].
  - split; [done|]. split; [lia | done].
  - case_decide as Hstar.
    + set (w2 := update_node _ node (set_final _)).
      destruct (IH w2 node (S i) len) as (Hwf' & Hle & Hfr).
      { unfold w2. apply (wf_update_final _ _ (λ _, _)); [|done].
        by apply wf_update_edge. }
      { done. }
      split; [done|]. split; [done|]. intros x Hx Hne.
      rewrite Hfr by done. unfold w2. by rewrite !node_at_update_ne.
    + rewrite new_TokenSet_eq. cbv iota beta.
      set (next := _nextId w). set (w1 := (new_TokenSet w).2).
      set (w3 := update_node _ node (set_edge char next)).
      destruct (IH w3 next (S i) len) as (Hwf' & Hle & Hfr).
      { unfold w3. apply wf_update_edge; [|simpl; lia|simpl; unfold next; lia].
        apply (wf_update_final _ _ (λ _, _)); [by apply wf_new|].
        simpl. unfold next. lia. }
      { simpl. unfold next. lia. }
      simpl in Hle. split; [done|]. split; [lia|]. intros x Hx Hne.
      rewrite Hfr by (simpl; unfold next; lia). unfold w3.
      rewrite !node_at_update_ne by (unfold next; lia).
      apply node_at_new_ne. lia.
Qed.

Lemma fromString_loop_lang str : ∀ w node i len (lp : bool),
  wf w → node < _nextId w → i + length str = len →
  edges (node_at w node) = (if lp then [(star, node)] else []) →
  final (node_at w node) = bool_decide (str = []) →
  ∀ s, qaccepts (fromString_loop w node i len str) node s
       ↔ matches ((if lp then [star] else []) ++ str) s.
Proof.
  induction str as [|char rest IH]; intros w node i len lp Hwf Hnode Hlen He Hf s.
  - simpl. rewrite app_nil_r. destruct lp.
    + split; [intros _; apply matches_only_star|]. intros _.
      induction s as [|d s IHs].
      * apply qaccepts_nil. done.
      * apply qaccepts_cons. exists star, node. split; [|split; [by right|done]].
        unfold step. rewrite He. simpl. by rewrite ?decide_True.
    + rewrite matches_nil_inv. destruct s as [|d s].
      * rewrite qaccepts_nil. done.
      * rewrite qaccepts_cons. split; [|done].
        intros (l & k & Hs & _). unfold step in Hs. by rewrite He in Hs.
  - simpl in Hlen. assert (Nat.eqb i (len - 1) = bool_decide (rest = [])) as Hfin.
    { destruct rest; simpl in Hlen.
      - rewrite bool_decide_eq_true_2 by done. apply Nat.eqb_eq. lia.
      - rewrite bool_decide_eq_false_2 by done. apply Nat.eqb_neq. lia. }
    cbn [fromString_loop]. rewrite Hfin. case_decide as Hstar.
    + subst char. set (w2 := update_node _ node (set_final _)).
      rewrite (IH w2 node (S i) len true).
      * destruct lp; simpl; [by rewrite matches_star_star | done].
      * unfold w2. apply (wf_update_final _ _ (λ _, _)); [|done].
        by apply wf_update_edge.
      * done.
      * lia.
      * unfold w2. rewrite !node_at_update_eq. simpl. rewrite He.
        destruct lp; simpl; by rewrite ?decide_True.
      * unfold w2. by rewrite node_at_update_eq.
    + rewrite new_TokenSet_eq. cbv iota beta.
      set (next := _nextId w). set (w1 := (new_TokenSet w).2).
      set (w3 := update_node _ node (set_edge char next)).
      assert (wf w3) as Hwf3.
      { unfold w3. apply wf_update_edge; [|simpl; lia|simpl; unfold next; lia].
        apply (wf_update_final _ _ (λ _, _)); [by apply wf_new|].
        simpl. unfold next. lia. }
      assert (next < _nextId w3) as Hnext by (simpl; unfold next; lia).
      assert (node_at w3 next = set_final (bool_decide (rest = [])) fresh_node)
        as Hn3.
      { unfold w3. rewrite node_at_update_ne by (unfold next; lia).
        rewrite node_at_update_eq. unfold w1, next. by rewrite node_at_new_eq. }
      pose proof (IH w3 next (S i) len false Hwf3 Hnext) as IHnext.
      rewrite Hn3 in IHnext. simpl in IHnext.
      specialize (IHnext ltac:(lia) eq_refl eq_refl).
      destruct (fromString_loop_props rest w3 next (S i) len Hwf3 Hnext)
        as (_ & _ & Hfr).
      set (w' := fromString_loop w3 next (S i) len rest) in *.
      assert (node_at w' node = set_edge char next (node_at w node)) as Hnode'.
      { rewrite Hfr by (simpl; unfold next; lia). unfold w3.
        rewrite node_at_update_eq, node_at_update_ne by (unfold next; lia).
        unfold w1. rewrite node_at_new_ne by lia. done. }
      assert (¬ is_final w' node) as Hnf.
      { unfold is_final. rewrite Hnode'. simpl. rewrite Hf.
        by rewrite bool_decide_eq_false_2. }
      assert (∀ l k, step w' node l k ↔
                (lp = true ∧ l = star ∧ k = node) ∨ (l = char ∧ k = next))
        as Hsteps.
      { intros l k. unfold step. rewrite Hnode'. simpl.
        rewrite edges_get_set, He. case_decide as Hcl.
        - subst l. split; [intros [= <-]; by right|].
          intros [(_ & ? & _)|[_ ->]]; done.
        - destruct lp; simpl.
          + case_decide as Hsl.
            * subst l. split; [intros [= <-]; by left|].
              intros [(_ & _ & ->)|[? _]]; done.
            * split; [done|]. intros [(_ & ? & _)|[? _]]; done.
          + split; [done|]. intros [(? & _)|[? _]]; done. }
      destruct lp; simpl.
      * induction s as [|d s IHs].
        -- rewrite qaccepts_nil. split; [done|].
           intros (s1 & s2 & Heq & Hm)%matches_star_inv.
           symmetry in Heq. apply app_eq_nil in Heq as [-> ->].
           apply matches_char_inv in Hm as (? & ? & _); done.
        -- rewrite qaccepts_cons, matches_star_cons. split.
           ++ intros (l & k & [(_ & Hl & Hk)|[Hl Hk]]%Hsteps & Hm & Hq);
                subst l k.
              ** right. by apply IHs.
              ** left. destruct Hm as [Hm|?]; [|done]. subst d.
                 apply matches_char; [done|]. by apply IHnext.
           ++ intros [Hm|Hm].
              ** apply matches_char_inv in Hm as (s' & [= <- <-] & Hm); [|done].
                 eexists _, next. split; [apply Hsteps; by right|].
                 split; [by left|]. by apply IHnext.
              ** exists star, node. split; [apply Hsteps; by left|].
                 split; [by right|]. by apply IHs.
      * destruct s as [|d s].
        -- rewrite qaccepts_nil. split; [done|].
           intros (? & ? & _)%matches_char_inv; done.
        -- rewrite qaccepts_cons, matches_char_inv by done. split.
           ++ intros (l & k & [(? & _)|[Hl Hk]]%Hsteps & Hm & Hq); [done|].
              subst l k. destruct Hm as [Hm|?]; [|done]. subst d.
              exists s. split; [done|]. by apply IHnext.
           ++ intros (s' & [= <- <-] & Hm). eexists _, next.
              split; [apply Hsteps; by right|]. split; [by left|].
              by apply IHnext.
Qed.

(** [fromString(p)] for a pattern [p] that is not empty: a fresh token
    set that, as the argument of [intersect], takes the strings [p]
    matches. *)
Lemma fromString_spec w0 p :
  wf w0 → p ≠ [] →
  ∃ w', fromString w0 p = (_nextId w0, w')
    ∧ wf w' ∧ extends w0 w' ∧ _nextId w0 < _nextId w'
    ∧ ∀ s, qaccepts w' (_nextId w0) s ↔ matches p s.
Proof.
  intros Hwf Hp. unfold fromString. rewrite new_TokenSet_eq. cbv iota beta.
  set (root := _nextId w0). set (w1 := (new_TokenSet w0).2).
  assert (wf w1) as Hwf1 by (by apply wf_new).
  assert (root < _nextId w1) as Hroot by (simpl; unfold root; lia).
  destruct (fromString_loop_props p w1 root 0 (length p) Hwf1 Hroot)
    as (Hwf' & Hle & Hfr).
  eexists. split; [reflexivity|]. split; [done|]. split; [|split].
  - split; [unfold root in *; lia|]. intros n Hn.
    rewrite Hfr by (simpl; unfold root; lia).
    apply node_at_new_ne. lia.
  - lia.
  - intros s.
    rewrite (fromString_loop_lang p w1 root 0 (length p) false); try done.
    + unfold w1, root. by rewrite node_at_new_eq.
    + unfold w1, root. rewrite node_at_new_eq. simpl.
      by rewrite bool_decide_eq_false_2.
Qed.

End FromString.

(* ================================================================== *)
(** * The key of a node whose labels are not digits *)

Section Keys.

Lemma string_of_uint_digits d :
  Forall (λ c, JsString.is_digit c = true) (chars (NilEmpty.string_of_uint d)).
Proof.
  induction d; simpl; constructor; done.
Qed.

Lemma of_nat_digits n : Forall (λ c, JsString.is_digit c = true) (JsString.of_nat n).
Proof. apply string_of_uint_digits. Qed.

Lemma chars_inj s1 s2 : chars s1 = chars s2 → s1 = s2.
Proof.
  intros H. apply (f_equal string_of_list_ascii) in H. unfold chars in H.
  by rewrite !string_of_list_ascii_of_string in H.
Qed.

Lemma of_nat_inj n m : JsString.of_nat n = JsString.of_nat m → n = m.
Proof.
  intros H%chars_inj. apply Unsigned.to_uint_inj.
  apply (f_equal NilEmpty.uint_of_string) in H.
  rewrite !NilEmpty.usu in H. congruence.
Qed.

Lemma key_of_inj k1 k2 : key_of k1 = key_of k2 → k1 = k2.
Proof.
  intros H. apply (f_equal list_ascii_of_string) in H. unfold key_of in H.
  by rewrite !list_ascii_of_string_of_list_ascii in H.
Qed.

Lemma elem_of_insert_sorted x c l :
  x ∈ JsString.insert_sorted c l ↔ x = c ∨ x ∈ l.
Proof.
  induction l as [|d l IH]; simpl.
  - rewrite list_elem_of_singleton, elem_of_nil. tauto.
  - destruct (JsString.code c <=? JsString.code d).
    + by rewrite !elem_of_cons.
    + rewrite !elem_of_cons, IH. tauto.
Qed.

Lemma elem_of_sort x l : x ∈ JsString.sort l ↔ x ∈ l.
Proof.
  unfold JsString.sort. induction l as [|c l IH]; simpl; [done|].
  by rewrite elem_of_insert_sorted, elem_of_cons, IH.
Qed.

(** The part of the key that one edge contributes. *)
Definition key_segment (e : Edges.t) (label : ascii) : list ascii :=
  label :: JsString.of_nat (default 0 (Edges.get e label)).

Lemma compute_key_eq n :
  compute_key n
  = (if final n then chars "1" else chars "0")
      ++ concat (map (key_segment (edges n))
                     (JsString.sort (Edges.keys (edges n)))).
Proof.
  unfold compute_key.
  generalize (JsString.sort (Edges.keys (edges n))) as labels.
  generalize (if final n then chars "1" else chars "0") as str.
  intros str labels. revert str.
  induction labels as [|c labels IH]; intros str; simpl.
  - by rewrite app_nil_r.
  - rewrite IH. unfold key_segment. simpl. by rewrite <- !app_assoc.
Qed.

(** A run of digits ends where the next label, which is not a digit,
    starts. *)
Lemma digits_prefix_unique (d1 d2 r1 r2 : list ascii) :
  Forall (λ c, JsString.is_digit c = true) d1 →
  Forall (λ c, JsString.is_digit c = true) d2 →
  (∀ c r, r1 = c :: r → JsString.is_digit c = false) →
  (∀ c r, r2 = c :: r → JsString.is_digit c = false) →
  d1 ++ r1 = d2 ++ r2 → d1 = d2 ∧ r1 = r2.
Proof.
  intros H1. revert d2. induction H1 as [|x d1 Hx H1 IH]; intros d2 H2 Hr1 Hr2 Heq.
  - destruct H2 as [|y d2 Hy H2]; [done|]. simpl in Heq.
    specialize (Hr1 y (d2 ++ r2) Heq). congruence.
  - destruct H2 as [|y d2 Hy H2]; simpl in Heq.
    + specialize (Hr2 x (d1 ++ r1) (eq_sym Heq)). congruence.
    + injection Heq as -> Heq. destruct (IH d2 H2 Hr1 Hr2 Heq) as [-> ->]. done.
Qed.

Lemma segments_inj (e1 e2 : Edges.t) (l1 l2 : list ascii) :
  Forall (λ c, JsString.is_digit c = false) l1 →
  Forall (λ c, JsString.is_digit c = false) l2 →
  concat (map (key_segment e1) l1) = concat (map (key_segment e2) l2) →
  l1 = l2
  ∧ ∀ c, c ∈ l1 →
      default 0 (Edges.get e1 c) = default 0 (Edges.get e2 c).
Proof.
  intros H1. revert l2.
  induction H1 as [|c l1 Hc H1 IH]; intros l2 H2 Heq.
  - destruct H2 as [|c' l2 Hc' H2]; [|done].
    split; [done|]. by intros c ?%elem_of_nil.
  - destruct H2 as [|c' l2 Hc' H2]; [done|]. simpl in Heq.
    injection Heq as -> Heq.
    apply digits_prefix_unique in Heq as [Hd Hrest]; try apply of_nat_digits.
    + apply of_nat_inj in Hd. destruct (IH l2 H2 Hrest) as [-> Hall].
      split; [done|]. intros c [->|?]%elem_of_cons; auto.
    + intros x r Hr. destruct H1 as [|y l1 Hy H1]; [done|].
      simpl in Hr. by injection Hr as <- _.
    + intros x r Hr. destruct H2 as [|y l2 Hy H2]; [done|].
      simpl in Hr. by injection Hr as <- _.
Qed.

(** Nodes with the same key have the same finality and the same edges,
    when no label is a digit. *)
Lemma compute_key_inj n1 n2 :
  (∀ c, is_Some (Edges.get (edges n1) c) → JsString.is_digit c = false) →
  (∀ c, is_Some (Edges.get (edges n2) c) → JsString.is_digit c = false) →
  compute_key n1 = compute_key n2 →
  final n1 = final n2 ∧ ∀ c, Edges.get (edges n1) c = Edges.get (edges n2) c.
Proof.
  intros Hd1 Hd2. rewrite !compute_key_eq. intros Heq.
  assert (final n1 = final n2
          ∧ concat (map (key_segment (edges n1))
                        (JsString.sort (Edges.keys (edges n1))))
            = concat (map (key_segment (edges n2))
                          (JsString.sort (Edges.keys (edges n2))))) as [Hf Hc].
  { change (chars "1") with ["1"%char] in Heq.
    change (chars "0") with ["0"%char] in Heq.
    destruct (final n1), (final n2); cbn [app] in Heq;
      [ injection Heq as Hrest; by split
      | discriminate Heq
      | discriminate Heq
      | injection Heq as Hrest; by split ]. }
  split; [done|].
  apply segments_inj in Hc as [Hl Hall].
  - intros c.
    assert (c ∈ Edges.keys (edges n1) ↔ c ∈ Edges.keys (edges n2)) as Hk.
    { rewrite <- (elem_of_sort c (Edges.keys (edges n1))).
      rewrite <- (elem_of_sort c (Edges.keys (edges n2))). by rewrite Hl. }
    rewrite !keys_spec in Hk.
    destruct (Edges.get (edges n1) c) as [k1|] eqn:H1.
    + destruct (proj1 Hk) as [k2 H2]; [eauto|]. rewrite H2.
      specialize (Hall c). rewrite H1, H2 in Hall. simpl in Hall.
      rewrite Hall; [done|]. apply elem_of_sort, keys_spec. eauto.
    + destruct (Edges.get (edges n2) c) as [k2|] eqn:H2; [|done].
      destruct (proj2 Hk) as [? ?]; [eauto | done].
  - apply Forall_forall. intros c Hc'%elem_of_sort%keys_spec. by apply Hd1.
  - apply Forall_forall. intros c Hc'%elem_of_sort%keys_spec. by apply Hd2.
Qed.

End Keys.

(* ================================================================== *)
(** * The builder keeps the language

    [minimizedNodes] is read with [in] on a plain object; its keys start
    with the finality bit ['0'] or ['1'], so none of them is the name of an
    inherited member, and the lookup in the map is the lookup of an own
    key. *)

Section TokenSetBuilderFacts.

Context (w0 : world).
Hypothesis Hwf0 : wf w0.

(** The nodes registered in [minimizedNodes]. *)
Definition inM (M : gmap string nat) (k : nat) : Prop :=
  ∃ key, M !! key = Some k.

(** The deepest node that is not minimised yet. *)
Definition top (us : list TokenSetNode) : nat :=
  match us with
  | [] => _nextId w0
  | nd :: _ => tn_child nd
  end.

(** [uncheckedNodes] spells a prefix of the word [tw] from the root; the
    other edges of its nodes lead to minimised nodes under smaller
    labels. *)
Fixpoint chain (w : world) (M : gmap string nat) (tw : list ascii)
    (us : list TokenSetNode) : Prop :=
  match us with
  | [] => True
  | nd :: rest =>
      tn_parent nd = top rest
      ∧ tw !! length rest = Some (tn_char nd)
      ∧ top rest < tn_child nd
      ∧ _str (node_at w (tn_parent nd)) = []
      ∧ step w (tn_parent nd) (tn_char nd) (tn_child nd)
      ∧ (∀ c k, step w (tn_parent nd) c k →
           (c = tn_char nd ∧ k = tn_child nd)
           ∨ (inM M k ∧ JsString.code c < JsString.code (tn_char nd)))
      ∧ chain w M tw rest
  end.

Record binv (w : world) (M : gmap string nat) (us : list TokenSetNode)
    (tw : list ascii) (strict : bool) (rk : nat → nat) : Prop := {
  b_wf : wf w;
  b_ext : extends w0 w;
  b_next : _nextId w0 < _nextId w;
  b_chain : chain w M tw us;
  b_top_str : _str (node_at w (top us)) = [];
  b_top_edges : ∀ c k, step w (top us) c k →
    inM M k ∧ ∃ e, tw !! length us = Some e
      ∧ if strict then JsString.code c < JsString.code e
        else JsString.code c ≤ JsString.code e;
  b_reg : ∀ key m, M !! key = Some m →
    _nextId w0 < m
    ∧ key = key_of (_str (node_at w m))
    ∧ _str (node_at w m) ≠ []
    ∧ _str (node_at w m) = compute_key (node_at w m)
    ∧ ∀ c k, step w m c k → inM M k ∧ rk k < rk m;
  b_labels : ∀ y c k, _nextId w0 ≤ y → step w y c k → JsString.is_digit c = false;
}.

Lemma top_ge (w : world) M tw us : chain w M tw us → _nextId w0 ≤ top us.
Proof.
  induction us as [|nd rest IH]; simpl; [lia|].
  intros (_ & _ & Hlt & _ & _ & _ & Hc). specialize (IH Hc). lia.
Qed.

Lemma chain_parent_lt w M tw us nd :
  chain w M tw us → nd ∈ us → _nextId w0 ≤ tn_parent nd ∧ tn_parent nd < top us.
Proof.
  induction us as [|nd' rest IH]; simpl; [by intros _ ?%elem_of_nil|].
  intros (Hp & _ & Hlt & _ & _ & _ & Hc) [->|Hin]%elem_of_cons.
  - rewrite Hp. split; [by eapply top_ge | done].
  - destruct (IH Hc Hin). lia.
Qed.

Lemma chain_agree w w' M M' tw us :
  (∀ nd, nd ∈ us → node_at w' (tn_parent nd) = node_at w (tn_parent nd)) →
  (∀ k, inM M k → inM M' k) →
  chain w M tw us → chain w' M' tw us.
Proof.
  intros Hag HM. induction us as [|nd rest IH]; simpl; [done|].
  intros (Hp & Htw & Hlt & Hstr & Hs & He & Hc).
  assert (node_at w' (tn_parent nd) = node_at w (tn_parent nd)) as Hnd
    by (apply Hag; left).
  unfold step in *. rewrite Hnd.
  split; [done|]. split; [done|]. split; [done|]. split; [done|].
  split; [done|]. split.
  - intros c k Hck. destruct (He c k Hck) as [?|[? ?]]; auto.
  - apply IH; [|done]. intros nd' Hin. apply Hag. by right.
Qed.

Lemma chain_retarget w M tw tw' us :
  (∀ i, i < length us → tw' !! i = tw !! i) →
  chain w M tw us → chain w M tw' us.
Proof.
  induction us as [|nd rest IH]; simpl; [done|].
  intros Htw (Hp & Hi & Hrest). split; [done|].
  split; [rewrite Htw; [done|lia]|].
  destruct Hrest as (? & ? & ? & ? & Hc). repeat (split; [done|]).
  apply IH; [|done]. intros i Hi'. apply Htw. lia.
Qed.

Lemma chain_spells w M tw us :
  chain w M tw us → rev (map tn_char us) = take (length us) tw.
Proof.
  induction us as [|nd rest IH]; simpl; [done|].
  intros (_ & Htw & _ & _ & _ & _ & Hc). rewrite (IH Hc).
  by rewrite (take_S_r _ _ _ Htw).
Qed.

Lemma chain_length w M tw us : chain w M tw us → length us ≤ length tw.
Proof.
  destruct us as [|nd rest]; simpl; [lia|].
  intros (_ & Htw & _). apply lookup_lt_Some in Htw. lia.
Qed.

Lemma inM_str w M us tw strict rk k :
  binv w M us tw strict rk → inM M k → _str (node_at w k) ≠ [].
Proof. intros Hb [key Hk]. by destruct (b_reg _ _ _ _ _ _ Hb key k Hk) as (_ & _ & ? & _). Qed.

Lemma inM_allocated w M us tw strict rk k :
  binv w M us tw strict rk → inM M k → _nextId w0 < k < _nextId w.
Proof.
  intros Hb [key Hk].
  destruct (b_reg _ _ _ _ _ _ Hb key k Hk) as (? & _ & Hstr & _).
  split; [done|]. destruct (decide (k < _nextId w)); [done|].
  rewrite node_at_unallocated in Hstr; [done| |lia]. by apply (b_wf _ _ _ _ _ _ Hb).
Qed.

Lemma top_not_inM w M us tw strict rk :
  binv w M us tw strict rk → ¬ inM M (top us).
Proof.
  intros Hb HM. apply (inM_str _ _ _ _ _ _ _ Hb) in HM.
  by rewrite (b_top_str _ _ _ _ _ _ Hb) in HM.
Qed.

Lemma top_allocated w M us tw strict rk :
  binv w M us tw strict rk → _nextId w0 ≤ top us < _nextId w.
Proof.
  intros Hb. split; [by eapply top_ge, b_chain|].
  destruct us as [|nd rest]; simpl; [by apply (b_next _ _ _ _ _ _ Hb)|].
  destruct (b_chain _ _ _ _ _ _ Hb) as (_ & _ & _ & _ & Hs & _).
  by apply (wf_edges w (b_wf _ _ _ _ _ _ Hb) _ _ _ Hs).
Qed.

(** The languages of the minimised nodes do not change when they and
    their descendants are left alone. *)
Lemma inM_accepts w w' M us tw strict rk :
  binv w M us tw strict rk →
  (∀ k, inM M k → node_at w' k = node_at w k) →
  ∀ k cs, inM M k → accepts w' k cs ↔ accepts w k cs.
Proof.
  intros Hb Hag k cs Hk.
  assert (∀ n c m, inM M n → step w n c m → inM M m) as Hcl.
  { intros n c m [key Hn] Hs.
    destruct (b_reg _ _ _ _ _ _ Hb key n Hn) as (_ & _ & _ & _ & He).
    by destruct (He c m Hs). }
  assert (agree (inM M) w w') as Hagree by (intros n Hn; by rewrite Hag).
  unfold accepts. split; intros (m & Hp & Hf).
  - apply (agree_path (inM M) w w') in Hp; [|done..]. exists m. split; [done|].
    unfold is_final in *. rewrite <- Hag; [done|].
    assert (accepts_closed : ∀ cs n m, inM M n → path w n cs m → inM M m).
    { clear -Hcl. induction cs as [|c cs IH]; simpl; intros n m Hn.
      - by intros <-.
      - intros (j & Hs & Hp). eapply IH; [|done]. by eapply Hcl. }
    by eapply accepts_closed.
  - assert (accepts_closed : ∀ cs n m, inM M n → path w n cs m → inM M m).
    { clear -Hcl. induction cs as [|c cs IH]; simpl; intros n m Hn.
      - by intros <-.
      - intros (j & Hs & Hp). eapply IH; [|done]. by eapply Hcl. }
    exists m. split; [by apply (agree_path (inM M) w w')|].
    unfold is_final in *. rewrite Hag; [done|]. by eapply accepts_closed.
Qed.

(** Pointing an edge at a node with the same finality and the same edges
    as its old target keeps every language. *)
Lemma accepts_replace w parent char x m :
  step w parent char x → m ≠ parent →
  final (node_at w m) = final (node_at w x) →
  (∀ c, Edges.get (edges (node_at w m)) c = Edges.get (edges (node_at w x)) c) →
  ∀ cs y, accepts (update_node w parent (set_edge char m)) y cs ↔ accepts w y cs.
Proof.
  intros Hs Hne Hf He.
  set (w' := update_node w parent (set_edge char m)).
  assert (∀ cs, accepts w m cs ↔ accepts w x cs) as Hmx.
  { intros cs. rewrite !accepts_unfold. unfold is_final, step.
    rewrite Hf. by setoid_rewrite He. }
  assert (∀ y, is_final w' y ↔ is_final w y) as Hfin.
  { intros y. unfold is_final, w'. rewrite node_at_update.
    by case_decide; subst. }
  assert (∀ y c k, step w' y c k ↔
            if decide (y = parent ∧ c = char) then k = m else step w y c k)
    as Hstep.
  { intros y c k. unfold step, w'. rewrite node_at_update.
    case_decide as Hy; [subst y; simpl; rewrite edges_get_set|].
    - case_decide as Hc; [subst c|].
      + rewrite decide_True by done. split; [by intros [= ->] | by intros ->].
      + rewrite decide_False; [done|]. by intros [_ ?].
    - rewrite decide_False; [done|]. intros [? _]. done. }
  induction cs as [|c cs IH]; intros y.
  - rewrite !accepts_unfold. split.
    + intros [[_ ?]|(? & ? & ? & ? & _)]; [|done]. left. split; [done|].
      by apply Hfin.
    + intros [[_ ?]|(? & ? & ? & ? & _)]; [|done]. left. split; [done|].
      by apply Hfin.
  - rewrite !accepts_unfold. split.
    + intros [[? _]|(c' & k & cs' & Heq & Hs' & Hacc)]; [done|].
      injection Heq as Hc Hcs. subst c' cs'.
      right. apply Hstep in Hs'. apply IH in Hacc.
      case_decide as Hd.
      * destruct Hd as [Hy Hc]. subst y c k. exists char, x, cs.
        split; [done|]. split; [done|]. by apply Hmx.
      * exists c, k, cs. done.
    + intros [[? _]|(c' & k & cs' & Heq & Hs' & Hacc)]; [done|].
      injection Heq as Hc Hcs. subst c' cs'.
      right. destruct (decide (y = parent ∧ c = char)) as [[Hy Hc]|Hd].
      * subst y c. unfold step in Hs, Hs'. assert (k = x) as -> by congruence.
        exists char, m, cs. split; [done|]. split.
        -- apply Hstep. by rewrite decide_True.
        -- apply IH. by apply Hmx.
      * exists c, k, cs. split; [done|]. split.
        -- apply Hstep. by rewrite decide_False.
        -- by apply IH.
Qed.

Lemma same_shape_accepts w w' :
  (∀ y, final (node_at w' y) = final (node_at w y)
        ∧ edges (node_at w' y) = edges (node_at w y)) →
  ∀ cs y, accepts w' y cs ↔ accepts w y cs.
Proof.
  intros Hsame. induction cs as [|c cs IH]; intros y; rewrite !accepts_unfold;
    unfold is_final, step; destruct (Hsame y) as [-> ->].
  - split; (intros [?|(? & ? & ? & ? & _)]; [by left | done]).
  - split; (intros [[? _]|(c' & k & cs' & Heq & Hs & Hacc)]; [done|]);
      injection Heq as Hc Hcs; subst c' cs'; right; exists c, k, cs;
      (split; [done|]); (split; [done|]); by apply IH.
Qed.

Lemma compute_key_nonempty n : compute_key n ≠ [].
Proof. rewrite compute_key_eq. by destruct (final n). Qed.

(** The largest rank among the targets of the edges. *)
Definition sup_rank (rk : nat → nat) (e : Edges.t) : nat :=
  foldr (λ p acc, max (rk p.2) acc) 0 e.

Lemma sup_rank_ge rk e c k : Edges.get e c = Some k → rk k ≤ sup_rank rk e.
Proof.
  induction e as [|[d n] e IH]; simpl; [done|].
  case_decide; [intros [= ->]; lia|]. intros Hg. specialize (IH Hg). lia.
Qed.

(** One iteration of the loop of [minimize]. *)
Lemma minimize_node_spec w M nd rest tw strict rk :
  binv w M (nd :: rest) tw strict rk →
  ∃ M' w' rk',
    minimize_node nd (M, w) = (M', w')
    ∧ binv w' M' rest tw false rk'
    ∧ ∀ cs y, accepts w' y cs ↔ accepts w y cs.
Proof.
  intros Hb.
  pose proof (b_chain _ _ _ _ _ _ Hb) as (Hp & Htw & Hlt & Hpstr & Hs & He & Hc).
  pose proof (b_wf _ _ _ _ _ _ Hb) as Hwf.
  pose proof (top_ge _ _ _ _ Hc) as Htop.
  pose proof (b_top_str _ _ _ _ _ _ Hb) as Hxstr. simpl in Hxstr.
  pose proof (b_top_edges _ _ _ _ _ _ Hb) as Hxe. simpl in Hxe.
  pose proof (top_not_inM _ _ _ _ _ _ Hb) as HxM. simpl in HxM.
  destruct (step_allocated w _ _ _ Hwf Hs) as [Hpa Hxa].
  set (x := tn_child nd) in *. set (parent := tn_parent nd) in *.
  set (char := tn_char nd) in *.
  assert (toString w x = compute_key (node_at w x)) as Hkey.
  { unfold toString. by rewrite Hxstr. }
  unfold minimize_node. fold x parent char. rewrite Hkey.
  destruct (M !! key_of (compute_key (node_at w x))) as [m|] eqn:Hlook.
  - destruct (b_reg _ _ _ _ _ _ Hb _ m Hlook) as (Hm0 & Hk & Hmne & Hmstr & Hme).
    apply key_of_inj in Hk. rewrite Hmstr in Hk.
    assert (inM M m) as HmM by (by eexists).
    destruct (inM_allocated _ _ _ _ _ _ _ Hb HmM) as [_ Hma].
    destruct (compute_key_inj (node_at w m) (node_at w x)) as [Hf Hg]; [| |done|].
    { intros c [k Hck]. apply (b_labels _ _ _ _ _ _ Hb m c k); [lia | done]. }
    { intros c [k Hck]. apply (b_labels _ _ _ _ _ _ Hb x c k); [lia | done]. }
    assert (m ≠ parent) as Hmp by (intros ->; congruence).
    exists M, (update_node w parent (set_edge char m)), rk.
    split; [done|]. split; [split|].
    + by apply wf_update_edge.
    + apply extends_update; [by apply (b_ext _ _ _ _ _ _ Hb) | lia].
    + by apply (b_next _ _ _ _ _ _ Hb).
    + apply (chain_agree w _ M M); [|done..].
      intros nd' Hin. apply node_at_update_ne.
      destruct (chain_parent_lt _ _ _ _ _ Hc Hin). lia.
    + rewrite <- Hp. by rewrite node_at_update_eq.
    + rewrite <- Hp. intros c k. unfold step. rewrite node_at_update_eq. simpl.
      rewrite edges_get_set. case_decide as Hcc.
      * intros [= <-]. subst c. split; [done|]. exists char. split; [done | lia].
      * intros Hck. destruct (He c k Hck) as [[? _]|[? ?]]; [done|].
        split; [done|]. exists char. split; [done | lia].
    + intros key m' Hkm.
      destruct (b_reg _ _ _ _ _ _ Hb key m' Hkm) as (? & ? & Hne' & ? & ?).
      assert (parent ≠ m') as Hpm by (intros <-; congruence).
      unfold step. rewrite node_at_update_ne by done. done.
    + intros y c k Hy. unfold step. rewrite node_at_update.
      case_decide as Hyp; [subst y; simpl; rewrite edges_get_set|].
      * case_decide as Hcc; [subst c; intros _|].
        -- by apply (b_labels _ _ _ _ _ _ Hb parent char x).
        -- by apply (b_labels _ _ _ _ _ _ Hb parent c k).
      * by apply (b_labels _ _ _ _ _ _ Hb y c k).
    + by apply accepts_replace with (x := x).
  - set (key := compute_key (node_at w x)) in *.
    set (M' := <[key_of key := x]> M).
    set (w' := update_node w x (set_str key)).
    set (rk' := <[x := S (sup_rank rk (edges (node_at w x)))]> rk).
    assert (∀ k, inM M k → inM M' k) as HMM.
    { intros k [key' Hk]. exists key'. unfold M'.
      rewrite lookup_insert_ne; [done|]. intros <-. congruence. }
    assert (∀ y, final (node_at w' y) = final (node_at w y)
                 ∧ edges (node_at w' y) = edges (node_at w y)) as Hsame.
    { intros y. unfold w'. rewrite node_at_update. by case_decide; subst. }
    assert (∀ y c k, step w' y c k ↔ step w y c k) as Hstep.
    { intros y c k. unfold step. by destruct (Hsame y) as [_ ->]. }
    assert (∀ k, inM M k → rk' k = rk k) as Hrk.
    { intros k Hk. unfold rk'. rewrite fn_lookup_insert_ne; [done|].
      intros <-. done. }
    exists M', w', rk'. split; [done|]. split; [split|].
    + apply wf_update; [done..|]. simpl. intros c m.
      apply (wf_edges w Hwf x).
    + apply extends_update; [by apply (b_ext _ _ _ _ _ _ Hb) | lia].
    + by apply (b_next _ _ _ _ _ _ Hb).
    + apply (chain_agree w _ M M'); [|done..].
      intros nd' Hin. apply node_at_update_ne.
      destruct (chain_parent_lt _ _ _ _ _ Hc Hin). lia.
    + rewrite <- Hp. unfold w'. rewrite node_at_update_ne by (unfold parent; lia).
      done.
    + rewrite <- Hp. intros c k Hck%Hstep.
      destruct (He c k Hck) as [[-> ->]|[? ?]].
      * split; [|exists char; split; [done | lia]].
        exists (key_of key). unfold M'. by rewrite lookup_insert_eq.
      * split; [by apply HMM|]. exists char. split; [done | lia].
    + intros key' m' Hkm. unfold M' in Hkm.
      destruct (decide (key_of key = key')) as [<-|Hkk].
      * rewrite lookup_insert_eq in Hkm. injection Hkm as <-.
        unfold w'. rewrite node_at_update_eq. simpl.
        split; [lia|]. split; [done|]. split; [apply compute_key_nonempty|].
        split; [done|]. intros c k.
        fold (step (update_node w x (set_str key)) x c k). fold w'.
        intros Hck%Hstep. destruct (Hxe c k Hck) as [HkM _].
        split; [by apply HMM|]. rewrite (Hrk k HkM). unfold rk'.
        rewrite fn_lookup_insert. pose proof (sup_rank_ge rk _ c k Hck). lia.
      * rewrite lookup_insert_ne in Hkm by done.
        destruct (b_reg _ _ _ _ _ _ Hb key' m' Hkm) as (? & ? & ? & ? & Hme).
        assert (inM M m') as HmM by (by eexists).
        assert (x ≠ m') as Hxm by (intros <-; done).
        unfold w'. rewrite node_at_update_ne by done.
        split; [done|]. split; [done|]. split; [done|]. split; [done|].
        intros c k. fold w'. intros Hck%Hstep.
        destruct (Hme c k Hck) as [HkM ?]. split; [by apply HMM|].
        by rewrite (Hrk k HkM), (Hrk m' HmM).
    + intros y c k Hy Hck%Hstep. by apply (b_labels _ _ _ _ _ _ Hb y c k).
    + by apply same_shape_accepts.
Qed.

Lemma minimize_loop_spec tw count : ∀ us w M rk,
  binv w M us tw false rk → count ≤ length us →
  ∃ M' w' rk',
    minimize_loop count us (M, w) = (drop count us, (M', w'))
    ∧ binv w' M' (drop count us) tw false rk'
    ∧ ∀ cs y, accepts w' y cs ↔ accepts w y cs.
Proof.
  induction count as [|count IH]; intros us w M rk Hb Hle.
  - exists M, w, rk. by destruct us.
  - destruct us as [|nd rest]; [simpl in Hle; lia|].
    destruct (minimize_node_spec w M nd rest tw false rk Hb)
      as (M1 & w1 & rk1 & Hnode & Hb1 & Hacc1).
    destruct (IH rest w1 M1 rk1 Hb1) as (M2 & w2 & rk2 & Hloop & Hb2 & Hacc2).
    { simpl in Hle. lia. }
    exists M2, w2, rk2. cbn [minimize_loop drop]. rewrite Hnode.
    split; [done|]. split; [done|].
    intros cs y. by rewrite Hacc2, Hacc1.
Qed.

Lemma binv_set_final w M us tw strict strict' rk :
  binv w M us tw strict rk → length us = length tw →
  binv (update_node w (top us) (set_final true)) M us tw strict' rk.
Proof.
  intros Hb Hlen.
  pose proof (top_allocated _ _ _ _ _ _ Hb) as [Hge Hlt].
  assert (∀ y c k, step (update_node w (top us) (set_final true)) y c k
                   ↔ step w y c k) as Hstep.
  { intros y c k. unfold step. rewrite node_at_update. by case_decide; subst. }
  split.
  - apply (wf_update_final _ _ (λ _, true)); [by apply (b_wf _ _ _ _ _ _ Hb) | done].
  - apply extends_update; [by apply (b_ext _ _ _ _ _ _ Hb) | done].
  - by apply (b_next _ _ _ _ _ _ Hb).
  - apply (chain_agree w _ M M); [| done | by apply (b_chain _ _ _ _ _ _ Hb)].
    intros nd Hin. apply node_at_update_ne.
    destruct (chain_parent_lt _ _ _ _ _ (b_chain _ _ _ _ _ _ Hb) Hin). lia.
  - rewrite node_at_update_eq. simpl. by apply (b_top_str _ _ _ _ _ _ Hb).
  - intros c k Hck%Hstep.
    destruct (b_top_edges _ _ _ _ _ _ Hb c k Hck) as (_ & e & He & _).
    apply lookup_lt_Some in He. lia.
  - intros key m Hkm.
    destruct (b_reg _ _ _ _ _ _ Hb key m Hkm) as (? & ? & Hne & ? & Hme).
    assert (top us ≠ m) as Htm.
    { intros <-. by rewrite (b_top_str _ _ _ _ _ _ Hb) in Hne. }
    rewrite node_at_update_ne by done.
    split; [done|]. split; [done|]. split; [done|]. split; [done|].
    intros c k Hck%Hstep. by apply (Hme c k).
  - intros y c k Hy Hck%Hstep. by apply (b_labels _ _ _ _ _ _ Hb y c k).
Qed.

(** The second loop of [insert], followed by [node.final = true]. *)
Lemma extend_spec M tw rk r : ∀ us w,
  binv w M us tw true rk → drop (length us) tw = r →
  Forall (λ c, JsString.is_digit c = false) r →
  ∃ us' w',
    extend r (top us) us w = (top us', us', w')
    ∧ binv w' M us' tw true rk
    ∧ length us' = length tw
    ∧ (∀ y, y < _nextId w → y ≠ top us →
         node_at (update_node w' (top us') (set_final true)) y = node_at w y)
    ∧ (∀ cs, accepts (update_node w' (top us') (set_final true)) (top us) cs
             ↔ accepts w (top us) cs ∨ cs = r).
Proof.
  induction r as [|r0 r IH]; intros us w Hb Hdrop Hdig.
  - pose proof (chain_length _ _ _ _ (b_chain _ _ _ _ _ _ Hb)) as Hlen.
    assert (length us = length tw) as Hlen'.
    { apply (f_equal length) in Hdrop. rewrite length_drop in Hdrop.
      simpl in Hdrop. lia. }
    exists us, w. split; [done|]. split; [done|]. split; [done|].
    assert (∀ c k, ¬ step w (top us) c k) as Hnostep.
    { intros c k Hck.
      destruct (b_top_edges _ _ _ _ _ _ Hb c k Hck) as (_ & e & He & _).
      apply lookup_lt_Some in He. lia. }
    split; [intros y _ Hy; by apply node_at_update_ne|].
    intros cs. rewrite !accepts_unfold. unfold is_final, step.
    rewrite node_at_update_eq. simpl. split.
    + intros [[-> _]|(c & k & cs' & -> & Hck & _)]; [by right|].
      by apply Hnostep in Hck.
    + intros [[[-> ?]|(c & k & cs' & -> & Hck & _)]| ->]; [by left| |by left].
      by apply Hnostep in Hck.
  - apply Forall_cons in Hdig as [Hd0 Hdig].
    pose proof (b_wf _ _ _ _ _ _ Hb) as Hwf.
    pose proof (top_allocated _ _ _ _ _ _ Hb) as [Hge Hlt].
    assert (tw !! length us = Some r0) as Htw.
    { rewrite <- (Nat.add_0_r (length us)), <- lookup_drop, Hdrop. done. }
    cbn [extend]. rewrite new_TokenSet_eq. cbv iota beta.
    set (x1 := _nextId w). set (w1 := (new_TokenSet w).2).
    set (w2 := update_node w1 (top us) (set_edge r0 x1)).
    set (nd := mkTokenSetNode (top us) r0 x1).
    assert (∀ y, node_at w2 y =
              if decide (y = top us) then set_edge r0 x1 (node_at w (top us))
              else if decide (y = x1) then fresh_node else node_at w y) as Hnode.
    { intros y. unfold w2. rewrite node_at_update.
      case_decide as Hy; [subst y|].
      - rewrite decide_True by done. unfold w1.
        rewrite node_at_new_ne; [done | unfold x1; lia].
      - rewrite decide_False by done. case_decide; [subst y|].
        + apply node_at_new_eq.
        + by apply node_at_new_ne. }
    assert (∀ k, inM M k → k ≠ top us ∧ k ≠ x1) as HMne.
    { intros k Hk. split.
      - intros ->. by apply (top_not_inM _ _ _ _ _ _ Hb).
      - destruct (inM_allocated _ _ _ _ _ _ _ Hb Hk). unfold x1. lia. }
    assert (binv w2 M (nd :: us) tw true rk) as Hb2.
    { split.
      - apply wf_update_edge; [by apply wf_new | simpl; lia | simpl; unfold x1; lia].
      - apply extends_update; [|done].
        eapply extends_trans; [by apply (b_ext _ _ _ _ _ _ Hb) | apply extends_new].
      - simpl. pose proof (b_next _ _ _ _ _ _ Hb). lia.
      - simpl. split; [done|]. split; [done|]. split; [unfold x1; lia|].
        unfold step. rewrite Hnode, decide_True by done. simpl.
        split; [by apply (b_top_str _ _ _ _ _ _ Hb)|].
        split; [apply edges_get_set_eq|]. split.
        + intros c k. rewrite edges_get_set. case_decide as Hc.
          * intros [= <-]. by left.
          * intros Hck. right.
            destruct (b_top_edges _ _ _ _ _ _ Hb c k Hck) as (? & e & He & ?).
            rewrite Htw in He. injection He as <-. done.
        + apply (chain_agree w _ M M); [| done | by apply (b_chain _ _ _ _ _ _ Hb)].
          intros nd' Hin.
          destruct (chain_parent_lt _ _ _ _ _ (b_chain _ _ _ _ _ _ Hb) Hin).
          rewrite Hnode, !decide_False; [done | unfold x1; lia | lia].
      - simpl. rewrite Hnode, decide_False by (unfold x1; lia).
        by rewrite decide_True.
      - simpl. intros c k. unfold step.
        rewrite Hnode, decide_False by (unfold x1; lia).
        by rewrite decide_True.
      - intros key m Hkm.
        destruct (b_reg _ _ _ _ _ _ Hb key m Hkm) as (? & ? & ? & ? & Hme).
        destruct (HMne m) as [? ?]; [by eexists|].
        unfold step. rewrite Hnode, !decide_False by done. done.
      - intros y c k Hy. unfold step. rewrite Hnode.
        case_decide; [subst y; simpl; rewrite edges_get_set|].
        + case_decide; [by subst c|].
          by apply (b_labels _ _ _ _ _ _ Hb (top us) c k).
        + case_decide; [done|]. by apply (b_labels _ _ _ _ _ _ Hb y c k). }
    destruct (IH (nd :: us) w2 Hb2) as (us' & w' & Hext & Hb' & Hlen & Hfr & Hacc).
    { change (length (nd :: us)) with (S (length us)).
      rewrite <- Nat.add_1_r, <- drop_drop, Hdrop. done. }
    { done. }
    simpl in Hext, Hfr, Hacc.
    exists us', w'. split; [done|]. split; [done|]. split; [done|].
    set (w'' := update_node w' (top us') (set_final true)) in *.
    assert (node_at w'' (top us) = set_edge r0 x1 (node_at w (top us))) as Htop.
    { rewrite Hfr by (simpl; unfold x1; lia). by rewrite Hnode, decide_True. }
    split.
    + intros y Hy Hne. rewrite Hfr by (simpl; unfold x1; lia).
      rewrite Hnode, !decide_False; [done | unfold x1; lia | done].
    + assert (∀ k cs, inM M k → accepts w'' k cs ↔ accepts w k cs) as HMacc.
      { apply (inM_accepts w w'' M us tw true rk Hb). intros k Hk.
        destruct (HMne k Hk). destruct (inM_allocated _ _ _ _ _ _ _ Hb Hk).
        rewrite Hfr by (simpl; unfold x1; lia).
        rewrite Hnode, !decide_False; done. }
      assert (∀ cs, accepts w'' x1 cs ↔ cs = r) as Hx1.
      { intros cs. rewrite Hacc. split; [|by right]. intros [Ha| ->]; [|done].
        exfalso. apply accepts_unfold in Ha. unfold is_final, step in Ha.
        rewrite Hnode, decide_False, decide_True in Ha by (unfold x1; lia || done).
        by destruct Ha as [[_ ?]|(? & ? & ? & _ & ? & _)]. }
      intros cs. rewrite !accepts_unfold. unfold is_final, step. rewrite Htop.
      simpl. split.
      * intros [[-> ?]|(c & k & cs' & -> & Hck & Hk)]; [by left; left|].
        rewrite edges_get_set in Hck. case_decide as Hc.
        -- injection Hck as <-. subst c. apply Hx1 in Hk as ->. by right.
        -- left. right. exists c, k, cs'. split; [done|]. split; [done|].
           destruct (b_top_edges _ _ _ _ _ _ Hb c k Hck) as [HkM _].
           by apply HMacc.
      * intros [[[-> ?]|(c & k & cs' & -> & Hck & Hk)]| ->].
        -- by left.
        -- right. exists c, k, cs'. split; [done|].
           destruct (b_top_edges _ _ _ _ _ _ Hb c k Hck) as (HkM & e & He & Hlt').
           rewrite Htw in He. injection He as <-.
           rewrite edges_get_set, decide_False by (intros ->; lia).
           split; [done|]. by apply HMacc.
        -- right. exists r0, x1, r. split; [done|].
           rewrite edges_get_set_eq. split; [done|]. by apply Hx1.
Qed.

Lemma chain_accepts w w'' M tw us : ∀ R,
  chain w M tw us →
  (∀ nd, nd ∈ us → node_at w'' (tn_parent nd) = node_at w (tn_parent nd)) →
  (∀ k cs, inM M k → accepts w'' k cs ↔ accepts w k cs) →
  (∀ cs, accepts w'' (top us) cs ↔ accepts w (top us) cs ∨ cs = R) →
  ∀ cs, accepts w'' (_nextId w0) cs
        ↔ accepts w (_nextId w0) cs ∨ cs = rev (map tn_char us) ++ R.
Proof.
  induction us as [|nd rest IH]; intros R Hc Hag HM Htop; [done|].
  destruct Hc as (Hp & _ & _ & _ & Hs & He & Hc). simpl in Htop.
  simpl. intros cs. rewrite <- app_assoc. simpl.
  apply (IH (tn_char nd :: R)); [done | | done |].
  { intros nd' Hin. apply Hag. by right. }
  clear cs. intros cs. rewrite <- Hp. rewrite !accepts_unfold.
  unfold is_final, step. rewrite (Hag nd) by left. split.
  - intros [[-> ?]|(c & k & cs' & -> & Hck & Hk)]; [by left; left|].
    destruct (He c k Hck) as [[-> ->]|[HkM _]].
    + apply Htop in Hk as [Hk| ->]; [|by right].
      left. right. exists (tn_char nd), (tn_child nd), cs'. done.
    + left. right. exists c, k, cs'. split; [done|]. split; [done|].
      by apply HM.
  - intros [[[-> ?]|(c & k & cs' & -> & Hck & Hk)]| ->].
    + by left.
    + right. exists c, k, cs'. split; [done|]. split; [done|].
      destruct (He c k Hck) as [[-> ->]|[HkM _]].
      * apply Htop. by left.
      * by apply HM.
    + right. exists (tn_char nd), (tn_child nd), R. split; [done|].
      split; [done|]. apply Htop. by right.
Qed.

Lemma code_inj c d : JsString.code c = JsString.code d → c = d.
Proof.
  unfold JsString.code. intros H.
  by rewrite <- (ascii_nat_embedding c), <- (ascii_nat_embedding d), H.
Qed.

Lemma commonPrefix_le word : ∀ prev,
  commonPrefix word prev ≤ length word ∧ commonPrefix word prev ≤ length prev.
Proof.
  induction word as [|c word IH]; intros [|d prev]; simpl; try lia.
  case_decide; [|lia]. specialize (IH prev). lia.
Qed.

Lemma commonPrefix_lookup word : ∀ prev i,
  i < commonPrefix word prev → word !! i = prev !! i.
Proof.
  induction word as [|c word IH]; intros [|d prev] i; simpl; try lia.
  case_decide as Hcd; [subst d|lia]. destruct i as [|i]; [done|].
  intros Hi. simpl. apply IH. lia.
Qed.

(** When [previous] is not greater than [word], the character of [word]
    after the common prefix is the greater one. *)
Lemma commonPrefix_next word : ∀ prev e,
  JsString.ltb word prev = false →
  prev !! commonPrefix word prev = Some e →
  ∃ e', word !! commonPrefix word prev = Some e'
        ∧ JsString.code e < JsString.code e'.
Proof.
  induction word as [|c word IH]; intros [|d prev] e; simpl; try done.
  case_decide as Hcd.
  - subst d. rewrite Nat.ltb_irrefl. simpl. apply IH.
  - destruct (JsString.code c <? JsString.code d) eqn:H1; [done|].
    intros _ [= <-]. exists c. split; [done|].
    apply Nat.ltb_ge in H1.
    destruct (decide (JsString.code c = JsString.code d)) as [Heq|Hne].
    + by apply code_inj in Heq.
    + lia.
Qed.

(** The state of a builder between two calls of [insert]. *)
Record bstate (b : TokenSetBuilder) (w : world)
    (words : list (list ascii)) : Prop := {
  bs_root : root b = _nextId w0;
  bs_len : length (uncheckedNodes b) = length (previousWord b);
  bs_inv : ∃ rk,
    binv w (minimizedNodes b) (uncheckedNodes b) (previousWord b) false rk;
  bs_lang : ∀ cs, accepts w (_nextId w0) cs ↔ cs ∈ words;
}.

Lemma insert_spec word b w words :
  bstate b w words →
  JsString.ltb word (previousWord b) = false →
  Forall (λ c, JsString.is_digit c = false) word →
  ∃ b' w', insert word b w = inl (b', w')
    ∧ bstate b' w' (words ++ [word])
    ∧ previousWord b' = word.
Proof.
  intros [Hroot Hlen [rk Hb] Hlang] Hlt Hdig.
  unfold insert. rewrite Hlt.
  set (cp := commonPrefix word (previousWord b)).
  pose proof (commonPrefix_le word (previousWord b)) as [Hcpw Hcpp].
  fold cp in Hcpw, Hcpp.
  unfold minimize.
  destruct (minimize_loop_spec (previousWord b)
              (length (uncheckedNodes b) - cp) (uncheckedNodes b) w
              (minimizedNodes b) rk Hb) as (M1 & w1 & rk1 & Hloop & Hb1 & Hacc1);
    [lia|].
  rewrite Hloop. cbn [uncheckedNodes root minimizedNodes previousWord].
  set (us1 := drop (length (uncheckedNodes b) - cp) (uncheckedNodes b)) in *.
  assert (length us1 = cp) as Hlen1.
  { unfold us1. rewrite length_drop. lia. }
  assert (match us1 with [] => root b | nd :: _ => tn_child nd end = top us1)
    as ->.
  { destruct us1; [by rewrite Hroot | done]. }
  assert (binv w1 M1 us1 word true rk1) as Hb1'.
  { split; try by destruct Hb1.
    - apply (chain_retarget _ _ (previousWord b)); [|by destruct Hb1].
      intros i Hi. apply commonPrefix_lookup. fold cp. lia.
    - intros c k Hck.
      destruct (b_top_edges _ _ _ _ _ _ Hb1 c k Hck) as (HkM & e & He & Hle).
      split; [done|]. rewrite Hlen1 in He |- *.
      destruct (commonPrefix_next word (previousWord b) e Hlt He)
        as (e' & He' & Hee).
      exists e'. split; [done|]. lia. }
  destruct (extend_spec M1 word rk1 (drop cp word) us1 w1 Hb1')
    as (us2 & w2 & Hext & Hb2 & Hlen2 & Hfr & Hacc2).
  { by rewrite Hlen1. }
  { by apply Forall_drop. }
  rewrite Hext.
  eexists _, _. split; [reflexivity|]. split; [|done].
  set (w3 := update_node w2 (top us2) (set_final true)) in *.
  split; simpl.
  - done.
  - done.
  - exists rk1. by apply (binv_set_final w2 M1 us2 word true).
  - intros cs. rewrite elem_of_app, list_elem_of_singleton, <- Hlang.
    rewrite <- (Hacc1 cs (_nextId w0)).
    assert (word = rev (map tn_char us1) ++ drop cp word) as Hword.
    { rewrite (chain_spells w1 M1 word us1) by (by destruct Hb1').
      by rewrite Hlen1, take_drop. }
    rewrite Hword at 1.
    apply (chain_accepts w1 w3 M1 word us1); [by destruct Hb1' | | |done].
    + intros nd Hin.
      destruct (chain_parent_lt _ _ _ _ _ (b_chain _ _ _ _ _ _ Hb1') Hin).
      pose proof (top_allocated _ _ _ _ _ _ Hb1'). apply Hfr; lia.
    + apply (inM_accepts w1 w3 M1 us1 word true rk1 Hb1'). intros k Hk.
      destruct (inM_allocated _ _ _ _ _ _ _ Hb1' Hk). apply Hfr; [lia|].
      intros ->. by apply (top_not_inM _ _ _ _ _ _ Hb1').
Qed.

Lemma insert_all_spec arr : ∀ b w words,
  bstate b w words →
  sorted_from (previousWord b) arr = true →
  Forall (Forall (λ c, JsString.is_digit c = false)) arr →
  ∃ b' w', insert_all arr b w = inl (b', w') ∧ bstate b' w' (words ++ arr).
Proof.
  induction arr as [|word arr IH]; intros b w words Hbs Hsorted Hdig.
  - exists b, w. by rewrite app_nil_r.
  - simpl in Hsorted. apply andb_true_iff in Hsorted as [Hlt Hsorted].
    apply negb_true_iff in Hlt.
    apply Forall_cons in Hdig as [Hd Hdig].
    destruct (insert_spec word b w words Hbs Hlt Hd) as (b1 & w1 & Hins & Hbs1 & Hprev).
    destruct (IH b1 w1 (words ++ [word]) Hbs1) as (b2 & w2 & Hall & Hbs2);
      [by rewrite Hprev | done |].
    exists b2, w2. simpl. rewrite Hins. split; [done|].
    by rewrite <- app_assoc in Hbs2.
Qed.

Lemma new_TokenSetBuilder_spec :
  let '(b, w) := new_TokenSetBuilder w0 in
  previousWord b = [] ∧ bstate b w [].
Proof.
  unfold new_TokenSetBuilder. rewrite new_TokenSet_eq. cbv iota beta.
  set (w1 := (new_TokenSet w0).2).
  assert (∀ y, _nextId w0 ≤ y → node_at w1 y = fresh_node) as Hfresh.
  { intros y Hy. destruct (decide (y = _nextId w0)) as [->|Hne].
    - apply node_at_new_eq.
    - apply node_at_unallocated; [by apply wf_new | simpl; lia]. }
  split; [done|]. split; simpl; [done | done | |].
  - exists (λ _, 0). split; simpl.
    + by apply wf_new.
    + apply extends_new.
    + lia.
    + done.
    + by rewrite Hfresh.
    + intros c k. unfold step. by rewrite Hfresh.
    + intros key m. by rewrite lookup_empty.
    + intros y c k Hy. unfold step. by rewrite Hfresh.
  - intros cs. rewrite accepts_unfold. unfold is_final, step.
    rewrite Hfresh by done. simpl. split.
    + by intros [[_ ?]|(? & ? & ? & _ & ? & _)].
    + by intros ?%elem_of_nil.
Qed.

(** [fromArray] on a sorted array of digit-free words builds an acyclic
    automaton whose language is the array. *)
Lemma fromArray_spec arr :
  sorted_from [] arr = true →
  Forall (Forall (λ c, JsString.is_digit c = false)) arr →
  ∃ w', fromArray w0 arr = inl (_nextId w0, w')
    ∧ wf w' ∧ extends w0 w' ∧ _nextId w0 < _nextId w'
    ∧ (∃ P rank, acyclic w' P rank ∧ P (_nextId w0)
                 ∧ ∀ n, P n → n < _nextId w')
    ∧ ∀ cs, accepts w' (_nextId w0) cs ↔ cs ∈ arr.
Proof.
  intros Hsorted Hdig. unfold fromArray.
  pose proof new_TokenSetBuilder_spec as Hnew.
  destruct (new_TokenSetBuilder w0) as [b0 w1]. destruct Hnew as [Hprev Hbs0].
  destruct (insert_all_spec arr b0 w1 [] Hbs0) as (b2 & w2 & Hall & Hbs2);
    [by rewrite Hprev | done |].
  rewrite Hall. destruct Hbs2 as [Hroot Hlen [rk Hb] Hlang].
  unfold finish, minimize. rewrite Nat.sub_0_r.
  destruct (minimize_loop_spec (previousWord b2)
              (length (uncheckedNodes b2)) (uncheckedNodes b2) w2
              (minimizedNodes b2) rk Hb) as (M3 & w3 & rk3 & Hloop & Hb3 & Hacc3);
    [lia|].
  rewrite Hloop. rewrite drop_all in Hb3. simpl. rewrite Hroot.
  eexists. split; [reflexivity|].
  split; [by destruct Hb3|]. split; [by destruct Hb3|].
  split; [by destruct Hb3|]. split.
  - exists (λ n, n = _nextId w0 ∨ inM M3 n),
      (λ n, if decide (n = _nextId w0)
            then S (sup_rank rk3 (edges (node_at w3 n))) else rk3 n).
    split; [split|split].
    + intros n c m [->|[key Hn]] Hs; right.
      * by destruct (b_top_edges _ _ _ _ _ _ Hb3 c m Hs).
      * by destruct (b_reg _ _ _ _ _ _ Hb3 key n Hn) as (_ & _ & _ & _ & He);
          destruct (He c m Hs).
    + intros n c m [->|[key Hn]] Hs.
      * destruct (b_top_edges _ _ _ _ _ _ Hb3 c m Hs) as [HmM _].
        destruct (inM_allocated _ _ _ _ _ _ _ Hb3 HmM).
        rewrite (decide_True (P := _nextId w0 = _nextId w0)) by done.
        rewrite decide_False by lia.
        pose proof (sup_rank_ge rk3 _ c m Hs). lia.
      * destruct (b_reg _ _ _ _ _ _ Hb3 key n Hn) as (Hlt & _ & _ & _ & He).
        destruct (He c m Hs) as [HmM Hrk].
        destruct (inM_allocated _ _ _ _ _ _ _ Hb3 HmM).
        rewrite !decide_False by lia. done.
    + by left.
    + intros n [->|HnM]; [by destruct Hb3|].
      by destruct (inM_allocated _ _ _ _ _ _ _ Hb3 HnM).
  - intros cs. by rewrite Hacc3, Hlang.
Qed.

End TokenSetBuilderFacts.

(* ================================================================== *)
(** * Matching a vocabulary against a pattern *)

Section MatchingWords.

Lemma acyclic_extends w w' P rank :
  acyclic w P rank → (∀ n, P n → n < _nextId w) → extends w w' →
  acyclic w' P rank.
Proof.
  intros [Hc Hr] HP [_ Hext].
  assert (∀ n c m, P n → step w' n c m → step w n c m) as Hs.
  { intros n c m Hn. unfold step. by rewrite Hext by (by apply HP). }
  split; intros n c m Hn Hnm; [apply (Hc n c m) | apply (Hr n c m)]; auto.
Qed.

(** [fromString] of any pattern, the empty one included: as the argument
    of [intersect] it stands for the non-empty strings the pattern
    matches. *)
Lemma fromString_lang w0 p :
  wf w0 →
  ∃ w', fromString w0 p = (_nextId w0, w')
    ∧ wf w' ∧ extends w0 w' ∧ _nextId w0 < _nextId w'
    ∧ ∀ s, s ≠ [] → qaccepts w' (_nextId w0) s ↔ matches p s.
Proof.
  intros Hwf. destruct p as [|c p].
  - exists (new_TokenSet w0).2. split; [done|].
    split; [by apply wf_new|]. split; [apply extends_new|].
    split; [simpl; lia|]. intros [|c s] Hs; [done|]. split.
    + intros (q & (label & k & Hstep & _) & _). unfold step in Hstep.
      by rewrite node_at_new_eq in Hstep.
    + by intros ?%matches_nil_inv.
  - destruct (fromString_spec w0 (c :: p) Hwf) as (w' & ? & ? & ? & ? & Hl);
      [done|].
    exists w'. repeat (split; [done|]). intros s _. apply Hl.
Qed.

End MatchingWords.

(** C1, as amended: for a vocabulary [V] sorted by code unit whose words
    hold no digit and every pattern [p],
    [TokenSet.fromArray(V).intersect(TokenSet.fromString(p)).toArray()]
    returns, given enough fuel for its loops, exactly the non-empty words
    of [V] that [p] matches, each [*] of [p] matching any run of
    characters and every other character only itself. *)
Theorem intersect_matching_words w V p :
  wf w →
  sorted_from [] V = true →
  Forall (Forall (λ c, JsString.is_digit c = false)) V →
  ∃ k, ∀ fuel, k ≤ fuel →
    ∃ words, matching_words fuel w V p = inl (Some words)
      ∧ ∀ x, x ∈ words ↔ x ∈ V ∧ x ≠ [] ∧ matches p x.
Proof.
  intros Hwf Hsorted Hdig.
  destruct (fromArray_spec w Hwf V Hsorted Hdig)
    as (w1 & HfromArray & Hwf1 & Hext1 & Hlt1 & (P & rank & Hacyc & Ha & HP) & Hlang).
  destruct (fromString_lang w1 p Hwf1)
    as (w2 & HfromString & Hwf2 & Hext2 & Hlt2 & Hq).
  destruct (intersect_spec w2 (_nextId w) (_nextId w1) P rank Hwf2)
    as (k1 & w3 & Hisect & Hwf3 & Hext3 & Hlt3 & (rank' & Hacyc') & Hout);
    [by apply (acyclic_extends w1) | done | lia | lia |].
  destruct (toArray_spec w3 _ rank' Hacyc' (_nextId w2))
    as (k2 & words & HtoArray & Hwords); [lia|].
  exists (max k1 k2). intros fuel Hfuel. exists words.
  unfold matching_words.
  rewrite HfromArray, HfromString, Hisect, HtoArray by lia.
  split; [done|]. intros x. rewrite Hwords, Hout.
  rewrite (extends_accepts w1 w2) by (done || lia). rewrite Hlang.
  split.
  - intros (Hx & HV & Hm). split; [done|]. split; [done|]. by apply Hq.
  - intros (HV & Hx & Hm). split; [done|]. split; [done|]. by apply Hq.
Qed.


Lemma intersect_matching_words_witness :
  wf initial_world
  ∧ sorted_from [] [chars "ab"; chars "ac"; chars "b"] = true
  ∧ Forall (Forall (λ c, JsString.is_digit c = false))
           [chars "ab"; chars "ac"; chars "b"]
  ∧ ∃ k, ∀ fuel, k ≤ fuel →
      ∃ words,
        matching_words fuel initial_world
          [chars "ab"; chars "ac"; chars "b"] (chars "a*") = inl (Some words)
        ∧ ∀ x, x ∈ words ↔
               x ∈ [chars "ab"; chars "ac"; chars "b"] ∧ x ≠ []
               ∧ matches (chars "a*") x.
Proof.
  assert (Forall (Forall (λ c, JsString.is_digit c = false))
            [chars "ab"; chars "ac"; chars "b"]) as Hdig.
  { repeat (constructor; try reflexivity). }
  split; [apply wf_initial|]. split; [reflexivity|]. split; [exact Hdig|].
  apply (intersect_matching_words initial_world
           [chars "ab"; chars "ac"; chars "b"] (chars "a*"));
    [apply wf_initial | reflexivity | exact Hdig].
Defined.

(** C1 as stated fails on the empty word: [*] matches it, and
    [fromArray(['', 'a']).intersect(fromString('*')).toArray()] is
    [['a']]. *)
Lemma intersect_drops_empty_word :
  sorted_from [] [[]; chars "a"] = true
  ∧ [] ∈ [[]; chars "a"]
  ∧ matches (chars "*") []
  ∧ matching_words 100 initial_world [[]; chars "a"] (chars "*")
    = inl (Some [chars "a"]).
Proof.
  split; [reflexivity|]. split; [by left|]. split; [|by vm_compute].
  apply matches_star_empty. constructor.
Qed.

(* ================================================================== *)
(** * JavaScript numbers and exceptions

    Scores, boosts and weights are IEEE 754 doubles; coordinates of
    vectors and counters are integers. *)

Module JsNumber.

(** [x] in a condition: [0], [-0] and [NaN] are falsy. *)
Definition truthy (x : float) : bool :=
  negb (PrimFloat.eqb x 0 || PrimFloat.is_nan x).

(** [x || y] *)
Definition or_else (x y : float) : float :=
  if truthy x then x else y.

(** The double nearest to an integer: a counter or a length used in a
    floating-point expression. *)
Definition of_Z (z : Z) : float :=
  SF2Prim (binary_normalize prec emax z 0 false).

End JsNumber.

(** The exceptions of the library. *)
Inductive exn :=
| DuplicateIndex
| MalformedFieldRef
| OutOfOrderWord
| RangeError (msg : string)
| TypeError (msg : string)
| QueryParseError (message : string) (start end_ : nat).

(* ================================================================== *)
(** * Vectors (src/Vector.ts)

    [elements] is the flat array [[index, value, index, value, ...]];
    it is kept as the list of its [(index, value)] pairs, so that position
    [2 * k] of the array is the index of pair [k] and position [2 * k + 1]
    its value. *)

Module Vector.

Inductive value :=
| Num (x : float)
| Str (s : string).

Record t := mk {
  _magnitude : float;
  elements : list (Z * value);
}.

(** [new Vector()] *)
Definition empty : t := mk 0 [].

(** [new Vector(elements)] *)
Definition of_elements (elements : list (Z * value)) : t := mk 0 elements.

(** [this.elements[pivotPoint * 2]]; [None] is [undefined], for which
    every comparison is false. *)
Definition index_at (elements : list (Z * value)) (pivotPoint : nat)
    : option Z :=
  fst <$> elements !! pivotPoint.

Definition lt_index (pivotIndex : option Z) (index : Z) : bool :=
  match pivotIndex with Some p => (p <? index)%Z | None => false end.

Definition gt_index (pivotIndex : option Z) (index : Z) : bool :=
  match pivotIndex with Some p => (index <? p)%Z | None => false end.

Definition eq_index (pivotIndex : option Z) (index : Z) : bool :=
  match pivotIndex with Some p => (p =? index)%Z | None => false end.

(** The [while (sliceLength > 1)] loop of [positionForIndex]; it returns
    the last [pivotPoint].  [sliceLength] halves at every iteration, so
    the loop runs at most [end - start] times. *)
Fixpoint positionForIndex_loop (fuel : nat) (elements : list (Z * value))
    (index : Z) (start end_ pivotPoint : nat) : nat :=
  match fuel with
  | 0 => pivotPoint
  | S fuel' =>
      if end_ - start <=? 1 then pivotPoint
      else
        let pivotIndex := index_at elements pivotPoint in
        let start' := if lt_index pivotIndex index then pivotPoint else start in
        let end' := if gt_index pivotIndex index then pivotPoint else end_ in
        if eq_index pivotIndex index then pivotPoint
        else
          let sliceLength := end' - start' in
          positionForIndex_loop fuel' elements index start' end'
            (start' + sliceLength / 2)
  end.

Definition positionForIndex (elements : list (Z * value)) (index : Z) : nat :=
  match elements with
  | [] => 0
  | _ :: _ =>
      let end_ := length elements in
      let pivotPoint :=
        positionForIndex_loop (S end_) elements index 0 end_ (end_ / 2) in
      let pivotIndex := index_at elements pivotPoint in
      if eq_index pivotIndex index then pivotPoint * 2
      else if gt_index pivotIndex index then pivotPoint * 2
      else if lt_index pivotIndex index then (pivotPoint + 1) * 2
      else 0
  end.

(** [this.elements.splice(position, 0, insertIdx, val)] for an even
    [position]. *)
Definition splice (elements : list (Z * value)) (position : nat)
    (insertIdx : Z) (val : float) : list (Z * value) :=
  take (position / 2) elements
    ++ (insertIdx, Num val) :: drop (position / 2) elements.

(** [upsert(insertIdx, val, fn?)]; [fn] may throw. *)
Definition upsert (v : t) (insertIdx : Z) (val : float)
    (fn : option (value → float → value + exn)) : t + exn :=
  let position := positionForIndex (elements v) insertIdx in
  if eq_index (index_at (elements v) (position / 2)) insertIdx then
    match fn with
    | Some f =>
        match elements v !! (position / 2) with
        | Some (i, a) =>
            match f a val with
            | inl x => inl (mk 0 (<[position / 2 := (i, x)]> (elements v)))
            | inr e => inr e
            end
        | None => inl (mk 0 (elements v))
        end
    | None => inl (mk 0 (elements v))
    end
  else inl (mk 0 (splice (elements v) position insertIdx val)).

(** [insert(insertIdx, val)] *)
Definition insert (v : t) (insertIdx : Z) (val : float) : t + exn :=
  upsert v insertIdx val (Some (λ _ _, inr DuplicateIndex)).

(** [toArray()] *)
Definition toArray (v : t) : list value := (elements v).*2.

Section WithParseFloat.

(** The global [parseFloat]. *)
Context (parseFloat : string → float).

(** ['string' === typeof x ? parseFloat(x) : x] *)
Definition to_number (x : value) : float :=
  match x with
  | Num n => n
  | Str s => parseFloat s
  end.

(** [magnitude()]: the result and the vector with its cache filled. *)
Definition magnitude (v : t) : float * t :=
  if JsNumber.truthy (_magnitude v) then (_magnitude v, v)
  else
    let sumOfSquares :=
      fold_left (λ acc e, (acc + to_number e.2 * to_number e.2)%float)
                (elements v) 0%float in
    let m := PrimFloat.sqrt sumOfSquares in
    (m, mk m (elements v)).

(** The [while (i < a.length && j < b.length)] loop of [dot]. *)
Fixpoint dot_loop (a : list (Z * value)) : list (Z * value) → float → float :=
  match a with
  | [] => λ _ dotProduct, dotProduct
  | (ai, nextAi) :: a' =>
      fix dot_inner (b : list (Z * value)) (dotProduct : float) : float :=
        match b with
        | [] => dotProduct
        | (bj, nextBj) :: b' =>
            if (ai <? bj)%Z then dot_loop a' b dotProduct
            else if (bj <? ai)%Z then dot_inner b' dotProduct
            else
              dot_loop a' b'
                (dotProduct + to_number nextAi * to_number nextBj)%float
        end
  end.

Definition dot (v otherVector : t) : float :=
  dot_loop (elements v) (elements otherVector) 0%float.

(** [similarity(otherVector)]: [this.dot(otherVector) / this.magnitude() || 0] *)
Definition similarity (v otherVector : t) : float * t :=
  let d := dot v otherVector in
  let '(m, v') := magnitude v in
  (JsNumber.or_else (d / m)%float 0%float, v').

End WithParseFloat.

End Vector.

(** [this.queryVectors[field].upsert(termIndex, boost, function (a, b) {
    return 'string' === typeof a ? parseFloat(a) : a + b })]: the merge
    function of the query executor. *)
Definition add_boost (parseFloat : string → float) (a : Vector.value)
    (b : float) : Vector.value + exn :=
  inl match a with
      | Vector.Str s => Vector.Num (parseFloat s)
      | Vector.Num x => Vector.Num (x + b)%float
      end.

Section VectorFacts.

Import Vector.
Local Open Scope Z_scope.

(** The indices of a vector grow strictly along [elements]. *)
Definition increasing (els : list (Z * value)) : Prop :=
  ∀ (j k : nat) p q, (j < k)%nat →
    index_at els j = Some p → index_at els k = Some q → p < q.

(** [k] pairs of [els] have an index below [index], the others do not. *)
Definition lower_bound (els : list (Z * value)) (index : Z) (k : nat) : Prop :=
  (k ≤ length els)%nat
  ∧ (∀ (j : nat) p, (j < k)%nat → index_at els j = Some p → p < index)
  ∧ (∀ (j : nat) p, (k ≤ j)%nat → index_at els j = Some p → index ≤ p).

Lemma index_at_Some els (j : nat) :
  (j < length els)%nat → ∃ p, index_at els j = Some p.
Proof.
  intros Hj. destruct (lookup_lt_is_Some_2 els j Hj) as [[p a] Hp].
  exists p. unfold index_at. by rewrite Hp.
Qed.

Lemma index_at_lt els (j : nat) p : index_at els j = Some p → (j < length els)%nat.
Proof.
  unfold index_at. intros Hp. apply fmap_Some in Hp as (e & He & _).
  by apply lookup_lt_Some in He.
Qed.

(** What [positionForIndex] returns after its loop. *)
Definition position_of (els : list (Z * value)) (index : Z) (pivotPoint : nat)
    : nat :=
  let pivotIndex := index_at els pivotPoint in
  if eq_index pivotIndex index then (pivotPoint * 2)%nat
  else if gt_index pivotIndex index then (pivotPoint * 2)%nat
  else if lt_index pivotIndex index then ((pivotPoint + 1) * 2)%nat
  else 0%nat.

Lemma positionForIndex_loop_spec els index :
  increasing els →
  ∀ (fuel start end_ : nat),
    (start < end_ ≤ length els)%nat → (end_ - start ≤ fuel)%nat →
    (∀ (j : nat) p, (j < start)%nat → index_at els j = Some p → p < index) →
    (∀ (j : nat) p, (end_ ≤ j)%nat → index_at els j = Some p → index < p) →
    ∃ k, position_of els index
           (positionForIndex_loop fuel els index start end_
              (start + (end_ - start) / 2)) = (2 * k)%nat
         ∧ lower_bound els index k.
Proof.
  intros Hinc. induction fuel as [|fuel IH]; intros start end_ Hse Hfuel Hlo Hhi;
    [lia|].
  assert (start ≤ start + (end_ - start) / 2 < end_)%nat as Hpv.
  { split; [lia|].
    assert ((end_ - start) / 2 < end_ - start)%nat; [|lia].
    apply Nat.div_lt; lia. }
  set (pv := (start + (end_ - start) / 2)%nat) in *.
  destruct (index_at_Some els pv) as [p Hp]; [lia|].
  assert (∀ (j : nat) q, (j < pv)%nat → index_at els j = Some q → q < p) as Hbelow.
  { intros j q Hj Hq. by apply (Hinc j pv). }
  assert (∀ (j : nat) q, (pv ≤ j)%nat → index_at els j = Some q → p ≤ q) as Habove.
  { intros j q Hj Hq. destruct (decide (j = pv)) as [->|Hne].
    - rewrite Hp in Hq. injection Hq as <-. lia.
    - assert (p < q); [|lia]. apply (Hinc pv j); [lia | done | done]. }
  cbn [positionForIndex_loop].
  destruct (end_ - start <=? 1)%nat eqn:Hslice.
  - apply Nat.leb_le in Hslice.
    assert (pv = start) as Hpvs.
    { unfold pv. replace (end_ - start)%nat with 1%nat by lia. simpl. lia. }
    unfold position_of. rewrite Hp. simpl.
    destruct (Z.eqb_spec p index) as [Heq|Hne].
    { exists pv. split; [lia|]. split; [lia|]. subst p. split; [done|done]. }
    destruct (Z.ltb_spec index p) as [Hgt|Hngt].
    { exists pv. split; [lia|]. split; [lia|]. split.
      - intros j q Hj. apply Hlo. lia.
      - intros j q Hj Hq. specialize (Habove j q Hj Hq). lia. }
    destruct (Z.ltb_spec p index) as [Hlt|Hnlt]; [|lia].
    exists (pv + 1)%nat. split; [lia|]. split; [lia|]. split.
    + intros j q Hj Hq. destruct (decide (j = pv)) as [->|Hne'].
      * rewrite Hp in Hq. by injection Hq as <-.
      * apply (Hlo j); [lia | done].
    + intros j q Hj Hq. assert (index < q); [|lia]. apply (Hhi j); [lia | done].
  - apply Nat.leb_gt in Hslice. fold pv. rewrite Hp.
    cbn [lt_index gt_index eq_index].
    assert (start < pv)%nat as Hspv.
    { assert (0 < (end_ - start) / 2)%nat; [|unfold pv; lia].
      apply Nat.div_str_pos. lia. }
    destruct (Z.eqb_spec p index) as [Heq|Hne].
    { unfold position_of. rewrite Hp. cbn [lt_index gt_index eq_index].
      destruct (Z.eqb_spec p index) as [_|?]; [|done].
      exists pv. split; [lia|]. split; [lia|]. subst p. split; [done|done]. }
    destruct (Z.ltb_spec p index) as [Hlt|Hnlt];
      destruct (Z.ltb_spec index p) as [Hgt|Hngt]; try lia.
    + apply IH; [lia | lia | | done].
      intros j q Hj Hq. specialize (Hbelow j q Hj Hq). lia.
    + apply IH; [lia | lia | done |].
      intros j q Hj Hq. specialize (Habove j q Hj Hq). lia.
Qed.

Lemma positionForIndex_spec els index :
  increasing els →
  ∃ k, positionForIndex els index = (2 * k)%nat ∧ lower_bound els index k.
Proof.
  intros Hinc. destruct els as [|e els].
  - exists 0%nat. split; [done|]. split; [done|].
    split; intros j p Hj; [lia | done].
  - unfold positionForIndex. set (l := e :: els) in *.
    destruct (positionForIndex_loop_spec l index Hinc (S (length l)) 0 (length l))
      as (k & Hk & Hlb).
    + simpl. lia.
    + lia.
    + intros j p Hj. lia.
    + intros j p Hj Hp. apply index_at_lt in Hp. lia.
    + exists k. rewrite Nat.sub_0_r, Nat.add_0_l in Hk. done.
Qed.

Lemma lower_bound_present els index k (j : nat) a :
  increasing els → lower_bound els index k →
  els !! j = Some (index, a) → j = k.
Proof.
  intros Hinc (Hk & Hlo & Hhi) Hj.
  assert (index_at els j = Some index) as Hj'.
  { unfold index_at. by rewrite Hj. }
  destruct (decide (j < k)%nat) as [Hlt|Hge].
  { specialize (Hlo j index Hlt Hj'). lia. }
  destruct (decide (j = k)) as [|Hne]; [done|].
  destruct (index_at_Some els k) as [p Hp].
  { apply lookup_lt_Some in Hj. lia. }
  specialize (Hhi k p (le_n _) Hp).
  assert (p < index); [|lia]. apply (Hinc k j); [lia | done | done].
Qed.

Lemma upsert_present (v : t) i x fn a :
  increasing (elements v) → (i, a) ∈ elements v →
  ∃ l1 l2, elements v = l1 ++ (i, a) :: l2
    ∧ upsert v i x fn =
      match fn with
      | Some f =>
          match f a x with
          | inl a' => inl (mk 0 (l1 ++ (i, a') :: l2))
          | inr e => inr e
          end
      | None => inl (mk 0 (elements v))
      end.
Proof.
  intros Hinc Hin. apply list_elem_of_lookup in Hin as [j Hj].
  destruct (positionForIndex_spec (elements v) i Hinc) as (k & Hpos & Hlb).
  assert (j = k) as -> by (by eapply lower_bound_present).
  exists (take k (elements v)), (drop (S k) (elements v)).
  split; [by rewrite take_drop_middle|].
  unfold upsert. rewrite Hpos.
  replace (2 * k / 2)%nat with k by (rewrite Nat.mul_comm, Nat.div_mul; lia).
  unfold index_at. rewrite Hj. simpl. rewrite Z.eqb_refl.
  destruct fn as [f|]; [|done]. destruct (f a x) as [a'|e]; [|done].
  rewrite insert_take_drop; [done|]. by apply lookup_lt_Some in Hj.
Qed.

Lemma upsert_absent (v : t) i x fn :
  increasing (elements v) → i ∉ (elements v).*1 →
  ∃ l1 l2, elements v = l1 ++ l2
    ∧ Forall (λ e, e.1 < i) l1 ∧ Forall (λ e, i < e.1) l2
    ∧ upsert v i x fn = inl (mk 0 (l1 ++ (i, Num x) :: l2)).
Proof.
  intros Hinc Hnin.
  destruct (positionForIndex_spec (elements v) i Hinc) as (k & Hpos & Hk & Hlo & Hhi).
  exists (take k (elements v)), (drop k (elements v)).
  split; [by rewrite take_drop|].
  assert (∀ (j : nat) e, elements v !! j = Some e → e.1 ≠ i) as Hne.
  { intros j e Hj Heq. apply Hnin. apply list_elem_of_fmap. exists e.
    split; [done|]. by eapply list_elem_of_lookup_2. }
  split; [|split].
  - apply Forall_lookup. intros j e Hj.
    apply lookup_take_Some in Hj as [Hj Hlt].
    apply (Hlo j); [done|]. unfold index_at. by rewrite Hj.
  - apply Forall_lookup. intros j e Hj. rewrite lookup_drop in Hj.
    assert (i ≤ e.1); [|specialize (Hne _ _ Hj); lia].
    apply (Hhi (k + j)%nat); [lia|]. unfold index_at. by rewrite Hj.
  - unfold upsert, splice. rewrite Hpos.
    replace (2 * k / 2)%nat with k by (rewrite Nat.mul_comm, Nat.div_mul; lia).
    unfold index_at.
    destruct (elements v !! k) as [[p a]|] eqn:Hkk; simpl; [|done].
    destruct (Z.eqb_spec p i) as [->|?]; [|done].
    by destruct (Hne k (i, a) Hkk).
Qed.

Lemma increasing_app l1 l2 i (a : value) :
  increasing (l1 ++ l2) →
  Forall (λ e, e.1 < i) l1 → Forall (λ e, i < e.1) l2 →
  increasing (l1 ++ (i, a) :: l2).
Proof.
  intros Hinc H1 H2 j k p q Hjk Hp Hq.
  unfold index_at in *.
  apply fmap_Some in Hp as ([p' a1] & Hp & ->).
  apply fmap_Some in Hq as ([q' a2] & Hq & ->). simpl.
  rewrite Forall_lookup in H1. rewrite Forall_lookup in H2.
  apply lookup_app_Some in Hp as [Hp|[Hjl Hp]];
    apply lookup_app_Some in Hq as [Hq|[Hkl Hq]].
  - apply (Hinc j k); [done | |]; unfold index_at.
    + by rewrite (lookup_app_l_Some l1 l2 j _ Hp).
    + by rewrite (lookup_app_l_Some l1 l2 k _ Hq).
  - destruct (k - length l1)%nat as [|k'] eqn:Hk; simpl in Hq.
    + injection Hq as <- <-. apply (H1 _ _ Hp).
    + specialize (H1 _ _ Hp). specialize (H2 _ _ Hq). simpl in *. lia.
  - apply lookup_lt_Some in Hq. lia.
  - destruct (j - length l1)%nat as [|j'] eqn:Hj;
      destruct (k - length l1)%nat as [|k'] eqn:Hk; simpl in Hp, Hq; try lia.
    + injection Hp as <- <-. apply (H2 _ _ Hq).
    + apply (Hinc (length l1 + j') (length l1 + k'))%nat; [lia | |];
        unfold index_at; rewrite lookup_app_r by lia.
      * replace (length l1 + j' - length l1)%nat with j' by lia. by rewrite Hp.
      * replace (length l1 + k' - length l1)%nat with k' by lia. by rewrite Hq.
Qed.

(** The check that the indices of [els] grow strictly. *)
Fixpoint sorted_indices (els : list (Z * value)) : bool :=
  match els with
  | [] => true
  | e :: rest =>
      match rest with
      | [] => true
      | e' :: _ => (e.1 <? e'.1) && sorted_indices rest
      end
  end.

Lemma sorted_indices_head rest : ∀ e (k : nat) q,
  sorted_indices (e :: rest) = true → index_at rest k = Some q → e.1 < q.
Proof.
  induction rest as [|e' rest IH]; intros e k q Hs Hq; [done|].
  cbn [sorted_indices] in Hs. apply andb_true_iff in Hs as [He Hs].
  apply Z.ltb_lt in He. destruct k as [|k].
  - unfold index_at in Hq. simpl in Hq. injection Hq as <-. done.
  - specialize (IH e' k q Hs Hq). lia.
Qed.

Lemma sorted_indices_increasing els :
  sorted_indices els = true → increasing els.
Proof.
  induction els as [|e rest IH]; intros Hs j k p q Hjk Hp Hq; [done|].
  assert (sorted_indices rest = true) as Hrest.
  { cbn [sorted_indices] in Hs. destruct rest; [done|].
    by apply andb_true_iff in Hs as [_ ?]. }
  destruct k as [|k]; [lia|]. destruct j as [|j].
  - unfold index_at in Hp. simpl in Hp. injection Hp as <-.
    by apply (sorted_indices_head rest e k q).
  - apply (IH Hrest j k); [lia | done | done].
Qed.

End VectorFacts.

(** C7, as amended: for a vector [v] with strictly growing indices, an
    index [i] and a number [x], [upsert(i, x, fn)] stores [fn(a, x)] at
    [i] when [i] holds [a] and a merge function [fn] is passed, leaves the
    vector as it is when [i] is present and no function is passed, and
    inserts [(i, x)] at its sorted position when [i] is absent.  With the
    merge function of the query executor a numeric [a] becomes [a + x],
    so that two upserts of an absent index leave the sum of both values. *)
Theorem upsert_merges (parseFloat : string → float) (v : Vector.t) (i : Z)
    (x : float) (fn : option (Vector.value → float → Vector.value + exn)) :
  sorted_indices (Vector.elements v) = true →
  (∀ a, (i, a) ∈ Vector.elements v →
     ∃ l1 l2, Vector.elements v = l1 ++ (i, a) :: l2
       ∧ Vector.upsert v i x fn =
         match fn with
         | Some f =>
             match f a x with
             | inl a' => inl (Vector.mk 0 (l1 ++ (i, a') :: l2))
             | inr e => inr e
             end
         | None => inl (Vector.mk 0 (Vector.elements v))
         end)
  ∧ (i ∉ (Vector.elements v).*1 →
     ∃ l1 l2, Vector.elements v = l1 ++ l2
       ∧ Forall (λ e, (e.1 < i)%Z) l1 ∧ Forall (λ e, (i < e.1)%Z) l2
       ∧ Vector.upsert v i x fn
         = inl (Vector.mk 0 (l1 ++ (i, Vector.Num x) :: l2)))
  ∧ (∀ a : float, (i, Vector.Num a) ∈ Vector.elements v →
     ∃ l1 l2, Vector.elements v = l1 ++ (i, Vector.Num a) :: l2
       ∧ Vector.upsert v i x (Some (add_boost parseFloat))
         = inl (Vector.mk 0 (l1 ++ (i, Vector.Num (a + x)%float) :: l2)))
  ∧ (i ∉ (Vector.elements v).*1 →
     ∀ y : float, ∃ v1 l1 l2,
       Vector.elements v = l1 ++ l2
       ∧ Vector.upsert v i x (Some (add_boost parseFloat)) = inl v1
       ∧ Vector.upsert v1 i y (Some (add_boost parseFloat))
         = inl (Vector.mk 0 (l1 ++ (i, Vector.Num (x + y)%float) :: l2))).
Proof.
  intros Hs%sorted_indices_increasing.
  split; [intros a Ha; by apply upsert_present|].
  split; [by apply upsert_absent|].
  split.
  - intros a Ha.
    destruct (upsert_present v i x (Some (add_boost parseFloat)) _ Hs Ha)
      as (l1 & l2 & Hel & Hup).
    by exists l1, l2.
  - intros Hnin y.
    destruct (upsert_absent v i x (Some (add_boost parseFloat)) Hs Hnin)
      as (l1 & l2 & Hel & H1 & H2 & Hup).
    set (v1 := Vector.mk 0 (l1 ++ (i, Vector.Num x) :: l2)) in *.
    assert (increasing (Vector.elements v1)) as Hs1.
    { apply increasing_app; [by rewrite <- Hel | done | done]. }
    destruct (upsert_present v1 i y (Some (add_boost parseFloat))
                (Vector.Num x) Hs1) as (l1' & l2' & Hel' & Hup').
    { simpl. apply elem_of_app. right. left. }
    exists v1, l1, l2. split; [done|]. split; [done|].
    rewrite Hup'. simpl in Hel' |- *.
    assert (l1' = l1 ∧ l2' = l2) as [-> ->]; [|done].
    assert (length l1' = length l1) as Hlen.
    { destruct (Nat.lt_trichotomy (length l1') (length l1)) as [Hlt|[?|Hlt]];
        [|done|]; exfalso.
      - assert (l1 !! length l1' = Some (i, Vector.Num x)) as Hl.
        { rewrite <- (lookup_app_l l1 ((i, Vector.Num x) :: l2)) by done.
          rewrite Hel'. by rewrite list_lookup_middle. }
        rewrite Forall_lookup in H1. specialize (H1 _ _ Hl). simpl in H1. lia.
      - assert (l1' !! length l1 = Some (i, Vector.Num x)) as Hl.
        { rewrite <- (lookup_app_l l1' ((i, Vector.Num x) :: l2')) by done.
          rewrite <- Hel'. by rewrite list_lookup_middle. }
        assert (Vector.index_at (Vector.elements v1) (length l1) = Some i) as Ha.
        { unfold Vector.index_at. simpl. by rewrite list_lookup_middle. }
        assert (Vector.index_at (Vector.elements v1) (length l1') = Some i) as Hb.
        { unfold Vector.index_at. simpl. rewrite Hel'.
          by rewrite list_lookup_middle. }
        specialize (Hs1 _ _ _ _ Hlt Ha Hb). lia. }
    apply app_inj_1 in Hel' as [? [= ?]]; done.
Qed.

Lemma upsert_merges_witness :
  sorted_indices [(1, Vector.Num 2); (5, Vector.Num 1)]%Z = true
  ∧ ∃ l1 l2,
      [(1, Vector.Num 2); (5, Vector.Num 1)]%Z = l1 ++ (5%Z, Vector.Num 1) :: l2
      ∧ Vector.upsert
          (Vector.of_elements [(1, Vector.Num 2); (5, Vector.Num 1)]%Z)
          5 3 (Some (add_boost (λ _, 0%float)))
        = inl (Vector.mk 0 (l1 ++ (5%Z, Vector.Num (1 + 3)%float) :: l2)).
Proof.
  split; [reflexivity|].
  apply (proj1 (proj2 (proj2
    (upsert_merges (λ _, 0%float)
       (Vector.of_elements [(1, Vector.Num 2); (5, Vector.Num 1)]%Z)
       5 3 None eq_refl)))).
  right. left.
Defined.

(** C7 as stated fails when no merge function is passed: the value at a
    present index stays as it was. *)
Lemma upsert_without_merge_keeps_value :
  Vector.upsert (Vector.of_elements [(0, Vector.Num 4)]%Z) 0 3 None
    = inl (Vector.mk 0 [(0, Vector.Num 4)]%Z)
  ∧ PrimFloat.eqb 4 (4 + 3) = false.
Proof. split; reflexivity. Qed.

(* ================================================================== *)
(** * JavaScript objects used as maps

    An object is the list of its own enumerable properties in insertion
    order.  The same representation serves objects made by
    [Object.create(null)], read with [get_own], and plain objects ([{}]),
    read with [get], which also sees the members inherited from
    [Object.prototype]. *)

Module JsObject.

(** The members of [Object.prototype]. *)
Definition prototype_members : list string :=
  ["constructor"; "__defineGetter__"; "__defineSetter__"; "hasOwnProperty";
   "__lookupGetter__"; "__lookupSetter__"; "isPrototypeOf";
   "propertyIsEnumerable"; "toString"; "valueOf"; "__proto__";
   "toLocaleString"]%string.

Definition is_prototype_member (k : string) : bool :=
  bool_decide (k ∈ prototype_members).

(** The value of a non-empty run of decimal digits. *)
Definition digits_value (k : list ascii) : N :=
  fold_left (λ acc c, (acc * 10 + (N_of_ascii c - 48))%N) k 0%N.

(** A key that is an array index: a canonical decimal numeral below
    [2^32 - 1].  Such keys come first, in numeric order, when the keys of
    an object are enumerated. *)
Definition array_index (k : string) : option N :=
  match chars k with
  | [] => None
  | c :: rest =>
      if forallb JsString.is_digit (c :: rest)
         && (bool_decide (rest = []) || negb (bool_decide (c = "0"%char)))
         && (length rest <? 10)
         && (digits_value (c :: rest) <? 4294967295)%N
      then Some (digits_value (c :: rest))
      else None
  end.

Fixpoint insert_index (k : string) (n : N) (l : list (string * N))
    : list (string * N) :=
  match l with
  | [] => [(k, n)]
  | (k', n') :: l' =>
      if (n <=? n')%N then (k, n) :: l else (k', n') :: insert_index k n l'
  end.

(** [Object.keys] and [for ... in] on a list of own keys. *)
Definition order_keys (ks : list string) : list string :=
  let indexed :=
    foldr (λ k acc,
             match array_index k with
             | Some n => insert_index k n acc
             | None => acc
             end) [] ks in
  indexed.*1
    ++ filter (λ k, array_index k = None) ks.

Section WithValue.

Context {V : Type}.

Definition t := list (string * V).

(** [o[k]] on an object without prototype; [None] is [undefined]. *)
Fixpoint get_own (o : t) (k : string) : option V :=
  match o with
  | [] => None
  | (k', v) :: o' => if decide (k' = k) then Some v else get_own o' k
  end.

(** [o[k] = v] when it defines or updates an own property: on an object
    without prototype, and on a plain object for [k] other than
    ["__proto__"]. *)
Fixpoint set (o : t) (k : string) (v : V) : t :=
  match o with
  | [] => [(k, v)]
  | (k', v') :: o' =>
      if decide (k' = k) then (k', v) :: o' else (k', v') :: set o' k v
  end.

(** [o[k] = v] on a plain object for a primitive [v]: the setter of
    [__proto__] ignores it. *)
Definition set_primitive (o : t) (k : string) (v : V) : t :=
  if decide (k = "__proto__"%string) then o else set o k v.

(** [Object.keys(o)] *)
Definition keys (o : t) : list string := order_keys o.*1.

End WithValue.

Arguments t : clear implicits.

(** The result of [o[k]] on a plain object. *)
Inductive lookup (V : Type) :=
| Own (v : V)
| Inherited
| Undefined.

Arguments Own {V} v.
Arguments Inherited {V}.
Arguments Undefined {V}.

Definition get {V} (o : t V) (k : string) : lookup V :=
  match get_own o k with
  | Some v => Own v
  | None => if is_prototype_member k then Inherited else Undefined
  end.

(** [k in o] on a plain object. *)
Definition has {V} (o : t V) (k : string) : bool :=
  match get o k with
  | Undefined => false
  | _ => true
  end.

End JsObject.

(* ================================================================== *)
(** * Outcomes of the library's operations

    An operation returns, throws, leaves what this development follows,
    or exhausts the fuel given to its loops.  What is not followed:
    assigning an object to the key [__proto__] of a plain object replaces
    its prototype, and reading the text or a property of a built-in
    member of [Object.prototype] depends on the host. *)

Inductive result (A : Type) :=
| Ok (a : A)
| Throw (e : exn)
| Unmodelled
| OutOfFuel.

Arguments Ok {A} a.
Arguments Throw {A} e.
Arguments Unmodelled {A}.
Arguments OutOfFuel {A}.

#[global] Instance result_ret : MRet result := λ A a, Ok a.

#[global] Instance result_bind : MBind result := λ A B f m,
  match m with
  | Ok a => f a
  | Throw e => Throw e
  | Unmodelled => Unmodelled
  | OutOfFuel => OutOfFuel
  end.

(** The result of a loop with fuel. *)
Definition with_fuel {A} (m : option A) : result A :=
  match m with
  | Some a => Ok a
  | None => OutOfFuel
  end.

(** A [for ... of] loop whose body may throw. *)
Fixpoint for_each {A S : Type} (body : A → S → result S) (l : list A) (s : S)
    : result S :=
  match l with
  | [] => Ok s
  | a :: l' => s' ← body a s; for_each body l' s'
  end.

(** [o[k] = v] on a plain object for an object [v]. *)
Definition set_object {V} (o : JsObject.t V) (k : string) (v : V)
    : result (JsObject.t V) :=
  if decide (k = "__proto__"%string) then Unmodelled
  else Ok (JsObject.set o k v).

(* ================================================================== *)
(** * Field references (src/FieldRef.ts) *)

Module FieldRef.

Definition joiner : ascii := "/"%char.

Record t := mk {
  docRef : string;
  fieldName : string;
  stringValue : option string;
}.

(** [s.slice(0, n)] and [s.slice(n + 1)] for [n = s.indexOf(joiner)];
    [None] when [n] is [-1]. *)
Fixpoint split (s : string) : option (string * string) :=
  match s with
  | EmptyString => None
  | String c s' =>
      if decide (c = joiner) then Some (EmptyString, s')
      else
        match split s' with
        | Some (a, b) => Some (String c a, b)
        | None => None
        end
  end.

Definition fromString (s : string) : result t :=
  match split s with
  | None => Throw MalformedFieldRef
  | Some (fieldRef, docRef) => Ok (mk docRef fieldRef (Some s))
  end.

Definition toString (r : t) : string :=
  match stringValue r with
  | None => fieldName r ++ String joiner (docRef r)
  | Some s => s
  end.

End FieldRef.

(* ================================================================== *)
(** * Tokens, the tokenizer and pipelines
      (src/Token.ts, src/tokenizer.ts, src/Pipeline.ts)

    Strings are sequences of code units below 256. *)

(** The values kept as token metadata. *)
#[warnings="-register-all"]
Inductive jsvalue :=
| JUndefined
| JNum (n : Z)
| JStr (s : string)
| JArr (l : list jsvalue)
| JBuiltin (name : string).

Module Token.

Record t := mk {
  str : string;
  metadata : JsObject.t jsvalue;
}.

Definition toString (tok : t) : string := str tok.

Definition update (fn : string → JsObject.t jsvalue → string) (tok : t) : t :=
  mk (fn (str tok) (metadata tok)) (metadata tok).

End Token.

(** The value of a document field: [doc[fieldName]] or the result of an
    extractor. *)
Inductive field_value :=
| FUndefined
| FNull
| FStr (s : string)
| FArr (l : list string)
| FBuiltin (name : string).

(** A document: a plain object. *)
Definition LunrDocument := JsObject.t field_value.

(** [doc[k]] *)
Definition doc_get (doc : LunrDocument) (k : string) : field_value :=
  match JsObject.get doc k with
  | JsObject.Own v => v
  | JsObject.Inherited => FBuiltin k
  | JsObject.Undefined => FUndefined
  end.

Fixpoint join (sep : string) (l : list string) : string :=
  match l with
  | [] => EmptyString
  | [x] => x
  | x :: l' => x ++ sep ++ join sep l'
  end.

(** A value used as a property key or in a string concatenation. *)
Definition to_key (v : field_value) : result string :=
  match v with
  | FUndefined => Ok "undefined"%string
  | FNull => Ok "null"%string
  | FStr s => Ok s
  | FArr l => Ok (join "," l)
  | FBuiltin _ => Unmodelled
  end.

Module JsChar.

(** [toLowerCase] on one code unit below 256. *)
Definition toLowerCase (c : ascii) : ascii :=
  let n := nat_of_ascii c in
  if ((65 <=? n) && (n <=? 90))
     || ((192 <=? n) && (n <=? 222) && negb (n =? 215))
  then ascii_of_nat (n + 32) else c.

(** [\s] on one code unit below 256. *)
Definition is_space (c : ascii) : bool :=
  let n := nat_of_ascii c in
  ((9 <=? n) && (n <=? 13)) || (n =? 32) || (n =? 160).

End JsChar.

Fixpoint toLowerCase (s : string) : string :=
  match s with
  | EmptyString => EmptyString
  | String c s' => String (JsChar.toLowerCase c) (toLowerCase s')
  end.

(** [char.match(tokenizer.separator)] for one character, with
    [tokenizer.separator = /[\s\-]+/]. *)
Definition is_separator (c : ascii) : bool :=
  JsChar.is_space c || bool_decide (c = "-"%char).

(** The [for] loop of [tokenizer]; [rest] is [str] from [sliceEnd] on. *)
Fixpoint tokenizer_loop (str : string) (metadata : JsObject.t jsvalue)
    (rest : list ascii) (sliceEnd sliceStart : nat) (tokens : list Token.t)
    : list Token.t :=
  let sliceLength := sliceEnd - sliceStart in
  let emit (tokens : list Token.t) :=
    if 0 <? sliceLength then
      let tokenMetadata :=
        JsObject.set
          (JsObject.set metadata "position"
             (JArr [JNum (Z.of_nat sliceStart); JNum (Z.of_nat sliceLength)]))
          "index" (JNum (Z.of_nat (length tokens))) in
      tokens ++ [Token.mk (substring sliceStart sliceLength str) tokenMetadata]
    else tokens in
  match rest with
  | [] => emit tokens
  | char :: rest' =>
      if is_separator char then
        tokenizer_loop str metadata rest' (S sliceEnd) (S sliceEnd) (emit tokens)
      else tokenizer_loop str metadata rest' (S sliceEnd) sliceStart tokens
  end.

(** [tokenizer(obj, metadata)] *)
Definition tokenizer (obj : field_value) (metadata : JsObject.t jsvalue)
    : result (list Token.t) :=
  match obj with
  | FUndefined | FNull => Ok []
  | FArr l => Ok (map (λ t, Token.mk (toLowerCase t) metadata) l)
  | FStr s =>
      let str := toLowerCase s in
      Ok (tokenizer_loop str metadata (chars str) 0 0 [])
  | FBuiltin _ => Unmodelled
  end.

Module Pipeline.

(** What a pipeline function returns: nothing ([null], [undefined] or
    ['']), one token or an array of tokens. *)
Inductive output :=
| Nothing
| One (tok : Token.t)
| Many (toks : list Token.t).

Definition PipelineFunction := Token.t → nat → list Token.t → output.

Definition t := list PipelineFunction.

Definition run_function (fn : PipelineFunction) (tokens : list Token.t)
    : list Token.t :=
  concat (imap (λ j tok,
                  match fn tok j tokens with
                  | Nothing => []
                  | One r => [r]
                  | Many rs => rs
                  end) tokens).

(** [run(tokens)] *)
Definition run (_stack : t) (tokens : list Token.t) : list Token.t :=
  fold_left (λ tokens fn, run_function fn tokens) _stack tokens.

(** [runString(str, metadata)] *)
Definition runString (_stack : t) (str : string)
    (metadata : JsObject.t jsvalue) : list string :=
  map Token.toString (run _stack [Token.mk str metadata]).

End Pipeline.

(* ================================================================== *)
(** * The index builder (src/Builder.ts) *)

(** A number held in an object that the code fills with [+=]: an
    integer, a double, or the string that [+=] makes of a built-in member
    of [Object.prototype]. *)
Inductive number_value :=
| NInt (z : Z)
| NFloat (x : float)
| NText.

(** An entry of a posting: [_index], or the documents of a field with
    their metadata. *)
Inductive posting_value :=
| PIndex (n : Z)
| PField (docs : JsObject.t (JsObject.t (list jsvalue))).

Definition posting := JsObject.t posting_value.

(** [a.sort()] on an array of strings. *)
Fixpoint insert_string (x : string) (l : list string) : list string :=
  match l with
  | [] => [x]
  | y :: l' =>
      if JsString.ltb (chars y) (chars x) then y :: insert_string x l'
      else x :: l
  end.

Definition sort_strings (l : list string) : list string :=
  fold_left (λ acc x, insert_string x acc) l [].

(** [LunrIndexAttrs]: what [build] passes to [new LunrIndex]. *)
Record LunrIndexAttrs := mkLunrIndexAttrs {
  attrs_invertedIndex : JsObject.t posting;
  attrs_fieldVectors : JsObject.t Vector.t;
  attrs_tokenSet : nat;
  attrs_fields : list string;
  attrs_pipeline : Pipeline.t;
}.

(** [inverseDocumentFrequency(posting, documentCount)]
    (src/inverseDocumentFrequency.ts); [log] is [Math.log]. *)
Definition inverseDocumentFrequency (log : float → float) (p : posting)
    (documentCount : Z) : float :=
  let documentsWithTerm :=
    fold_left
      (λ n fieldName,
         if decide (fieldName = "_index"%string) then n
         else
           match JsObject.get_own p fieldName with
           | Some (PField docs) => (n + Z.of_nat (length (JsObject.keys docs)))%Z
           | _ => n
           end)
      (JsObject.keys p) 0%Z in
  let x :=
    ((JsNumber.of_Z (documentCount - documentsWithTerm) + 0.5)
     / (JsNumber.of_Z documentsWithTerm + 0.5))%float in
  log (1 + PrimFloat.abs x)%float.

Module Builder.

Record field_attributes := mkFieldAttributes {
  extractor : option (LunrDocument → field_value);
  field_boost : option float;
}.

Record document_attributes := mkDocumentAttributes {
  document_boost : option float;
}.

Record t := mk {
  _ref : string;
  _fields : JsObject.t field_attributes;
  _documents : JsObject.t document_attributes;
  invertedIndex : JsObject.t posting;
  fieldTermFrequencies : JsObject.t (JsObject.t Z);
  fieldLengths : JsObject.t Z;
  tokenize : field_value → JsObject.t jsvalue → result (list Token.t);
  pipeline : Pipeline.t;
  searchPipeline : Pipeline.t;
  documentCount : Z;
  _b : float;
  _k1 : float;
  termIndex : Z;
  metadataWhitelist : list string;
  tokenSet : nat;
  averageFieldLength : JsObject.t number_value;
  fieldVectors : JsObject.t Vector.t;
}.

(** [new Builder()]; [1.2] is the double [0x1.3333333333333p+0]. *)
Definition new (w : world) : t * world :=
  let '(ts, w1) := new_TokenSet w in
  (mk "id" [] [] [] [] [] tokenizer [] [] 0 0.75 0x1.3333333333333p+0
      0 [] ts [] [], w1).

(** [field(fieldName, attributes)] *)
Definition field (b : t) (fieldName : string) (attributes : field_attributes)
    : result t :=
  if existsb (λ c, bool_decide (c = "/"%char)) (chars fieldName) then
    Throw (RangeError ("Field '" ++ fieldName ++ "' contains illegal character '/'"))
  else
    Ok (mk (_ref b) (JsObject.set (_fields b) fieldName attributes)
           (_documents b) (invertedIndex b) (fieldTermFrequencies b)
           (fieldLengths b) (tokenize b) (pipeline b) (searchPipeline b)
           (documentCount b) (_b b) (_k1 b) (termIndex b)
           (metadataWhitelist b) (tokenSet b) (averageFieldLength b)
           (fieldVectors b)).

(** The part of the builder that [add] changes. *)
Record indexed := mkIndexed {
  i_documents : JsObject.t document_attributes;
  i_invertedIndex : JsObject.t posting;
  i_fieldTermFrequencies : JsObject.t (JsObject.t Z);
  i_fieldLengths : JsObject.t Z;
  i_documentCount : Z;
  i_termIndex : Z;
}.

Definition indexed_of (b : t) : indexed :=
  mkIndexed (_documents b) (invertedIndex b) (fieldTermFrequencies b)
            (fieldLengths b) (documentCount b) (termIndex b).

Definition with_indexed (b : t) (i : indexed) : t :=
  mk (_ref b) (_fields b) (i_documents i) (i_invertedIndex i)
     (i_fieldTermFrequencies i) (i_fieldLengths i) (tokenize b) (pipeline b)
     (searchPipeline b) (i_documentCount i) (_b b) (_k1 b) (i_termIndex i)
     (metadataWhitelist b) (tokenSet b) (averageFieldLength b)
     (fieldVectors b).

(** [term.metadata[metadataKey]] *)
Definition token_metadata (term : Token.t) (metadataKey : string) : jsvalue :=
  match JsObject.get (Token.metadata term) metadataKey with
  | JsObject.Own v => v
  | JsObject.Inherited => JBuiltin metadataKey
  | JsObject.Undefined => JUndefined
  end.

(** The initial posting of a term. *)
Definition new_posting (fields : list string) (termIndex : Z) : posting :=
  fold_left (λ p field, JsObject.set p field (PField []))
            fields [("_index"%string, PIndex termIndex)].

(** The body of [for (const term of terms)] in [add]. *)
Definition add_term (b : t) (fieldName docRef : string) (term : Token.t)
    (st : JsObject.t Z * JsObject.t posting * Z)
    : result (JsObject.t Z * JsObject.t posting * Z) :=
  let '(fieldTerms, invertedIndex, termIndex) := st in
  let t := Token.toString term in
  let fieldTerms :=
    JsObject.set fieldTerms t
      (default 0 (JsObject.get_own fieldTerms t) + 1)%Z in
  let '(p, termIndex) :=
    match JsObject.get_own invertedIndex t with
    | None => (new_posting (JsObject.keys (_fields b)) termIndex,
               (termIndex + 1)%Z)
    | Some p => (p, termIndex)
    end in
  match JsObject.get_own p fieldName with
  | None => Throw (TypeError "Cannot read properties of undefined")
  | Some (PIndex _) => Unmodelled
  | Some (PField docs) =>
      let docs :=
        match JsObject.get_own docs docRef with
        | None => JsObject.set docs docRef []
        | Some _ => docs
        end in
      let entry := default [] (JsObject.get_own docs docRef) in
      let entry :=
        fold_left
          (λ entry metadataKey,
             JsObject.set entry metadataKey
               (default [] (JsObject.get_own entry metadataKey)
                  ++ [token_metadata term metadataKey]))
          (metadataWhitelist b) entry in
      let docs := JsObject.set docs docRef entry in
      Ok (fieldTerms,
          JsObject.set invertedIndex t (JsObject.set p fieldName (PField docs)),
          termIndex)
  end.

(** The terms of a field of a document: the tokenizer, then the
    pipeline. *)
Definition field_terms (b : t) (doc : LunrDocument) (fieldName : string)
    : result (list Token.t) :=
  let extractor :=
    match JsObject.get_own (_fields b) fieldName with
    | Some attributes => extractor attributes
    | None => None
    end in
  let field :=
    match extractor with
    | Some f => f doc
    | None => doc_get doc fieldName
    end in
  tokens ← tokenize b field [("fields"%string, JArr [JStr fieldName])];
  Ok (Pipeline.run (pipeline b) tokens).

(** The body of [for (const fieldName in this._fields)] in [add]. *)
Definition add_field (b : t) (doc : LunrDocument) (docRef fieldName : string)
    (i : indexed) : result indexed :=
  terms ← field_terms b doc fieldName;
  let fieldRef := FieldRef.toString (FieldRef.mk docRef fieldName None) in
  let fieldTermFrequencies :=
    JsObject.set (i_fieldTermFrequencies i) fieldRef [] in
  let fieldLengths :=
    JsObject.set_primitive (i_fieldLengths i) fieldRef
      (0 + Z.of_nat (length terms))%Z in
  '(fieldTerms, invertedIndex, termIndex) ←
    for_each (add_term b fieldName docRef) terms
             ([], i_invertedIndex i, i_termIndex i);
  Ok (mkIndexed (i_documents i) invertedIndex
        (JsObject.set fieldTermFrequencies fieldRef fieldTerms)
        fieldLengths (i_documentCount i) termIndex).

(** [add(doc, attributes)] *)
Definition add (b : t) (doc : LunrDocument)
    (attributes : option document_attributes) : result t :=
  docRef ← to_key (doc_get doc (_ref b));
  _documents ← set_object (_documents b) docRef
                 (default (mkDocumentAttributes None) attributes);
  let i := mkIndexed _documents (invertedIndex b) (fieldTermFrequencies b)
             (fieldLengths b) (documentCount b + 1)%Z (termIndex b) in
  i' ← for_each (add_field b doc docRef) (JsObject.keys (_fields b)) i;
  Ok (with_indexed b i').

(** [o[k] || (o[k] = 0); o[k] += n] on a plain object. *)
Definition accumulate (o : JsObject.t number_value) (k : string) (n : Z)
    : JsObject.t number_value :=
  let o :=
    match JsObject.get o k with
    | JsObject.Own (NInt 0) | JsObject.Undefined =>
        JsObject.set_primitive o k (NInt 0)
    | JsObject.Own (NFloat x) =>
        if JsNumber.truthy x then o else JsObject.set_primitive o k (NInt 0)
    | _ => o
    end in
  match JsObject.get o k with
  | JsObject.Own (NInt z) => JsObject.set_primitive o k (NInt (z + n))
  | JsObject.Own (NFloat x) =>
      JsObject.set_primitive o k (NFloat (x + JsNumber.of_Z n))
  | JsObject.Own NText | JsObject.Inherited => JsObject.set_primitive o k NText
  | JsObject.Undefined => JsObject.set_primitive o k (NFloat PrimFloat.nan)
  end.

(** [o[k]] where a number is expected. *)
Definition number_at (o : JsObject.t number_value) (k : string) : float :=
  match JsObject.get o k with
  | JsObject.Own (NInt z) => JsNumber.of_Z z
  | JsObject.Own (NFloat x) => x
  | _ => PrimFloat.nan
  end.

(** The first loop of [calculateAverageFieldLengths]. *)
Definition count_field (fieldLengths : JsObject.t Z) (fieldRefStr : string)
    (st : JsObject.t number_value * JsObject.t number_value)
    : result (JsObject.t number_value * JsObject.t number_value) :=
  let '(accumulator, documentsWithField) := st in
  fieldRef ← FieldRef.fromString fieldRefStr;
  let field := FieldRef.fieldName fieldRef in
  let documentsWithField := accumulate documentsWithField field 1 in
  match JsObject.get fieldLengths (FieldRef.toString fieldRef) with
  | JsObject.Own n => Ok (accumulate accumulator field n, documentsWithField)
  | _ => Unmodelled
  end.

(** [calculateAverageFieldLengths()]: the new [averageFieldLength]. *)
Definition calculateAverageFieldLengths (b : t)
    : result (JsObject.t number_value) :=
  '(accumulator, documentsWithField) ←
    for_each (count_field (fieldLengths b)) (JsObject.keys (fieldLengths b))
             ([], []);
  Ok (fold_left
        (λ accumulator fieldName,
           JsObject.set_primitive accumulator fieldName
             (NFloat (number_at accumulator fieldName
                      / number_at documentsWithField fieldName)%float))
        (JsObject.keys (_fields b)) accumulator).

Section Build.

(** [Math.log] and [Math.round]. *)
Context (log round : float → float).

(** [x || 1] for an optional number. *)
Definition or_one (x : option float) : float :=
  match x with
  | Some x => JsNumber.or_else x 1
  | None => 1%float
  end.

Definition with_averages (b : t) (averageFieldLength : JsObject.t number_value)
    : t :=
  mk (_ref b) (_fields b) (_documents b) (invertedIndex b)
     (fieldTermFrequencies b) (fieldLengths b) (tokenize b) (pipeline b)
     (searchPipeline b) (documentCount b) (_b b) (_k1 b) (termIndex b)
     (metadataWhitelist b) (tokenSet b) averageFieldLength (fieldVectors b).

Definition with_vectors (b : t) (fieldVectors : JsObject.t Vector.t) : t :=
  mk (_ref b) (_fields b) (_documents b) (invertedIndex b)
     (fieldTermFrequencies b) (fieldLengths b) (tokenize b) (pipeline b)
     (searchPipeline b) (documentCount b) (_b b) (_k1 b) (termIndex b)
     (metadataWhitelist b) (tokenSet b) (averageFieldLength b) fieldVectors.

Definition with_tokenSet (b : t) (tokenSet : nat) : t :=
  mk (_ref b) (_fields b) (_documents b) (invertedIndex b)
     (fieldTermFrequencies b) (fieldLengths b) (tokenize b) (pipeline b)
     (searchPipeline b) (documentCount b) (_b b) (_k1 b) (termIndex b)
     (metadataWhitelist b) tokenSet (averageFieldLength b) (fieldVectors b).

(** The body of [for (const term of terms)] in [createFieldVectors]. *)
Definition score_term (b : t) (fieldName : string)
    (fieldLength fieldBoost docBoost : float)
    (termFrequencies : JsObject.t Z) (term : string)
    (st : Vector.t * JsObject.t float) : result (Vector.t * JsObject.t float) :=
  let '(fieldVector, termIdfCache) := st in
  let tf := JsNumber.of_Z (default 0%Z (JsObject.get_own termFrequencies term)) in
  match JsObject.get_own (invertedIndex b) term with
  | None => Throw (TypeError "Cannot read properties of undefined")
  | Some p =>
      match JsObject.get_own p "_index" with
      | Some (PIndex termIndex) =>
          let '(idf, termIdfCache) :=
            match JsObject.get_own termIdfCache term with
            | None =>
                let idf := inverseDocumentFrequency log p (documentCount b) in
                (idf, JsObject.set termIdfCache term idf)
            | Some idf => (idf, termIdfCache)
            end in
          let score :=
            (idf * ((_k1 b + 1) * tf)
             / (_k1 b
                * (1 - _b b
                   + _b b * (fieldLength
                             / number_at (averageFieldLength b) fieldName))
                + tf))%float in
          let score := (score * fieldBoost)%float in
          let score := (score * docBoost)%float in
          let scoreWithPrecision := (round (score * 1000) / 1000)%float in
          match Vector.insert fieldVector termIndex scoreWithPrecision with
          | inl v => Ok (v, termIdfCache)
          | inr e => Throw e
          end
      | _ => Unmodelled
      end
  end.

(** The body of [for (const fieldRefStr of fieldRefs)] in
    [createFieldVectors]. *)
Definition create_field_vector (b : t) (fieldRefStr : string)
    (st : JsObject.t Vector.t * JsObject.t float)
    : result (JsObject.t Vector.t * JsObject.t float) :=
  let '(fieldVectors, termIdfCache) := st in
  fieldRef ← FieldRef.fromString fieldRefStr;
  let fieldName := FieldRef.fieldName fieldRef in
  let fieldLength :=
    match JsObject.get (fieldLengths b) (FieldRef.toString fieldRef) with
    | JsObject.Own n => JsNumber.of_Z n
    | _ => PrimFloat.nan
    end in
  match JsObject.get_own (fieldTermFrequencies b) (FieldRef.toString fieldRef) with
  | None => Throw (TypeError "Cannot convert undefined or null to object")
  | Some termFrequencies =>
      match JsObject.get_own (_fields b) fieldName with
      | None => Throw (TypeError "Cannot read properties of undefined")
      | Some attributes =>
          let fieldBoost := or_one (field_boost attributes) in
          docBoost ←
            match JsObject.get (_documents b) (FieldRef.docRef fieldRef) with
            | JsObject.Own attributes => Ok (or_one (document_boost attributes))
            | JsObject.Inherited => Ok 1%float
            | JsObject.Undefined =>
                Throw (TypeError "Cannot read properties of undefined")
            end;
          '(fieldVector, termIdfCache) ←
            for_each (score_term b fieldName fieldLength fieldBoost docBoost
                                 termFrequencies)
                     (JsObject.keys termFrequencies)
                     (Vector.empty, termIdfCache);
          fieldVectors ←
            set_object fieldVectors (FieldRef.toString fieldRef) fieldVector;
          Ok (fieldVectors, termIdfCache)
      end
  end.

(** [createFieldVectors()]: the new [fieldVectors]. *)
Definition createFieldVectors (b : t) : result (JsObject.t Vector.t) :=
  st ← for_each (create_field_vector b)
                (JsObject.keys (fieldTermFrequencies b)) ([], []);
  Ok st.1.

(** [createTokenSet()]: the new [tokenSet]. *)
Definition createTokenSet (b : t) (w : world) : result (nat * world) :=
  match fromArray w (map chars (sort_strings (JsObject.keys (invertedIndex b)))) with
  | inl r => Ok r
  | inr _ => Throw OutOfOrderWord
  end.

(** [build()]: the index attributes, the builder as [build] leaves it,
    and the store of token sets. *)
Definition build (b : t) (w : world) : result (LunrIndexAttrs * t * world) :=
  averageFieldLength ← calculateAverageFieldLengths b;
  let b := with_averages b averageFieldLength in
  fieldVectors ← createFieldVectors b;
  let b := with_vectors b fieldVectors in
  '(tokenSet, w) ← createTokenSet b w;
  let b := with_tokenSet b tokenSet in
  Ok (mkLunrIndexAttrs (invertedIndex b) (Builder.fieldVectors b)
        (Builder.tokenSet b) (JsObject.keys (_fields b)) (searchPipeline b),
      b, w).

End Build.

End Builder.

(* ================================================================== *)
(** * Facts about objects *)

Section JsObjectFacts.

Context {V : Type}.
Implicit Types (o : JsObject.t V) (k : string) (v : V).

Lemma get_own_set_eq o k v : JsObject.get_own (JsObject.set o k v) k = Some v.
Proof.
  induction o as [|[k' v'] o IH]; simpl.
  - by rewrite decide_True.
  - case_decide as Hk; simpl; [by rewrite decide_True|].
    by rewrite decide_False.
Qed.

Lemma get_own_set_ne o k k' v :
  k ≠ k' → JsObject.get_own (JsObject.set o k v) k' = JsObject.get_own o k'.
Proof.
  intros Hne. induction o as [|[k0 v0] o IH]; simpl.
  - by rewrite decide_False.
  - case_decide as Hk; simpl.
    + subst k0. by rewrite !decide_False.
    + case_decide; [done|]. apply IH.
Qed.

Lemma get_own_None o k : JsObject.get_own o k = None ↔ k ∉ o.*1.
Proof.
  induction o as [|[k' v'] o IH]; csimpl.
  - split; [|done]. intros _ Hin. by apply elem_of_nil in Hin.
  - destruct (decide (k' = k)) as [->|Hk].
    + split; [done|]. intros Hn. exfalso. apply Hn. left.
    + rewrite IH. rewrite not_elem_of_cons.
      split; [intros ?; split; [congruence | done] | by intros [_ ?]].
Qed.

Lemma get_own_elem_of o k v :
  NoDup o.*1 → (k, v) ∈ o → JsObject.get_own o k = Some v.
Proof.
  induction o as [|[k' v'] o IH]; csimpl.
  { intros _ Hin. by apply elem_of_nil in Hin. }
  intros [Hnin Hnd]%NoDup_cons [Heq|Hin]%elem_of_cons.
  - injection Heq as <- <-. by rewrite decide_True.
  - case_decide as Hk; [|by apply IH].
    subst k'. exfalso. apply Hnin. apply list_elem_of_fmap. by exists (k, v).
Qed.

Lemma set_keys o k v :
  (JsObject.set o k v).*1 = if decide (k ∈ o.*1) then o.*1 else o.*1 ++ [k].
Proof.
  induction o as [|[k' v'] o IH]; csimpl; [done|].
  destruct (decide (k' = k)) as [->|Hk]; csimpl.
  - rewrite decide_True; [done | left].
  - rewrite IH. destruct (decide (k ∈ o.*1)) as [Hin|Hnin].
    + rewrite decide_True; [done | by right].
    + rewrite decide_False; [done|]. rewrite not_elem_of_cons.
      split; [congruence | done].
Qed.

Lemma set_NoDup o k v : NoDup o.*1 → NoDup (JsObject.set o k v).*1.
Proof.
  intros Hnd. rewrite set_keys. case_decide as Hk; [done|].
  apply NoDup_app. split; [done|]. split; [|apply NoDup_singleton].
  intros x Hx ->%list_elem_of_singleton. done.
Qed.

Lemma get_set_primitive_eq o k v :
  k ≠ "__proto__"%string →
  JsObject.get (JsObject.set_primitive o k v) k = JsObject.Own v.
Proof.
  intros Hk. unfold JsObject.get, JsObject.set_primitive.
  by rewrite decide_False, get_own_set_eq.
Qed.

Lemma get_set_primitive_ne o k k' v :
  k ≠ k' →
  JsObject.get (JsObject.set_primitive o k v) k' = JsObject.get o k'.
Proof.
  intros Hk. unfold JsObject.get, JsObject.set_primitive.
  case_decide; [done|]. by rewrite get_own_set_ne.
Qed.

End JsObjectFacts.

Section KeyOrder.

Lemma insert_index_perm k n l : JsObject.insert_index k n l ≡ₚ (k, n) :: l.
Proof.
  induction l as [|[k' n'] l IH]; simpl; [done|].
  destruct (n <=? n')%N; [done|]. rewrite IH. apply Permutation_swap.
Qed.

(** [Object.keys] lists every own key once. *)
Lemma order_keys_perm ks : JsObject.order_keys ks ≡ₚ ks.
Proof.
  unfold JsObject.order_keys. induction ks as [|k ks IH]; [done|].
  simpl. rewrite filter_cons.
  destruct (JsObject.array_index k) as [n|] eqn:Hk.
  - rewrite decide_False by done.
    rewrite insert_index_perm. simpl. by rewrite IH.
  - rewrite decide_True by done.
    rewrite <- Permutation_middle. by rewrite IH.
Qed.

Lemma has_joiner_not_index k :
  is_Some (FieldRef.split k) → JsObject.array_index k = None.
Proof.
  intros Hs. unfold JsObject.array_index.
  destruct (chars k) as [|c rest] eqn:Hk; [done|].
  assert (forallb JsString.is_digit (c :: rest) = false) as ->; [|done].
  rewrite <- Hk. clear Hk c rest.
  induction k as [|c k IH]; simpl in *; [by destruct Hs|].
  case_decide as Hc.
  - subst c. done.
  - destruct (FieldRef.split k) as [[a b]|]; [|by destruct Hs].
    rewrite IH by eauto. apply andb_false_r.
Qed.

(** Keys that hold the joiner are enumerated in insertion order. *)
Lemma order_keys_field_refs ks :
  Forall (λ k, is_Some (FieldRef.split k)) ks → JsObject.order_keys ks = ks.
Proof.
  intros Hall. unfold JsObject.order_keys.
  induction Hall as [|k ks Hk Hall IH]; [done|].
  simpl. rewrite filter_cons, (has_joiner_not_index k Hk).
  rewrite decide_True by done.
  destruct (foldr _ _ ks) as [|e l] eqn:Hfold.
  - simpl in *. by rewrite IH.
  - simpl in IH. exfalso.
    assert (e.1 ∈ ks) as Hin.
    { rewrite <- IH. left. }
    assert (e.1 ∈ (foldr (λ k acc,
               match JsObject.array_index k with
               | Some n => JsObject.insert_index k n acc
               | None => acc
               end) [] ks).*1) as Hin'.
    { rewrite Hfold. left. }
    clear -Hall Hin'. induction Hall as [|k' ks Hk' Hall IH]; simpl in Hin'.
    + by apply elem_of_nil in Hin'.
    + rewrite (has_joiner_not_index k' Hk') in Hin'. by apply IH.
Qed.

End KeyOrder.

(* ================================================================== *)
(** * Average field lengths *)

(** The field of a field reference string. *)
Definition field_of (k : string) : option string := fst <$> FieldRef.split k.

(** The lengths recorded in [fieldLengths] for the field [f], one per
    field reference. *)
Definition recorded (fieldLengths : list (string * Z)) (f : string) : list Z :=
  (filter (λ e, field_of e.1 = Some f) fieldLengths).*2.

Definition sum_lengths (l : list Z) : Z := foldr Z.add 0%Z l.

(** The objects of a builder hold every key once, the keys of
    [fieldLengths] are field references and no field name holds the
    joiner. *)
Definition well_formed (b : Builder.t) : bool :=
  bool_decide
    (NoDup (Builder._fields b).*1
     ∧ NoDup (Builder.fieldLengths b).*1
     ∧ Forall (λ k, is_Some (FieldRef.split k)) (Builder.fieldLengths b).*1
     ∧ Forall (λ f, FieldRef.split f = None) (Builder._fields b).*1).

Section AverageFieldLengths.

Local Open Scope Z_scope.

Lemma not_member_not_proto f :
  JsObject.is_prototype_member f = false → f ≠ "__proto__"%string.
Proof. intros Hf ->. by vm_compute in Hf. Qed.

Lemma accumulate_ne o k k' n :
  k ≠ k' → JsObject.get (Builder.accumulate o k n) k' = JsObject.get o k'.
Proof.
  intros Hne. unfold Builder.accumulate.
  set (o1 := match JsObject.get o k with
             | JsObject.Own (NInt 0) | JsObject.Undefined =>
                 JsObject.set_primitive o k (NInt 0)
             | JsObject.Own (NFloat x) =>
                 if JsNumber.truthy x then o
                 else JsObject.set_primitive o k (NInt 0)
             | _ => o
             end).
  assert (JsObject.get o1 k' = JsObject.get o k') as Ho1.
  { unfold o1. destruct (JsObject.get o k) as [[[| |]|x|]| |];
      rewrite ?get_set_primitive_ne by done; try done.
    destruct (JsNumber.truthy x); by rewrite ?get_set_primitive_ne. }
  destruct (JsObject.get o1 k) as [[z|x|]| |];
    by rewrite get_set_primitive_ne.
Qed.

Lemma accumulate_first o f n :
  JsObject.is_prototype_member f = false →
  JsObject.get o f = JsObject.Undefined →
  JsObject.get (Builder.accumulate o f n) f = JsObject.Own (NInt n).
Proof.
  intros Hf%not_member_not_proto Hget. unfold Builder.accumulate.
  rewrite Hget. rewrite get_set_primitive_eq by done.
  by rewrite get_set_primitive_eq.
Qed.

Lemma accumulate_next o f z n :
  JsObject.is_prototype_member f = false →
  JsObject.get o f = JsObject.Own (NInt z) →
  JsObject.get (Builder.accumulate o f n) f = JsObject.Own (NInt (z + n)).
Proof.
  intros Hf%not_member_not_proto Hget. unfold Builder.accumulate.
  rewrite Hget. destruct z as [|p|p].
  - rewrite get_set_primitive_eq by done. by rewrite get_set_primitive_eq.
  - rewrite Hget. by rewrite get_set_primitive_eq.
  - rewrite Hget. by rewrite get_set_primitive_eq.
Qed.

(** What the two objects of [calculateAverageFieldLengths] hold for the
    field [f] once the lengths [lens] have been counted. *)
Definition counted (f : string) (lens : list Z)
    (st : JsObject.t number_value * JsObject.t number_value) : Prop :=
  match lens with
  | [] => JsObject.get st.1 f = JsObject.Undefined
          ∧ JsObject.get st.2 f = JsObject.Undefined
  | _ => JsObject.get st.1 f = JsObject.Own (NInt (sum_lengths lens))
         ∧ JsObject.get st.2 f = JsObject.Own (NInt (Z.of_nat (length lens)))
  end.

Lemma sum_lengths_snoc lens n : sum_lengths (lens ++ [n]) = sum_lengths lens + n.
Proof.
  unfold sum_lengths. induction lens as [|x lens IH]; simpl; [lia|].
  rewrite IH. lia.
Qed.

Lemma split_toString k :
  ∀ fld d, FieldRef.split k = Some (fld, d) →
  FieldRef.fromString k = Ok (FieldRef.mk d fld (Some k)).
Proof. intros fld d Hs. unfold FieldRef.fromString. by rewrite Hs. Qed.

Lemma count_field_eq (o : JsObject.t Z) k fld d n acc dwf :
  FieldRef.split k = Some (fld, d) → JsObject.get o k = JsObject.Own n →
  Builder.count_field o k (acc, dwf)
  = Ok (Builder.accumulate acc fld n, Builder.accumulate dwf fld 1).
Proof.
  intros Hk Hget. unfold Builder.count_field.
  rewrite (split_toString k fld d Hk).
  cbn [mbind result_bind FieldRef.toString FieldRef.stringValue
       FieldRef.fieldName].
  by rewrite Hget.
Qed.

Lemma recorded_cons k n (es : list (string * Z)) f :
  recorded ((k, n) :: es) f
  = if decide (field_of k = Some f) then n :: recorded es f else recorded es f.
Proof. unfold recorded. rewrite filter_cons. simpl. by case_decide. Qed.

Lemma count_fields_spec (o : JsObject.t Z) f :
  JsObject.is_prototype_member f = false → NoDup o.*1 →
  ∀ (es : list (string * Z)) st lens,
    (∀ e, e ∈ es → e ∈ o) →
    Forall (λ k, is_Some (FieldRef.split k)) es.*1 →
    counted f lens st →
    ∃ st', for_each (Builder.count_field o) es.*1 st = Ok st'
           ∧ counted f (lens ++ recorded es f) st'.
Proof.
  intros Hf Hnd. induction es as [|[k n] es IH]; intros st lens Hsub Hall Hc.
  - exists st. split; [done|]. unfold recorded. simpl. by rewrite app_nil_r.
  - change (((k, n) :: es).*1) with (k :: es.*1) in *.
    apply Forall_cons in Hall as [[[fld d] Hk] Hall].
    destruct st as [acc dwf]. cbn [for_each].
    assert (JsObject.get o k = JsObject.Own n) as Hget.
    { unfold JsObject.get. rewrite (get_own_elem_of o k n Hnd); [done|].
      apply Hsub. left. }
    rewrite (count_field_eq o k fld d n acc dwf Hk Hget).
    cbn [mbind result_bind]. rewrite recorded_cons.
    unfold field_of. rewrite Hk. simpl (fst <$> Some (fld, d)).
    destruct (decide (fld = f)) as [->|Hne].
    + rewrite decide_True by done.
      destruct (IH (Builder.accumulate acc f n, Builder.accumulate dwf f 1)
                   (lens ++ [n])) as (st' & Hrun & Hc').
      { intros e He. apply Hsub. by right. }
      { done. }
      { unfold counted in *. destruct lens as [|x lens]; simpl.
        - destruct Hc as [Ha Hd]. simpl in Ha, Hd.
          rewrite (accumulate_first acc f n Hf Ha).
          rewrite (accumulate_first dwf f 1 Hf Hd).
          split; [f_equal; f_equal; unfold sum_lengths; simpl; lia | done].
        - destruct Hc as [Ha Hd]. simpl in Ha, Hd.
          rewrite (accumulate_next acc f _ n Hf Ha).
          rewrite (accumulate_next dwf f _ 1 Hf Hd).
          split; f_equal; f_equal.
          + rewrite sum_lengths_snoc. lia.
          + rewrite length_app. simpl. lia. }
      exists st'. split; [done|].
      by rewrite <- app_assoc in Hc'.
    + rewrite decide_False by congruence.
      destruct (IH (Builder.accumulate acc fld n, Builder.accumulate dwf fld 1)
                   lens) as (st' & Hrun & Hc').
      { intros e He. apply Hsub. by right. }
      { done. }
      { unfold counted in *. simpl.
        rewrite !accumulate_ne by done. done. }
      exists st'. split; [done|]. done.
Qed.

Lemma average_fold f (dwf : JsObject.t number_value) :
  JsObject.is_prototype_member f = false →
  ∀ fs (acc : JsObject.t number_value),
    NoDup fs → f ∈ fs →
    JsObject.get
      (fold_left
         (λ accumulator fieldName,
            JsObject.set_primitive accumulator fieldName
              (NFloat (Builder.number_at accumulator fieldName
                       / Builder.number_at dwf fieldName)%float))
         fs acc) f
    = JsObject.Own (NFloat (Builder.number_at acc f / Builder.number_at dwf f)%float).
Proof.
  intros Hf%not_member_not_proto.
  assert (∀ fs (acc : JsObject.t number_value), f ∉ fs →
            JsObject.get
              (fold_left
                 (λ accumulator fieldName,
                    JsObject.set_primitive accumulator fieldName
                      (NFloat (Builder.number_at accumulator fieldName
                               / Builder.number_at dwf fieldName)%float))
                 fs acc) f = JsObject.get acc f) as Hskip.
  { induction fs as [|g fs IH]; intros acc Hnin; [done|].
    apply not_elem_of_cons in Hnin as [Hne Hnin]. simpl.
    rewrite IH by done. by rewrite get_set_primitive_ne. }
  induction fs as [|g fs IH]; intros acc Hnd Hin; [by apply elem_of_nil in Hin|].
  apply NoDup_cons in Hnd as [Hg Hnd]. simpl.
  destruct (decide (g = f)) as [->|Hne].
  - rewrite Hskip by done. by rewrite get_set_primitive_eq.
  - apply elem_of_cons in Hin as [->|Hin]; [done|].
    rewrite IH by done. unfold Builder.number_at.
    by rewrite get_set_primitive_ne.
Qed.

Lemma calculateAverageFieldLengths_spec (b : Builder.t) f :
  well_formed b = true →
  f ∈ (Builder._fields b).*1 →
  JsObject.is_prototype_member f = false →
  ∃ averageFieldLength,
    Builder.calculateAverageFieldLengths b = Ok averageFieldLength
    ∧ JsObject.get averageFieldLength f
      = JsObject.Own
          (NFloat (JsNumber.of_Z (sum_lengths (recorded (Builder.fieldLengths b) f))
                   / JsNumber.of_Z
                       (Z.of_nat (length (recorded (Builder.fieldLengths b) f))))%float).
Proof.
  intros Hwf Hin Hf. unfold well_formed in Hwf.
  apply bool_decide_eq_true in Hwf as (Hndf & Hndl & Hsplit & _).
  unfold Builder.calculateAverageFieldLengths.
  change (JsObject.keys (Builder.fieldLengths b))
    with (JsObject.order_keys (Builder.fieldLengths b).*1).
  rewrite (order_keys_field_refs _ Hsplit).
  destruct (count_fields_spec (Builder.fieldLengths b) f Hf Hndl
              (Builder.fieldLengths b) ([], []) [])
    as ([acc dwf] & Hrun & Hc);
    [done | done | by unfold counted, JsObject.get; simpl; rewrite Hf |].
  rewrite Hrun. cbn [mbind result_bind]. eexists. split; [reflexivity|].
  rewrite average_fold; [|done | |].
  - unfold counted in Hc. cbn [fst snd] in Hc. unfold Builder.number_at.
    destruct (recorded (Builder.fieldLengths b) f) as [|x lens];
      destruct Hc as [-> ->]; reflexivity.
  - unfold JsObject.keys. by rewrite order_keys_perm.
  - unfold JsObject.keys. by rewrite order_keys_perm.
Qed.

End AverageFieldLengths.

Section AddRecordsLengths.

Lemma bind_Ok {A B} (m : result A) (f : A → result B) b :
  m ≫= f = Ok b → ∃ a, m = Ok a ∧ f a = Ok b.
Proof. destruct m as [a| | |]; simpl; [eauto | done | done | done]. Qed.

Lemma split_app f d :
  FieldRef.split f = None →
  FieldRef.split (f ++ String FieldRef.joiner d) = Some (f, d).
Proof.
  induction f as [|c f IH]; simpl; [done|].
  case_decide; [done|]. destruct (FieldRef.split f) as [[a b]|]; [done|].
  intros _. by rewrite IH.
Qed.

Lemma split_app_Some f d : is_Some (FieldRef.split (f ++ String FieldRef.joiner d)).
Proof.
  induction f as [|c f IH]; simpl; [eauto|].
  case_decide; [eauto|]. destruct IH as [[a b] ->]. eauto.
Qed.

Lemma field_ref_not_proto f d :
  (f ++ String FieldRef.joiner d)%string ≠ "__proto__"%string.
Proof.
  intros Heq. pose proof (split_app_Some f d) as Hs. rewrite Heq in Hs.
  by destruct Hs.
Qed.

Lemma run_nil (stack : Pipeline.t) : Pipeline.run stack [] = [].
Proof. induction stack as [|fn stack IH]; [done | apply IH]. Qed.

(** A document without the field yields no term under the tokenizer of
    the library. *)
Lemma field_terms_missing (b : Builder.t) (doc : LunrDocument) f :
  Builder.tokenize b = tokenizer →
  (∀ a, JsObject.get_own (Builder._fields b) f = Some a →
        Builder.extractor a = None) →
  JsObject.get doc f = JsObject.Undefined →
  Builder.field_terms b doc f = Ok [].
Proof.
  intros Htok Hext Hdoc. unfold Builder.field_terms.
  assert (match JsObject.get_own (Builder._fields b) f with
          | Some attributes => Builder.extractor attributes
          | None => None
          end = None) as ->.
  { destruct (JsObject.get_own (Builder._fields b) f) as [a|] eqn:Ha; [|done].
    by apply Hext. }
  unfold doc_get. rewrite Hdoc, Htok. simpl. by rewrite run_nil.
Qed.

Definition lengths_ok (fieldLengths : JsObject.t Z) : Prop :=
  NoDup fieldLengths.*1
  ∧ Forall (λ k, is_Some (FieldRef.split k)) fieldLengths.*1.

Lemma add_field_spec (b : Builder.t) doc docRef f i i' :
  Builder.add_field b doc docRef f i = Ok i' →
  ∃ terms,
    Builder.field_terms b doc f = Ok terms
    ∧ Builder.i_fieldLengths i'
      = JsObject.set (Builder.i_fieldLengths i)
          (f ++ String FieldRef.joiner docRef) (Z.of_nat (length terms)).
Proof.
  unfold Builder.add_field. intros (terms & Hterms & Hrest)%bind_Ok.
  exists terms. split; [done|].
  apply bind_Ok in Hrest as ([[fieldTerms invertedIndex] termIndex] & _ & Hi).
  injection Hi as <-. cbn [Builder.i_fieldLengths].
  unfold JsObject.set_primitive, FieldRef.toString. simpl.
  rewrite decide_False by apply field_ref_not_proto. done.
Qed.

Lemma lengths_ok_set o f d n :
  lengths_ok o → lengths_ok (JsObject.set o (f ++ String FieldRef.joiner d) n).
Proof.
  intros [Hnd Hall]. split; [by apply set_NoDup|].
  rewrite set_keys. case_decide; [done|].
  apply Forall_app. split; [done|]. apply Forall_singleton, split_app_Some.
Qed.

Lemma add_fields_spec (b : Builder.t) doc docRef : ∀ fs i i',
  Forall (λ f, FieldRef.split f = None) fs →
  for_each (Builder.add_field b doc docRef) fs i = Ok i' →
  lengths_ok (Builder.i_fieldLengths i) →
  lengths_ok (Builder.i_fieldLengths i')
  ∧ (∀ k, (∀ f, f ∈ fs → k ≠ (f ++ String FieldRef.joiner docRef)%string) →
          JsObject.get_own (Builder.i_fieldLengths i') k
          = JsObject.get_own (Builder.i_fieldLengths i) k)
  ∧ ∀ f, f ∈ fs →
      ∃ terms, Builder.field_terms b doc f = Ok terms
        ∧ JsObject.get_own (Builder.i_fieldLengths i')
            (f ++ String FieldRef.joiner docRef)
          = Some (Z.of_nat (length terms)).
Proof.
  induction fs as [|g fs IH]; intros i i' Hfs Hrun Hok.
  - injection Hrun as <-. split; [done|]. split; [done|].
    intros f Hf. by apply elem_of_nil in Hf.
  - apply Forall_cons in Hfs as [Hg Hfs]. cbn [for_each] in Hrun.
    apply bind_Ok in Hrun as (i1 & Hadd & Hrun).
    destruct (add_field_spec _ _ _ _ _ _ Hadd) as (terms & Hterms & Hlen).
    destruct (IH i1 i' Hfs Hrun) as (Hok' & Hframe & Hrec).
    { rewrite Hlen. by apply lengths_ok_set. }
    split; [done|]. split.
    + intros k Hk. rewrite Hframe.
      * rewrite Hlen. apply get_own_set_ne. apply not_eq_sym, Hk. left.
      * intros f Hf. apply Hk. by right.
    + intros f Hf.
      destruct (decide (f ∈ fs)) as [Hin|Hnin]; [by apply Hrec|].
      apply elem_of_cons in Hf as [->|Hf]; [|done].
      exists terms. split; [done|]. rewrite Hframe.
      * rewrite Hlen. apply get_own_set_eq.
      * intros f Hf Heq.
        assert (FieldRef.split f = None) as Hsf.
        { rewrite Forall_forall in Hfs. by apply Hfs. }
        pose proof (split_app g docRef Hg) as H1.
        rewrite Heq, (split_app f docRef Hsf) in H1.
        injection H1 as ->. done.
Qed.

(** [add] records a length for every registered field of the document. *)
Lemma add_spec (b b' : Builder.t) doc attributes :
  well_formed b = true →
  Builder.add b doc attributes = Ok b' →
  well_formed b' = true
  ∧ Builder._fields b' = Builder._fields b
  ∧ ∃ docRef, to_key (doc_get doc (Builder._ref b)) = Ok docRef
    ∧ ∀ f, f ∈ (Builder._fields b).*1 →
        ∃ terms, Builder.field_terms b doc f = Ok terms
          ∧ JsObject.get_own (Builder.fieldLengths b')
              (f ++ String FieldRef.joiner docRef)
            = Some (Z.of_nat (length terms)).
Proof.
  intros Hwf Hadd. unfold well_formed in Hwf.
  apply bool_decide_eq_true in Hwf as (Hndf & Hndl & Hsplit & Hfields).
  unfold Builder.add in Hadd.
  apply bind_Ok in Hadd as (docRef & HdocRef & Hadd).
  apply bind_Ok in Hadd as (docs & _ & Hadd).
  apply bind_Ok in Hadd as (i' & Hrun & Hb').
  injection Hb' as <-.
  assert (Forall (λ f, FieldRef.split f = None)
            (JsObject.keys (Builder._fields b))) as Hkeys.
  { unfold JsObject.keys. by rewrite order_keys_perm. }
  destruct (add_fields_spec b doc docRef _ _ _ Hkeys Hrun)
    as ((Hnd' & Hsplit') & _ & Hrec); [by split|].
  split; [|split; [done|]].
  - unfold well_formed. apply bool_decide_eq_true. simpl. done.
  - exists docRef. split; [done|]. intros f Hf. apply Hrec.
    unfold JsObject.keys. by rewrite order_keys_perm.
Qed.

End AddRecordsLengths.

(* ================================================================== *)
(** * Sets of document references (src/LunrSet.ts) *)

Module LunrSet.

(** [completeLunrSet], [emptyLunrSet], or an instance of [LunrSet]
    itself, with its plain object of elements and its [length]. *)
Inductive t :=
| Complete
| Empty
| Elements (elements : JsObject.t bool) (length : nat).

(** [new LunrSet(elements)] *)
Definition new (elements : list string) : t :=
  Elements
    (fold_left (λ o element, JsObject.set_primitive o element true)
               elements [])
    (length elements).

(** [contains(object)]: [!!this.elements[object]] *)
Definition contains (s : t) (object : string) : bool :=
  match s with
  | Complete => true
  | Empty => false
  | Elements elements _ =>
      match JsObject.get elements object with
      | JsObject.Own b => b
      | JsObject.Inherited => true
      | JsObject.Undefined => false
      end
  end.

(** [intersect(other)] *)
Definition intersect (s other : t) : t :=
  match s with
  | Complete => other
  | Empty => Empty
  | Elements elements length =>
      match other with
      | Complete => s
      | Empty => Empty
      | Elements elements' length' =>
          let '(a, b) :=
            if length <? length' then (elements, elements')
            else (elements', elements) in
          new (filter (λ element, JsObject.has b element = true)
                      (JsObject.keys a))
      end
  end.

(** [union(other)] *)
Definition union (s other : t) : t :=
  match s with
  | Complete => Complete
  | Empty => other
  | Elements elements _ =>
      match other with
      | Complete => Complete
      | Empty => s
      | Elements elements' _ =>
          new (JsObject.keys elements ++ JsObject.keys elements')
      end
  end.

End LunrSet.

(* ================================================================== *)
(** * Match data (src/MatchData.ts) *)

Module MatchData.

(** [metadata[term][field][key]] is an array; the three levels are plain
    objects. *)
Record t := mk {
  metadata : JsObject.t (JsObject.t (JsObject.t (list jsvalue)));
}.

(** [new MatchData()] *)
Definition empty : t := mk [].

(** [new MatchData(term, field, metadata)] *)
Definition new (term field : string) (metadata : JsObject.t (list jsvalue))
    : result t :=
  clonedMetadata ←
    for_each (λ key cloned,
                set_object cloned key (default [] (JsObject.get_own metadata key)))
             (JsObject.keys metadata) [];
  byField ← set_object [] field clonedMetadata;
  byTerm ← set_object [] term byField;
  Ok (mk byTerm).

(** [o[k]] where the code goes on to read or write a property of the
    value. *)
Definition own_or_undefined {V} (o : JsObject.t V) (k : string)
    : result (option V) :=
  match JsObject.get o k with
  | JsObject.Own v => Ok (Some v)
  | JsObject.Inherited => Unmodelled
  | JsObject.Undefined => Ok None
  end.

(** The body of [for (const key of keys)] in [combine]. *)
Definition combine_key (other : JsObject.t (list jsvalue)) (key : string)
    (this : JsObject.t (list jsvalue)) : result (JsObject.t (list jsvalue)) :=
  let theirs := default [] (JsObject.get_own other key) in
  mine ← own_or_undefined this key;
  match mine with
  | None => set_object this key theirs
  | Some l => set_object this key (l ++ theirs)
  end.

(** The body of [for (const field of fields)] in [combine]. *)
Definition combine_field (other : JsObject.t (JsObject.t (list jsvalue)))
    (field : string) (this : JsObject.t (JsObject.t (list jsvalue)))
    : result (JsObject.t (JsObject.t (list jsvalue))) :=
  let theirs := default [] (JsObject.get_own other field) in
  mine ← own_or_undefined this field;
  byKey ← for_each (combine_key theirs) (JsObject.keys theirs)
                   (default [] mine);
  set_object this field byKey.

(** The body of [for (const term of terms)] in [combine]. *)
Definition combine_term
    (other : JsObject.t (JsObject.t (JsObject.t (list jsvalue))))
    (term : string)
    (this : JsObject.t (JsObject.t (JsObject.t (list jsvalue))))
    : result (JsObject.t (JsObject.t (JsObject.t (list jsvalue)))) :=
  let theirs := default [] (JsObject.get_own other term) in
  mine ← own_or_undefined this term;
  this ← match mine with
         | None => set_object this term []
         | Some _ => Ok this
         end;
  byField ← for_each (combine_field theirs) (JsObject.keys theirs)
                     (default [] mine);
  set_object this term byField.

(** [combine(otherMatchData)] *)
Definition combine (this otherMatchData : t) : result t :=
  m ← for_each (combine_term (metadata otherMatchData))
               (JsObject.keys (metadata otherMatchData)) (metadata this);
  Ok (mk m).

(** [add(term, field, metadata)] *)
Definition add (this : t) (term field : string)
    (metadata' : JsObject.t (list jsvalue)) : result t :=
  byTerm ← own_or_undefined (metadata this) term;
  match byTerm with
  | None =>
      byField ← set_object [] field metadata';
      m ← set_object (metadata this) term byField;
      Ok (mk m)
  | Some byField =>
      mine ← own_or_undefined byField field;
      match mine with
      | None =>
          byField ← set_object byField field metadata';
          m ← set_object (metadata this) term byField;
          Ok (mk m)
      | Some byKey =>
          byKey ←
            for_each
              (λ key byKey,
                 let theirs := default [] (JsObject.get_own metadata' key) in
                 old ← own_or_undefined byKey key;
                 match old with
                 | Some l => set_object byKey key (l ++ theirs)
                 | None => set_object byKey key theirs
                 end)
              (JsObject.keys metadata') byKey;
          byField ← set_object byField field byKey;
          m ← set_object (metadata this) term byField;
          Ok (mk m)
      end
  end.

End MatchData.

(* ================================================================== *)
(** * Queries (src/Query.ts) *)

Module Query.

(** [Query.presence] *)
Inductive presence_t :=
| OPTIONAL
| REQUIRED
| PROHIBITED.

(** [QueryWildCard] *)
Definition NONE : N := 0.
Definition LEADING : N := 1.
Definition TRAILING : N := 2.

(** A clause; [None] is a property that is absent. *)
Record QueryClause := mkClause {
  editDistance : option nat;
  wildcard : option N;
  fields : option (list string);
  boost : option float;
  usePipeline : option bool;
  term : option string;
  presence : option presence_t;
}.

(** [{}] *)
Definition empty_clause : QueryClause :=
  mkClause None None None None None None None.

Record t := mk {
  clauses : list QueryClause;
  allFields : list string;
}.

(** [new Query(allFields)] *)
Definition new (allFields : list string) : t := mk [] allFields.

(** [clause.term] in a string concatenation. *)
Definition term_text (term : option string) : string :=
  match term with
  | Some s => s
  | None => "undefined"
  end.

Definition starts_with_star (s : string) : bool :=
  match s with
  | String c _ => bool_decide (c = star)
  | EmptyString => false
  end.

Fixpoint ends_with_star (s : string) : bool :=
  match s with
  | EmptyString => false
  | String c EmptyString => bool_decide (c = star)
  | String _ s' => ends_with_star s'
  end.

(** [!clause.term || test(clause.term)] *)
Definition missing_or (test : string → bool) (term : option string) : bool :=
  match term with
  | None | Some EmptyString => true
  | Some s => test s
  end.

(** [clause(clause)] *)
Definition clause (q : t) (c : QueryClause) : t :=
  let fields := match fields c with None => allFields q | Some f => f end in
  let boost := match boost c with None => 1%float | Some b => b end in
  let usePipeline := default true (usePipeline c) in
  let wildcard_property := default NONE (wildcard c) in
  let wildcard := wildcard_property in
  let term :=
    if negb (N.land wildcard LEADING =? 0)%N
       && missing_or (λ s, negb (starts_with_star s)) (term c)
    then Some (String star (term_text (term c)))
    else term c in
  let term :=
    if negb (N.land wildcard TRAILING =? 0)%N
       && missing_or (λ s, negb (ends_with_star s)) term
    then Some (term_text term ++ String star EmptyString)%string
    else term in
  let presence := default OPTIONAL (presence c) in
  mk (clauses q
        ++ [mkClause (editDistance c) (Some wildcard_property) (Some fields)
              (Some boost) (Some usePipeline) term (Some presence)])
     (allFields q).

(** [isNegated()] *)
Definition isNegated (q : t) : bool :=
  forallb (λ c, match presence c with
                | Some PROHIBITED => true
                | _ => false
                end) (clauses q).

(** [term(term, options)] for one term. *)
Definition term_ (q : t) (term : string) (options : option QueryClause) : t :=
  let c := default empty_clause options in
  clause q (mkClause (editDistance c) (wildcard c) (fields c) (boost c)
              (usePipeline c) (Some term) (presence c)).

(** [term(terms, options)] for an array of terms. *)
Definition terms (q : t) (terms : list string) (options : option QueryClause)
    : t :=
  fold_left (λ q t, term_ q t options) terms q.

End Query.

(* ================================================================== *)
(** * The query lexer (src/QueryLexer.ts) *)

Module QueryLexer.

Inductive lexeme_type :=
| FIELD
| TERM
| EDIT_DISTANCE
| BOOST
| PRESENCE.

Definition type_name (ty : lexeme_type) : string :=
  match ty with
  | FIELD => "FIELD"
  | TERM => "TERM"
  | EDIT_DISTANCE => "EDIT_DISTANCE"
  | BOOST => "BOOST"
  | PRESENCE => "PRESENCE"
  end.

Record Lexem := mkLexem {
  type : lexeme_type;
  lexeme_str : string;
  lexeme_start : nat;
  lexeme_end : nat;
}.

Record t := mk {
  str : string;
  lexemes : list Lexem;
  pos : nat;
  start : nat;
  escapeCharPositions : list nat;
}.

(** [new QueryLexer(str)] *)
Definition new (str : string) : t := mk str [] 0 0 [].

(** [str.slice(a, b)] for [a] and [b] that are not negative. *)
Definition slice (s : string) (a b : nat) : string := substring a (b - a) s.

(** [sliceString()], which also empties [escapeCharPositions]. *)
Definition sliceString (l : t) : string :=
  let '(subSlices, sliceStart) :=
    fold_left
      (λ '(subSlices, sliceStart) sliceEnd,
         (subSlices ++ [slice (str l) sliceStart sliceEnd], S sliceEnd))
      (escapeCharPositions l) ([], start l) in
  join "" (subSlices ++ [slice (str l) sliceStart (pos l)]).

(** [emit(type)] *)
Definition emit (ty : lexeme_type) (l : t) : t :=
  mk (str l)
     (lexemes l ++ [mkLexem ty (sliceString l) (start l) (pos l)])
     (pos l) (pos l) [].

(** [escapeCharacter()] *)
Definition escapeCharacter (l : t) : t :=
  mk (str l) (lexemes l) (pos l + 1) (start l)
     (escapeCharPositions l ++ [pos l - 1]).

(** [next()]; [None] is [QueryLexer.EOS]. *)
Definition next (l : t) : option ascii * t :=
  if String.length (str l) <=? pos l then (None, l)
  else (String.get (pos l) (str l),
        mk (str l) (lexemes l) (pos l + 1) (start l) (escapeCharPositions l)).

(** [width()] *)
Definition width (l : t) : nat := pos l - start l.

(** [ignore()] *)
Definition ignore (l : t) : t :=
  let pos := if start l =? pos l then pos l + 1 else pos l in
  mk (str l) (lexemes l) pos pos (escapeCharPositions l).

(** [backup()] *)
Definition backup (l : t) : t :=
  mk (str l) (lexemes l) (pos l - 1) (start l) (escapeCharPositions l).

(** [acceptDigitRun()]; at most [fuel] characters are read. *)
Fixpoint acceptDigitRun (fuel : nat) (l : t) : t :=
  match fuel with
  | 0 => l
  | S fuel' =>
      let '(char, l1) := next l in
      match char with
      | None => l1
      | Some c =>
          if JsString.is_digit c then acceptDigitRun fuel' l1 else backup l1
      end
  end.

(** [more()] *)
Definition more (l : t) : bool := pos l <? String.length (str l).

(** The states of the lexer. *)
Inductive state :=
| lexText
| lexField
| lexTerm
| lexEditDistance
| lexBoost
| lexEOS.

(** One call of a state function; an iteration of the loop of [lexText]
    that goes on is a return to [lexText].  [None] ends [run]. *)
Definition step (s : state) (l : t) : option state * t :=
  match s with
  | lexField => (Some lexText, ignore (emit FIELD (backup l)))
  | lexTerm =>
      let l := if 1 <? width l then emit TERM (backup l) else l in
      let l := ignore l in
      (if more l then Some lexText else None, l)
  | lexEditDistance =>
      (Some lexText,
       emit EDIT_DISTANCE
         (acceptDigitRun (S (String.length (str l))) (ignore l)))
  | lexBoost =>
      (Some lexText,
       emit BOOST (acceptDigitRun (S (String.length (str l))) (ignore l)))
  | lexEOS => (None, if 0 <? width l then emit TERM l else l)
  | lexText =>
      let '(char, l) := next l in
      match char with
      | None => (Some lexEOS, l)
      | Some c =>
          if nat_of_ascii c =? 92 then (Some lexText, escapeCharacter l)
          else if bool_decide (c = ":"%char) then (Some lexField, l)
          else if bool_decide (c = "~"%char) then
            let l := backup l in
            (Some lexEditDistance, if 0 <? width l then emit TERM l else l)
          else if bool_decide (c = "^"%char) then
            let l := backup l in
            (Some lexBoost, if 0 <? width l then emit TERM l else l)
          else if bool_decide (c = "+"%char) && (width l =? 1) then
            (Some lexText, emit PRESENCE l)
          else if bool_decide (c = "-"%char) && (width l =? 1) then
            (Some lexText, emit PRESENCE l)
          else if is_separator c then (Some lexTerm, l)
          else (Some lexText, l)
      end
  end.

(** [run()]: [while (state) state = state(this)]. *)
Fixpoint run_loop (fuel : nat) (s : state) (l : t) : option t :=
  match fuel with
  | 0 => None
  | S fuel' =>
      match step s l with
      | (Some s', l') => run_loop fuel' s' l'
      | (None, l') => Some l'
      end
  end.

Definition run (fuel : nat) (l : t) : option t := run_loop fuel lexText l.

End QueryLexer.

(* ================================================================== *)
(** * The query parser (src/QueryParser.ts) *)

(** [parseInt(s, 10)]; [None] is [NaN]. *)
Definition parseInt (s : string) : option Z :=
  let fix skip (l : list ascii) : list ascii :=
    match l with
    | c :: l' => if JsChar.is_space c then skip l' else l
    | [] => []
    end in
  let '(negative, l) :=
    match skip (chars s) with
    | "-"%char :: l => (true, l)
    | "+"%char :: l => (false, l)
    | l => (false, l)
    end in
  let fix digits (l : list ascii) : list ascii :=
    match l with
    | c :: l' => if JsString.is_digit c then c :: digits l' else []
    | [] => []
    end in
  match digits l with
  | [] => None
  | ds =>
      let n := Z.of_N (JsObject.digits_value ds) in
      Some (if negative then (- n)%Z else n)
  end.

Module QueryParser.

Record t := mk {
  currentClause : Query.QueryClause;
  lexemeIdx : nat;
  lexemes : list QueryLexer.Lexem;
  query : Query.t;
}.

(** The states of the parser. *)
Inductive state :=
| parseClause
| parsePresence
| parseField
| parseTerm
| parseEditDistance
| parseBoost.

(** [peekLexeme()] *)
Definition peekLexeme (p : t) : option QueryLexer.Lexem :=
  lexemes p !! lexemeIdx p.

(** [consumeLexeme()] *)
Definition consumeLexeme (p : t) : option QueryLexer.Lexem * t :=
  (peekLexeme p,
   mk (currentClause p) (lexemeIdx p + 1) (lexemes p) (query p)).

(** [nextClause()] *)
Definition nextClause (p : t) : t :=
  mk Query.empty_clause (lexemeIdx p) (lexemes p)
     (Query.clause (query p) (currentClause p)).

Definition with_clause (p : t) (c : Query.QueryClause) : t :=
  mk c (lexemeIdx p) (lexemes p) (query p).

Definition error {A} (message : string) (lexeme : QueryLexer.Lexem)
    : result A :=
  Throw (QueryParseError message (QueryLexer.lexeme_start lexeme)
           (QueryLexer.lexeme_end lexeme)).

(** The [switch] that ends [parseTerm], [parseEditDistance] and
    [parseBoost]. *)
Definition after_term (p : t) : result (option state * t) :=
  match peekLexeme p with
  | None => Ok (None, nextClause p)
  | Some nextLexeme =>
      match QueryLexer.type nextLexeme with
      | QueryLexer.TERM => Ok (Some parseTerm, nextClause p)
      | QueryLexer.FIELD => Ok (Some parseField, nextClause p)
      | QueryLexer.EDIT_DISTANCE => Ok (Some parseEditDistance, p)
      | QueryLexer.BOOST => Ok (Some parseBoost, p)
      | QueryLexer.PRESENCE => Ok (Some parsePresence, nextClause p)
      end
  end.

(** One call of a state function; [None] ends [parse]. *)
Definition step (s : state) (p : t) : result (option state * t) :=
  match s with
  | parseClause =>
      match peekLexeme p with
      | None => Ok (None, p)
      | Some lexeme =>
          match QueryLexer.type lexeme with
          | QueryLexer.PRESENCE => Ok (Some parsePresence, p)
          | QueryLexer.FIELD => Ok (Some parseField, p)
          | QueryLexer.TERM => Ok (Some parseTerm, p)
          | _ =>
              error (" with value '" ++ QueryLexer.lexeme_str lexeme ++ "'")
                    lexeme
          end
      end
  | parsePresence =>
      let '(lexeme, p) := consumeLexeme p in
      match lexeme with
      | None => Ok (None, p)
      | Some lexeme =>
          let c := currentClause p in
          let set_presence pr :=
            with_clause p
              (Query.mkClause (Query.editDistance c) (Query.wildcard c)
                 (Query.fields c) (Query.boost c) (Query.usePipeline c)
                 (Query.term c) (Some pr)) in
          p ← (if decide (QueryLexer.lexeme_str lexeme = "-"%string)
               then Ok (set_presence Query.PROHIBITED)
               else if decide (QueryLexer.lexeme_str lexeme = "+"%string)
               then Ok (set_presence Query.REQUIRED)
               else error ("unrecognised presence operator'"
                           ++ QueryLexer.lexeme_str lexeme ++ "'") lexeme);
          match peekLexeme p with
          | None => error "expecting term or field, found nothing" lexeme
          | Some nextLexeme =>
              match QueryLexer.type nextLexeme with
              | QueryLexer.FIELD => Ok (Some parseField, p)
              | QueryLexer.TERM => Ok (Some parseTerm, p)
              | ty =>
                  error ("expecting term or field, found '"
                         ++ QueryLexer.type_name ty ++ "'") nextLexeme
              end
          end
      end
  | parseField =>
      let '(lexeme, p) := consumeLexeme p in
      match lexeme with
      | None => Ok (None, p)
      | Some lexeme =>
          if bool_decide (QueryLexer.lexeme_str lexeme
                          ∈ Query.allFields (query p)) then
            let c := currentClause p in
            let p :=
              with_clause p
                (Query.mkClause (Query.editDistance c) (Query.wildcard c)
                   (Some [QueryLexer.lexeme_str lexeme]) (Query.boost c)
                   (Query.usePipeline c) (Query.term c) (Query.presence c)) in
            match peekLexeme p with
            | None => error "expecting term, found nothing" lexeme
            | Some nextLexeme =>
                match QueryLexer.type nextLexeme with
                | QueryLexer.TERM => Ok (Some parseTerm, p)
                | ty =>
                    error ("expecting term, found '"
                           ++ QueryLexer.type_name ty ++ "'") nextLexeme
                end
            end
          else
            error ("unrecognised field '" ++ QueryLexer.lexeme_str lexeme
                   ++ "', possible fields: "
                   ++ join ", " (map (λ f, ("'" ++ f ++ "'")%string)
                                     (Query.allFields (query p))))
                  lexeme
      end
  | parseTerm =>
      let '(lexeme, p) := consumeLexeme p in
      match lexeme with
      | None => Ok (None, p)
      | Some lexeme =>
          let c := currentClause p in
          let usePipeline :=
            if existsb (λ ch, bool_decide (ch = star))
                       (chars (QueryLexer.lexeme_str lexeme))
            then Some false else Query.usePipeline c in
          after_term
            (with_clause p
               (Query.mkClause (Query.editDistance c) (Query.wildcard c)
                  (Query.fields c) (Query.boost c) usePipeline
                  (Some (toLowerCase (QueryLexer.lexeme_str lexeme)))
                  (Query.presence c)))
      end
  | parseEditDistance =>
      let '(lexeme, p) := consumeLexeme p in
      match lexeme with
      | None => Ok (None, p)
      | Some lexeme =>
          match parseInt (QueryLexer.lexeme_str lexeme) with
          | None => error "edit distance must be numeric" lexeme
          | Some editDistance =>
              let c := currentClause p in
              after_term
                (with_clause p
                   (Query.mkClause (Some (Z.to_nat editDistance))
                      (Query.wildcard c) (Query.fields c) (Query.boost c)
                      (Query.usePipeline c) (Query.term c)
                      (Query.presence c)))
          end
      end
  | parseBoost =>
      let '(lexeme, p) := consumeLexeme p in
      match lexeme with
      | None => Ok (None, p)
      | Some lexeme =>
          match parseInt (QueryLexer.lexeme_str lexeme) with
          | None => error "boost must be numeric" lexeme
          | Some boost =>
              let c := currentClause p in
              after_term
                (with_clause p
                   (Query.mkClause (Query.editDistance c) (Query.wildcard c)
                      (Query.fields c) (Some (JsNumber.of_Z boost))
                      (Query.usePipeline c) (Query.term c)
                      (Query.presence c)))
          end
      end
  end.

(** The loop of [parse()]. *)
Fixpoint parse_loop (fuel : nat) (s : state) (p : t) : result Query.t :=
  match fuel with
  | 0 => OutOfFuel
  | S fuel' =>
      r ← step s p;
      match r with
      | (Some s', p') => parse_loop fuel' s' p'
      | (None, p') => Ok (query p')
      end
  end.

(** [new QueryParser(str, query).parse()] *)
Definition parse (fuel : nat) (str : string) (query : Query.t)
    : result Query.t :=
  lexer ← with_fuel (QueryLexer.run fuel (QueryLexer.new str));
  parse_loop fuel parseClause
    (mk Query.empty_clause 0 (QueryLexer.lexemes lexer) query).

End QueryParser.

(* ================================================================== *)
(** * The index and its query executor (src/LunrIndex.ts) *)

(** [DocMatch] *)
Record DocMatch := mkDocMatch {
  ref : string;
  score : float;
  matchData : MatchData.t;
}.

Module LunrIndex.

Record t := mk {
  pipeline : Pipeline.t;
  fields : list string;
  tokenSet : nat;
  fieldVectors : JsObject.t Vector.t;
  invertedIndex : JsObject.t posting;
}.

(** [new LunrIndex(attrs)] *)
Definition new (attrs : LunrIndexAttrs) : t :=
  mk (attrs_pipeline attrs) (attrs_fields attrs) (attrs_tokenSet attrs)
     (attrs_fieldVectors attrs) (attrs_invertedIndex attrs).

(** The objects [query] fills while it goes through the clauses, with
    the store of token sets. *)
Record matching := mkMatching {
  store : world;
  matchingFields : JsObject.t MatchData.t;
  queryVectors : JsObject.t Vector.t;
  termFieldCache : JsObject.t bool;
  prohibitedMatches : JsObject.t LunrSet.t;
  requiredMatches : JsObject.t LunrSet.t;
}.

(** [clause.term || ''] *)
Definition term_or_empty (c : Query.QueryClause) : string :=
  default EmptyString (Query.term c).

(** [TokenSet.fromClause(clause)] *)
Definition fromClause (fuel : nat) (w : world) (c : Query.QueryClause)
    : result (nat * world) :=
  match Query.editDistance c with
  | Some editDistance =>
      with_fuel (fromFuzzyString fuel w (chars (term_or_empty c))
                   (if editDistance =? 0 then 1 else editDistance))
  | None => Ok (fromString w (chars (term_or_empty c)))
  end.

(** [this.tokenSet.intersect(termTokenSet).toArray()] *)
Definition expand (fuel : nat) (idx : t) (w : world) (termTokenSet : nat)
    : result (list string * world) :=
  '(out, w) ← with_fuel (intersect fuel w (tokenSet idx) termTokenSet);
  words ← with_fuel (toArray fuel w out);
  Ok (map string_of_list_ascii words, w).

Section Query.

(** The global [parseFloat]. *)
Context (parseFloat : string → float).

Definition not_a_function {A} : result A :=
  Throw (TypeError "is not a function").

Definition undefined_property {A} : result A :=
  Throw (TypeError "Cannot read properties of undefined").

Definition with_store (m : matching) (w : world) : matching :=
  mkMatching w (matchingFields m) (queryVectors m) (termFieldCache m)
             (prohibitedMatches m) (requiredMatches m).

Definition with_required (m : matching) (r : JsObject.t LunrSet.t) : matching :=
  mkMatching (store m) (matchingFields m) (queryVectors m) (termFieldCache m)
             (prohibitedMatches m) r.

Definition with_prohibited (m : matching) (p : JsObject.t LunrSet.t)
    : matching :=
  mkMatching (store m) (matchingFields m) (queryVectors m) (termFieldCache m)
             p (requiredMatches m).

(** The body of [for (const matchingDocumentRef of matchingDocumentRefs)]. *)
Definition collect_match (expandedTerm field : string)
    (fieldPosting : JsObject.t (JsObject.t (list jsvalue)))
    (matchingDocumentRef : string) (matchingFields : JsObject.t MatchData.t)
    : result (JsObject.t MatchData.t) :=
  let matchingFieldRef :=
    FieldRef.toString (FieldRef.mk matchingDocumentRef field None) in
  let metadata :=
    default [] (JsObject.get_own fieldPosting matchingDocumentRef) in
  match JsObject.get matchingFields matchingFieldRef with
  | JsObject.Undefined =>
      fieldMatch ← MatchData.new expandedTerm field metadata;
      set_object matchingFields matchingFieldRef fieldMatch
  | JsObject.Own fieldMatch =>
      fieldMatch ← MatchData.add fieldMatch expandedTerm field metadata;
      set_object matchingFields matchingFieldRef fieldMatch
  | JsObject.Inherited => Unmodelled
  end.

(** The body of [for (const field of clause.fields || [])] for one
    expanded term: the matching and the set of matches of the clause. *)
Definition match_field (c : Query.QueryClause) (expandedTerm : string)
    (p : posting) (termIndex : Z) (field : string)
    (st : matching * LunrSet.t) : result (matching * LunrSet.t) :=
  let '(m, clauseMatches) := st in
  match JsObject.get_own p field with
  | None => Throw (TypeError "Cannot convert undefined or null to object")
  | Some (PIndex _) => Unmodelled
  | Some (PField fieldPosting) =>
      let matchingDocumentRefs := JsObject.keys fieldPosting in
      let termField := (expandedTerm ++ "/" ++ field)%string in
      let matchingDocumentsSet := LunrSet.new matchingDocumentRefs in
      '(m, clauseMatches) ←
        match Query.presence c with
        | Some Query.REQUIRED =>
            let clauseMatches :=
              LunrSet.union clauseMatches matchingDocumentsSet in
            match JsObject.get (requiredMatches m) field with
            | JsObject.Undefined =>
                r ← set_object (requiredMatches m) field LunrSet.Complete;
                Ok (with_required m r, clauseMatches)
            | _ => Ok (m, clauseMatches)
            end
        | _ => Ok (m, clauseMatches)
        end;
      match Query.presence c with
      | Some Query.PROHIBITED =>
          prohibited ←
            match JsObject.get (prohibitedMatches m) field with
            | JsObject.Undefined =>
                set_object (prohibitedMatches m) field LunrSet.Empty
            | _ => Ok (prohibitedMatches m)
            end;
          match JsObject.get prohibited field with
          | JsObject.Own s =>
              prohibited ←
                set_object prohibited field
                  (LunrSet.union s matchingDocumentsSet);
              Ok (with_prohibited m prohibited, clauseMatches)
          | JsObject.Inherited => not_a_function
          | JsObject.Undefined => undefined_property
          end
      | _ =>
          match JsObject.get (queryVectors m) field with
          | JsObject.Own queryVector =>
              match Vector.upsert queryVector termIndex
                      (Builder.or_one (Query.boost c))
                      (Some (add_boost parseFloat)) with
              | inr e => Throw e
              | inl queryVector =>
                  queryVectors ←
                    set_object (queryVectors m) field queryVector;
                  let seen :=
                    match JsObject.get (termFieldCache m) termField with
                    | JsObject.Own b => b
                    | JsObject.Inherited => true
                    | JsObject.Undefined => false
                    end in
                  if seen then
                    Ok (mkMatching (store m) (matchingFields m) queryVectors
                          (termFieldCache m) (prohibitedMatches m)
                          (requiredMatches m), clauseMatches)
                  else
                    matchingFields ←
                      for_each (collect_match expandedTerm field fieldPosting)
                               matchingDocumentRefs (matchingFields m);
                    Ok (mkMatching (store m) matchingFields queryVectors
                          (JsObject.set_primitive (termFieldCache m)
                             termField true)
                          (prohibitedMatches m) (requiredMatches m),
                        clauseMatches)
              end
          | JsObject.Inherited => not_a_function
          | JsObject.Undefined => undefined_property
          end
      end
  end.

(** [clause.fields || []] *)
Definition clause_fields (c : Query.QueryClause) : list string :=
  default [] (Query.fields c).

(** The body of [for (const expandedTerm of expandedTerms)]. *)
Definition match_expanded_term (idx : t) (c : Query.QueryClause)
    (expandedTerm : string) (st : matching * LunrSet.t)
    : result (matching * LunrSet.t) :=
  match JsObject.get_own (invertedIndex idx) expandedTerm with
  | None => undefined_property
  | Some p =>
      match JsObject.get_own p "_index" with
      | Some (PIndex termIndex) =>
          for_each (match_field c expandedTerm p termIndex)
                   (clause_fields c) st
      | _ => Unmodelled
      end
  end.

(** [for (const term of terms)], which a required term without
    expansion leaves by [break]. *)
Fixpoint match_terms (fuel : nat) (idx : t) (c : Query.QueryClause)
    (terms : list (option string)) (st : matching * LunrSet.t)
    : result (matching * LunrSet.t) :=
  match terms with
  | [] => Ok st
  | term :: terms' =>
      let '(m, clauseMatches) := st in
      let c :=
        Query.mkClause (Query.editDistance c) (Query.wildcard c)
          (Query.fields c) (Query.boost c) (Query.usePipeline c) term
          (Query.presence c) in
      '(termTokenSet, w) ← fromClause fuel (store m) c;
      '(expandedTerms, w) ← expand fuel idx w termTokenSet;
      let m := with_store m w in
      match expandedTerms, Query.presence c with
      | [], Some Query.REQUIRED =>
          r ← for_each (λ field r, set_object r field LunrSet.Empty)
                       (clause_fields c) (requiredMatches m);
          Ok (with_required m r, clauseMatches)
      | _, _ =>
          st ← for_each (match_expanded_term idx c) expandedTerms
                        (m, clauseMatches);
          match_terms fuel idx c terms' st
      end
  end.

(** The body of [for (const clause of query.clauses)]. *)
Definition match_clause (fuel : nat) (idx : t) (c : Query.QueryClause)
    (m : matching) : result matching :=
  let terms :=
    if default false (Query.usePipeline c) then
      map Some
          (Pipeline.runString (pipeline idx) (term_or_empty c)
             [("fields"%string, JArr (map JStr (clause_fields c)))])
    else [Query.term c] in
  '(m, clauseMatches) ← match_terms fuel idx c terms (m, LunrSet.Empty);
  match Query.presence c with
  | Some Query.REQUIRED =>
      r ← for_each
            (λ field r,
               match JsObject.get r field with
               | JsObject.Own s =>
                   set_object r field (LunrSet.intersect s clauseMatches)
               | JsObject.Inherited => not_a_function
               | JsObject.Undefined => undefined_property
               end)
            (clause_fields c) (requiredMatches m);
      Ok (with_required m r)
  | _ => Ok m
  end.

(** The loop that combines the required and the prohibited matches of
    the fields. *)
Definition combine_field_matches (m : matching) (field : string)
    (st : LunrSet.t * LunrSet.t) : result (LunrSet.t * LunrSet.t) :=
  let '(allRequiredMatches, allProhibitedMatches) := st in
  allRequiredMatches ←
    match JsObject.get (requiredMatches m) field with
    | JsObject.Own s => Ok (LunrSet.intersect allRequiredMatches s)
    | JsObject.Inherited => Unmodelled
    | JsObject.Undefined => Ok allRequiredMatches
    end;
  allProhibitedMatches ←
    match JsObject.get (prohibitedMatches m) field with
    | JsObject.Own s => Ok (LunrSet.union allProhibitedMatches s)
    | JsObject.Inherited => Unmodelled
    | JsObject.Undefined => Ok allProhibitedMatches
    end;
  Ok (allRequiredMatches, allProhibitedMatches).

(** What the last loop of [query] fills: [results] as the references in
    the order of [push], [matches], and the query vectors with their
    cached magnitudes. *)
Record scoring := mkScoring {
  results : list string;
  matches : JsObject.t DocMatch;
  vectors : JsObject.t Vector.t;
}.

(** The body of [for (const fieldRefStr of matchingFieldRefs)]. *)
Definition score_field (idx : t) (matchingFields : JsObject.t MatchData.t)
    (allRequiredMatches allProhibitedMatches : LunrSet.t)
    (fieldRefStr : string) (s : scoring) : result scoring :=
  fieldRef ← FieldRef.fromString fieldRefStr;
  let docRef := FieldRef.docRef fieldRef in
  if negb (LunrSet.contains allRequiredMatches docRef) then Ok s
  else if LunrSet.contains allProhibitedMatches docRef then Ok s
  else
    match JsObject.get (vectors s) (FieldRef.fieldName fieldRef) with
    | JsObject.Inherited => not_a_function
    | JsObject.Undefined => undefined_property
    | JsObject.Own queryVector =>
        match JsObject.get (fieldVectors idx) fieldRefStr with
        | JsObject.Own fieldVector =>
            let '(similarity, queryVector) :=
              Vector.similarity parseFloat queryVector fieldVector in
            vectors ←
              set_object (vectors s) (FieldRef.fieldName fieldRef) queryVector;
            match JsObject.get matchingFields fieldRefStr with
            | JsObject.Own fieldMatch =>
                match JsObject.get (matches s) docRef with
                | JsObject.Own docMatch =>
                    combined ←
                      MatchData.combine (matchData docMatch) fieldMatch;
                    matches ←
                      set_object (matches s) docRef
                        (mkDocMatch (ref docMatch)
                           (score docMatch + similarity)%float combined);
                    Ok (mkScoring (results s) matches vectors)
                | JsObject.Inherited =>
                    Throw (TypeError
                      "Cannot read properties of undefined (reading 'combine')")
                | JsObject.Undefined =>
                    matches ←
                      set_object (matches s) docRef
                        (mkDocMatch docRef similarity fieldMatch);
                    Ok (mkScoring (results s ++ [docRef]) matches vectors)
                end
            | _ => Unmodelled
            end
        | _ => undefined_property
        end
    end.

(** [results.sort((a, b) => b.score - a.score)]: a stable sort; [x]
    comes after the elements of [l] in the array. *)
Fixpoint insert_by_score (x : DocMatch) (l : list DocMatch) : list DocMatch :=
  match l with
  | [] => [x]
  | y :: l' =>
      if PrimFloat.ltb 0 (score x - score y)
      then x :: l else y :: insert_by_score x l'
  end.

Definition sort_by_score (l : list DocMatch) : list DocMatch :=
  fold_left (λ sorted x, insert_by_score x sorted) l [].

(** [query(fn)]: the results and the store of token sets. *)
Definition query (fuel : nat) (idx : t) (w : world)
    (fn : Query.t → result Query.t) : result (list DocMatch * world) :=
  emptyVectors ←
    for_each (λ field qv, set_object qv field Vector.empty) (fields idx) [];
  q ← fn (Query.new (fields idx));
  m ← for_each (match_clause fuel idx) (Query.clauses q)
               (mkMatching w [] emptyVectors [] [] []);
  '(allRequiredMatches, allProhibitedMatches) ←
    for_each (combine_field_matches m) (fields idx)
             (LunrSet.Complete, LunrSet.Empty);
  '(matchingFieldRefs, matchingFields) ←
    (if Query.isNegated q then
       let matchingFieldRefs := JsObject.keys (fieldVectors idx) in
       matchingFields ←
         for_each (λ matchingFieldRef mf,
                     set_object mf matchingFieldRef MatchData.empty)
                  matchingFieldRefs (matchingFields m);
       Ok (matchingFieldRefs, matchingFields)
     else Ok (JsObject.keys (matchingFields m), matchingFields m));
  s ← for_each (score_field idx matchingFields allRequiredMatches
                            allProhibitedMatches)
               matchingFieldRefs (mkScoring [] [] (queryVectors m));
  Ok (sort_by_score
        (omap (λ docRef, JsObject.get_own (matches s) docRef) (results s)),
      store m).

(** [search(queryString)] *)
Definition search (fuel : nat) (idx : t) (w : world) (queryString : string)
    : result (list DocMatch * world) :=
  query fuel idx w (λ query, QueryParser.parse fuel queryString query).

End Query.

End LunrIndex.

(* ================================================================== *)
(** * Building an index from documents *)

(** [const builder = new Builder(); fields.forEach((f) => builder.field(f));
    docs.forEach((doc) => builder.add(doc))] *)
Definition builder_of (fields : list string) (docs : list LunrDocument)
    : result (Builder.t * world) :=
  let '(b, w) := Builder.new initial_world in
  b ← for_each (λ f b, Builder.field b f (Builder.mkFieldAttributes None None))
               fields b;
  b ← for_each (λ doc b, Builder.add b doc None) docs b;
  Ok (b, w).

(** [builder.build()] after [builder_of]. *)
Definition index_of (log round : float → float) (fields : list string)
    (docs : list LunrDocument) : result (LunrIndex.t * world) :=
  '(b, w) ← builder_of fields docs;
  '(attrs, _, w) ← Builder.build log round b w;
  Ok (LunrIndex.new attrs, w).

(** [index.search(queryString)]: reference and score of each result. *)
Definition search_index (log round : float → float)
    (parseFloat : string → float) (fuel : nat) (fields : list string)
    (docs : list LunrDocument) (queryString : string)
    : result (list (string * float)) :=
  '(idx, w) ← index_of log round fields docs;
  '(results, _) ← LunrIndex.search parseFloat fuel idx w queryString;
  Ok (map (λ r, (ref r, score r)) results).

(** Two documents, the second one without the field [title]. *)
Definition with_and_without_title : list LunrDocument :=
  [ [("id", FStr "a"); ("title", FStr "x y")];
    [("id", FStr "b")] ]%string.

Definition two_documents : Builder.t :=
  match builder_of ["title"%string] with_and_without_title with
  | Ok (b, _) => b
  | _ => (Builder.new initial_world).1
  end.

Lemma build_averageFieldLength log round b w attrs b' w' :
  Builder.build log round b w = Ok (attrs, b', w') →
  Builder.calculateAverageFieldLengths b = Ok (Builder.averageFieldLength b').
Proof.
  unfold Builder.build. intros (avg & Havg & Hrest)%bind_Ok.
  apply bind_Ok in Hrest as (fv & _ & Hrest).
  apply bind_Ok in Hrest as ([ts w1] & _ & Hrest).
  injection Hrest as _ <- _. by rewrite Havg.
Qed.

(** C5, as amended: for a registered field [f] whose name is not a member
    of [Object.prototype], [calculateAverageFieldLengths], and so
    [build], leaves in [averageFieldLength[f]] the sum of the lengths
    recorded for [f] divided by the number of field references recorded
    for [f]; [add] records for every registered field the number of terms
    of the document in it, which is [0] for a document without the field
    under the tokenizer of the library, so that such a document counts in
    the divisor. *)
Theorem average_field_length (log round : float → float) (b : Builder.t)
    (f : string) :
  well_formed b = true →
  f ∈ (Builder._fields b).*1 →
  JsObject.is_prototype_member f = false →
  let average :=
    (JsNumber.of_Z (sum_lengths (recorded (Builder.fieldLengths b) f))
     / JsNumber.of_Z (Z.of_nat (length (recorded (Builder.fieldLengths b) f))))%float in
  (∃ averageFieldLength,
     Builder.calculateAverageFieldLengths b = Ok averageFieldLength
     ∧ JsObject.get averageFieldLength f = JsObject.Own (NFloat average))
  ∧ (∀ w attrs b' w',
       Builder.build log round b w = Ok (attrs, b', w') →
       JsObject.get (Builder.averageFieldLength b') f
       = JsObject.Own (NFloat average))
  ∧ (∀ doc attributes b',
       Builder.add b doc attributes = Ok b' →
       well_formed b' = true
       ∧ Builder._fields b' = Builder._fields b
       ∧ ∃ docRef terms,
           to_key (doc_get doc (Builder._ref b)) = Ok docRef
           ∧ Builder.field_terms b doc f = Ok terms
           ∧ JsObject.get_own (Builder.fieldLengths b')
               (f ++ String FieldRef.joiner docRef)
             = Some (Z.of_nat (length terms)))
  ∧ (∀ doc : LunrDocument,
       Builder.tokenize b = tokenizer →
       (∀ a, JsObject.get_own (Builder._fields b) f = Some a →
             Builder.extractor a = None) →
       JsObject.get doc f = JsObject.Undefined →
       Builder.field_terms b doc f = Ok []).
Proof.
  intros Hwf Hf Hmember average.
  destruct (calculateAverageFieldLengths_spec b f Hwf Hf Hmember)
    as (avg & Havg & Hget).
  split; [by exists avg|]. split; [|split].
  - intros w attrs b' w' Hbuild.
    apply build_averageFieldLength in Hbuild.
    rewrite Havg in Hbuild. injection Hbuild as <-. done.
  - intros doc attributes b' Hadd.
    destruct (add_spec b b' doc attributes Hwf Hadd)
      as (Hwf' & Hfields & docRef & HdocRef & Hrec).
    split; [done|]. split; [done|].
    destruct (Hrec f Hf) as (terms & Hterms & Hlen).
    by exists docRef, terms.
  - intros doc. apply field_terms_missing.
Qed.

Lemma average_field_length_witness :
  well_formed two_documents = true
  ∧ "title"%string ∈ (Builder._fields two_documents).*1
  ∧ JsObject.is_prototype_member "title" = false
  ∧ ∃ averageFieldLength,
      Builder.calculateAverageFieldLengths two_documents = Ok averageFieldLength
      ∧ JsObject.get averageFieldLength "title"
        = JsObject.Own
            (NFloat
               (JsNumber.of_Z
                  (sum_lengths (recorded (Builder.fieldLengths two_documents) "title"))
                / JsNumber.of_Z
                    (Z.of_nat (length (recorded (Builder.fieldLengths two_documents)
                                         "title"))))%float).
Proof.
  assert ("title"%string ∈ (Builder._fields two_documents).*1) as Hin.
  { vm_compute. left. }
  assert (well_formed two_documents = true) as Hwf by (vm_compute; reflexivity).
  split; [exact Hwf|]. split; [exact Hin|]. split; [reflexivity|].
  apply (average_field_length (λ x, x) (λ x, x) two_documents "title"
           Hwf Hin eq_refl).
Defined.

(** C5 as stated fails for a document without the field: of the
    documents [{id: 'a', title: 'x y'}] and [{id: 'b'}] only the first has
    a [title], of length 2, and [averageFieldLength.title] is
    [(2 + 0) / 2 = 1], not [2 / 1]. *)
Lemma average_counts_document_without_title :
  match builder_of ["title"%string] with_and_without_title with
  | Ok (b, _) =>
      Builder.fieldLengths b = [("title/a"%string, 2%Z); ("title/b"%string, 0%Z)]
      ∧ Builder.calculateAverageFieldLengths b = Ok [("title"%string, NFloat 1)]
  | _ => False
  end
  ∧ PrimFloat.eqb 1 (2 / 1) = false.
Proof. vm_compute. repeat split; reflexivity. Qed.

(* ================================================================== *)
(** * Searching *)

(** [query(q → parse(s) into q)]: the query built by the parser from the
    query string, run by [query]. *)
Definition query_parsed (parseFloat : string → float) (fuel : nat)
    (idx : LunrIndex.t) (w : world) (s : string)
    : result (list DocMatch * world) :=
  LunrIndex.query parseFloat fuel idx w
    (λ q, lexer ← with_fuel (QueryLexer.run fuel (QueryLexer.new s));
          QueryParser.parse_loop fuel QueryParser.parseClause
            (QueryParser.mk Query.empty_clause 0 (QueryLexer.lexemes lexer) q)).

(** C9: for every index and query string, [search(s)] has the outcome of
    [query] with the function that parses [s] into the query: the same
    results with their references, scores and match data in the same
    order, or the same exception. *)
Theorem search_is_query (parseFloat : string → float) (fuel : nat)
    (idx : LunrIndex.t) (w : world) (s : string) :
  LunrIndex.search parseFloat fuel idx w s = query_parsed parseFloat fuel idx w s.
Proof. reflexivity. Qed.

(** C8: with the field [title] and the one document
    [{id: 'constructor', title: 'word'}], [search('word')] throws a
    [TypeError]: [matches['constructor']] is the member inherited from
    [Object.prototype].  With the reference ['doc'] the same search
    returns the document. *)
Theorem search_document_named_constructor (log round : float → float)
    (parseFloat : string → float) :
  search_index log round parseFloat 100 ["title"%string]
    [[("id", FStr "constructor"); ("title", FStr "word")]]%string "word"
  = Throw (TypeError "Cannot read properties of undefined (reading 'combine')")
  ∧ ∃ score,
      search_index log round parseFloat 100 ["title"%string]
        [[("id", FStr "doc"); ("title", FStr "word")]]%string "word"
      = Ok [("doc"%string, score)].
Proof.
  split; [vm_compute; reflexivity|]. eexists. vm_compute. reflexivity.
Qed.

(** C4: with the documents [{id: 'constructor', title: 'word'}] and
    [{id: 'b', title: 'other'}], the negated query [-other] returns
    nothing: [contains('constructor')] is true of the set of prohibited
    matches, which holds ['b'] only.  With the reference ['c'] in place
    of ['constructor'] the query returns that document with score 0. *)
Theorem negated_query_document_named_constructor (log round : float → float)
    (parseFloat : string → float) :
  search_index log round parseFloat 100 ["title"%string]
    [[("id", FStr "constructor"); ("title", FStr "word")];
     [("id", FStr "b"); ("title", FStr "other")]]%string "-other"
  = Ok []
  ∧ search_index log round parseFloat 100 ["title"%string]
      [[("id", FStr "c"); ("title", FStr "word")];
       [("id", FStr "b"); ("title", FStr "other")]]%string "-other"
    = Ok [("c"%string, 0%float)].
Proof. split; vm_compute; reflexivity. Qed.

(* ================================================================== *)
(** * Fuzzy matching *)

(** [edits k s t]: [t] is got from [s] by a script of at most [k] edits
    that goes through [s] from left to right: it keeps the next
    character, inserts a character, deletes the next character, puts a
    character in its place, or exchanges the next two characters, the
    first of which is still to be gone through.  A ['*'] of [s] stands
    for any character. *)
Inductive edits : nat → list ascii → list ascii → Prop :=
| edits_nil k : edits k [] []
| edits_keep k c d s t :
    lmatch c d → edits k s t → edits k (c :: s) (d :: t)
| edits_insert k d s t : edits k s t → edits (S k) s (d :: t)
| edits_delete k c s t : edits k s t → edits (S k) (c :: s) t
| edits_substitute k c d s t : edits k s t → edits (S k) (c :: s) (d :: t)
| edits_transpose k a b d s t :
    lmatch b d → edits k (a :: s) t → edits (S k) (a :: b :: s) (d :: t).

(** The label sequences that a frame of [fromFuzzyString] with
    [editsRemaining = e] and [str] leads to, from its node to a final
    node; a frame whose [str] is empty has a final node. *)
Inductive fuzzy_labels : nat → list ascii → list ascii → Prop :=
| fuzzy_done e : fuzzy_labels e [] []
| fuzzy_no_edit e c rest π :
    fuzzy_labels e rest π → fuzzy_labels e (c :: rest) (c :: π)
| fuzzy_insertion e str π :
    fuzzy_labels e str π → fuzzy_labels (S e) str (star :: π)
| fuzzy_deletion_last e c : fuzzy_labels (S e) [c] []
| fuzzy_deletion e c str π :
    str ≠ [] → fuzzy_labels e str π → fuzzy_labels (S e) (c :: str) π
| fuzzy_substitution e c str π :
    fuzzy_labels e str π → fuzzy_labels (S e) (c :: str) (star :: π)
| fuzzy_transposition e a b rest π :
    fuzzy_labels e (a :: rest) π →
    fuzzy_labels (S e) (a :: b :: rest) (b :: π).

Section FuzzyLabels.

Lemma fuzzy_labels_mono e str π :
  fuzzy_labels e str π → fuzzy_labels (S e) str π.
Proof. induction 1; by constructor. Qed.

Lemma lmatch_star d : lmatch star d.
Proof. by right. Qed.

(** The strings taken by the label sequences of a frame are the results
    of the edit scripts. *)
Lemma edits_fuzzy_labels k s t :
  edits k s t ↔ ∃ π, fuzzy_labels k s π ∧ Forall2 lmatch π t.
Proof.
  split.
  - induction 1 as [k|k c d s t Hcd _ (π & Hπ & Hm)|k d s t _ (π & Hπ & Hm)
                    |k c s t _ (π & Hπ & Hm)|k c d s t _ (π & Hπ & Hm)
                    |k a b d s t Hbd _ (π & Hπ & Hm)].
    + exists []. split; constructor.
    + exists (c :: π). split; by constructor.
    + exists (star :: π). split; constructor; [done | apply lmatch_star | done].
    + destruct s as [|c' s].
      * inversion Hπ; subst.
        -- exists []. split; [constructor | done].
        -- exists (star :: π0). split; [|done].
           apply fuzzy_substitution. by apply fuzzy_labels_mono.
      * exists π. split; [|done]. by apply fuzzy_deletion.
    + exists (star :: π). split; constructor; [done | apply lmatch_star | done].
    + exists (b :: π). split; by constructor.
  - intros (π & Hπ & Hm). revert t Hm.
    induction Hπ as [e|e c rest π _ IH|e str π _ IH|e c|e c str π Hne _ IH
                     |e c str π _ IH|e a b rest π _ IH]; intros t Hm.
    + inversion Hm; subst. constructor.
    + inversion Hm; subst. apply edits_keep; [done | by apply IH].
    + inversion Hm; subst. apply edits_insert. by apply IH.
    + inversion Hm; subst. apply edits_delete. constructor.
    + apply edits_delete. by apply IH.
    + inversion Hm; subst. apply edits_substitute. by apply IH.
    + inversion Hm; subst. apply edits_transpose; [done | by apply IH].
Qed.

(** How the label sequences of a frame begin: the cases of one iteration
    of the loop of [fromFuzzyString]. *)
Lemma fuzzy_labels_unfold e str π :
  fuzzy_labels e str π ↔
    (str = [] ∧ π = [])
    ∨ (∃ c rest π', str = c :: rest ∧ π = c :: π' ∧ fuzzy_labels e rest π')
    ∨ (∃ e', e = S e' ∧
         ((∃ π', π = star :: π' ∧ fuzzy_labels e' str π')
          ∨ (∃ c, str = [c] ∧ π = [])
          ∨ (∃ c str', str = c :: str' ∧ str' ≠ [] ∧ fuzzy_labels e' str' π)
          ∨ (∃ c str' π', str = c :: str' ∧ π = star :: π'
                          ∧ fuzzy_labels e' str' π')
          ∨ (∃ a b rest π', str = a :: b :: rest ∧ π = b :: π'
                            ∧ fuzzy_labels e' (a :: rest) π'))).
Proof.
  split.
  - inversion 1; subst.
    + by left.
    + right; left. eauto 10.
    + right; right. eexists. split; [done|]. left. eauto.
    + right; right. eexists. split; [done|]. right; left. eauto.
    + right; right. eexists. split; [done|]. right; right; left. eauto 10.
    + right; right. eexists. split; [done|]. right; right; right; left. eauto 10.
    + right; right. eexists. split; [done|]. right; right; right; right.
      eauto 10.
  - intros [[-> ->]|[(c & rest & π' & -> & -> & H)|(e' & -> & H)]].
    + constructor.
    + by constructor.
    + destruct H as [(π' & -> & H)|[(c & -> & ->)|[(c & str' & -> & Hne & H)
                     |[(c & str' & π' & -> & -> & H)
                      |(a & b & rest & π' & -> & -> & H)]]]];
        by constructor.
Qed.

(** Taking a string along wildcard labels is following a label sequence
    that matches it. *)
Lemma qpath_labels w : ∀ cs q q',
  qpath w q cs q' ↔ ∃ π, path w q π q' ∧ Forall2 lmatch π cs.
Proof.
  induction cs as [|c cs IH]; intros q q'; simpl.
  - split.
    + intros <-. exists []. split; [done | constructor].
    + intros (π & Hp & Hm). inversion Hm; subst. done.
  - split.
    + intros (l & k & Hs & Hl & (π & Hp & Hm)%IH).
      exists (l :: π). split; [simpl; eauto | by constructor].
    + intros (π & Hp & Hm). inversion Hm as [|l c' π' cs' Hl Hm']; subst.
      destruct Hp as (k & Hs & Hp). exists l, k. split; [done|].
      split; [done|]. apply IH. eauto.
Qed.

Lemma qaccepts_labels w q cs :
  qaccepts w q cs ↔ ∃ π, accepts w q π ∧ Forall2 lmatch π cs.
Proof.
  unfold qaccepts, accepts. split.
  - intros (q' & (π & Hp & Hm)%qpath_labels & Hf). eauto.
  - intros (π & (q' & Hp & Hf) & Hm). exists q'. split; [|done].
    apply qpath_labels. eauto.
Qed.

End FuzzyLabels.

Section FuzzyStore.

Context (w0 : world).
Hypothesis Hwf0 : wf w0.

(** The label sequences from the root that a frame on the stack stands
    for. *)
Definition fuzzy_contrib (pth : nat → list ascii) (fr : fuzzy_frame)
    (π : list ascii) : Prop :=
  ∃ π', π = pth (ff_node fr) ++ π'
        ∧ fuzzy_labels (editsRemaining fr) (ff_str fr) π'.

(** A frame on the stack: its node is in the trie, and is final when
    nothing of the string is left, the root apart. *)
Definition frame_ok (w : world) (pth : nat → list ascii) (fr : fuzzy_frame)
    : Prop :=
  _nextId w0 ≤ ff_node fr < _nextId w
  ∧ (ff_str fr = [] →
     pth (ff_node fr) = [] ∨ Fin w0 w pth (pth (ff_node fr))).

Definition measure (fr : fuzzy_frame) : nat :=
  editsRemaining fr + length (ff_str fr).

Lemma Fin_mark_true w pth id π :
  trie w0 w pth → _nextId w0 ≤ id < _nextId w →
  Fin w0 (update_node w id (set_final true)) pth π
  ↔ Fin w0 w pth π ∨ pth id = π.
Proof.
  intros Ht Hid.
  rewrite (Fin_mark w0 w pth id (λ _, true) π Ht Hid). split.
  - intros [(m & Hm & _ & Hp & Hf)|[Hp _]]; [left; by exists m | by right].
  - intros [(m & Hm & Hp & Hf)|Hp]; [|by right].
    destruct (decide (m = id)) as [->|Hne]; [by right|].
    left. by exists m.
Qed.

Lemma trie_mark_if w pth id b :
  trie w0 w pth → _nextId w0 ≤ id < _nextId w →
  trie w0 (mark_final_if b w id) pth
  ∧ _nextId (mark_final_if b w id) = _nextId w
  ∧ ∀ π, Fin w0 (mark_final_if b w id) pth π
         ↔ Fin w0 w pth π ∨ (b = true ∧ pth id = π).
Proof.
  intros Ht Hid. destruct b; simpl.
  - split; [by apply (trie_mark w0 w pth id (λ _, true))|]. split; [done|].
    intros π. rewrite Fin_mark_true by done.
    split; intros [?|?]; [by left | by right | by left | right; tauto].
  - split; [done|]. split; [done|]. intros π.
    split; [by left | by intros [?|[? _]]].
Qed.

(** What one iteration has done so far for the frame of node [node]:
    the store, the paths, the frames pushed and the label sequences [A]
    these account for. *)
Record phase (w : world) (pth : nat → list ascii) (node bound : nat)
    (w1 : world) (pth1 : nat → list ascii) (pushed : list fuzzy_frame)
    (A : list ascii → Prop) : Prop := {
  ph_trie : trie w0 w1 pth1;
  ph_next : _nextId w ≤ _nextId w1;
  ph_pth : ∀ m, m < _nextId w → pth1 m = pth m;
  ph_frames : Forall (λ fr, frame_ok w1 pth1 fr ∧ measure fr < bound) pushed;
  ph_mono : ∀ π, Fin w0 w pth π → Fin w0 w1 pth1 π;
  ph_sem : ∀ π,
    (Fin w0 w1 pth1 π ∨ ∃ fr, fr ∈ pushed ∧ fuzzy_contrib pth1 fr π)
    ↔ (Fin w0 w pth π ∨ ∃ π', π = pth node ++ π' ∧ A π');
}.

Lemma phase_init w pth node bound :
  trie w0 w pth → phase w pth node bound w pth [] (λ _, False).
Proof.
  intros Ht. split; try done.
  intros π. split; intros [?|H]; try by left.
  - destruct H as (? & ?%elem_of_nil & _). done.
  - destruct H as (? & _ & []).
Qed.

Lemma frame_ok_mono w pth w' pth' fr :
  frame_ok w pth fr → _nextId w ≤ _nextId w' →
  (∀ m, m < _nextId w → pth' m = pth m) →
  (∀ π, Fin w0 w pth π → Fin w0 w' pth' π) →
  frame_ok w' pth' fr.
Proof.
  intros [Hn Hf] Hle Hpth Hmono. split; [lia|]. intros Hs.
  rewrite Hpth by lia. destruct (Hf Hs) as [?|?]; [by left|right; by apply Hmono].
Qed.

Lemma fuzzy_contrib_agree pth pth' fr π :
  pth' (ff_node fr) = pth (ff_node fr) →
  fuzzy_contrib pth' fr π ↔ fuzzy_contrib pth fr π.
Proof. intros Heq. unfold fuzzy_contrib. by rewrite Heq. Qed.

(** An edge followed or created, its target marked final when nothing is
    left, and a frame pushed for it. *)
Lemma phase_edge w pth node bound w1 pth1 pushed A c b e' str' x w2 :
  phase w pth node bound w1 pth1 pushed A →
  _nextId w0 ≤ node < _nextId w →
  edge_or_new w1 node c = (x, w2) →
  (b = true ↔ str' = []) →
  e' + length str' < bound →
  ∃ pth3,
    phase w pth node bound (mark_final_if b w2 x) pth3
      (mkFuzzyFrame x e' str' :: pushed)
      (λ π', A π' ∨ ∃ π'', π' = c :: π'' ∧ fuzzy_labels e' str' π'').
Proof.
  intros [Ht Hle Hpth Hfr Hmono Hsem] Hnode Hedge Hb Hm.
  destruct (trie_edge_or_new w0 w1 pth1 node c x w2 Ht) with (2 := Hedge)
    as (pth2 & Ht2 & Hle2 & Hpth2 & Hx & Hpx & HFin2 & _); [lia|].
  destruct (trie_mark_if w2 pth2 x b Ht2 Hx) as (Ht3 & Hnext3 & HFin3).
  assert (pth2 x = pth node ++ [c]) as Hpx'.
  { rewrite Hpx. by rewrite Hpth by lia. }
  assert (∀ π, Fin w0 w1 pth1 π → Fin w0 (mark_final_if b w2 x) pth2 π) as Hmono3.
  { intros π Hπ. apply HFin3. left. by apply HFin2. }
  exists pth2. split.
  - done.
  - lia.
  - intros m Hmlt. rewrite Hpth2 by lia. by apply Hpth.
  - apply Forall_cons. split.
    + split; [|done]. split; [simpl; lia|]. simpl. intros Hs. right.
      apply HFin3. right. split; [by apply Hb | done].
    + eapply Forall_impl; [done|]. simpl. intros fr [Hok ?]. split; [|done].
      eapply frame_ok_mono; [done | lia | done | done].
  - intros π Hπ. by apply Hmono3, Hmono.
  - intros π. split.
    + intros [HF|(fr & Hin & Hc)].
      * apply HFin3 in HF as [HF|[Hbt Hp]].
        -- apply HFin2 in HF.
           destruct (proj1 (Hsem π) (or_introl HF)) as [?|(π' & ? & ?)];
             [by left | right; eauto].
        -- right. exists [c]. split; [by rewrite <- Hp, Hpx'|]. right.
           exists []. split; [done|]. apply Hb in Hbt as ->. constructor.
      * apply elem_of_cons in Hin as [->|Hin].
        -- destruct Hc as (π' & -> & Hl). simpl in *. right.
           exists (c :: π'). split; [by rewrite Hpx', <- app_assoc|].
           right. eauto.
        -- assert (fuzzy_contrib pth1 fr π) as Hc1.
           { eapply fuzzy_contrib_agree; [|done]. symmetry. apply Hpth2.
             rewrite Forall_forall in Hfr. destruct (Hfr fr Hin) as [[? _] _].
             lia. }
           destruct (proj1 (Hsem π) (or_intror (ex_intro _ fr (conj Hin Hc1))))
             as [?|(π' & ? & ?)]; [by left | right; eauto].
    + intros [HF|(π' & -> & [HA|(π'' & -> & Hl)])].
      * left. by apply Hmono3, Hmono.
      * destruct (proj2 (Hsem (pth node ++ π')))
          as [HF|(fr & Hin & Hc)]; [right; eauto | |].
        -- left. by apply Hmono3.
        -- right. exists fr. split; [by right|].
           eapply fuzzy_contrib_agree; [|done]. apply Hpth2.
           rewrite Forall_forall in Hfr. destruct (Hfr fr Hin) as [[? _] _].
           lia.
      * right. exists (mkFuzzyFrame x e' str'). split; [left|].
        exists π''. simpl. split; [by rewrite Hpx', <- app_assoc | done].
Qed.

(** The frame pushed for a deletion. *)
Lemma phase_push w pth node bound w1 pth1 pushed A e' str' :
  phase w pth node bound w1 pth1 pushed A →
  _nextId w0 ≤ node < _nextId w →
  str' ≠ [] →
  e' + length str' < bound →
  phase w pth node bound w1 pth1 (mkFuzzyFrame node e' str' :: pushed)
    (λ π', A π' ∨ fuzzy_labels e' str' π').
Proof.
  intros [Ht Hle Hpth Hfr Hmono Hsem] Hnode Hne Hm. split; try done.
  - apply Forall_cons. split; [|done]. split; [|done].
    split; [simpl; lia | done].
  - intros π. split.
    + intros [HF|(fr & Hin & Hc)].
      * destruct (proj1 (Hsem π) (or_introl HF)) as [?|(π' & ? & ?)];
          [by left | right; eauto].
      * apply elem_of_cons in Hin as [->|Hin].
        -- destruct Hc as (π' & -> & Hl). simpl in *. right.
           exists π'. split; [by rewrite Hpth by lia | by right].
        -- destruct (proj1 (Hsem π) (or_intror (ex_intro _ fr (conj Hin Hc))))
             as [?|(π' & ? & ?)]; [by left | right; eauto].
    + intros [HF|(π' & -> & [HA|Hl])].
      * left. by apply Hmono.
      * destruct (proj2 (Hsem (pth node ++ π')))
          as [HF|(fr & Hin & Hc)]; [right; eauto | by left |].
        right. exists fr. split; [by right | done].
      * right. exists (mkFuzzyFrame node e' str'). split; [left|].
        exists π'. simpl. split; [by rewrite Hpth by lia | done].
Qed.

(** The node of the frame marked final. *)
Lemma phase_mark w pth node bound w1 pth1 pushed A b :
  phase w pth node bound w1 pth1 pushed A →
  _nextId w0 ≤ node < _nextId w →
  phase w pth node bound (mark_final_if b w1 node) pth1 pushed
    (λ π', A π' ∨ (b = true ∧ π' = [])).
Proof.
  intros [Ht Hle Hpth Hfr Hmono Hsem] Hnode.
  destruct (trie_mark_if w1 pth1 node b Ht) as (Ht3 & Hnext3 & HFin3); [lia|].
  split; try done.
  - lia.
  - eapply Forall_impl; [done|]. simpl. intros fr [Hok ?]. split; [|done].
    eapply frame_ok_mono; [done | lia | done |].
    intros π Hπ. apply HFin3. by left.
  - intros π Hπ. apply HFin3. left. by apply Hmono.
  - intros π. rewrite HFin3. split.
    + intros [[HF|[Hb Hp]]|Hc].
      * destruct (proj1 (Hsem π) (or_introl HF)) as [?|(π' & ? & ?)];
          [by left | right; eauto].
      * right. exists []. rewrite app_nil_r, <- Hp.
        split; [by rewrite Hpth by lia | by right].
      * destruct (proj1 (Hsem π) (or_intror Hc)) as [?|(π' & ? & ?)];
          [by left | right; eauto].
    + intros [HF|(π' & -> & [HA|[Hb ->]])].
      * left. left. by apply Hmono.
      * destruct (proj2 (Hsem (pth node ++ π')))
          as [HF|Hc]; [right; eauto | by left; left | by right].
      * left. right. split; [done|]. rewrite app_nil_r. apply Hpth. lia.
Qed.

(** What an iteration has to establish for the frame [fr]. *)
Definition step_post (w : world) (pth : nat → list ascii) (fr : fuzzy_frame)
    (w1 : world) (pth1 : nat → list ascii) (pushed : list fuzzy_frame)
    : Prop :=
  trie w0 w1 pth1
  ∧ _nextId w ≤ _nextId w1
  ∧ (∀ m, m < _nextId w → pth1 m = pth m)
  ∧ Forall (λ fr', frame_ok w1 pth1 fr' ∧ measure fr' < measure fr) pushed
  ∧ (∀ π, Fin w0 w pth π → Fin w0 w1 pth1 π)
  ∧ ∀ π, π ≠ [] →
      (Fin w0 w1 pth1 π ∨ ∃ fr', fr' ∈ pushed ∧ fuzzy_contrib pth1 fr' π)
      ↔ (Fin w0 w pth π ∨ fuzzy_contrib pth fr π).

Lemma phase_done w pth fr w1 pth1 pushed A :
  phase w pth (ff_node fr) (measure fr) w1 pth1 pushed A →
  frame_ok w pth fr →
  (∀ π', A π' ↔ fuzzy_labels (editsRemaining fr) (ff_str fr) π'
                 ∧ ¬ (ff_str fr = [] ∧ π' = [])) →
  step_post w pth fr w1 pth1 pushed.
Proof.
  intros [Ht Hle Hpth Hfr Hmono Hsem] [Hn Hfin] HA.
  split; [done|]. split; [done|]. split; [done|]. split; [done|].
  split; [done|]. intros π Hπ. rewrite Hsem. unfold fuzzy_contrib. split.
  - intros [?|(π' & -> & [? _]%HA)]; [by left | right; eauto].
  - intros [?|(π' & -> & Hl)]; [by left|].
    destruct (decide (ff_str fr = [] ∧ π' = [])) as [[Hs ->]|Hno].
    + left. rewrite app_nil_r in *. destruct (Hfin Hs) as [Hp|?]; [|done].
      by rewrite Hp in Hπ.
    + right. exists π'. split; [done|]. by apply HA.
Qed.

Ltac next_edge x w' He :=
  match goal with
  | |- context [edge_or_new ?w ?n ?c] =>
      destruct (edge_or_new w n c) as [x w'] eqn:He
  end.

Ltac pick_case :=
  match goal with
  | |- _ ∨ _ => first [left; pick_case | right; pick_case]
  | |- ∃ _, _ => eexists; pick_case
  | |- _ ∧ _ => split; pick_case
  | |- _ => done
  end.

Ltac labels_cases :=
  let H := fresh "H" in
  let Hne := fresh "Hne" in
  split;
  [ intros H;
    repeat match type of H with
           | _ ∨ _ => destruct H as [H|H]
           | ∃ _, _ => destruct H as [? H]
           | False => destruct H
           | _ = _ ∧ _ => destruct H as [? H]
           end;
    subst; first [done | split; [by constructor | by intros [? ?]]]
  | intros [H Hne]; inversion H; subst;
    first [by destruct Hne | pick_case] ].

Ltac finish_step Hph Hok :=
  match type of Hok with
  | frame_ok _ _ ?fr => apply (phase_done _ _ fr _ _ _ _ Hph Hok)
  end.

(** One iteration of the loop of [fromFuzzyString]: the frames it pushes
    and the nodes it marks final stand for the label sequences of the
    frame it has popped. *)
Lemma fuzzy_step_spec fr w pth rest :
  trie w0 w pth → frame_ok w pth fr →
  ∃ w1 pth1 pushed,
    fuzzy_step fr (w, rest) = (w1, pushed ++ rest)
    ∧ step_post w pth fr w1 pth1 pushed.
Proof.
  intros Ht Hok. pose proof Hok as [Hn _]. destruct fr as [node e str].
  simpl in Hn.
  pose proof (phase_init w pth node (measure (mkFuzzyFrame node e str)) Ht)
    as Hph0.
  unfold fuzzy_step, measure in *.
  cbn [ff_node ff_str editsRemaining] in *.
  destruct str as [|c [|d r]]; destruct e as [|e'];
    cbn [length Nat.eqb Nat.ltb Nat.leb tail].
  - (* nothing left, no edit left *)
    exists w, pth, []. split; [done|].
    finish_step Hph0 Hok. intros π'. simpl.
    labels_cases.
  - (* nothing left *)
    next_edge x1 w1 He1.
    destruct (phase_edge _ _ _ _ _ _ _ _ star true e' [] _ _ Hph0 Hn He1)
      as [pth1 Hph1]; [done | simpl; lia |].
    pose proof (phase_mark _ _ _ _ _ _ _ _ false Hph1 Hn) as Hph2.
    eexists _, _, [_]. split; [done|].
    finish_step Hph2 Hok. intros π'. simpl.
    labels_cases.
  - (* one character left, no edit left *)
    next_edge x1 w1 He1.
    destruct (phase_edge _ _ _ _ _ _ _ _ c true 0 [] _ _ Hph0 Hn He1)
      as [pth1 Hph1]; [done | simpl; lia |].
    eexists _, _, [_]. split; [done|].
    finish_step Hph1 Hok. intros π'. simpl.
    labels_cases.
  - (* one character left *)
    next_edge x1 w1 He1.
    destruct (phase_edge _ _ _ _ _ _ _ _ c true (S e') [] _ _ Hph0 Hn He1)
      as [pth1 Hph1]; [done | simpl; lia |].
    next_edge x2 w2 He2.
    destruct (phase_edge _ _ _ _ _ _ _ _ star false e' [c] _ _ Hph1 Hn He2)
      as [pth2 Hph2]; [done | simpl; lia |].
    pose proof (phase_mark _ _ _ _ _ _ _ _ true Hph2 Hn) as Hph3.
    next_edge x3 w3 He3.
    destruct (phase_edge _ _ _ _ _ _ _ _ star true e' [] _ _ Hph3 Hn He3)
      as [pth3 Hph3']; [done | simpl; lia |].
    eexists _, _, [_; _; _]. split; [done|].
    finish_step Hph3' Hok. intros π'. simpl.
    labels_cases.
  - (* two characters or more left, no edit left *)
    next_edge x1 w1 He1.
    destruct (phase_edge _ _ _ _ _ _ _ _ c false 0 (d :: r) _ _ Hph0 Hn He1)
      as [pth1 Hph1]; [done | simpl; lia |].
    eexists _, _, [_]. split; [done|].
    finish_step Hph1 Hok. intros π'. simpl.
    labels_cases.
  - (* two characters or more left *)
    next_edge x1 w1 He1.
    destruct (phase_edge _ _ _ _ _ _ _ _ c false (S e') (d :: r) _ _
                Hph0 Hn He1) as [pth1 Hph1]; [done | simpl; lia |].
    next_edge x2 w2 He2.
    destruct (phase_edge _ _ _ _ _ _ _ _ star false e' (c :: d :: r) _ _
                Hph1 Hn He2) as [pth2 Hph2]; [done | simpl; lia |].
    pose proof (phase_push _ _ _ _ _ _ _ _ e' (d :: r) Hph2 Hn) as Hph3.
    specialize (Hph3 ltac:(done) ltac:(simpl; lia)).
    pose proof (phase_mark _ _ _ _ _ _ _ _ false Hph3 Hn) as Hph4.
    next_edge x3 w3 He3.
    destruct (phase_edge _ _ _ _ _ _ _ _ star false e' (d :: r) _ _
                Hph4 Hn He3) as [pth3 Hph5]; [done | simpl; lia |].
    next_edge x4 w4 He4.
    destruct (phase_edge _ _ _ _ _ _ _ _ d false e' (c :: r) _ _
                Hph5 Hn He4) as [pth4 Hph6]; [done | simpl; lia |].
    eexists _, _, [_; _; _; _; _]. split; [done|].
    finish_step Hph6 Hok. intros π'. simpl.
    labels_cases.
Qed.

(** The loop empties the frames it is given: the label sequences they
    stand for end at final nodes afterwards, and no other does that did
    not before. *)
Lemma fuzzy_frames bound : ∀ frames w pth rest,
  trie w0 w pth →
  Forall (λ fr, frame_ok w pth fr ∧ measure fr < bound) frames →
  ∃ k w' pth',
    (∀ fuel, fuzzy_loop (k + fuel) w (frames ++ rest)
             = fuzzy_loop fuel w' rest)
    ∧ trie w0 w' pth'
    ∧ _nextId w ≤ _nextId w'
    ∧ (∀ m, m < _nextId w → pth' m = pth m)
    ∧ (∀ π, Fin w0 w pth π → Fin w0 w' pth' π)
    ∧ (∀ π, π ≠ [] →
         Fin w0 w' pth' π ↔
         Fin w0 w pth π ∨ ∃ fr, fr ∈ frames ∧ fuzzy_contrib pth fr π).
Proof.
  induction bound as [|bound IHb]; intros frames.
  - intros w pth rest Ht Hall. destruct frames as [|fr frames].
    + exists 0, w, pth. split; [done|]. split; [done|]. split; [lia|].
      split; [done|]. split; [done|]. intros π _. split; [by left|].
      intros [?|(? & ?%elem_of_nil & _)]; done.
    + apply Forall_cons in Hall as [[_ ?] _]. lia.
  - induction frames as [|fr frames IHf]; intros w pth rest Ht Hall.
    + exists 0, w, pth. split; [done|]. split; [done|]. split; [lia|].
      split; [done|]. split; [done|]. intros π _. split; [by left|].
      intros [?|(? & ?%elem_of_nil & _)]; done.
    + apply Forall_cons in Hall as [[Hok Hms] Hall].
      destruct (fuzzy_step_spec fr w pth (frames ++ rest) Ht Hok) as
        (w1 & pth1 & pushed & Hstep & Ht1 & Hle1 & Hpth1 & Hpushed & Hmono1
         & Hsem).
      destruct (IHb pushed w1 pth1 (frames ++ rest) Ht1) as
        (k1 & w2 & pth2 & Hrun1 & Ht2 & Hle2 & Hpth2 & Hmono2 & HFin2).
      { eapply Forall_impl; [done|]. simpl. intros fr' [? ?]. split; [done|lia]. }
      destruct (IHf w2 pth2 rest Ht2) as
        (k2 & w3 & pth3 & Hrun2 & Ht3 & Hle3 & Hpth3 & Hmono3 & HFin3).
      { eapply Forall_impl; [done|]. simpl. intros fr' [? ?]. split; [|done].
        eapply frame_ok_mono; [done | lia | |].
        - intros m Hm. rewrite Hpth2, Hpth1; [done|lia..].
        - intros π Hπ. by apply Hmono2, Hmono1. }
      exists (S (k1 + k2)), w3, pth3. split.
      { intros fuel. change (S (k1 + k2) + fuel) with (S (k1 + k2 + fuel)).
        rewrite <- app_comm_cons. cbn [fuzzy_loop]. rewrite Hstep.
        replace (k1 + k2 + fuel) with (k1 + (k2 + fuel)) by lia.
        by rewrite Hrun1, Hrun2. }
      split; [done|]. split; [lia|].
      split; [intros m Hm; rewrite Hpth3, Hpth2, Hpth1; [done|lia..]|].
      split; [intros π Hπ; by apply Hmono3, Hmono2, Hmono1|].
      intros π Hπ. rewrite (HFin3 π Hπ), (HFin2 π Hπ), (Hsem π Hπ).
      assert (∀ fr', fr' ∈ frames →
                fuzzy_contrib pth2 fr' π ↔ fuzzy_contrib pth fr' π) as Hfr.
      { intros fr' Hin. apply fuzzy_contrib_agree.
        rewrite Forall_forall in Hall. destruct (Hall fr' Hin) as [[[_ ?] _] _].
        rewrite Hpth2, Hpth1; [done|lia..]. }
      split.
      * intros [[Hl|Hc]|(fr' & Hin & Hc)].
        -- by left.
        -- right. exists fr. split; [left | done].
        -- right. exists fr'. split; [by right|]. by apply Hfr.
      * intros [Hl|(fr' & Hin & Hc)].
        -- left. by left.
        -- apply elem_of_cons in Hin as [->|Hin].
           ++ left. by right.
           ++ right. exists fr'. split; [done|]. by apply Hfr.
Qed.

(** [fromFuzzyString(s, k)] returns when it has fuel enough; it leaves
    the nodes of [w0] as they are, and the non-empty label sequences of
    its result are those of [fuzzy_labels k s]. *)
Lemma fromFuzzyString_spec s k :
  ∃ n w',
    (∀ fuel, n ≤ fuel → fromFuzzyString fuel w0 s k = Some (_nextId w0, w'))
    ∧ wf w' ∧ extends w0 w'
    ∧ _nextId w0 < _nextId w'
    ∧ ∀ π, π ≠ [] → accepts w' (_nextId w0) π ↔ fuzzy_labels k s π.
Proof.
  set (w1 := (new_TokenSet w0).2).
  set (pth0 := λ _ : nat, @nil ascii).
  assert (trie w0 w1 pth0) as Ht.
  { split.
    - by apply wf_new.
    - apply extends_new.
    - simpl. lia.
    - done.
    - intros n c m Hn Hs. exfalso. unfold step, w1 in Hs.
      destruct (decide (n = _nextId w0)) as [->|Hne].
      + by rewrite node_at_new_eq in Hs.
      + rewrite node_at_new_ne in Hs by done.
        rewrite node_at_unallocated in Hs; [done | done | lia].
    - intros n Hn. simpl in Hn. assert (n = _nextId w0) as -> by lia. done. }
  destruct (fuzzy_frames (S (k + length s)) [mkFuzzyFrame (_nextId w0) k s]
              w1 pth0 [] Ht) as (n & w' & pth' & Hrun & Ht' & Hle & Hpth & _ & HFin).
  { apply Forall_singleton. split; [|unfold measure; simpl; lia].
    split; [simpl; lia|]. intros _. by left. }
  exists n, w'. split.
  { intros fuel Hfuel. unfold fromFuzzyString. rewrite new_TokenSet_eq.
    cbv iota beta. fold w1. replace fuel with (n + (fuel - n)) by lia.
    specialize (Hrun (fuel - n)). simpl in Hrun. rewrite Hrun.
    by destruct (fuel - n). }
  split; [by apply (trie_wf w0 w' pth')|].
  split; [by apply (trie_ext w0 w' pth')|].
  split; [by apply (trie_next w0 w' pth')|].
  intros π Hπ. rewrite (trie_accepts w0 w' pth') by done.
  rewrite (HFin π Hπ). split.
  - intros [(m & Hm & Hp & Hf)|(fr & ->%list_elem_of_singleton & Hc)].
    + simpl in Hm. assert (m = _nextId w0) as -> by lia.
      unfold is_final, w1 in Hf. by rewrite node_at_new_eq in Hf.
    + destruct Hc as (π' & -> & Hl). done.
  - intros Hl. right. exists (mkFuzzyFrame (_nextId w0) k s).
    split; [by apply list_elem_of_singleton|]. exists π. done.
Qed.

End FuzzyStore.

Section Literal.

(** The loop of [fromString] on characters that are no ['*']: a chain of
    new nodes that spells [str] from [node]. *)
Lemma fromString_loop_literal str : ∀ w node i len,
  wf w → node < _nextId w → i + length str = len →
  star ∉ str →
  edges (node_at w node) = [] →
  final (node_at w node) = bool_decide (str = []) →
  (∀ x, accepts (fromString_loop w node i len str) node x ↔ x = str)
  ∧ ∀ n c m, n = node ∨ _nextId w ≤ n →
      step (fromString_loop w node i len str) n c m →
      _nextId w ≤ m ∧ n < m.
Proof.
  induction str as [|char rest IH]; intros w node i len Hwf Hnode Hlen Hstar He Hf.
  - simpl. split.
    + intros x. unfold accepts. destruct x as [|d x]; simpl.
      * split; [done|]. intros _. exists node. split; [done|].
        unfold is_final. by rewrite Hf.
      * split; [|done]. intros (m & (k & Hs & _) & _). unfold step in Hs.
        by rewrite He in Hs.
    + intros n c m [->|Hn] Hs; unfold step in Hs.
      * by rewrite He in Hs.
      * by rewrite node_at_unallocated in Hs.
  - simpl in Hlen. apply not_elem_of_cons in Hstar as [Hchar Hstar].
    assert (Nat.eqb i (len - 1) = bool_decide (rest = [])) as Hfin.
    { destruct rest; simpl in Hlen.
      - rewrite bool_decide_eq_true_2 by done. apply Nat.eqb_eq. lia.
      - rewrite bool_decide_eq_false_2 by done. apply Nat.eqb_neq. lia. }
    cbn [fromString_loop]. rewrite Hfin.
    destruct (decide (char = star)) as [->|_]; [done|].
    rewrite new_TokenSet_eq. cbv iota beta.
    set (next := _nextId w). set (w1 := (new_TokenSet w).2).
    set (w3 := update_node _ node (set_edge char next)).
    assert (wf w3) as Hwf3.
    { unfold w3. apply wf_update_edge; [|simpl; lia|simpl; unfold next; lia].
      apply (wf_update_final _ _ (λ _, _)); [by apply wf_new|].
      simpl. unfold next. lia. }
    assert (next < _nextId w3) as Hnext by (simpl; unfold next; lia).
    assert (node_at w3 next = set_final (bool_decide (rest = [])) fresh_node)
      as Hn3.
    { unfold w3. rewrite node_at_update_ne by (unfold next; lia).
      rewrite node_at_update_eq. unfold w1, next. by rewrite node_at_new_eq. }
    destruct (IH w3 next (S i) len Hwf3 Hnext) as [IHacc IHstep];
      [lia | done | by rewrite Hn3 | by rewrite Hn3 |].
    destruct (fromString_loop_props rest w3 next (S i) len Hwf3 Hnext)
      as (_ & _ & Hfr).
    set (w' := fromString_loop w3 next (S i) len rest) in *.
    assert (node_at w' node = set_edge char next (node_at w node)) as Hnode'.
    { rewrite Hfr by (simpl; unfold next; lia). unfold w3.
      rewrite node_at_update_eq, node_at_update_ne by (unfold next; lia).
      unfold w1. rewrite node_at_new_ne by lia. done. }
    assert (∀ l k, step w' node l k ↔ l = char ∧ k = next) as Hsteps.
    { intros l k. unfold step. rewrite Hnode'. simpl.
      rewrite edges_get_set, He. case_decide as Hcl.
      - subst l. split; [by intros [= <-] | by intros [_ ->]].
      - split; [done | by intros [? _]]. }
    split.
    + intros x. destruct x as [|d x].
      * split; [|done]. intros (m & <- & Hfm). unfold is_final in Hfm.
        rewrite Hnode' in Hfm. simpl in Hfm. rewrite Hf in Hfm.
        by rewrite bool_decide_eq_false_2 in Hfm.
      * split.
        -- intros (m & (k & [-> ->]%Hsteps & Hp) & Hfm).
           f_equal. apply IHacc. by exists m.
        -- intros [= -> ->]. destruct (proj2 (IHacc rest) eq_refl) as (m & Hp & Hfm).
           exists m. split; [|done]. exists next. split; [by apply Hsteps | done].
    + intros n c m [->|Hn] Hs.
      * apply Hsteps in Hs as [-> ->]. unfold next. lia.
      * simpl in IHstep. fold next in Hn.
        destruct (IHstep n c m) as [? ?]; [|done|lia].
        destruct (decide (n = next)); [by left | right; lia].
Qed.

(** [fromString(t)] for a string [t] without ['*']: a fresh token set
    without cycles that holds [t] and nothing else, and nothing at all
    when [t] is empty. *)
Lemma fromString_literal w0 t :
  wf w0 → star ∉ t →
  ∃ w', fromString w0 t = (_nextId w0, w')
    ∧ wf w' ∧ extends w0 w' ∧ _nextId w0 < _nextId w'
    ∧ acyclic w' (λ n, _nextId w0 ≤ n < _nextId w') (λ n, _nextId w' - n)
    ∧ ∀ x, accepts w' (_nextId w0) x ↔ x = t ∧ t ≠ [].
Proof.
  intros Hwf Hstar.
  set (w1 := (new_TokenSet w0).2).
  assert (wf w1) as Hwf1 by (by apply wf_new).
  assert (_nextId w0 < _nextId w1) as Hroot by (simpl; lia).
  destruct t as [|c t].
  - exists w1. split; [done|]. split; [done|]. split; [apply extends_new|].
    split; [done|].
    assert (∀ n c m, _nextId w0 ≤ n → ¬ step w1 n c m) as Hno.
    { intros n c m Hn Hs. unfold step, w1 in Hs.
      destruct (decide (n = _nextId w0)) as [->|Hne].
      - by rewrite node_at_new_eq in Hs.
      - rewrite node_at_new_ne in Hs by done.
        rewrite node_at_unallocated in Hs; [done | done | lia]. }
    split.
    + split; intros n c m [Hn _] Hs; by destruct (Hno n c m Hn).
    + intros x. split; [|by intros [_ ?]]. intros (m & Hp & Hfm).
      destruct x as [|d x]; simpl in Hp.
      * subst m. unfold is_final, w1 in Hfm. by rewrite node_at_new_eq in Hfm.
      * destruct Hp as (k & Hs & _). by destruct (Hno (_nextId w0) d k).
  - destruct (fromString_spec w0 (c :: t) Hwf)
      as (w' & Heq & Hwf' & Hext & Hlt & _); [done|].
    exists w'. split; [done|]. split; [done|]. split; [done|]. split; [done|].
    unfold fromString in Heq. rewrite new_TokenSet_eq in Heq.
    cbv iota beta in Heq. fold w1 in Heq.
    assert (fromString_loop w1 (_nextId w0) 0 (length (c :: t)) (c :: t) = w')
      as Hw' by congruence.
    destruct (fromString_loop_literal (c :: t) w1 (_nextId w0) 0
                (length (c :: t)) Hwf1 Hroot) as [Hacc Hstep];
      [done | done | | |].
    { unfold w1. by rewrite node_at_new_eq. }
    { unfold w1. rewrite node_at_new_eq. symmetry.
      by apply bool_decide_eq_false_2. }
    rewrite Hw' in Hacc, Hstep. split.
    + assert (∀ n c' m, _nextId w0 ≤ n → step w' n c' m →
                _nextId w0 ≤ m < _nextId w' ∧ n < m) as Hs'.
      { intros n c' m Hn Hs. destruct (Hstep n c' m) as [? ?]; [|done|].
        - simpl. destruct (decide (n = _nextId w0)); [by left | right; lia].
        - simpl in *. split; [|done]. split; [lia|].
          by apply (wf_edges w' Hwf' n c' m). }
      split; intros n c' m [Hn Hn'] Hs; destruct (Hs' n c' m Hn Hs); [done|lia].
    + intros x. rewrite Hacc. split; [by intros -> | by intros [-> _]].
Qed.

End Literal.

(* ================================================================== *)
(** * Further properties of the token sets *)

(** X1: for a string [t] without ['*'], a string [s] and a budget [k],
    [TokenSet.fromString(t).intersect(TokenSet.fromFuzzyString(s, k)).toArray()]
    returns, given fuel enough for its loops, a list that holds [t] and
    nothing else when [t] is not empty and is got from [s] by a
    left-to-right script of at most [k] edits, and the empty list
    otherwise. *)
Theorem fuzzy_matches_edits w t s k :
  wf w → star ∉ t →
  ∃ n, ∀ fuel, n ≤ fuel →
    ∃ words, fuzzy_matches fuel w t s k = Some words
      ∧ ∀ x, x ∈ words ↔ x = t ∧ t ≠ [] ∧ edits k s t.
Proof.
  intros Hwf Hstar.
  destruct (fromString_literal w t Hwf Hstar)
    as (w1 & HfromString & Hwf1 & Hext1 & Hlt1 & Hacyc & Hlit).
  destruct (fromFuzzyString_spec w1 Hwf1 s k)
    as (n1 & w2 & Hfuzzy & Hwf2 & Hext2 & Hlt2 & Hlab).
  destruct (intersect_spec w2 (_nextId w) (_nextId w1)
              (λ n, _nextId w ≤ n < _nextId w1) (λ n, _nextId w1 - n) Hwf2)
    as (n2 & w3 & Hisect & Hwf3 & Hext3 & Hlt3 & (rank' & Hacyc') & Hout);
    [apply (acyclic_extends w1); [done | intros n; lia | done] | lia | lia | lia |].
  destruct (toArray_spec w3 _ rank' Hacyc' (_nextId w2))
    as (n3 & words & HtoArray & Hwords); [lia|].
  exists (max n1 (max n2 n3)). intros fuel Hfuel. exists words.
  unfold fuzzy_matches.
  rewrite HfromString, Hfuzzy, Hisect, HtoArray by lia.
  split; [done|]. intros x. rewrite Hwords, Hout.
  rewrite (extends_accepts w1 w2) by (done || lia). rewrite Hlit.
  rewrite qaccepts_labels, edits_fuzzy_labels. split.
  - intros (Hx & [-> Ht] & π & Hacc & Hm). split; [done|]. split; [done|].
    exists π. split; [|done]. apply Hlab; [|done].
    intros ->. inversion Hm; by subst.
  - intros (-> & Ht & π & Hl & Hm). split; [done|]. split; [done|].
    exists π. split; [|done]. apply Hlab; [|done].
    intros ->. inversion Hm; by subst.
Qed.

Lemma fuzzy_matches_edits_witness :
  ∃ n, ∀ fuel, n ≤ fuel →
    ∃ words,
      fuzzy_matches fuel initial_world (chars "abc") (chars "ca") 2
      = Some words
      ∧ ∀ x, x ∈ words ↔
             x = chars "abc" ∧ chars "abc" ≠ []
             ∧ edits 2 (chars "ca") (chars "abc").
Proof.
  apply (fuzzy_matches_edits initial_world (chars "abc") (chars "ca") 2).
  - apply wf_initial.
  - simpl. rewrite !not_elem_of_cons. repeat split; try discriminate.
    apply not_elem_of_nil.
Defined.

(** X2: for a vocabulary [V] sorted by code unit whose words hold no
    digit, [TokenSet.fromArray(V)] returns a token set, and [toArray()] of
    it returns, given fuel enough, exactly the words of [V]. *)
Theorem fromArray_toArray w V :
  wf w →
  sorted_from [] V = true →
  Forall (Forall (λ c, JsString.is_digit c = false)) V →
  ∃ root w' k,
    fromArray w V = inl (root, w')
    ∧ ∀ fuel, k ≤ fuel →
        ∃ words, toArray fuel w' root = Some words ∧ ∀ x, x ∈ words ↔ x ∈ V.
Proof.
  intros Hwf Hsorted Hdig.
  destruct (fromArray_spec w Hwf V Hsorted Hdig)
    as (w1 & HfromArray & Hwf1 & Hext1 & Hlt1 & (P & rank & Hacyc & Ha & HP) & Hlang).
  destruct (toArray_spec w1 P rank Hacyc (_nextId w) Ha)
    as (k & words & HtoArray & Hwords).
  exists (_nextId w), w1, k. split; [done|]. intros fuel Hfuel.
  exists words. split; [by apply HtoArray|]. intros x.
  by rewrite Hwords, Hlang.
Qed.

Lemma fromArray_toArray_witness :
  ∃ root w' k,
    fromArray initial_world [chars "ab"; chars "ac"; chars "b"] = inl (root, w')
    ∧ ∀ fuel, k ≤ fuel →
        ∃ words, toArray fuel w' root = Some words
          ∧ ∀ x, x ∈ words ↔ x ∈ [chars "ab"; chars "ac"; chars "b"].
Proof.
  apply (fromArray_toArray initial_world [chars "ab"; chars "ac"; chars "b"]).
  - apply wf_initial.
  - reflexivity.
  - repeat (constructor; try reflexivity).
Defined.

(** X3: for a string [t] that is not empty and holds no ['*'],
    [TokenSet.fromString(t).toArray()] returns, given fuel enough, the
    word [t] and no other. *)
Theorem fromString_toArray w t :
  wf w → star ∉ t → t ≠ [] →
  ∃ root w' k,
    fromString w t = (root, w')
    ∧ ∀ fuel, k ≤ fuel →
        ∃ words, toArray fuel w' root = Some words ∧ ∀ x, x ∈ words ↔ x = t.
Proof.
  intros Hwf Hstar Ht.
  destruct (fromString_literal w t Hwf Hstar)
    as (w1 & HfromString & Hwf1 & Hext1 & Hlt1 & Hacyc & Hlit).
  destruct (toArray_spec w1 _ _ Hacyc (_nextId w))
    as (k & words & HtoArray & Hwords); [lia|].
  exists (_nextId w), w1, k. split; [done|]. intros fuel Hfuel.
  exists words. split; [by apply HtoArray|]. intros x.
  rewrite Hwords, Hlit. split; [by intros [? _] | done].
Qed.

Lemma fromString_toArray_witness :
  ∃ root w' k,
    fromString initial_world (chars "ab") = (root, w')
    ∧ ∀ fuel, k ≤ fuel →
        ∃ words, toArray fuel w' root = Some words
          ∧ ∀ x, x ∈ words ↔ x = chars "ab".
Proof.
  apply (fromString_toArray initial_world (chars "ab")).
  - apply wf_initial.
  - simpl. rewrite !not_elem_of_cons. repeat split; try discriminate.
    apply not_elem_of_nil.
  - discriminate.
Defined.

(** X4: [toString()] identifies a node whose labels are no digits: two
    nodes with no cached string and no digit among their labels that have
    the same string are both final or both not, and have the same edges
    to the same nodes. *)
Theorem toString_identifies w a b :
  _str (node_at w a) = [] → _str (node_at w b) = [] →
  (∀ c m, step w a c m → JsString.is_digit c = false) →
  (∀ c m, step w b c m → JsString.is_digit c = false) →
  toString w a = toString w b →
  (is_final w a ↔ is_final w b) ∧ ∀ c m, step w a c m ↔ step w b c m.
Proof.
  intros Hsa Hsb Hda Hdb. unfold toString. rewrite Hsa, Hsb. intros Heq.
  apply compute_key_inj in Heq as [Hf He].
  - unfold is_final, step. rewrite Hf. split; [done|]. intros c m.
    by rewrite He.
  - intros c [m Hm]. by apply (Hda c m).
  - intros c [m Hm]. by apply (Hdb c m).
Qed.

Lemma toString_identifies_witness :
  let w := (fromString (fromString initial_world (chars "ab")).2 (chars "cb")).2 in
  toString w 3 = toString w 6
  ∧ ((is_final w 3 ↔ is_final w 6) ∧ ∀ c m, step w 3 c m ↔ step w 6 c m).
Proof.
  assert (∀ n, n = 3 ∨ n = 6 → ∀ c m,
    step (fromString (fromString initial_world (chars "ab")).2 (chars "cb")).2
         n c m → JsString.is_digit c = false) as Hd.
  { intros n [-> | ->] c m Hs; vm_compute in Hs; discriminate Hs. }
  split; [reflexivity|].
  apply toString_identifies;
    [reflexivity | reflexivity | apply Hd; by left | apply Hd; by right
    | reflexivity].
Defined.

(* ================================================================== *)
(** * Further properties of vectors *)

Section MoreVectorFacts.

Import Vector.
Local Open Scope Z_scope.

Lemma increasing_tail e els : increasing (e :: els) → increasing els.
Proof.
  intros Hinc j k p q Hjk Hp Hq.
  apply (Hinc (S j) (S k)); [lia | done | done].
Qed.

Lemma increasing_sorted_indices els :
  increasing els → sorted_indices els = true.
Proof.
  induction els as [|e els IH]; intros Hinc; [done|].
  cbn [sorted_indices]. destruct els as [|e' els']; [done|].
  apply andb_true_iff. split.
  - apply Z.ltb_lt. apply (Hinc 0%nat 1%nat); [lia | done | done].
  - apply IH. by eapply increasing_tail.
Qed.

Lemma lower_bound_split els index k :
  lower_bound els index k →
  Forall (λ e, e.1 < index) (take k els)
  ∧ Forall (λ e, index ≤ e.1) (drop k els).
Proof.
  intros (Hk & Hlo & Hhi). split.
  - apply Forall_lookup. intros j e Hj.
    apply lookup_take_Some in Hj as [Hj Hlt].
    apply (Hlo j); [done|]. unfold index_at. by rewrite Hj.
  - apply Forall_lookup. intros j e Hj. rewrite lookup_drop in Hj.
    apply (Hhi (k + j)%nat); [lia|]. unfold index_at. by rewrite Hj.
Qed.

(** A vector with no index of the other: the loop of [dot] never adds
    to [dotProduct]. *)
Lemma dot_loop_disjoint parseFloat : ∀ a b acc,
  (∀ i, i ∈ a.*1 → i ∉ b.*1) →
  dot_loop parseFloat a b acc = acc.
Proof.
  induction a as [|[ai x] a IHa]; intros b acc Hdis; [done|].
  induction b as [|[bj y] b IHb]; [done|].
  cbn [dot_loop].
  destruct (Z.ltb_spec ai bj) as [Hlt|Hge].
  { apply IHa. intros i Hi. apply Hdis. by right. }
  destruct (Z.ltb_spec bj ai) as [Hgt|Hle].
  { apply IHb. intros i Hi Hi'. apply (Hdis i Hi). by right. }
  exfalso. assert (ai = bj) as -> by lia.
  apply (Hdis bj); by left.
Qed.

(** [0 / m] is [0], [-0] or [NaN], which are all falsy. *)
Lemma zero_div_falsy (m : float) : JsNumber.truthy (0 / m)%float = false.
Proof.
  unfold JsNumber.truthy, PrimFloat.is_nan.
  rewrite !FloatAxioms.eqb_spec, FloatAxioms.div_spec.
  change (Prim2SF 0) with (S754_zero false).
  by destruct (Prim2SF m) as [[]|[]| |[] ? ?].
Qed.

End MoreVectorFacts.

(** X5: on a vector whose indices grow strictly, [positionForIndex(i)]
    is twice the number [k] of pairs whose index is below [i]: the pairs
    before position [2k] of the flat array have an index below [i], the
    others an index that is [i] or above. *)
Theorem positionForIndex_sorted (els : list (Z * Vector.value)) (i : Z) :
  sorted_indices els = true →
  ∃ k, Vector.positionForIndex els i = 2 * k
       ∧ k ≤ length els
       ∧ Forall (λ e, (e.1 < i)%Z) (take k els)
       ∧ Forall (λ e, (i ≤ e.1)%Z) (drop k els).
Proof.
  intros Hs%sorted_indices_increasing.
  destruct (positionForIndex_spec els i Hs) as (k & Hpos & Hlb).
  exists k. split; [done|]. split; [by destruct Hlb|].
  by apply lower_bound_split.
Qed.

Lemma positionForIndex_sorted_witness :
  ∃ k, Vector.positionForIndex
         [(1, Vector.Num 2); (5, Vector.Num 1); (9, Vector.Num 4)]%Z 6 = 2 * k
       ∧ k ≤ 3
       ∧ Forall (λ e, (e.1 < 6)%Z)
           (take k [(1, Vector.Num 2); (5, Vector.Num 1); (9, Vector.Num 4)]%Z)
       ∧ Forall (λ e, (6 ≤ e.1)%Z)
           (drop k [(1, Vector.Num 2); (5, Vector.Num 1); (9, Vector.Num 4)]%Z).
Proof.
  apply (positionForIndex_sorted
           [(1, Vector.Num 2); (5, Vector.Num 1); (9, Vector.Num 4)]%Z 6).
  reflexivity.
Defined.

(** X6: on a vector whose indices grow strictly, [insert(i, x)] throws
    the duplicate-index error when [i] is present; when [i] is absent it
    adds the pair [(i, x)] and nothing else, and the indices still grow
    strictly. *)
Theorem insert_sorted (v : Vector.t) (i : Z) (x : float) :
  sorted_indices (Vector.elements v) = true →
  (i ∈ (Vector.elements v).*1 → Vector.insert v i x = inr DuplicateIndex)
  ∧ (i ∉ (Vector.elements v).*1 →
     ∃ v', Vector.insert v i x = inl v'
       ∧ sorted_indices (Vector.elements v') = true
       ∧ Vector.elements v' ≡ₚ (i, Vector.Num x) :: Vector.elements v).
Proof.
  intros Hs%sorted_indices_increasing. unfold Vector.insert. split.
  - intros Hin. apply list_elem_of_fmap in Hin as ([i' a] & -> & Hin).
    destruct (upsert_present v i' x (Some (λ _ _, inr DuplicateIndex)) a Hs Hin)
      as (l1 & l2 & _ & Hup). exact Hup.
  - intros Hnin.
    destruct (upsert_absent v i x (Some (λ _ _, inr DuplicateIndex)) Hs Hnin)
      as (l1 & l2 & Hel & H1 & H2 & Hup).
    eexists. split; [exact Hup|]. simpl. split.
    + apply increasing_sorted_indices, increasing_app; [by rewrite <- Hel|done..].
    + rewrite Hel. by rewrite Permutation_middle.
Qed.

Lemma insert_sorted_witness :
  (5%Z ∈ [(1, Vector.Num 2); (5, Vector.Num 1)]%Z.*1 →
   Vector.insert (Vector.of_elements [(1, Vector.Num 2); (5, Vector.Num 1)]%Z)
     5 3 = inr DuplicateIndex)
  ∧ (5%Z ∉ [(1, Vector.Num 2); (5, Vector.Num 1)]%Z.*1 →
     ∃ v', Vector.insert
             (Vector.of_elements [(1, Vector.Num 2); (5, Vector.Num 1)]%Z) 5 3
           = inl v'
       ∧ sorted_indices (Vector.elements v') = true
       ∧ Vector.elements v'
         ≡ₚ (5%Z, Vector.Num 3) :: [(1, Vector.Num 2); (5, Vector.Num 1)]%Z).
Proof.
  apply (insert_sorted
           (Vector.of_elements [(1, Vector.Num 2); (5, Vector.Num 1)]%Z) 5 3).
  reflexivity.
Defined.

(** X7: two vectors that have no index in common have the dot product
    [0], and their similarity is [0] whatever the magnitude is. *)
Theorem dot_disjoint (parseFloat : string → float) (v other : Vector.t) :
  (∀ i, i ∈ (Vector.elements v).*1 → i ∉ (Vector.elements other).*1) →
  Vector.dot parseFloat v other = 0%float
  ∧ (Vector.similarity parseFloat v other).1 = 0%float.
Proof.
  intros Hdis.
  assert (Vector.dot parseFloat v other = 0%float) as Hdot.
  { unfold Vector.dot. by apply dot_loop_disjoint. }
  split; [done|]. unfold Vector.similarity. rewrite Hdot.
  destruct (Vector.magnitude parseFloat v) as [m v']. simpl.
  unfold JsNumber.or_else. by rewrite zero_div_falsy.
Qed.

Lemma dot_disjoint_witness :
  Vector.dot (λ _, 0%float)
    (Vector.of_elements [(1, Vector.Num 2); (5, Vector.Num 1)]%Z)
    (Vector.of_elements [(2, Vector.Num 3)]%Z) = 0%float
  ∧ (Vector.similarity (λ _, 0%float)
       (Vector.of_elements [(1, Vector.Num 2); (5, Vector.Num 1)]%Z)
       (Vector.of_elements [(2, Vector.Num 3)]%Z)).1 = 0%float.
Proof.
  apply (dot_disjoint (λ _, 0%float)
           (Vector.of_elements [(1, Vector.Num 2); (5, Vector.Num 1)]%Z)
           (Vector.of_elements [(2, Vector.Num 3)]%Z)).
  intros i Hi Hi'. simpl in Hi, Hi'.
  apply list_elem_of_singleton in Hi'. subst i.
  repeat (apply elem_of_cons in Hi as [Hi|Hi]; [discriminate Hi|]).
  by apply elem_of_nil in Hi.
Defined.

(* ================================================================== *)
(** * Further properties of field references and of the builder *)

Section FieldRefFacts.

Lemma split_spec s :
  match FieldRef.split s with
  | None => FieldRef.joiner ∉ chars s
  | Some (f, d) =>
      s = (f ++ String FieldRef.joiner d)%string ∧ FieldRef.joiner ∉ chars f
  end.
Proof.
  induction s as [|c s IH]; simpl.
  - apply not_elem_of_nil.
  - case_decide as Hc.
    + subst c. split; [done | apply not_elem_of_nil].
    + destruct (FieldRef.split s) as [[f d]|].
      * destruct IH as [-> Hf]. split; [done|].
        apply not_elem_of_cons. split; [by intros <- | done].
      * apply not_elem_of_cons. split; [by intros <- | done].
Qed.

Lemma split_no_joiner f :
  FieldRef.joiner ∉ chars f → FieldRef.split f = None.
Proof.
  intros Hf. pose proof (split_spec f) as Hs.
  destruct (FieldRef.split f) as [[a d]|]; [|done].
  destruct Hs as [-> _]. exfalso. apply Hf. clear.
  induction a as [|c a IH]; simpl; [left | by right].
Qed.

Lemma existsb_slash s :
  existsb (λ c, bool_decide (c = "/"%char)) (chars s) = false →
  FieldRef.joiner ∉ chars s.
Proof.
  induction s as [|c s IH]; simpl; [intros _; apply not_elem_of_nil|].
  intros [Hc Hs]%orb_false_iff. apply bool_decide_eq_false in Hc.
  apply not_elem_of_cons. split; [by intros <- | by apply IH].
Qed.

End FieldRefFacts.

(** X8: [FieldRef.fromString(s)] throws the malformed-reference error
    when [s] holds no ['/']; otherwise it splits [s] at its first ['/']:
    the field name holds no ['/'], the document reference is all that
    follows, and [toString()] of the result is [s] again. *)
Theorem fieldRef_fromString_spec (s : string) :
  (FieldRef.joiner ∉ chars s →
   FieldRef.fromString s = Throw MalformedFieldRef)
  ∧ (FieldRef.joiner ∈ chars s →
     ∃ r, FieldRef.fromString s = Ok r
       ∧ s = String.append (FieldRef.fieldName r)
               (String FieldRef.joiner (FieldRef.docRef r))
       ∧ (FieldRef.joiner ∉ chars (FieldRef.fieldName r))
       ∧ FieldRef.toString r = s).
Proof.
  pose proof (split_spec s) as Hs. unfold FieldRef.fromString. split.
  - intros Hno. by rewrite split_no_joiner.
  - intros Hin. destruct (FieldRef.split s) as [[f d]|]; [|done].
    destruct Hs as [Heq Hf]. eexists. split; [done|]. simpl. done.
Qed.

(** X9: a field name that [Builder.field] accepts makes field references
    that can be read back: for every document reference,
    [FieldRef.fromString] of the string of [new FieldRef(docRef,
    fieldName)] gives the same document reference and field name, also
    when the document reference holds ['/'].  [field] throws a
    [RangeError] for the names that hold ['/']. *)
Theorem registered_field_ref_round_trip (b : Builder.t) (fieldName : string)
    (attributes : Builder.field_attributes) (docRef : string) :
  match Builder.field b fieldName attributes with
  | Ok b' =>
      JsObject.get_own (Builder._fields b') fieldName = Some attributes
      ∧ ∃ sv,
          FieldRef.fromString
            (FieldRef.toString (FieldRef.mk docRef fieldName None))
          = Ok (FieldRef.mk docRef fieldName sv)
  | Throw e =>
      FieldRef.joiner ∈ chars fieldName
      ∧ e = RangeError
              ("Field '" ++ fieldName ++ "' contains illegal character '/'")
  | _ => False
  end.
Proof.
  unfold Builder.field.
  destruct (existsb _ (chars fieldName)) eqn:Hex.
  - split; [|done]. apply existsb_exists in Hex as (c & Hc & Heq).
    apply bool_decide_eq_true in Heq. subst c. by apply list_elem_of_In.
  - apply existsb_slash in Hex. simpl. split.
    + apply get_own_set_eq.
    + eexists. unfold FieldRef.fromString, FieldRef.toString. simpl.
      by rewrite (split_app fieldName docRef (split_no_joiner _ Hex)).
Qed.

(* ================================================================== *)
(** * Further properties of the sets of document references *)

Section LunrSetFacts.

(** The elements of a set are kept as properties whose value is [true]. *)
Definition built (s : LunrSet.t) : Prop :=
  match s with
  | LunrSet.Elements o _ => ∀ k v, JsObject.get_own o k = Some v → v = true
  | _ => True
  end.

Lemma proto_is_member : JsObject.is_prototype_member "__proto__" = true.
Proof. reflexivity. Qed.

Lemma fold_set_true (l : list string) : ∀ (o : JsObject.t bool) x,
  JsObject.get_own
    (fold_left (λ o e, JsObject.set_primitive o e true) l o) x
  = if decide (x ∈ l ∧ x ≠ "__proto__"%string) then Some true
    else JsObject.get_own o x.
Proof.
  induction l as [|e l IH]; intros o x; cbn [fold_left].
  - rewrite decide_False; [done|]. intros [?%elem_of_nil _]. done.
  - rewrite IH. destruct (decide (x ∈ l ∧ x ≠ "__proto__"%string)) as [[Hl Hx]|Hn].
    + rewrite decide_True; [done|]. split; [by right | done].
    + unfold JsObject.set_primitive.
      destruct (decide (e = "__proto__"%string)) as [->|He].
      * rewrite decide_False; [done|]. intros [[->|Hin]%elem_of_cons Hx]; tauto.
      * destruct (decide (e = x)) as [->|Hex].
        -- rewrite get_own_set_eq. rewrite decide_True; [done|].
           split; [left | done].
        -- rewrite get_own_set_ne by done. rewrite decide_False; [done|].
           intros [[->|Hin]%elem_of_cons Hx]; tauto.
Qed.

Lemma new_own l x :
  match LunrSet.new l with
  | LunrSet.Elements o _ =>
      JsObject.get_own o x
      = if decide (x ∈ l ∧ x ≠ "__proto__"%string) then Some true else None
  | _ => False
  end.
Proof. unfold LunrSet.new. by rewrite fold_set_true. Qed.

Lemma built_new l : built (LunrSet.new l).
Proof.
  unfold LunrSet.new, built. intros k v. rewrite fold_set_true.
  case_decide; [by intros [= <-] | done].
Qed.

Lemma has_own {V} (o : JsObject.t V) x :
  JsObject.has o x
  = bool_decide (is_Some (JsObject.get_own o x)) || JsObject.is_prototype_member x.
Proof.
  unfold JsObject.has, JsObject.get.
  destruct (JsObject.get_own o x) as [v|].
  - by rewrite bool_decide_eq_true_2.
  - rewrite bool_decide_eq_false_2 by (by intros [? ?]).
    by destruct (JsObject.is_prototype_member x).
Qed.

Lemma contains_own o n x :
  built (LunrSet.Elements o n) →
  LunrSet.contains (LunrSet.Elements o n) x
  = bool_decide (is_Some (JsObject.get_own o x)) || JsObject.is_prototype_member x.
Proof.
  intros Hb. unfold LunrSet.contains, JsObject.get.
  destruct (JsObject.get_own o x) as [v|] eqn:Hv.
  - rewrite (Hb x v Hv). by rewrite bool_decide_eq_true_2.
  - rewrite bool_decide_eq_false_2 by (by intros [? ?]).
    by destruct (JsObject.is_prototype_member x).
Qed.

Lemma contains_new_iff l x :
  LunrSet.contains (LunrSet.new l) x = true
  ↔ x ∈ l ∨ JsObject.is_prototype_member x = true.
Proof.
  pose proof (new_own l x) as Ho. pose proof (built_new l) as Hb.
  destruct (LunrSet.new l) as [| |o n]; [done | done |].
  rewrite contains_own by done. rewrite Ho, orb_true_iff, bool_decide_eq_true.
  destruct (decide (x ∈ l ∧ x ≠ "__proto__"%string)) as [[Hl Hx]|Hn].
  - split; [by left | intros _; left; eauto].
  - split.
    + intros [[? ?]|?]; [done | by right].
    + intros [Hl|?]; [|by right]. right.
      destruct (decide (x = "__proto__"%string)) as [->|?]; [done | tauto].
Qed.

Lemma is_Some_own_keys {V} (o : JsObject.t V) x :
  is_Some (JsObject.get_own o x) ↔ x ∈ JsObject.keys o.
Proof.
  unfold JsObject.keys. rewrite order_keys_perm.
  rewrite <- not_eq_None_Some, get_own_None.
  split; [apply dec_stable | by intros ? ?].
Qed.

Lemma contains_filter_keys (a b : JsObject.t bool) x :
  LunrSet.contains
    (LunrSet.new (filter (λ element, JsObject.has b element = true)
                         (JsObject.keys a))) x = true
  ↔ (is_Some (JsObject.get_own a x) ∨ JsObject.is_prototype_member x = true)
    ∧ (is_Some (JsObject.get_own b x) ∨ JsObject.is_prototype_member x = true).
Proof.
  rewrite contains_new_iff, list_elem_of_filter, has_own, orb_true_iff,
    bool_decide_eq_true, <- is_Some_own_keys.
  tauto.
Qed.

End LunrSetFacts.

(** X10: [new LunrSet(elements).contains(x)] is true when [x] is one of
    the elements and when [x] is the name of a member of
    [Object.prototype], and false otherwise. *)
Theorem lunrSet_contains_new (l : list string) (x : string) :
  LunrSet.contains (LunrSet.new l) x = true
  ↔ x ∈ l ∨ x ∈ JsObject.prototype_members.
Proof.
  rewrite contains_new_iff. unfold JsObject.is_prototype_member.
  by rewrite bool_decide_eq_true.
Qed.

(** X11: for sets whose elements were added by the constructor, the
    complete and the empty set included, [a.intersect(b)] is such a set
    again and contains [x] exactly when both [a] and [b] contain [x]. *)
Theorem lunrSet_intersect_contains (a b : LunrSet.t) (x : string) :
  built a → built b →
  built (LunrSet.intersect a b)
  ∧ LunrSet.contains (LunrSet.intersect a b) x
    = LunrSet.contains a x && LunrSet.contains b x.
Proof.
  intros Ha Hb. destruct a as [| |oa na], b as [| |ob nb]; try done.
  - split; [done|]. by rewrite andb_true_r.
  - split; [done|]. by rewrite andb_false_r.
  - cbn [LunrSet.intersect].
    destruct (na <? nb); (split; [apply built_new|]);
      apply Bool.eq_iff_eq_true;
      rewrite contains_filter_keys, andb_true_iff, !contains_own,
        !orb_true_iff, !bool_decide_eq_true by done; tauto.
Qed.

Lemma lunrSet_intersect_contains_witness :
  let a := LunrSet.new ["a"; "b"]%string in
  let b := LunrSet.new ["b"]%string in
  built (LunrSet.intersect a b)
  ∧ LunrSet.contains (LunrSet.intersect a b) "b"
    = LunrSet.contains a "b" && LunrSet.contains b "b".
Proof.
  apply (lunrSet_intersect_contains (LunrSet.new ["a"; "b"]%string)
           (LunrSet.new ["b"]%string) "b"%string); apply built_new.
Defined.

(** X12: for sets whose elements were added by the constructor, the
    complete and the empty set included, [a.union(b)] is such a set again
    and contains [x] exactly when [a] or [b] contains [x]. *)
Theorem lunrSet_union_contains (a b : LunrSet.t) (x : string) :
  built a → built b →
  built (LunrSet.union a b)
  ∧ LunrSet.contains (LunrSet.union a b) x
    = LunrSet.contains a x || LunrSet.contains b x.
Proof.
  intros Ha Hb. destruct a as [| |oa na], b as [| |ob nb]; try done.
  - split; [done|]. by rewrite orb_true_r.
  - split; [done|]. by rewrite orb_false_r.
  - cbn [LunrSet.union]. split; [apply built_new|].
    apply Bool.eq_iff_eq_true.
    rewrite contains_new_iff, elem_of_app, <- !is_Some_own_keys,
      orb_true_iff, !contains_own, !orb_true_iff, !bool_decide_eq_true by done.
    tauto.
Qed.

Lemma lunrSet_union_contains_witness :
  let a := LunrSet.new ["a"; "b"]%string in
  let b := LunrSet.new ["c"]%string in
  built (LunrSet.union a b)
  ∧ LunrSet.contains (LunrSet.union a b) "c"
    = LunrSet.contains a "c" || LunrSet.contains b "c".
Proof.
  apply (lunrSet_union_contains (LunrSet.new ["a"; "b"]%string)
           (LunrSet.new ["c"]%string) "c"%string); apply built_new.
Defined.

(* ================================================================== *)
(** * The stack of a pipeline (src/Pipeline.ts)

    The functions of a pipeline are objects: [indexOf] finds them by
    identity, and [label] is the property that [registerFunction] gives
    them.  [F] is the type of these objects, its equality their
    identity; the warnings that [add], [after], [before] and [toJSON]
    log do not change the pipeline and are left out. *)

Module PipelineStack.

(** An operation on the stack returns, throws an [Error] with a message,
    or picks up a member of [Object.prototype] in place of a registered
    function. *)
Inductive outcome (A : Type) :=
| Done (a : A)
| Error (message : string)
| Builtin (name : string).

Arguments Done {A} a.
Arguments Error {A} message.
Arguments Builtin {A} name.

Section WithFunctions.

Context {F : Type} `{EqDecision F}.

(** [this._stack.indexOf(fn)]; [None] is [-1]. *)
Fixpoint indexOf (_stack : list F) (fn : F) : option nat :=
  match _stack with
  | [] => None
  | fn' :: rest =>
      if decide (fn' = fn) then Some 0 else S <$> indexOf rest fn
  end.

(** [add(...fns)] *)
Definition add (_stack : list F) (fns : list F) : list F := _stack ++ fns.

(** [after(existingFn, newFn)] *)
Definition after (_stack : list F) (existingFn newFn : F)
    : outcome (list F) :=
  match indexOf _stack existingFn with
  | None => Error "Cannot find existingFn"
  | Some pos =>
      let pos := pos + 1 in
      Done (take pos _stack ++ newFn :: drop pos _stack)
  end.

(** [before(existingFn, newFn)] *)
Definition before (_stack : list F) (existingFn newFn : F)
    : outcome (list F) :=
  match indexOf _stack existingFn with
  | None => Error "Cannot find existingFn"
  | Some pos => Done (take pos _stack ++ newFn :: drop pos _stack)
  end.

(** [remove(fn)] *)
Definition remove (_stack : list F) (fn : F) : list F :=
  match indexOf _stack fn with
  | None => _stack
  | Some pos => take pos _stack ++ drop (pos + 1) _stack
  end.

(** [reset()] *)
Definition reset (_stack : list F) : list F := [].

(** [toJSON()]; [None] is the [undefined] label of a function that was
    never registered. *)
Definition toJSON (label : F → option string) (_stack : list F)
    : list (option string) :=
  map label _stack.

(** [Pipeline.load(serialised)], with [Pipeline.registeredFunctions]. *)
Fixpoint load_loop (registeredFunctions : JsObject.t F)
    (serialised : list string) (_stack : list F) : outcome (list F) :=
  match serialised with
  | [] => Done _stack
  | fnName :: rest =>
      match JsObject.get registeredFunctions fnName with
      | JsObject.Own fn => load_loop registeredFunctions rest (add _stack [fn])
      | JsObject.Inherited => Builtin fnName
      | JsObject.Undefined =>
          Error ("Cannot load unregistered function: " ++ fnName)
      end
  end.

Definition load (registeredFunctions : JsObject.t F)
    (serialised : list string) : outcome (list F) :=
  load_loop registeredFunctions serialised [].

End WithFunctions.

End PipelineStack.

(** ** The stop word filter (src/stopWordFilter.ts) and the trimmer
       (src/trimmer.ts) *)

(** [generateStopWordFilter(stopWords)]: the function it returns, applied
    to a token of the pipeline. *)
Definition generateStopWordFilter (stopWords : list string)
    : Pipeline.PipelineFunction :=
  let words :=
    fold_left (λ memo stopWord, JsObject.set_primitive memo stopWord stopWord)
              stopWords [] in
  λ token _ _,
    match JsObject.get words (Token.toString token) with
    | JsObject.Own word =>
        if decide (word = Token.toString token) then Pipeline.Nothing
        else Pipeline.One token
    | _ => Pipeline.One token
    end.

(** [\w] on one code unit. *)
Definition is_word (c : ascii) : bool :=
  let n := nat_of_ascii c in
  ((48 <=? n) && (n <=? 57)) || ((65 <=? n) && (n <=? 90))
  || (n =? 95) || ((97 <=? n) && (n <=? 122)).

(** [s.replace(/^\W+/, '')] *)
Fixpoint trim_start (s : string) : string :=
  match s with
  | EmptyString => EmptyString
  | String c s' => if is_word c then s else trim_start s'
  end.

(** [s.replace(/\W+$/, '')] *)
Fixpoint trim_end (s : string) : string :=
  match s with
  | EmptyString => EmptyString
  | String c s' =>
      match trim_end s' with
      | EmptyString => if is_word c then String c EmptyString else EmptyString
      | r => String c r
      end
  end.

(** [trimmer(token)] *)
Definition trimmer (token : Token.t) : Token.t :=
  Token.update (λ s _, trim_end (trim_start s)) token.

(* ================================================================== *)
(** * Properties of pipelines, of the stop word filter and of the
      trimmer *)

Section PipelineStackFacts.

Context {F : Type} `{EqDecision F}.

Import PipelineStack.

Lemma indexOf_spec (stack : list F) (fn : F) :
  match indexOf stack fn with
  | None => fn ∉ stack
  | Some pos =>
      ∃ l1 l2, stack = l1 ++ fn :: l2 ∧ (fn ∉ l1) ∧ length l1 = pos
  end.
Proof.
  induction stack as [|fn' rest IH]; simpl.
  - apply not_elem_of_nil.
  - case_decide as Hfn.
    + subst fn'. exists [], rest. split; [done|]. split; [apply not_elem_of_nil|done].
    + destruct (indexOf rest fn) as [pos|]; simpl.
      * destruct IH as (l1 & l2 & -> & Hl1 & Hlen). exists (fn' :: l1), l2.
        split; [done|]. split; [|by rewrite <- Hlen].
        apply not_elem_of_cons. split; [congruence | done].
      * apply not_elem_of_cons. split; [congruence | done].
Qed.

Lemma take_drop_at (l1 l2 : list F) :
  take (length l1) (l1 ++ l2) = l1 ∧ drop (length l1) (l1 ++ l2) = l2.
Proof. split; [by rewrite take_app_length | by rewrite drop_app_length]. Qed.

Lemma load_loop_registered (label : F → option string)
    (registeredFunctions : JsObject.t F) (stack : list F) :
  (∀ fn, fn ∈ stack →
     ∃ name, label fn = Some name
       ∧ JsObject.get registeredFunctions name = JsObject.Own fn) →
  ∃ names, toJSON label stack = map Some names
    ∧ ∀ acc, load_loop registeredFunctions names acc = Done (acc ++ stack).
Proof.
  induction stack as [|fn stack IH]; intros Hreg.
  - exists []. split; [done|]. intros acc. by rewrite app_nil_r.
  - destruct (Hreg fn) as (name & Hlabel & Hget); [left|].
    destruct IH as (names & Hjson & Hload).
    { intros fn' Hin. apply Hreg. by right. }
    exists (name :: names). split.
    + simpl. by rewrite Hlabel, <- Hjson.
    + intros acc. simpl. rewrite Hget, Hload. unfold add.
      by rewrite <- app_assoc.
Qed.

End PipelineStackFacts.

(** X13: [after(existingFn, newFn)] and [before(existingFn, newFn)] throw
    ['Cannot find existingFn'] when [existingFn] is not in the pipeline;
    otherwise they put [newFn] right after, respectively right before,
    the first occurrence of [existingFn] and leave the rest of the
    pipeline in its order. *)
Theorem pipeline_after_before {F : Type} `{EqDecision F}
    (stack : list F) (existingFn newFn : F) :
  ((existingFn ∉ stack)
   ∧ PipelineStack.after stack existingFn newFn
     = PipelineStack.Error "Cannot find existingFn"
   ∧ PipelineStack.before stack existingFn newFn
     = PipelineStack.Error "Cannot find existingFn")
  ∨ (∃ l1 l2, stack = l1 ++ existingFn :: l2 ∧ (existingFn ∉ l1)
       ∧ PipelineStack.after stack existingFn newFn
         = PipelineStack.Done (l1 ++ existingFn :: newFn :: l2)
       ∧ PipelineStack.before stack existingFn newFn
         = PipelineStack.Done (l1 ++ newFn :: existingFn :: l2)).
Proof.
  pose proof (indexOf_spec stack existingFn) as Hpos.
  unfold PipelineStack.after, PipelineStack.before.
  destruct (PipelineStack.indexOf stack existingFn) as [pos|].
  - right. destruct Hpos as (l1 & l2 & -> & Hl1 & <-). exists l1, l2.
    split; [done|]. split; [done|].
    destruct (take_drop_at l1 (existingFn :: l2)) as [-> ->].
    split; [|done].
    replace (l1 ++ existingFn :: l2) with ((l1 ++ [existingFn]) ++ l2)
      by (by rewrite <- app_assoc).
    replace (length l1 + 1) with (length (l1 ++ [existingFn]))
      by (rewrite length_app; simpl; lia).
    destruct (take_drop_at (l1 ++ [existingFn]) l2) as [-> ->].
    by rewrite <- app_assoc.
  - by left.
Qed.

(** X14: [remove(fn)] leaves a pipeline that does not hold [fn] as it
    is, and otherwise takes out the first occurrence of [fn] and nothing
    else. *)
Theorem pipeline_remove {F : Type} `{EqDecision F} (stack : list F) (fn : F) :
  ((fn ∉ stack) ∧ PipelineStack.remove stack fn = stack)
  ∨ (∃ l1 l2, stack = l1 ++ fn :: l2 ∧ (fn ∉ l1)
       ∧ PipelineStack.remove stack fn = l1 ++ l2).
Proof.
  pose proof (indexOf_spec stack fn) as Hpos. unfold PipelineStack.remove.
  destruct (PipelineStack.indexOf stack fn) as [pos|].
  - right. destruct Hpos as (l1 & l2 & -> & Hl1 & <-). exists l1, l2.
    split; [done|]. split; [done|].
    destruct (take_drop_at l1 (fn :: l2)) as [-> _].
    replace (l1 ++ fn :: l2) with ((l1 ++ [fn]) ++ l2)
      by (by rewrite <- app_assoc).
    replace (length l1 + 1) with (length (l1 ++ [fn]))
      by (rewrite length_app; simpl; lia).
    by destruct (take_drop_at (l1 ++ [fn]) l2) as [_ ->].
  - by left.
Qed.

(** X15: a pipeline all of whose functions are registered under their
    label is loaded back from its serialised form:
    [Pipeline.load(pipeline.toJSON())] has the same functions in the same
    order. *)
Theorem pipeline_load_toJSON {F : Type} `{EqDecision F}
    (label : F → option string) (registeredFunctions : JsObject.t F)
    (stack : list F) :
  (∀ fn, fn ∈ stack →
     ∃ name, label fn = Some name
       ∧ JsObject.get registeredFunctions name = JsObject.Own fn) →
  ∃ names, PipelineStack.toJSON label stack = map Some names
    ∧ PipelineStack.load registeredFunctions names = PipelineStack.Done stack.
Proof.
  intros Hreg.
  destruct (load_loop_registered label registeredFunctions stack Hreg)
    as (names & Hjson & Hload).
  exists names. split; [done|]. apply (Hload []).
Qed.

Lemma pipeline_load_toJSON_witness :
  ∃ names,
    PipelineStack.toJSON
      (λ fn : nat, Some (if decide (fn = 1) then "trimmer" else "stemmer")%string)
      [1; 2] = map Some names
    ∧ PipelineStack.load [("trimmer", 1); ("stemmer", 2)]%string names
      = PipelineStack.Done [1; 2].
Proof.
  apply (pipeline_load_toJSON
           (λ fn : nat, Some (if decide (fn = 1) then "trimmer" else "stemmer")%string)
           [("trimmer", 1); ("stemmer", 2)]%string [1; 2]).
  intros fn Hfn. apply elem_of_cons in Hfn as [->|Hfn].
  - by exists "trimmer"%string.
  - apply list_elem_of_singleton in Hfn as ->. by exists "stemmer"%string.
Defined.

(** X16: running a pipeline to which functions have been added is
    running the pipeline as it was and then the added functions on its
    result. *)
Theorem pipeline_run_add (stack fns : Pipeline.t) (tokens : list Token.t) :
  Pipeline.run (PipelineStack.add stack fns) tokens
  = Pipeline.run fns (Pipeline.run stack tokens).
Proof. unfold Pipeline.run, PipelineStack.add. apply fold_left_app. Qed.

Section StopWords.

Lemma fold_set_primitive {V} (f : string → V) (l : list string) :
  ∀ (o : JsObject.t V) x,
  JsObject.get_own
    (fold_left (λ o e, JsObject.set_primitive o e (f e)) l o) x
  = if decide (x ∈ l ∧ x ≠ "__proto__"%string) then Some (f x)
    else JsObject.get_own o x.
Proof.
  induction l as [|e l IH]; intros o x; cbn [fold_left].
  - rewrite decide_False; [done|]. intros [?%elem_of_nil _]. done.
  - rewrite IH. destruct (decide (x ∈ l ∧ x ≠ "__proto__"%string)) as [[Hl Hx]|Hn].
    + rewrite decide_True; [done|]. split; [by right | done].
    + unfold JsObject.set_primitive.
      destruct (decide (e = "__proto__"%string)) as [->|He].
      * rewrite decide_False; [done|]. intros [[->|Hin]%elem_of_cons Hx]; tauto.
      * destruct (decide (e = x)) as [->|Hex].
        -- rewrite get_own_set_eq. rewrite decide_True; [done|].
           split; [left | done].
        -- rewrite get_own_set_ne by done. rewrite decide_False; [done|].
           intros [[->|Hin]%elem_of_cons Hx]; tauto.
Qed.

Lemma stopWordFilter_drops_eq (stopWords : list string) (token : Token.t)
    (idx : nat) (tokens : list Token.t) :
  generateStopWordFilter stopWords token idx tokens
  = if decide (Token.toString token ∈ stopWords
               ∧ Token.toString token ≠ "__proto__"%string)
    then Pipeline.Nothing else Pipeline.One token.
Proof.
  unfold generateStopWordFilter, JsObject.get.
  rewrite (fold_set_primitive (λ w, w)). simpl.
  case_decide as Hin.
  - by rewrite decide_True.
  - by destruct (JsObject.is_prototype_member (Token.toString token)).
Qed.

End StopWords.

(** X17: the filter made by [generateStopWordFilter(stopWords)] drops a
    token exactly when its string is one of the stop words; it passes
    every other token on unchanged, also when its string is the name of
    a member of [Object.prototype].  The stop word ['__proto__'] alone
    is not dropped. *)
Theorem stopWordFilter_drops (stopWords : list string) (token : Token.t)
    (idx : nat) (tokens : list Token.t) :
  generateStopWordFilter stopWords token idx tokens
  = if decide (Token.toString token ∈ stopWords
               ∧ Token.toString token ≠ "__proto__"%string)
    then Pipeline.Nothing else Pipeline.One token.
Proof. apply stopWordFilter_drops_eq. Qed.

Section Trimmer.

Lemma trim_start_spec s :
  ∃ pre, chars s = pre ++ chars (trim_start s)
    ∧ Forall (λ c, is_word c = false) pre
    ∧ ∀ c rest, chars (trim_start s) = c :: rest → is_word c = true.
Proof.
  induction s as [|c s IH]; cbn [trim_start].
  - exists []. split; [done|]. split; [constructor | done].
  - destruct (is_word c) eqn:Hc.
    + exists []. split; [done|]. split; [constructor|].
      intros c' rest [= <- _]. done.
    + destruct IH as (pre & Heq & Hpre & Hhead). exists (c :: pre).
      split; [simpl; by rewrite <- Heq|]. split; [by constructor | done].
Qed.

Lemma trim_end_spec s :
  ∃ post, chars s = chars (trim_end s) ++ post
    ∧ Forall (λ c, is_word c = false) post
    ∧ (∀ body c, chars (trim_end s) = body ++ [c] → is_word c = true)
    ∧ (∀ c rest, chars (trim_end s) = c :: rest → ∃ rest', chars s = c :: rest').
Proof.
  induction s as [|c s IH]; cbn [trim_end].
  - exists []. split; [done|]. split; [constructor|].
    split; [by intros [|? ?] ? ? | done].
  - destruct IH as (post & Heq & Hpost & Hlast & Hhead).
    destruct (trim_end s) as [|d r] eqn:Hr.
    + simpl in Heq. destruct (is_word c) eqn:Hc.
      * exists post. split; [simpl; by rewrite Heq|]. split; [done|]. split.
        -- intros [|? [|? ?]] c' ?; by simplify_eq/=.
        -- intros c' rest [= <- _]. eauto.
      * exists (c :: post). split; [simpl; by rewrite Heq|].
        split; [by constructor|]. split; [by intros [|? ?] ? ? | done].
    + exists post. split; [simpl; by rewrite Heq|]. split; [done|]. split.
      * intros [|b body] c' Hb; [done|]. simpl in Hb. injection Hb as <- Hb.
        by apply (Hlast body).
      * intros c' rest [= <- _]. eauto.
Qed.

End Trimmer.

(** X18: [trimmer(token)] takes a run of non-word characters off the
    start of the token's string and a run of non-word characters off its
    end, and what is left is empty or starts and ends with a word
    character ([A-Z], [a-z], [0-9] or [_]); the metadata stays as it
    is. *)
Theorem trimmer_spec (token : Token.t) :
  ∃ pre post,
    chars (Token.toString token)
    = pre ++ chars (Token.toString (trimmer token)) ++ post
    ∧ Forall (λ c, is_word c = false) pre
    ∧ Forall (λ c, is_word c = false) post
    ∧ (∀ c rest, chars (Token.toString (trimmer token)) = c :: rest →
         is_word c = true)
    ∧ (∀ body c, chars (Token.toString (trimmer token)) = body ++ [c] →
         is_word c = true)
    ∧ Token.metadata (trimmer token) = Token.metadata token.
Proof.
  unfold trimmer, Token.update, Token.toString. simpl.
  destruct (trim_start_spec (Token.str token)) as (pre & Heq & Hpre & Hhead).
  destruct (trim_end_spec (trim_start (Token.str token)))
    as (post & Heq' & Hpost & Hlast & Hhead').
  exists pre, post. split; [by rewrite Heq, Heq'|].
  split; [done|]. split; [done|]. split; [|done].
  intros c rest Hc. destruct (Hhead' c rest Hc) as [rest' Hr].
  by apply (Hhead c rest').
Qed.

(* ================================================================== *)
(** * Properties of the tokenizer *)

Section Tokenizer.

(** A token cut out of [str]: its string is the run of characters of
    [str] between [pre] and [post], which holds no separator and is
    bounded by separators or by the ends of [str]; its metadata are
    [metadata] with the position of the run and the index [i]. *)
Definition token_of (str : string) (metadata : JsObject.t jsvalue) (i : nat)
    (tok : Token.t) : Prop :=
  ∃ pre post,
    chars str = pre ++ chars (Token.str tok) ++ post
    ∧ chars (Token.str tok) ≠ []
    ∧ Forall (λ c, is_separator c = false) (chars (Token.str tok))
    ∧ (∀ pre' c, pre = pre' ++ [c] → is_separator c = true)
    ∧ (∀ c post', post = c :: post' → is_separator c = true)
    ∧ Token.metadata tok
      = JsObject.set
          (JsObject.set metadata "position"
             (JArr [JNum (Z.of_nat (length pre));
                    JNum (Z.of_nat (length (chars (Token.str tok))))]))
          "index" (JNum (Z.of_nat i)).

Lemma substring_middle (pre w post : list ascii) :
  substring (length pre) (length w) (string_of_list_ascii (pre ++ w ++ post))
  = string_of_list_ascii w.
Proof.
  induction pre as [|c pre IH]; [|done].
  simpl. revert post. induction w as [|c w IHw]; intros post; simpl.
  - by destruct post.
  - by rewrite IHw.
Qed.

Lemma chars_string_of (l : list ascii) : chars (string_of_list_ascii l) = l.
Proof. apply list_ascii_of_string_of_list_ascii. Qed.

Lemma tokenizer_loop_spec (str : string) (metadata : JsObject.t jsvalue) :
  ∀ rest pre cur tokens,
    chars str = pre ++ cur ++ rest →
    Forall (λ c, is_separator c = false) cur →
    (∀ pre' c, pre = pre' ++ [c] → is_separator c = true) →
    ∃ new,
      tokenizer_loop str metadata rest (length (pre ++ cur)) (length pre) tokens
      = tokens ++ new
      ∧ (∀ i tok, new !! i = Some tok →
           token_of str metadata (length tokens + i) tok)
      ∧ concat (map (λ tok, chars (Token.str tok)) new)
        = cur ++ filter (λ c, is_separator c = false) rest.
Proof.
  assert (∀ pre cur rest tokens,
    chars str = pre ++ cur ++ rest →
    Forall (λ c, is_separator c = false) cur →
    (∀ pre' c, pre = pre' ++ [c] → is_separator c = true) →
    (∀ c rest', rest = c :: rest' → is_separator c = true) →
    ∃ emitted,
      (if 0 <? length (pre ++ cur) - length pre then
         tokens ++
           [Token.mk (substring (length pre) (length (pre ++ cur) - length pre) str)
              (JsObject.set
                 (JsObject.set metadata "position"
                    (JArr [JNum (Z.of_nat (length pre));
                           JNum (Z.of_nat (length (pre ++ cur) - length pre))]))
                 "index" (JNum (Z.of_nat (length tokens))))]
       else tokens) = tokens ++ emitted
      ∧ (∀ i tok, emitted !! i = Some tok →
           token_of str metadata (length tokens + i) tok)
      ∧ concat (map (λ tok, chars (Token.str tok)) emitted) = cur) as Hemit.
  { intros pre cur rest tokens Hstr Hcur Hpre Hrest.
    rewrite length_app. replace (length pre + length cur - length pre)
      with (length cur) by lia.
    destruct cur as [|c cur]; simpl.
    { exists []. split; [by rewrite app_nil_r|]. split; [done | done]. }
    eexists [_]. split; [done|]. split.
    - intros [|i] tok Htok; [|done]. injection Htok as <-.
      assert (substring (length pre) (S (length cur)) str
              = string_of_list_ascii (c :: cur)) as Hsub.
      { rewrite <- (string_of_list_ascii_of_string str).
        fold (chars str). rewrite Hstr.
        apply (substring_middle pre (c :: cur) rest). }
      exists pre, rest. cbn [Token.str Token.metadata].
      rewrite Hsub, chars_string_of. rewrite Nat.add_0_r.
      split; [done|]. split; [done|]. split; [done|]. split; [done|].
      split; [done|]. done.
    - cbn [map concat Token.str].
      assert (substring (length pre) (S (length cur)) str
              = string_of_list_ascii (c :: cur)) as ->.
      { rewrite <- (string_of_list_ascii_of_string str).
        fold (chars str). rewrite Hstr.
        apply (substring_middle pre (c :: cur) rest). }
      by rewrite chars_string_of, app_nil_r. }
  induction rest as [|c rest IH]; intros pre cur tokens Hstr Hcur Hpre;
    cbn [tokenizer_loop].
  - destruct (Hemit pre cur [] tokens Hstr Hcur Hpre) as (emitted & -> & Hgood & Hcat);
      [done|].
    exists emitted. split; [done|]. split; [done|]. by rewrite app_nil_r.
  - destruct (is_separator c) eqn:Hc.
    + destruct (Hemit pre cur (c :: rest) tokens Hstr Hcur Hpre)
        as (emitted & -> & Hgood & Hcat).
      { by intros ? ? [= <- _]. }
      destruct (IH (pre ++ cur ++ [c]) [] (tokens ++ emitted))
        as (new & Hloop & Hnew & Hcat').
      { rewrite Hstr. by rewrite <- !app_assoc. }
      { constructor. }
      { intros pre' c' Heq. rewrite app_assoc in Heq.
        apply app_inj_tail in Heq as [_ <-]. done. }
      rewrite app_nil_r in Hloop.
      replace (S (length (pre ++ cur))) with (length (pre ++ cur ++ [c]))
        by (rewrite !length_app; simpl; lia).
      rewrite Hloop. exists (emitted ++ new).
      split; [by rewrite app_assoc|]. split.
      * intros i tok Htok. apply lookup_app_Some in Htok as [Htok|[Hi Htok]].
        -- by apply Hgood.
        -- specialize (Hnew _ _ Htok). rewrite length_app in Hnew.
           replace (length tokens + i)
             with (length tokens + length emitted + (i - length emitted)) by lia.
           done.
      * rewrite map_app, concat_app, Hcat, Hcat'. simpl.
        rewrite filter_cons_False; [done|]. by rewrite Hc.
    + destruct (IH pre (cur ++ [c]) tokens) as (new & Hloop & Hnew & Hcat).
      { rewrite Hstr. by rewrite <- !app_assoc. }
      { apply Forall_app. split; [done|]. by constructor. }
      { done. }
      replace (S (length (pre ++ cur))) with (length (pre ++ cur ++ [c]))
        by (rewrite !length_app; simpl; lia).
      rewrite Hloop. exists new. split; [done|]. split; [done|].
      rewrite Hcat. rewrite filter_cons_True by done. by rewrite <- app_assoc.
Qed.

End Tokenizer.

(** X19: [tokenizer(s, metadata)] on a string [s] cuts its lower-cased
    form [str] into the maximal runs of characters that are no
    separators (white space and hyphens), in their order: every token is
    such a run, not empty, bounded by separators or the ends of [str];
    its metadata are [metadata] with [position], the start and the length
    of the run, and [index], the rank of the token; and the tokens
    together hold all characters of [str] that are no separators. *)
Theorem tokenizer_string (s : string) (metadata : JsObject.t jsvalue) :
  ∃ tokens,
    tokenizer (FStr s) metadata = Ok tokens
    ∧ (∀ i tok, tokens !! i = Some tok →
         token_of (toLowerCase s) metadata i tok)
    ∧ concat (map (λ tok, chars (Token.str tok)) tokens)
      = filter (λ c, is_separator c = false) (chars (toLowerCase s)).
Proof.
  destruct (tokenizer_loop_spec (toLowerCase s) metadata
              (chars (toLowerCase s)) [] [] [])
    as (new & Hloop & Hnew & Hcat); [done | constructor | by intros [|? ?] |].
  exists new. split; [|split; [done | done]].
  cbn [length app] in Hloop. unfold tokenizer. by rewrite Hloop.
Qed.

(* ================================================================== *)
(** * The trimmer and a stop word filter in a pipeline *)

Section PipelineOfFilters.

Lemma run_function_map (f : Token.t → Token.t) (tokens : list Token.t) :
  Pipeline.run_function (λ token _ _, Pipeline.One (f token)) tokens
  = map f tokens.
Proof.
  unfold Pipeline.run_function.
  induction tokens as [|tok tokens IH]; [done|].
  cbn [imap concat app map]. f_equal. apply IH.
Qed.

Lemma run_function_filter (fn : Pipeline.PipelineFunction)
    (P : Token.t → Prop) `{∀ tok, Decision (P tok)} (tokens : list Token.t) :
  (∀ tok idx toks,
     fn tok idx toks = if decide (P tok) then Pipeline.One tok
                       else Pipeline.Nothing) →
  Pipeline.run_function fn tokens = filter P tokens.
Proof.
  intros Hfn. unfold Pipeline.run_function.
  assert (∀ toks k,
    concat (imap (λ j tok,
                    match fn tok (k + j) toks with
                    | Pipeline.Nothing => []
                    | Pipeline.One r => [r]
                    | Pipeline.Many rs => rs
                    end) tokens) = filter P tokens) as Hgen.
  { intros toks. induction tokens as [|tok tokens IH]; intros k; [done|].
    cbn [imap concat]. rewrite Hfn.
    assert (imap ((λ j tok0,
                     match fn tok0 (k + j) toks with
                     | Pipeline.Nothing => []
                     | Pipeline.One r => [r]
                     | Pipeline.Many rs => rs
                     end) ∘ S) tokens
            = imap (λ j tok0,
                      match fn tok0 (S k + j) toks with
                      | Pipeline.Nothing => []
                      | Pipeline.One r => [r]
                      | Pipeline.Many rs => rs
                      end) tokens) as ->.
    { apply imap_ext. intros j tok' _. simpl.
      by replace (k + S j) with (S (k + j)) by lia. }
    rewrite IH. destruct (decide (P tok)).
    - by rewrite filter_cons_True.
    - by rewrite filter_cons_False. }
  apply (Hgen tokens 0).
Qed.

End PipelineOfFilters.

(** X20: a pipeline made of the trimmer and of the filter of
    [generateStopWordFilter(stopWords)] returns the trimmed tokens, in
    their order, whose trimmed string is no stop word; a token trimmed
    to the empty string stays in the result. *)
Theorem trimmer_then_stopWordFilter (stopWords : list string)
    (tokens : list Token.t) :
  Pipeline.run
    [(λ token _ _, Pipeline.One (trimmer token));
     generateStopWordFilter stopWords] tokens
  = filter (λ token, ¬ (Token.toString token ∈ stopWords
                        ∧ Token.toString token ≠ "__proto__"%string))
           (map trimmer tokens).
Proof.
  unfold Pipeline.run. cbn [fold_left]. rewrite run_function_map.
  apply run_function_filter. intros tok idx toks.
  rewrite stopWordFilter_drops_eq.
  destruct (decide (Token.toString tok ∈ stopWords
                    ∧ Token.toString tok ≠ "__proto__"%string)).
  - by rewrite decide_False by tauto.
  - by rewrite decide_True.
Qed.

(* ================================================================== *)
(** * Properties of queries and of the query parser *)

Section QueryFacts.

Lemma starts_with_star_chars s :
  Query.starts_with_star s = true ↔ ∃ rest, chars s = star :: rest.
Proof.
  destruct s as [|c s]; simpl.
  - split; [done | by intros [? ?]].
  - rewrite bool_decide_eq_true. split; [intros ->; eauto|].
    by intros [rest [= -> _]].
Qed.



End QueryFacts.


(* ================================================================== *)
(** * The token set of the builder *)

Section SortedTerms.

Lemma ltb_asym : ∀ a b, JsString.ltb a b = true → JsString.ltb b a = false.
Proof.
  induction a as [|x a IH]; intros [|y b]; simpl; try done.
  destruct (JsString.code x <? JsString.code y) eqn:Hxy.
  - apply Nat.ltb_lt in Hxy. intros _.
    destruct (JsString.code y <? JsString.code x) eqn:Hyx.
    + apply Nat.ltb_lt in Hyx. lia.
    + done.
  - destruct (JsString.code y <? JsString.code x); [done | apply IH].
Qed.

Lemma insert_string_sorted x : ∀ l prev,
  sorted_from prev (map chars l) = true →
  JsString.ltb (chars x) prev = false →
  sorted_from prev (map chars (insert_string x l)) = true.
Proof.
  induction l as [|y l IH]; intros prev Hs Hx; simpl.
  - by rewrite Hx.
  - simpl in Hs. apply andb_true_iff in Hs as [Hy Hs].
    destruct (JsString.ltb (chars y) (chars x)) eqn:Hyx; simpl.
    + rewrite Hy. simpl. apply IH; [done | by apply ltb_asym].
    + by rewrite Hx, Hyx, Hs.
Qed.

Lemma sort_strings_sorted l :
  sorted_from [] (map chars (sort_strings l)) = true.
Proof.
  unfold sort_strings.
  assert (∀ acc, sorted_from [] (map chars acc) = true →
            sorted_from [] (map chars (fold_left (λ acc x, insert_string x acc) l acc))
            = true) as Hgen.
  { induction l as [|x l IH]; intros acc Hacc; [done|]. simpl. apply IH.
    apply insert_string_sorted; [done | apply ltb_nil_r]. }
  by apply Hgen.
Qed.

Lemma elem_of_insert_string x y l : x ∈ insert_string y l ↔ x = y ∨ x ∈ l.
Proof.
  induction l as [|z l IH]; simpl.
  - rewrite list_elem_of_singleton. split; [by left | intros [?|?%elem_of_nil]; done].
  - destruct (JsString.ltb (chars z) (chars y)).
    + rewrite !elem_of_cons, IH. tauto.
    + rewrite !elem_of_cons. tauto.
Qed.

Lemma elem_of_sort_strings x l : x ∈ sort_strings l ↔ x ∈ l.
Proof.
  unfold sort_strings.
  assert (∀ acc, x ∈ fold_left (λ acc x, insert_string x acc) l acc
                 ↔ x ∈ l ∨ x ∈ acc) as Hgen.
  { induction l as [|y l IH]; intros acc; simpl.
    - split; [by right | intros [?%elem_of_nil|?]; done].
    - rewrite IH, elem_of_insert_string, elem_of_cons. tauto. }
  rewrite Hgen. split; [intros [?|?%elem_of_nil]; done | by left].
Qed.

End SortedTerms.

(** X22: [createTokenSet()] never throws the ordering error of the
    token-set builder, whatever the terms of the inverted index are: it
    sorts them before it inserts them. *)
Theorem createTokenSet_never_throws (b : Builder.t) (w : world) :
  ∃ r, Builder.createTokenSet b w = Ok r.
Proof.
  unfold Builder.createTokenSet.
  set (terms := JsObject.keys (Builder.invertedIndex b)).
  pose proof (sort_strings_sorted terms) as Hsorted.
  unfold fromArray. destruct (new_TokenSetBuilder w) as [b0 w1] eqn:Hnew.
  assert (previousWord b0 = []) as Hprev.
  { unfold new_TokenSetBuilder in Hnew. by injection Hnew as <- _. }
  destruct (insert_all _ b0 w1) as [[b' w']|e] eqn:Hins.
  - destruct (finish b' w'). eauto.
  - exfalso.
    assert (sorted_from (previousWord b0) (map chars (sort_strings terms))
            = false) as Hf
      by (apply (insert_all_throws _ b0 w1); eauto).
    rewrite Hprev in Hf. congruence.
Qed.

(** X23: when no term of the inverted index holds a digit, the token set
    that [createTokenSet()] makes holds exactly the terms of the inverted
    index. *)
Theorem createTokenSet_terms (b : Builder.t) (w : world) :
  wf w →
  Forall (λ term, Forall (λ c, JsString.is_digit c = false) (chars term))
         (JsObject.keys (Builder.invertedIndex b)) →
  ∃ tokenSet w',
    Builder.createTokenSet b w = Ok (tokenSet, w')
    ∧ ∀ cs, accepts w' tokenSet cs
            ↔ ∃ term, term ∈ JsObject.keys (Builder.invertedIndex b)
                      ∧ cs = chars term.
Proof.
  intros Hwf Hdig. unfold Builder.createTokenSet.
  set (terms := JsObject.keys (Builder.invertedIndex b)) in *.
  pose proof (sort_strings_sorted terms) as Hsorted.
  destruct (fromArray_spec w Hwf (map chars (sort_strings terms)) Hsorted)
    as (w' & -> & _ & _ & _ & _ & Hlang).
  { apply Forall_forall. intros cs (term & -> & Hin)%list_elem_of_fmap.
    rewrite Forall_forall in Hdig. apply Hdig. by apply elem_of_sort_strings. }
  exists (_nextId w), w'. split; [done|]. intros cs. rewrite Hlang.
  rewrite list_elem_of_fmap. split.
  - intros (term & -> & Hin).
    apply (proj1 (elem_of_sort_strings _ _)) in Hin. eauto.
  - intros (term & Hin & ->). exists term. split; [done|].
    by apply elem_of_sort_strings.
Qed.

Lemma createTokenSet_terms_witness :
  ∃ tokenSet w',
    Builder.createTokenSet two_documents (Builder.new initial_world).2
    = Ok (tokenSet, w')
    ∧ ∀ cs, accepts w' tokenSet cs
            ↔ ∃ term,
                term ∈ JsObject.keys (Builder.invertedIndex two_documents)
                ∧ cs = chars term.
Proof.
  apply (createTokenSet_terms two_documents (Builder.new initial_world).2).
  - apply wf_new, wf_initial.
  - assert (JsObject.keys (Builder.invertedIndex two_documents)
            = ["x"; "y"]%string) as -> by (by vm_compute).
    repeat (constructor; try reflexivity).
Defined.

Section ParserFacts.

Context (allFields : list string).











End ParserFacts.



Section PlainWord.

(** A character that the lexer takes as part of a term wherever it
    stands: no backslash, no [:], [~], [^], [+], no separator. *)
Definition plain (c : ascii) : bool :=
  negb ((nat_of_ascii c =? 92)
        || bool_decide (c = ":"%char) || bool_decide (c = "~"%char)
        || bool_decide (c = "^"%char) || bool_decide (c = "+"%char)
        || is_separator c).

Lemma get_chars : ∀ (s : string) (k : nat), String.get k s = chars s !! k.
Proof.
  induction s as [|c s IH]; intros [|k]; simpl; done.
Qed.

Lemma length_chars (s : string) : length (chars s) = String.length s.
Proof. induction s as [|c s IH]; simpl; [done | by rewrite IH]. Qed.

Lemma substring_all (s : string) : substring 0 (String.length s) s = s.
Proof. induction s as [|c s IH]; simpl; [done | by rewrite IH]. Qed.

Lemma lexText_plain (str : string) (k : nat) :
  Forall (λ c, plain c = true) (chars str) →
  k < String.length str →
  QueryLexer.step QueryLexer.lexText (QueryLexer.mk str [] k 0 [])
  = (Some QueryLexer.lexText, QueryLexer.mk str [] (k + 1) 0 []).
Proof.
  intros Hplain Hk. cbn [QueryLexer.step]. unfold QueryLexer.next.
  cbn [QueryLexer.str QueryLexer.pos QueryLexer.lexemes QueryLexer.start
       QueryLexer.escapeCharPositions].
  destruct (String.length str <=? k) eqn:Hle; [apply Nat.leb_le in Hle; lia|].
  rewrite get_chars.
  destruct (chars str !! k) as [c|] eqn:Hc.
  - rewrite Forall_lookup in Hplain. specialize (Hplain k c Hc).
    unfold plain in Hplain. apply negb_true_iff in Hplain.
    apply orb_false_iff in Hplain as [Hplain Hsep].
    apply orb_false_iff in Hplain as [Hplain Hplus].
    apply orb_false_iff in Hplain as [Hplain Hhat].
    apply orb_false_iff in Hplain as [Hplain Htilde].
    apply orb_false_iff in Hplain as [Hbackslash Hcolon].
    assert (bool_decide (c = "-"%char) = false) as Hminus.
    { unfold is_separator in Hsep. by apply orb_false_iff in Hsep as [_ ?]. }
    by rewrite Hbackslash, Hcolon, Htilde, Hhat, Hplus, Hminus, Hsep.
  - apply lookup_ge_None in Hc. rewrite length_chars in Hc. lia.
Qed.

Lemma run_loop_plain (str : string) :
  str ≠ EmptyString →
  Forall (λ c, plain c = true) (chars str) →
  ∀ n k fuel, k + n = String.length str → n + 2 ≤ fuel →
    QueryLexer.run_loop fuel QueryLexer.lexText (QueryLexer.mk str [] k 0 [])
    = Some (QueryLexer.mk str
              [QueryLexer.mkLexem QueryLexer.TERM str 0 (String.length str)]
              (String.length str) (String.length str) []).
Proof.
  intros Hne Hplain. induction n as [|n IH]; intros k fuel Hk Hfuel.
  - destruct fuel as [|[|fuel]]; [lia | lia |].
    assert (k = String.length str) as -> by lia.
    cbn [QueryLexer.run_loop QueryLexer.step]. unfold QueryLexer.next.
    cbn [QueryLexer.str QueryLexer.pos]. rewrite Nat.leb_refl.
    cbn [QueryLexer.step]. unfold QueryLexer.width.
    cbn [QueryLexer.pos QueryLexer.start]. rewrite Nat.sub_0_r.
    assert ((0 <? String.length str) = true) as ->.
    { apply Nat.ltb_lt. destruct str; [done | simpl; lia]. }
    unfold QueryLexer.emit, QueryLexer.sliceString, QueryLexer.slice. simpl.
    by rewrite Nat.sub_0_r, substring_all.
  - destruct fuel as [|fuel]; [lia|]. cbn [QueryLexer.run_loop].
    rewrite lexText_plain by (done || lia). apply IH; lia.
Qed.

End PlainWord.

(** X25: a query string that is one plain word (not empty, without
    backslash, [:], [~], [^], [+], white space or hyphen) is parsed, given
    fuel for its characters, into one clause: the word in lower case as
    the term, all fields of the index, boost [1], no edit distance, no
    wildcard flag, optional presence; the search pipeline is used unless
    the word holds a ['*']. *)
Theorem parse_plain_word (fuel : nat) (word : string)
    (allFields : list string) :
  word ≠ EmptyString →
  Forall (λ c, plain c = true) (chars word) →
  String.length word + 2 ≤ fuel →
  QueryParser.parse fuel word (Query.new allFields)
  = Ok (Query.mk
          [Query.mkClause None (Some Query.NONE) (Some allFields)
             (Some 1%float)
             (Some (negb (existsb (λ c, bool_decide (c = star)) (chars word))))
             (Some (toLowerCase word)) (Some Query.OPTIONAL)]
          allFields).
Proof.
  intros Hne Hplain Hfuel. unfold QueryParser.parse, QueryLexer.run, QueryLexer.new.
  rewrite (run_loop_plain word Hne Hplain (String.length word) 0 fuel)
    by (done || lia).
  destruct fuel as [|[|fuel]]; [lia | lia |]. simpl.
  by destruct (existsb _ (chars word)).
Qed.

Lemma parse_plain_word_witness :
  QueryParser.parse 10 "Hello" (Query.new ["title"; "body"]%string)
  = Ok (Query.mk
          [Query.mkClause None (Some Query.NONE) (Some ["title"; "body"]%string)
             (Some 1%float)
             (Some (negb (existsb (λ c, bool_decide (c = star)) (chars "Hello"))))
             (Some (toLowerCase "Hello")) (Some Query.OPTIONAL)]
          ["title"; "body"]%string).
Proof.
  apply (parse_plain_word 10 "Hello" ["title"; "body"]%string).
  - discriminate.
  - repeat (constructor; try reflexivity).
  - simpl. lia.
Defined.

(* ================================================================== *)
(** * Combining match data *)

(** An object with distinct keys, none of them the name of a member of
    [Object.prototype]. *)
Definition plain_keys {V} (o : JsObject.t V) : bool :=
  bool_decide (NoDup o.*1)
  && forallb (λ k, negb (JsObject.is_prototype_member k)) o.*1.

(** The metadata of an instance of [MatchData] are such objects at their
    three levels: terms, fields and metadata keys. *)
Definition plain_metadata (m : MatchData.t) : bool :=
  plain_keys (MatchData.metadata m)
  && forallb (λ byField,
                plain_keys byField && forallb plain_keys byField.*2)
             (MatchData.metadata m).*2.

(** [metadata[term][field][key]], the empty array standing for what is
    missing. *)
Definition metadata_at (m : MatchData.t) (term field key : string)
    : list jsvalue :=
  default []
    (byField ← JsObject.get_own (MatchData.metadata m) term;
     byKey ← JsObject.get_own byField field;
     JsObject.get_own byKey key).

Section CombineFacts.

Lemma plain_keys_spec {V} (o : JsObject.t V) :
  plain_keys o = true →
  NoDup (JsObject.keys o)
  ∧ ∀ k, k ∈ JsObject.keys o → JsObject.is_prototype_member k = false.
Proof.
  unfold plain_keys. intros [Hnd Hall]%andb_true_iff.
  apply bool_decide_eq_true in Hnd. rewrite forallb_forall in Hall.
  unfold JsObject.keys. split; [by rewrite order_keys_perm|].
  intros k Hk. rewrite order_keys_perm in Hk.
  apply list_elem_of_In in Hk. by apply negb_true_iff, Hall.
Qed.

Lemma get_own_Some_elem_of {V} (o : JsObject.t V) k v :
  JsObject.get_own o k = Some v → (k, v) ∈ o.
Proof.
  induction o as [|[k' v'] o IH]; simpl; [done|].
  case_decide; [intros [= <-]; subst; left | right; auto].
Qed.

Lemma not_in_keys_None {V} (o : JsObject.t V) k :
  k ∉ JsObject.keys o → JsObject.get_own o k = None.
Proof.
  intros Hk. apply get_own_None. unfold JsObject.keys in Hk.
  by rewrite order_keys_perm in Hk.
Qed.

Lemma own_or_undefined_plain {V} (o : JsObject.t V) k :
  JsObject.is_prototype_member k = false →
  MatchData.own_or_undefined o k = Ok (JsObject.get_own o k).
Proof.
  intros Hk. unfold MatchData.own_or_undefined, JsObject.get.
  destruct (JsObject.get_own o k); [done|]. by rewrite Hk.
Qed.

Lemma set_object_plain {V} (o : JsObject.t V) k v :
  JsObject.is_prototype_member k = false →
  set_object o k v = Ok (JsObject.set o k v).
Proof.
  intros Hk. unfold set_object. case_decide as Heq; [|done].
  subst k. done.
Qed.

Lemma set_set {V} (o : JsObject.t V) k v v' :
  JsObject.set (JsObject.set o k v) k v' = JsObject.set o k v'.
Proof.
  induction o as [|[k0 v0] o IH]; simpl.
  - by rewrite decide_True.
  - case_decide; simpl.
    + by rewrite decide_True.
    + rewrite decide_False by done. by rewrite IH.
Qed.

(** A loop that gives every key of [keys] a new value made from the old
    one. *)
Lemma for_each_update {V} (body : string → JsObject.t V → result (JsObject.t V))
    (h : string → option V → V) (keys : list string) :
  NoDup keys →
  (∀ k acc, k ∈ keys →
     body k acc = Ok (JsObject.set acc k (h k (JsObject.get_own acc k)))) →
  ∀ acc, ∃ r,
    for_each body keys acc = Ok r
    ∧ ∀ k, JsObject.get_own r k
           = if decide (k ∈ keys)
             then Some (h k (JsObject.get_own acc k))
             else JsObject.get_own acc k.
Proof.
  induction keys as [|k0 keys IH]; intros Hnd Hbody acc.
  - exists acc. split; [done|]. intros k. rewrite decide_False; [done|].
    apply not_elem_of_nil.
  - apply NoDup_cons in Hnd as [Hk0 Hnd]. cbn [for_each].
    rewrite Hbody by left. cbn [mbind result_bind].
    destruct (IH Hnd) with (acc := JsObject.set acc k0
                                     (h k0 (JsObject.get_own acc k0)))
      as (r & Hr & Hget).
    { intros k acc' Hk. apply Hbody. by right. }
    exists r. split; [done|]. intros k. rewrite Hget.
    destruct (decide (k = k0)) as [->|Hne].
    + rewrite decide_False by done. rewrite decide_True by left.
      by rewrite get_own_set_eq.
    + rewrite get_own_set_ne by done.
      destruct (decide (k ∈ keys)) as [Hin|Hnin].
      * rewrite decide_True; [done | by right].
      * rewrite decide_False; [done|]. rewrite not_elem_of_cons. done.
Qed.

(** The innermost loop of [combine]: the arrays are concatenated key by
    key. *)
Lemma combine_keys_spec (theirs init : JsObject.t (list jsvalue)) :
  plain_keys theirs = true →
  ∃ r,
    for_each (MatchData.combine_key theirs) (JsObject.keys theirs) init = Ok r
    ∧ ∀ k, default [] (JsObject.get_own r k)
           = default [] (JsObject.get_own init k)
             ++ default [] (JsObject.get_own theirs k).
Proof.
  intros [Hnd Hplain]%plain_keys_spec.
  destruct (for_each_update (MatchData.combine_key theirs)
              (λ k mine, default [] mine
                         ++ default [] (JsObject.get_own theirs k))
              (JsObject.keys theirs) Hnd) with (acc := init) as (r & Hr & Hget).
  { intros k acc Hk. unfold MatchData.combine_key.
    rewrite own_or_undefined_plain by (by apply Hplain).
    cbn [mbind result_bind].
    destruct (JsObject.get_own acc k); by rewrite set_object_plain by (by apply Hplain). }
  exists r. split; [done|]. intros k. rewrite Hget.
  case_decide as Hk; [done|].
  by rewrite (not_in_keys_None theirs k Hk), app_nil_r.
Qed.

(** The result of the innermost loop. *)
Definition combined_keys (theirs init : JsObject.t (list jsvalue))
    : JsObject.t (list jsvalue) :=
  match for_each (MatchData.combine_key theirs) (JsObject.keys theirs) init with
  | Ok r => r
  | _ => []
  end.

Lemma combine_fields_spec
    (theirs init : JsObject.t (JsObject.t (list jsvalue))) :
  plain_keys theirs = true →
  forallb plain_keys theirs.*2 = true →
  ∃ r,
    for_each (MatchData.combine_field theirs) (JsObject.keys theirs) init = Ok r
    ∧ ∀ f k,
        default [] (byKey ← JsObject.get_own r f; JsObject.get_own byKey k)
        = default [] (byKey ← JsObject.get_own init f; JsObject.get_own byKey k)
          ++ default [] (byKey ← JsObject.get_own theirs f;
                         JsObject.get_own byKey k).
Proof.
  intros Hpk Hinner. pose proof Hpk as [Hnd Hplain]%plain_keys_spec.
  rewrite forallb_forall in Hinner.
  assert (∀ f byKey, JsObject.get_own theirs f = Some byKey →
                     plain_keys byKey = true) as Hin.
  { intros f byKey Hf. apply Hinner, list_elem_of_In, list_elem_of_fmap.
    exists (f, byKey). split; [done|]. by apply get_own_Some_elem_of. }
  destruct (for_each_update (MatchData.combine_field theirs)
              (λ f mine, combined_keys (default [] (JsObject.get_own theirs f))
                                       (default [] mine))
              (JsObject.keys theirs) Hnd) with (acc := init) as (r & Hr & Hget).
  { intros f acc Hf. unfold MatchData.combine_field.
    rewrite own_or_undefined_plain by (by apply Hplain).
    cbn [mbind result_bind].
    apply is_Some_own_keys in Hf as [byKey HbyKey]. rewrite HbyKey. simpl.
    destruct (combine_keys_spec byKey (default [] (JsObject.get_own acc f))
                (Hin f byKey HbyKey)) as (r1 & Hr1 & _).
    unfold combined_keys. rewrite Hr1. cbn [mbind result_bind].
    apply set_object_plain, Hplain, is_Some_own_keys. by eexists. }
  exists r. split; [done|]. intros f k. rewrite Hget.
  case_decide as Hf.
  - apply is_Some_own_keys in Hf as [byKey HbyKey]. rewrite HbyKey. simpl.
    destruct (combine_keys_spec byKey (default [] (JsObject.get_own init f))
                (Hin f byKey HbyKey)) as (r1 & Hr1 & Hget1).
    unfold combined_keys. rewrite Hr1, Hget1.
    by destruct (JsObject.get_own init f).
  - by rewrite (not_in_keys_None theirs f Hf), app_nil_r.
Qed.

Definition combined_fields
    (theirs init : JsObject.t (JsObject.t (list jsvalue)))
    : JsObject.t (JsObject.t (list jsvalue)) :=
  match for_each (MatchData.combine_field theirs) (JsObject.keys theirs) init with
  | Ok r => r
  | _ => []
  end.

End CombineFacts.

(** X26: when the metadata of [otherMatchData] have distinct keys that
    are no names of members of [Object.prototype], [combine] returns,
    and afterwards the array of every term, field and metadata key is
    the array the receiver had followed by the array of
    [otherMatchData], a missing array counting as empty. *)
Theorem combine_concatenates (this other : MatchData.t) :
  plain_metadata other = true →
  ∃ r,
    MatchData.combine this other = Ok r
    ∧ ∀ term field key,
        metadata_at r term field key
        = metadata_at this term field key ++ metadata_at other term field key.
Proof.
  unfold plain_metadata. intros [Hpk Hinner]%andb_true_iff.
  pose proof Hpk as [Hnd Hplain]%plain_keys_spec.
  rewrite forallb_forall in Hinner.
  assert (∀ t byField, JsObject.get_own (MatchData.metadata other) t = Some byField →
            plain_keys byField = true
            ∧ forallb plain_keys byField.*2 = true) as Hin.
  { intros t byField Ht. apply andb_true_iff, Hinner, list_elem_of_In.
    apply list_elem_of_fmap. exists (t, byField).
    split; [done|]. by apply get_own_Some_elem_of. }
  destruct (for_each_update (MatchData.combine_term (MatchData.metadata other))
              (λ t mine,
                 combined_fields
                   (default [] (JsObject.get_own (MatchData.metadata other) t))
                   (default [] mine))
              (JsObject.keys (MatchData.metadata other)) Hnd)
    with (acc := MatchData.metadata this) as (r & Hr & Hget).
  { intros t acc Ht. unfold MatchData.combine_term.
    rewrite own_or_undefined_plain by (by apply Hplain).
    cbn [mbind result_bind].
    pose proof (Hplain t Ht) as Hpt.
    apply is_Some_own_keys in Ht as [byField HbyField]. rewrite HbyField. simpl.
    destruct (Hin t byField HbyField) as [Hpf Hpi].
    destruct (combine_fields_spec byField (default [] (JsObject.get_own acc t))
                Hpf Hpi) as (r1 & Hr1 & _).
    unfold combined_fields. rewrite Hr1.
    destruct (JsObject.get_own acc t) as [mine|]; cbn [mbind result_bind].
    - by apply set_object_plain.
    - rewrite set_object_plain by done. cbn [mbind result_bind].
      rewrite set_object_plain by done. by rewrite set_set. }
  exists (MatchData.mk r). split.
  { unfold MatchData.combine. by rewrite Hr. }
  intros t f k. unfold metadata_at. cbn [MatchData.metadata]. rewrite Hget.
  case_decide as Ht.
  - apply is_Some_own_keys in Ht as [byField HbyField]. rewrite HbyField. simpl.
    destruct (Hin t byField HbyField) as [Hpf Hpi].
    destruct (combine_fields_spec byField
                (default [] (JsObject.get_own (MatchData.metadata this) t))
                Hpf Hpi) as (r1 & Hr1 & Hget1).
    unfold combined_fields. rewrite Hr1, Hget1.
    by destruct (JsObject.get_own (MatchData.metadata this) t).
  - by rewrite (not_in_keys_None _ t Ht), app_nil_r.
Qed.

Lemma combine_concatenates_witness :
  let this :=
    MatchData.mk [("foo", [("title", [("position", [JNum 1])])])]%string in
  let other :=
    MatchData.mk [("foo", [("title", [("position", [JNum 2])]);
                           ("body", [("position", [JNum 3])])])]%string in
  ∃ r,
    MatchData.combine this other = Ok r
    ∧ ∀ term field key,
        metadata_at r term field key
        = metadata_at this term field key ++ metadata_at other term field key.
Proof.
  apply (combine_concatenates
           (MatchData.mk [("foo", [("title", [("position", [JNum 1])])])]%string)
           (MatchData.mk [("foo", [("title", [("position", [JNum 2])]);
                                   ("body", [("position", [JNum 3])])])]%string)).
  by vm_compute.
Defined.

(* ================================================================== *)
(** * The terms a clause expands to *)

(** What a clause asks of a term of the index: with an edit distance,
    that the term be got from the term of the clause by that many edits
    at most, [0] counting as [1]; without, that the term of the clause
    match it as a pattern. *)
Definition clause_matches (c : Query.QueryClause) (t : list ascii) : Prop :=
  match Query.editDistance c with
  | Some editDistance =>
      edits (if editDistance =? 0 then 1 else editDistance)
            (chars (LunrIndex.term_or_empty c)) t
  | None => matches (chars (LunrIndex.term_or_empty c)) t
  end.

Section Expand.

Lemma createTokenSet_spec (b : Builder.t) (w : world) :
  wf w →
  Forall (λ term, Forall (λ c, JsString.is_digit c = false) (chars term))
         (JsObject.keys (Builder.invertedIndex b)) →
  ∃ w',
    Builder.createTokenSet b w = Ok (_nextId w, w')
    ∧ wf w' ∧ _nextId w < _nextId w'
    ∧ (∃ P rank, acyclic w' P rank ∧ P (_nextId w)
                 ∧ ∀ n, P n → n < _nextId w')
    ∧ ∀ cs, accepts w' (_nextId w) cs
            ↔ ∃ term, term ∈ JsObject.keys (Builder.invertedIndex b)
                      ∧ cs = chars term.
Proof.
  intros Hwf Hdig. unfold Builder.createTokenSet.
  set (terms := JsObject.keys (Builder.invertedIndex b)) in *.
  pose proof (sort_strings_sorted terms) as Hsorted.
  destruct (fromArray_spec w Hwf (map chars (sort_strings terms)) Hsorted)
    as (w' & -> & Hwf' & _ & Hlt & Hacyc & Hlang).
  { apply Forall_forall. intros cs (term & -> & Hin)%list_elem_of_fmap.
    rewrite Forall_forall in Hdig. apply Hdig. by apply elem_of_sort_strings. }
  exists w'. split; [done|]. split; [done|]. split; [done|].
  split; [done|]. intros cs. rewrite Hlang.
  rewrite list_elem_of_fmap. split.
  - intros (term & -> & Hin).
    apply (proj1 (elem_of_sort_strings _ _)) in Hin. eauto.
  - intros (term & Hin & ->). exists term. split; [done|].
    by apply elem_of_sort_strings.
Qed.

(** The token set of a clause, as the argument of [intersect]. *)
Lemma fromClause_spec (w : world) (c : Query.QueryClause) :
  wf w →
  ∃ n w',
    (∀ fuel, n ≤ fuel → LunrIndex.fromClause fuel w c = Ok (_nextId w, w'))
    ∧ wf w' ∧ extends w w' ∧ _nextId w < _nextId w'
    ∧ ∀ x, x ≠ [] → qaccepts w' (_nextId w) x ↔ clause_matches c x.
Proof.
  intros Hwf. unfold LunrIndex.fromClause, clause_matches.
  destruct (Query.editDistance c) as [k|].
  - destruct (fromFuzzyString_spec w Hwf (chars (LunrIndex.term_or_empty c))
                (if k =? 0 then 1 else k))
      as (n & w' & Hrun & Hwf' & Hext & Hlt & Hlab).
    exists n, w'. split; [intros fuel Hfuel; by rewrite Hrun|].
    split; [done|]. split; [done|]. split; [done|]. intros x Hx.
    rewrite qaccepts_labels, edits_fuzzy_labels.
    split; intros (π & Hπ & Hm); exists π; (split; [|done]);
      (apply Hlab; [|done]); intros ->; inversion Hm; by subst.
  - destruct (fromString_lang w (chars (LunrIndex.term_or_empty c)) Hwf)
      as (w' & -> & Hwf' & Hext & Hlt & Hq).
    exists 0, w'. split; [done|]. split; [done|]. split; [done|].
    split; [done|]. done.
Qed.

End Expand.

(** X27: when no term of the inverted index holds a digit, the token set
    of the built index expands a clause to exactly the terms of the index
    that are not empty and that the clause asks for: with an edit
    distance [k], the terms got from the term of the clause by a
    left-to-right script of at most [k] edits ([0] counting as [1]);
    without, the terms that the term of the clause matches as a pattern,
    its ['*'] standing for any run of characters. *)
Theorem expand_clause (b : Builder.t) (w : world) (idx : LunrIndex.t)
    (c : Query.QueryClause) :
  wf w →
  Forall (λ term, Forall (λ c, JsString.is_digit c = false) (chars term))
         (JsObject.keys (Builder.invertedIndex b)) →
  ∃ tokenSet w1,
    Builder.createTokenSet b w = Ok (tokenSet, w1)
    ∧ (LunrIndex.tokenSet idx = tokenSet →
       ∃ n, ∀ fuel, n ≤ fuel →
         ∃ termTokenSet w2 terms w3,
           LunrIndex.fromClause fuel w1 c = Ok (termTokenSet, w2)
           ∧ LunrIndex.expand fuel idx w2 termTokenSet = Ok (terms, w3)
           ∧ ∀ t, t ∈ terms
                  ↔ t ∈ JsObject.keys (Builder.invertedIndex b)
                    ∧ t ≠ EmptyString ∧ clause_matches c (chars t)).
Proof.
  intros Hwf Hdig.
  destruct (createTokenSet_spec b w Hwf Hdig)
    as (w1 & Hcreate & Hwf1 & Hlt1 & (P & rank & Hacyc & HP & Halloc) & Hlang).
  exists (_nextId w), w1. split; [done|]. intros Hidx.
  destruct (fromClause_spec w1 c Hwf1)
    as (n1 & w2 & HfromClause & Hwf2 & Hext2 & Hlt2 & Hq).
  destruct (intersect_spec w2 (_nextId w) (_nextId w1) P rank Hwf2)
    as (n2 & w3 & Hisect & Hwf3 & Hext3 & Hlt3 & (rank' & Hacyc') & Hout);
    [by apply (acyclic_extends w1) | done | lia | lia |].
  destruct (toArray_spec w3 _ rank' Hacyc' (_nextId w2))
    as (n3 & words & HtoArray & Hwords); [lia|].
  exists (max n1 (max n2 n3)). intros fuel Hfuel.
  exists (_nextId w1), w2, (map string_of_list_ascii words), w3.
  split; [apply HfromClause; lia|]. split.
  { unfold LunrIndex.expand. rewrite Hidx, Hisect by lia. simpl.
    by rewrite HtoArray by lia. }
  intros t. rewrite list_elem_of_fmap. split.
  - intros (x & -> & Hx). apply Hwords, Hout in Hx as (Hne & Hacc & Hqacc).
    apply (extends_accepts w1 w2 _ _ Hwf1 Hext2 Hlt1) in Hacc.
    apply Hlang in Hacc as (term & Hterm & ->).
    rewrite string_of_list_ascii_of_string. split; [done|].
    split; [by intros ->|]. by apply Hq.
  - intros (Hterm & Hne & Hm). exists (chars t).
    split; [by rewrite string_of_list_ascii_of_string|].
    assert (chars t ≠ []) as Hne' by (by destruct t).
    apply Hwords, Hout. split; [done|]. split.
    + apply (extends_accepts w1 w2 _ _ Hwf1 Hext2 Hlt1). apply Hlang. eauto.
    + by apply Hq.
Qed.

Lemma expand_clause_witness :
  let b := two_documents in
  let w := (Builder.new initial_world).2 in
  let idx := LunrIndex.mk [] [] (_nextId w) [] [] in
  let c := Query.mkClause None None None None None (Some "x*"%string) None in
  ∃ tokenSet w1,
    Builder.createTokenSet b w = Ok (tokenSet, w1)
    ∧ (LunrIndex.tokenSet idx = tokenSet →
       ∃ n, ∀ fuel, n ≤ fuel →
         ∃ termTokenSet w2 terms w3,
           LunrIndex.fromClause fuel w1 c = Ok (termTokenSet, w2)
           ∧ LunrIndex.expand fuel idx w2 termTokenSet = Ok (terms, w3)
           ∧ ∀ t, t ∈ terms
                  ↔ t ∈ JsObject.keys (Builder.invertedIndex b)
                    ∧ t ≠ EmptyString ∧ clause_matches c (chars t)).
Proof.
  apply (expand_clause two_documents (Builder.new initial_world).2).
  - apply wf_new, wf_initial.
  - assert (JsObject.keys (Builder.invertedIndex two_documents)
            = ["x"; "y"]%string) as -> by (by vm_compute).
    repeat (constructor; try reflexivity).
Defined.

(* ================================================================== *)
(** * The postings and the term frequencies that [add] writes *)

(** [invertedIndex[term][fieldName][docRef]] is defined. *)
Definition listed (invertedIndex : JsObject.t posting)
    (term fieldName docRef : string) : Prop :=
  ∃ p docs entry,
    JsObject.get_own invertedIndex term = Some p
    ∧ JsObject.get_own p fieldName = Some (PField docs)
    ∧ JsObject.get_own docs docRef = Some entry.

(** [invertedIndex[term]._index] is [i]. *)
Definition index_in (invertedIndex : JsObject.t posting) (term : string)
    (i : Z) : Prop :=
  ∃ p, JsObject.get_own invertedIndex term = Some p
       ∧ JsObject.get_own p "_index" = Some (PIndex i).

(** Every posting holds a number below [termIndex] as its [_index] and an
    object for every field, and no two terms share their [_index]. *)
Definition postings_of (fields : list string)
    (invertedIndex : JsObject.t posting) (termIndex : Z) : Prop :=
  (∀ term p,
     JsObject.get_own invertedIndex term = Some p →
     (∃ i, JsObject.get_own p "_index" = Some (PIndex i) ∧ (i < termIndex)%Z)
     ∧ ∀ f, f ∈ fields → ∃ docs, JsObject.get_own p f = Some (PField docs))
  ∧ ∀ t1 t2 i,
      index_in invertedIndex t1 i → index_in invertedIndex t2 i → t1 = t2.

(** The keys of [termFrequencies] are distinct terms of the inverted
    index. *)
Definition terms_in (termFrequencies : JsObject.t Z)
    (invertedIndex : JsObject.t posting) : Prop :=
  NoDup termFrequencies.*1
  ∧ ∀ term, term ∈ termFrequencies.*1 →
            is_Some (JsObject.get_own invertedIndex term).

(** The keys of [fieldTermFrequencies] are the references of a registered
    field of a document of [_documents], and the terms counted under them
    are terms of the inverted index. *)
Definition frequencies_of (fields : list string)
    (_documents : JsObject.t Builder.document_attributes)
    (invertedIndex : JsObject.t posting)
    (fieldTermFrequencies : JsObject.t (JsObject.t Z)) : Prop :=
  ∀ k termFrequencies,
    JsObject.get_own fieldTermFrequencies k = Some termFrequencies →
    (∃ f d, k = (f ++ String FieldRef.joiner d)%string ∧ f ∈ fields
            ∧ JsObject.get _documents d ≠ JsObject.Undefined)
    ∧ terms_in termFrequencies invertedIndex.

(** What [add] keeps of a builder whose fields were registered, by
    [field], before its documents were added, none of them under the name
    [_index]. *)
Definition indexed_ok (b : Builder.t) : Prop :=
  ("_index"%string ∉ JsObject.keys (Builder._fields b))
  ∧ Forall (λ f, FieldRef.split f = None) (JsObject.keys (Builder._fields b))
  ∧ postings_of (JsObject.keys (Builder._fields b))
                (Builder.invertedIndex b) (Builder.termIndex b)
  ∧ frequencies_of (JsObject.keys (Builder._fields b)) (Builder._documents b)
                   (Builder.invertedIndex b) (Builder.fieldTermFrequencies b).

Section Postings.

Local Open Scope Z_scope.

Lemma fold_fields_get_own (fields : list string) : ∀ (p : posting) k,
  JsObject.get_own
    (fold_left (λ p field, JsObject.set p field (PField [])) fields p) k
  = if decide (k ∈ fields) then Some (PField []) else JsObject.get_own p k.
Proof.
  induction fields as [|f fields IH]; intros p k; cbn [fold_left].
  - case_decide as Hin; [by apply elem_of_nil in Hin | done].
  - rewrite IH. destruct (decide (k ∈ fields)) as [Hin|Hnin].
    + rewrite decide_True; [done | by right].
    + destruct (decide (f = k)) as [->|Hne].
      * rewrite get_own_set_eq. rewrite decide_True; [done | left].
      * rewrite get_own_set_ne by done. rewrite decide_False; [done|].
        rewrite not_elem_of_cons. split; [congruence | done].
Qed.

Lemma is_Some_get_own_set {V} (o : JsObject.t V) k v x :
  is_Some (JsObject.get_own o x) →
  is_Some (JsObject.get_own (JsObject.set o k v) x).
Proof.
  intros Hx. destruct (decide (k = x)) as [->|Hne].
  - by rewrite get_own_set_eq.
  - by rewrite get_own_set_ne.
Qed.

Lemma get_set_defined {V} (o : JsObject.t V) k v d :
  JsObject.get o d ≠ JsObject.Undefined →
  JsObject.get (JsObject.set o k v) d ≠ JsObject.Undefined.
Proof.
  unfold JsObject.get. destruct (decide (k = d)) as [->|Hne].
  - by rewrite get_own_set_eq.
  - by rewrite get_own_set_ne.
Qed.

Lemma postings_update fields ii ti ti' t (p' : posting) i :
  postings_of fields ii ti → ti ≤ ti' →
  JsObject.get_own p' "_index" = Some (PIndex i) → i < ti' →
  (∀ t2, t2 ≠ t → ¬ index_in ii t2 i) →
  (∀ g, g ∈ fields → ∃ docs, JsObject.get_own p' g = Some (PField docs)) →
  postings_of fields (JsObject.set ii t p') ti'.
Proof.
  intros [Hall Huniq] Hle Hidx Hlt Hfresh Hfields. split.
  - intros term p Hp. destruct (decide (t = term)) as [->|Hne].
    + rewrite get_own_set_eq in Hp. injection Hp as <-. split; [|done].
      exists i. done.
    + rewrite get_own_set_ne in Hp by done.
      destruct (Hall term p Hp) as [(j & Hj & Hjlt) Hf]. split; [|done].
      exists j. split; [done | lia].
  - intros t1 t2 j (p1 & Hp1 & Hi1) (p2 & Hp2 & Hi2).
    destruct (decide (t = t1)) as [->|Hne1];
      destruct (decide (t1 = t2)) as [->|Hne2]; try done.
    + rewrite get_own_set_eq in Hp1. injection Hp1 as <-.
      rewrite get_own_set_ne in Hp2 by done.
      exfalso. apply (Hfresh t2); [congruence|]. exists p2.
      split; [done|]. congruence.
    + rewrite get_own_set_ne in Hp1 by done.
      destruct (decide (t = t2)) as [->|Hne3].
      * rewrite get_own_set_eq in Hp2. injection Hp2 as <-.
        exfalso. apply (Hfresh t1); [done|]. exists p1.
        split; [done|]. congruence.
      * rewrite get_own_set_ne in Hp2 by done.
        apply (Huniq t1 t2 j); [by exists p1 | by exists p2].
Qed.

Lemma terms_in_set fieldTerms ii t n (p' : posting) :
  terms_in fieldTerms ii →
  terms_in (JsObject.set fieldTerms t n) (JsObject.set ii t p').
Proof.
  intros [Hnd Hin]. split; [by apply set_NoDup|].
  intros term. rewrite set_keys. case_decide as Ht.
  - intros Hterm. by apply is_Some_get_own_set, Hin.
  - intros [Hterm | ->%list_elem_of_singleton]%elem_of_app.
    + by apply is_Some_get_own_set, Hin.
    + by rewrite get_own_set_eq.
Qed.

Lemma add_term_ok (b : Builder.t) f docRef term fieldTerms ii ti :
  "_index"%string ∉ JsObject.keys (Builder._fields b) →
  f ∈ JsObject.keys (Builder._fields b) →
  postings_of (JsObject.keys (Builder._fields b)) ii ti →
  terms_in fieldTerms ii →
  ∃ fieldTerms' ii' ti',
    Builder.add_term b f docRef term (fieldTerms, ii, ti)
    = Ok (fieldTerms', ii', ti')
    ∧ postings_of (JsObject.keys (Builder._fields b)) ii' ti'
    ∧ terms_in fieldTerms' ii'
    ∧ listed ii' (Token.toString term) f docRef
    ∧ (∀ t g d, listed ii t g d → listed ii' t g d)
    ∧ ∀ x, is_Some (JsObject.get_own ii x) → is_Some (JsObject.get_own ii' x).
Proof.
  intros Hidx Hf Hok Hterms. pose proof Hok as [Hall Huniq].
  set (t := Token.toString term).
  assert (f ≠ "_index"%string) as Hfne by (by intros ->).
  assert (∃ p ti' i,
    match JsObject.get_own ii t with
    | None => (Builder.new_posting (JsObject.keys (Builder._fields b)) ti,
               ti + 1)
    | Some p => (p, ti)
    end = (p, ti')
    ∧ ti ≤ ti'
    ∧ JsObject.get_own p "_index" = Some (PIndex i) ∧ i < ti'
    ∧ (∀ t2, t2 ≠ t → ¬ index_in ii t2 i)
    ∧ (∀ g, g ∈ JsObject.keys (Builder._fields b) →
            ∃ docs, JsObject.get_own p g = Some (PField docs))
    ∧ ∀ p0, JsObject.get_own ii t = Some p0 → p0 = p)
    as (p & ti' & i & Heq & Hle & Hi & Hlt & Hfresh & Hfields & Hold).
  { destruct (JsObject.get_own ii t) as [p|] eqn:Hp.
    - destruct (Hall t p Hp) as [(i & Hi & Hlt) Hfields].
      exists p, ti, i. split; [done|]. split; [lia|]. split; [done|].
      split; [done|]. split; [|split; [done | congruence]].
      intros t2 Hne Hin. apply Hne. apply (Huniq t2 t i); [done|].
      by exists p.
    - exists (Builder.new_posting (JsObject.keys (Builder._fields b)) ti),
             (ti + 1), ti.
      split; [done|]. split; [lia|]. unfold Builder.new_posting. split.
      { rewrite fold_fields_get_own. by rewrite decide_False. }
      split; [lia|]. split; [|split; [|done]].
      + intros t2 _ (p2 & Hp2 & Hi2).
        destruct (Hall t2 p2 Hp2) as [(j & Hj & Hjlt) _].
        rewrite Hi2 in Hj. injection Hj as <-. lia.
      + intros g Hg. exists []. rewrite fold_fields_get_own.
        by rewrite decide_True. }
  destruct (Hfields f Hf) as (docs & Hdocs).
  unfold Builder.add_term. fold t. rewrite Heq, Hdocs.
  eexists _, _, _. split; [reflexivity|].
  set (docs1 := match JsObject.get_own docs docRef with
                | None => JsObject.set docs docRef []
                | Some _ => docs
                end).
  set (entry := fold_left _ (Builder.metadataWhitelist b) _).
  split; [|split; [|split; [|split]]].
  - apply (postings_update _ ii ti ti' t _ i); try done.
    + by rewrite get_own_set_ne.
    + intros g Hg. destruct (decide (f = g)) as [->|Hne].
      * rewrite get_own_set_eq. eauto.
      * rewrite get_own_set_ne by done. by apply Hfields.
  - by apply terms_in_set.
  - exists (JsObject.set p f (PField (JsObject.set docs1 docRef entry))),
           (JsObject.set docs1 docRef entry), entry.
    by rewrite !get_own_set_eq.
  - intros t0 g d (p0 & docs0 & entry0 & Hp0 & Hg & Hd).
    destruct (decide (t = t0)) as [<-|Hne].
    + apply Hold in Hp0 as ->. destruct (decide (f = g)) as [<-|Hneg].
      * rewrite Hdocs in Hg. injection Hg as <-.
        destruct (decide (docRef = d)) as [<-|Hned].
        -- eexists _, _, _. split; [apply get_own_set_eq|].
           split; apply get_own_set_eq.
        -- eexists _, _, entry0. split; [apply get_own_set_eq|].
           split; [apply get_own_set_eq|].
           rewrite get_own_set_ne by done. unfold docs1.
           destruct (JsObject.get_own docs docRef); [done|].
           by rewrite get_own_set_ne.
      * eexists _, docs0, entry0. split; [apply get_own_set_eq|].
        by rewrite get_own_set_ne.
    + exists p0, docs0, entry0. by rewrite get_own_set_ne.
  - intros x. apply is_Some_get_own_set.
Qed.

Lemma add_terms_ok (b : Builder.t) f docRef : ∀ terms fieldTerms ii ti,
  "_index"%string ∉ JsObject.keys (Builder._fields b) →
  f ∈ JsObject.keys (Builder._fields b) →
  postings_of (JsObject.keys (Builder._fields b)) ii ti →
  terms_in fieldTerms ii →
  ∃ fieldTerms' ii' ti',
    for_each (Builder.add_term b f docRef) terms (fieldTerms, ii, ti)
    = Ok (fieldTerms', ii', ti')
    ∧ postings_of (JsObject.keys (Builder._fields b)) ii' ti'
    ∧ terms_in fieldTerms' ii'
    ∧ (∀ term, term ∈ terms → listed ii' (Token.toString term) f docRef)
    ∧ (∀ t g d, listed ii t g d → listed ii' t g d)
    ∧ ∀ x, is_Some (JsObject.get_own ii x) → is_Some (JsObject.get_own ii' x).
Proof.
  induction terms as [|term terms IH];
    intros fieldTerms ii ti Hidx Hf Hok Hin.
  - exists fieldTerms, ii, ti. split; [done|]. split; [done|].
    split; [done|]. split; [|done]. intros term Hterm.
    by apply elem_of_nil in Hterm.
  - destruct (add_term_ok b f docRef term fieldTerms ii ti Hidx Hf Hok Hin)
      as (ft1 & ii1 & ti1 & Hrun1 & Hok1 & Hin1 & Hlisted1 & Hkeep1 & Hgrow1).
    destruct (IH ft1 ii1 ti1 Hidx Hf Hok1 Hin1)
      as (ft2 & ii2 & ti2 & Hrun2 & Hok2 & Hin2 & Hlisted2 & Hkeep2 & Hgrow2).
    exists ft2, ii2, ti2. cbn [for_each]. rewrite Hrun1. simpl.
    split; [done|]. split; [done|]. split; [done|].
    split; [|split; by auto].
    intros term' [->|Hterm]%elem_of_cons; [by apply Hkeep2 | by apply Hlisted2].
Qed.

Lemma frequencies_of_grow fields docs ii ii' ftf :
  (∀ x, is_Some (JsObject.get_own ii x) → is_Some (JsObject.get_own ii' x)) →
  frequencies_of fields docs ii ftf → frequencies_of fields docs ii' ftf.
Proof.
  intros Hgrow Hok k tf Hk. destruct (Hok k tf Hk) as [Hkey [Hnd Hin]].
  split; [done|]. split; [done|]. intros term Hterm. by apply Hgrow, Hin.
Qed.

Lemma add_field_ok (b : Builder.t) doc docRef f terms i :
  "_index"%string ∉ JsObject.keys (Builder._fields b) →
  f ∈ JsObject.keys (Builder._fields b) →
  Builder.field_terms b doc f = Ok terms →
  JsObject.get (Builder.i_documents i) docRef ≠ JsObject.Undefined →
  postings_of (JsObject.keys (Builder._fields b))
              (Builder.i_invertedIndex i) (Builder.i_termIndex i) →
  frequencies_of (JsObject.keys (Builder._fields b)) (Builder.i_documents i)
                 (Builder.i_invertedIndex i) (Builder.i_fieldTermFrequencies i) →
  ∃ i',
    Builder.add_field b doc docRef f i = Ok i'
    ∧ Builder.i_documents i' = Builder.i_documents i
    ∧ postings_of (JsObject.keys (Builder._fields b))
                  (Builder.i_invertedIndex i') (Builder.i_termIndex i')
    ∧ frequencies_of (JsObject.keys (Builder._fields b))
                     (Builder.i_documents i') (Builder.i_invertedIndex i')
                     (Builder.i_fieldTermFrequencies i')
    ∧ (∀ term, term ∈ terms →
         listed (Builder.i_invertedIndex i') (Token.toString term) f docRef)
    ∧ ∀ t g d, listed (Builder.i_invertedIndex i) t g d →
               listed (Builder.i_invertedIndex i') t g d.
Proof.
  intros Hidx Hf Hterms Hdoc Hok Hfreq.
  destruct (add_terms_ok b f docRef terms [] _ _ Hidx Hf Hok)
    as (ft & ii' & ti' & Hrun & Hok' & Hin' & Hlisted & Hkeep & Hgrow).
  { split; [apply NoDup_nil_2|]. intros term Hterm.
    by apply elem_of_nil in Hterm. }
  unfold Builder.add_field. rewrite Hterms. unfold mbind, result_bind.
  match goal with
  | |- context [for_each ?body ?l ?s] =>
      replace (for_each body l s) with (Ok (ft, ii', ti'))
        by (symmetry; exact Hrun)
  end.
  eexists. split; [reflexivity|].
  cbn [Builder.i_documents Builder.i_invertedIndex Builder.i_termIndex
       Builder.i_fieldTermFrequencies].
  split; [done|]. split; [done|]. split; [|done].
  intros k tf Hk. unfold FieldRef.toString in Hk. simpl in Hk.
  destruct (decide ((f ++ String FieldRef.joiner docRef)%string = k))
    as [<-|Hne].
  - rewrite get_own_set_eq in Hk. injection Hk as <-. split; [|done].
    by exists f, docRef.
  - rewrite !get_own_set_ne in Hk by done.
    exact (frequencies_of_grow _ _ (Builder.i_invertedIndex i) ii' _
             Hgrow Hfreq k tf Hk).
Qed.

Lemma add_fields_ok (b : Builder.t) doc docRef : ∀ fs i,
  "_index"%string ∉ JsObject.keys (Builder._fields b) →
  (∀ f, f ∈ fs → f ∈ JsObject.keys (Builder._fields b)) →
  (∀ f, f ∈ fs → ∃ terms, Builder.field_terms b doc f = Ok terms) →
  JsObject.get (Builder.i_documents i) docRef ≠ JsObject.Undefined →
  postings_of (JsObject.keys (Builder._fields b))
              (Builder.i_invertedIndex i) (Builder.i_termIndex i) →
  frequencies_of (JsObject.keys (Builder._fields b)) (Builder.i_documents i)
                 (Builder.i_invertedIndex i) (Builder.i_fieldTermFrequencies i) →
  ∃ i',
    for_each (Builder.add_field b doc docRef) fs i = Ok i'
    ∧ Builder.i_documents i' = Builder.i_documents i
    ∧ postings_of (JsObject.keys (Builder._fields b))
                  (Builder.i_invertedIndex i') (Builder.i_termIndex i')
    ∧ frequencies_of (JsObject.keys (Builder._fields b))
                     (Builder.i_documents i') (Builder.i_invertedIndex i')
                     (Builder.i_fieldTermFrequencies i')
    ∧ (∀ f terms term,
         f ∈ fs → Builder.field_terms b doc f = Ok terms → term ∈ terms →
         listed (Builder.i_invertedIndex i') (Token.toString term) f docRef)
    ∧ ∀ t g d, listed (Builder.i_invertedIndex i) t g d →
               listed (Builder.i_invertedIndex i') t g d.
Proof.
  induction fs as [|f fs IH]; intros i Hidx Hsub Hterms Hdoc Hok Hfreq.
  - exists i. split; [done|]. split; [done|]. split; [done|].
    split; [done|]. split; [|done].
    intros f terms term Hin. by apply elem_of_nil in Hin.
  - destruct (Hterms f) as (terms & Hft); [left|].
    destruct (add_field_ok b doc docRef f terms i Hidx) as
      (i1 & Hrun1 & Hdocs1 & Hok1 & Hfreq1 & Hlisted1 & Hkeep1);
      [apply Hsub; left | done..|].
    destruct (IH i1 Hidx)
      as (i2 & Hrun2 & Hdocs2 & Hok2 & Hfreq2 & Hlisted2 & Hkeep2);
      [intros g Hg; apply Hsub; by right
      |intros g Hg; apply Hterms; by right
      |by rewrite Hdocs1 | done | done |].
    exists i2. cbn [for_each]. rewrite Hrun1. simpl.
    split; [done|]. split; [congruence|]. split; [done|]. split; [done|].
    split; [|by auto].
    intros g terms' term [->|Hin]%elem_of_cons Hg Hterm.
    + apply Hkeep2, Hlisted1. rewrite Hft in Hg. by injection Hg as <-.
    + by apply (Hlisted2 g terms').
Qed.

End Postings.

(** X28: on a builder that is in order (every posting holds its
    [_index], below [termIndex], and an object for every registered
    field; no two terms share an [_index]; no field is named [_index] or
    holds the joiner; the term frequencies are kept under references of
    registered fields of added documents and count terms of the inverted
    index), [add] of a document whose reference is a key other than
    [__proto__] and whose fields the tokenizer accepts returns; the
    builder is in order afterwards; every term of every registered field
    of the document is listed in the inverted index under that field and
    the reference of the document; and what was listed before still
    is. *)
Theorem add_lists_document (b : Builder.t) (doc : LunrDocument)
    (attributes : option Builder.document_attributes) (docRef : string) :
  indexed_ok b →
  to_key (doc_get doc (Builder._ref b)) = Ok docRef →
  docRef ≠ "__proto__"%string →
  (∀ f, f ∈ JsObject.keys (Builder._fields b) →
        ∃ terms, Builder.field_terms b doc f = Ok terms) →
  ∃ b',
    Builder.add b doc attributes = Ok b'
    ∧ indexed_ok b'
    ∧ (∀ f terms term,
         f ∈ JsObject.keys (Builder._fields b) →
         Builder.field_terms b doc f = Ok terms → term ∈ terms →
         listed (Builder.invertedIndex b') (Token.toString term) f docRef)
    ∧ ∀ t f d, listed (Builder.invertedIndex b) t f d →
               listed (Builder.invertedIndex b') t f d.
Proof.
  intros (Hidx & Hjoin & Hok & Hfreq) HdocRef Hproto Hterms.
  unfold Builder.add. rewrite HdocRef. simpl.
  unfold set_object. rewrite decide_False by done. simpl.
  destruct (add_fields_ok b doc docRef (JsObject.keys (Builder._fields b))
              (Builder.mkIndexed
                 (JsObject.set (Builder._documents b) docRef
                    (default (Builder.mkDocumentAttributes None) attributes))
                 (Builder.invertedIndex b) (Builder.fieldTermFrequencies b)
                 (Builder.fieldLengths b) (Builder.documentCount b + 1)%Z
                 (Builder.termIndex b)) Hidx)
    as (i' & Hrun & Hdocs & Hok' & Hfreq' & Hlisted & Hkeep);
    [done | done | | done | |].
  { cbn [Builder.i_documents]. unfold JsObject.get.
    by rewrite get_own_set_eq. }
  { cbn [Builder.i_documents Builder.i_invertedIndex
         Builder.i_fieldTermFrequencies].
    intros k tf Hk. destruct (Hfreq k tf Hk) as [(f & d & -> & Hf & Hd) Hin].
    split; [|done]. exists f, d. split; [done|]. split; [done|].
    by apply get_set_defined. }
  rewrite Hrun. simpl. eexists. split; [reflexivity|].
  split; [|split; [done | done]].
  unfold indexed_ok. simpl. split; [done|]. split; [done|].
  split; [done|]. exact Hfreq'.
Qed.

(* ================================================================== *)
(** * The vectors of the fields of the documents *)

Section FieldVectors.

Context (log round : float → float).

Local Open Scope Z_scope.

Lemma insert_absent (v : Vector.t) (i : Z) (x : float) :
  sorted_indices (Vector.elements v) = true →
  i ∉ (Vector.elements v).*1 →
  ∃ v', Vector.insert v i x = inl v'
    ∧ sorted_indices (Vector.elements v') = true
    ∧ Vector.elements v' ≡ₚ (i, Vector.Num x) :: Vector.elements v.
Proof.
  intros Hs%sorted_indices_increasing Hnin. unfold Vector.insert.
  destruct (upsert_absent v i x (Some (λ _ _, inr DuplicateIndex)) Hs Hnin)
    as (l1 & l2 & Hel & H1 & H2 & Hup).
  eexists. split; [exact Hup|]. simpl. split.
  - apply increasing_sorted_indices, increasing_app; [by rewrite <- Hel|done..].
  - rewrite Hel. by rewrite Permutation_middle.
Qed.

Lemma score_term_ok (b : Builder.t) fieldName fieldLength fieldBoost docBoost
    termFrequencies term v termIdfCache p i :
  JsObject.get_own (Builder.invertedIndex b) term = Some p →
  JsObject.get_own p "_index" = Some (PIndex i) →
  sorted_indices (Vector.elements v) = true →
  i ∉ (Vector.elements v).*1 →
  ∃ v' termIdfCache' x,
    Builder.score_term log round b fieldName fieldLength fieldBoost docBoost
      termFrequencies term (v, termIdfCache) = Ok (v', termIdfCache')
    ∧ sorted_indices (Vector.elements v') = true
    ∧ Vector.elements v' ≡ₚ (i, Vector.Num x) :: Vector.elements v.
Proof.
  intros Hp Hi Hs Hnin. unfold Builder.score_term. rewrite Hp, Hi.
  destruct (match JsObject.get_own termIdfCache term with
            | Some idf => _
            | None => _
            end) as [idf termIdfCache'].
  match goal with
  | |- context [Vector.insert v i ?x] =>
      destruct (insert_absent v i x Hs Hnin) as (v' & -> & Hs' & Hperm);
      exists v', termIdfCache', x
  end.
  done.
Qed.

Lemma score_terms_ok (b : Builder.t) fieldName fieldLength fieldBoost docBoost
    termFrequencies fields :
  postings_of fields (Builder.invertedIndex b) (Builder.termIndex b) →
  ∀ terms v termIdfCache,
    NoDup terms →
    (∀ term, term ∈ terms →
             is_Some (JsObject.get_own (Builder.invertedIndex b) term)) →
    sorted_indices (Vector.elements v) = true →
    (∀ term i, term ∈ terms → index_in (Builder.invertedIndex b) term i →
               i ∉ (Vector.elements v).*1) →
    ∃ v' termIdfCache',
      for_each (Builder.score_term log round b fieldName fieldLength
                  fieldBoost docBoost termFrequencies)
               terms (v, termIdfCache)
      = Ok (v', termIdfCache')
      ∧ sorted_indices (Vector.elements v') = true
      ∧ length (Vector.elements v')
        = (length (Vector.elements v) + length terms)%nat
      ∧ ∀ i, i ∈ (Vector.elements v').*1
             ↔ i ∈ (Vector.elements v).*1
               ∨ ∃ term, term ∈ terms
                         ∧ index_in (Builder.invertedIndex b) term i.
Proof.
  intros [Hall Huniq].
  induction terms as [|term terms IH]; intros v cache Hnd Hin Hs Hfresh.
  - exists v, cache. split; [done|]. split; [done|].
    split; [simpl; lia|]. intros i. split; [by left|].
    intros [?|(term & Hterm & _)]; [done|]. by apply elem_of_nil in Hterm.
  - apply NoDup_cons in Hnd as [Hnterm Hnd].
    destruct (Hin term) as [p Hp]; [left|].
    destruct (Hall term p Hp) as [(i & Hi & _) _].
    assert (index_in (Builder.invertedIndex b) term i) as Hterm
      by (by exists p).
    destruct (score_term_ok b fieldName fieldLength fieldBoost docBoost
                termFrequencies term v cache p i Hp Hi Hs)
      as (v1 & cache1 & x & Hrun1 & Hs1 & Hperm1); [apply (Hfresh term); [left|done]|].
    assert (∀ j, j ∈ (Vector.elements v1).*1
                 ↔ j = i ∨ j ∈ (Vector.elements v).*1) as Hmem.
    { intros j. rewrite Hperm1. csimpl. by rewrite elem_of_cons. }
    destruct (IH v1 cache1 Hnd) as (v2 & cache2 & Hrun2 & Hs2 & Hlen2 & Hmem2).
    { intros term' Hterm'. apply Hin. by right. }
    { done. }
    { intros term' j Hterm' Hj [->|Hv]%Hmem.
      - apply Hnterm. by rewrite (Huniq term term' i Hterm Hj).
      - apply (Hfresh term' j); [by right | done | done]. }
    exists v2, cache2. cbn [for_each]. rewrite Hrun1. simpl.
    split; [done|]. split; [done|]. split.
    { rewrite Hlen2, Hperm1. simpl. lia. }
    intros j. rewrite Hmem2, Hmem. split.
    + intros [[->|Hv]|(term' & Hterm' & Hj)].
      * right. exists term. split; [left | done].
      * by left.
      * right. exists term'. split; [by right | done].
    + intros [Hv|(term' & [->|Hterm']%elem_of_cons & Hj)].
      * left. by right.
      * left. left. destruct Hterm as (p1 & Hp1 & Hi1).
        destruct Hj as (p2 & Hp2 & Hi2). congruence.
      * right. by exists term'.
Qed.

(** What [createFieldVectors] leaves under the field reference [k]. *)
Definition vector_of (b : Builder.t) (fieldVectors : JsObject.t Vector.t)
    (k : string) : Prop :=
  ∀ termFrequencies,
    JsObject.get_own (Builder.fieldTermFrequencies b) k = Some termFrequencies →
    ∃ v,
      JsObject.get_own fieldVectors k = Some v
      ∧ sorted_indices (Vector.elements v) = true
      ∧ length (Vector.elements v) = length (JsObject.keys termFrequencies)
      ∧ ∀ i, i ∈ (Vector.elements v).*1
             ↔ ∃ term, term ∈ JsObject.keys termFrequencies
                       ∧ index_in (Builder.invertedIndex b) term i.

Lemma create_field_vector_ok (b : Builder.t) k fieldVectors termIdfCache :
  indexed_ok b →
  is_Some (JsObject.get_own (Builder.fieldTermFrequencies b) k) →
  ∃ fieldVectors' termIdfCache',
    Builder.create_field_vector log round b k (fieldVectors, termIdfCache)
    = Ok (fieldVectors', termIdfCache')
    ∧ vector_of b fieldVectors' k
    ∧ ∀ k', vector_of b fieldVectors k' → vector_of b fieldVectors' k'.
Proof.
  intros (Hidx & Hjoin & Hok & Hfreq) [tf Htf].
  destruct (Hfreq k tf Htf) as [(f & d & -> & Hf & Hd) [Hnd Hin]].
  assert (FieldRef.split f = None) as Hsplit.
  { rewrite Forall_forall in Hjoin. by apply Hjoin. }
  destruct (proj2 (is_Some_own_keys (Builder._fields b) f) Hf)
    as [attributes Hattributes].
  unfold Builder.create_field_vector, FieldRef.fromString.
  rewrite (split_app f d Hsplit). simpl.
  cbn [FieldRef.toString FieldRef.stringValue FieldRef.fieldName
       FieldRef.docRef].
  rewrite Htf, Hattributes.
  destruct (score_terms_ok b f
              match JsObject.get (Builder.fieldLengths b)
                      (f ++ String FieldRef.joiner d) with
              | JsObject.Own n => JsNumber.of_Z n
              | _ => PrimFloat.nan
              end
              (Builder.or_one (Builder.field_boost attributes))
              match JsObject.get (Builder._documents b) d with
              | JsObject.Own attributes =>
                  Builder.or_one (Builder.document_boost attributes)
              | _ => 1%float
              end
              tf _ Hok (JsObject.keys tf) Vector.empty termIdfCache)
    as (v & cache' & Hrun & Hs & Hlen & Hmem).
  { unfold JsObject.keys. by rewrite order_keys_perm. }
  { intros term Hterm. apply Hin. unfold JsObject.keys in Hterm.
    by rewrite order_keys_perm in Hterm. }
  { done. }
  { intros term i _ _ Hi. by apply elem_of_nil in Hi. }
  exists (JsObject.set fieldVectors (f ++ String FieldRef.joiner d) v), cache'.
  split.
  { destruct (JsObject.get (Builder._documents b) d) as [a| |] eqn:Hget;
      [| |done]; simpl; unfold mbind, result_bind;
      (match goal with
       | |- context [for_each ?body ?l ?s] =>
           replace (for_each body l s) with (Ok (v, cache'))
             by (symmetry; exact Hrun)
       end);
      unfold set_object;
      by rewrite decide_False by apply field_ref_not_proto. }
  split.
  - intros tf' Htf'. rewrite Htf in Htf'. injection Htf' as <-.
    exists v. rewrite get_own_set_eq. split; [done|]. split; [done|].
    split; [by rewrite Hlen|]. intros i. rewrite Hmem. split.
    + intros [Hi|?]; [|done]. by apply elem_of_nil in Hi.
    + intros ?. by right.
  - intros k' Hk'.
    destruct (decide ((f ++ String FieldRef.joiner d)%string = k')) as [<-|Hne].
    + intros tf' Htf'. rewrite Htf in Htf'. injection Htf' as <-.
      exists v. rewrite get_own_set_eq. split; [done|]. split; [done|].
      split; [by rewrite Hlen|]. intros i. rewrite Hmem. split.
      * intros [Hi|?]; [|done]. by apply elem_of_nil in Hi.
      * intros ?. by right.
    + intros tf' Htf'. destruct (Hk' tf' Htf') as (v' & Hv' & Hrest).
      exists v'. by rewrite get_own_set_ne.
Qed.

Lemma create_field_vectors_ok (b : Builder.t) :
  indexed_ok b →
  ∀ ks fieldVectors termIdfCache,
    (∀ k, k ∈ ks →
          is_Some (JsObject.get_own (Builder.fieldTermFrequencies b) k)) →
    ∃ fieldVectors' termIdfCache',
      for_each (Builder.create_field_vector log round b) ks
               (fieldVectors, termIdfCache)
      = Ok (fieldVectors', termIdfCache')
      ∧ (∀ k, k ∈ ks → vector_of b fieldVectors' k)
      ∧ ∀ k, vector_of b fieldVectors k → vector_of b fieldVectors' k.
Proof.
  intros Hb. induction ks as [|k ks IH]; intros fv cache Hks.
  - exists fv, cache. split; [done|]. split; [|done].
    intros k Hk. by apply elem_of_nil in Hk.
  - destruct (create_field_vector_ok b k fv cache Hb)
      as (fv1 & cache1 & Hrun1 & Hk1 & Hkeep1); [apply Hks; left|].
    destruct (IH fv1 cache1) as (fv2 & cache2 & Hrun2 & Hks2 & Hkeep2).
    { intros k' Hk'. apply Hks. by right. }
    exists fv2, cache2. cbn [for_each]. rewrite Hrun1. simpl.
    split; [done|]. split; [|by auto].
    intros k' [->|Hk']%elem_of_cons; [by apply Hkeep2 | by apply Hks2].
Qed.

Lemma createFieldVectors_spec (b : Builder.t) :
  indexed_ok b →
  ∃ fieldVectors,
    Builder.createFieldVectors log round b = Ok fieldVectors
    ∧ ∀ k, vector_of b fieldVectors k.
Proof.
  intros Hb.
  destruct (create_field_vectors_ok b Hb
              (JsObject.keys (Builder.fieldTermFrequencies b)) [] [])
    as (fv & cache & Hrun & Hks & _).
  { intros k Hk. by apply is_Some_own_keys. }
  exists fv. unfold Builder.createFieldVectors.
  match goal with
  | |- context [for_each ?body ?l ?s] =>
      replace (for_each body l s) with (Ok (fv, cache))
        by (symmetry; exact Hrun)
  end.
  split; [done|]. intros k tf Hk. apply (Hks k); [|done].
  apply is_Some_own_keys. by rewrite Hk.
Qed.

Lemma calculateAverageFieldLengths_returns (b : Builder.t) :
  well_formed b = true →
  ∃ averageFieldLength,
    Builder.calculateAverageFieldLengths b = Ok averageFieldLength.
Proof.
  intros Hwf. unfold well_formed in Hwf.
  apply bool_decide_eq_true in Hwf as (_ & Hndl & Hsplit & _).
  unfold Builder.calculateAverageFieldLengths.
  change (JsObject.keys (Builder.fieldLengths b))
    with (JsObject.order_keys (Builder.fieldLengths b).*1).
  rewrite (order_keys_field_refs _ Hsplit).
  destruct (count_fields_spec (Builder.fieldLengths b) "x" eq_refl Hndl
              (Builder.fieldLengths b) ([], []) [])
    as ([acc dwf] & Hrun & _); [done | done | done |].
  rewrite Hrun. cbn [mbind result_bind]. eauto.
Qed.

End FieldVectors.

(** X29: on a builder that is in order, [createFieldVectors] returns: no
    [insert] meets an index twice.  The vector it leaves under a field
    reference has its indices growing strictly and holds one component
    for each distinct term counted under that reference: its indices are
    the values of [_index] of the postings of these terms. *)
Theorem createFieldVectors_terms (log round : float → float)
    (b : Builder.t) :
  indexed_ok b →
  ∃ fieldVectors,
    Builder.createFieldVectors log round b = Ok fieldVectors
    ∧ ∀ fieldRef termFrequencies,
        JsObject.get_own (Builder.fieldTermFrequencies b) fieldRef
        = Some termFrequencies →
        ∃ v,
          JsObject.get_own fieldVectors fieldRef = Some v
          ∧ sorted_indices (Vector.elements v) = true
          ∧ length (Vector.elements v)
            = length (JsObject.keys termFrequencies)
          ∧ ∀ i, i ∈ (Vector.elements v).*1
                 ↔ ∃ term, term ∈ JsObject.keys termFrequencies
                           ∧ index_in (Builder.invertedIndex b) term i.
Proof.
  intros Hb.
  destruct (createFieldVectors_spec log round b Hb) as (fv & Hrun & Hfv).
  exists fv. split; [done|]. intros k tf Hk. by apply (Hfv k).
Qed.

Lemma two_documents_indexed_ok : indexed_ok two_documents.
Proof.
  assert (JsObject.keys (Builder._fields two_documents) = ["title"%string])
    as Hkeys by (by vm_compute).
  unfold indexed_ok. rewrite Hkeys.
  split; [by intros ?%list_elem_of_singleton|].
  split; [by apply Forall_singleton|].
  assert (Builder.termIndex two_documents = 2%Z) as -> by (by vm_compute).
  assert (Builder.invertedIndex two_documents
          = [("x", [("_index", PIndex 0); ("title", PField [("a", [])])]);
             ("y", [("_index", PIndex 1); ("title", PField [("a", [])])])
            ]%string) as -> by (by vm_compute).
  assert (Builder.fieldTermFrequencies two_documents
          = [("title/a", [("x", 1%Z); ("y", 1%Z)]); ("title/b", [])]%string)
    as -> by (by vm_compute).
  assert (Builder._documents two_documents
          = [("a", Builder.mkDocumentAttributes None);
             ("b", Builder.mkDocumentAttributes None)]%string)
    as -> by (by vm_compute).
  split; [split|].
  - intros term p Hp. simpl in Hp.
    repeat case_decide; simplify_eq/=;
      (split; [eexists; split; [reflexivity | lia]|]);
      intros f ->%list_elem_of_singleton; eexists; reflexivity.
  - intros t1 t2 i (p1 & Hp1 & Hi1) (p2 & Hp2 & Hi2). simpl in Hp1, Hp2.
    repeat case_decide; simplify_eq/=; done.
  - intros k tf Hk. simpl in Hk. repeat case_decide; simplify_eq/=.
    + split.
      * exists "title"%string, "a"%string.
        split; [done|]. split; [by apply list_elem_of_singleton | done].
      * split.
        { csimpl. apply NoDup_cons.
          split; [by intros ?%list_elem_of_singleton | apply NoDup_singleton]. }
        intros term [->|[->|Hterm]%elem_of_cons]%elem_of_cons;
          [by eexists | by eexists | by apply elem_of_nil in Hterm].
    + split.
      * exists "title"%string, "b"%string.
        split; [done|]. split; [by apply list_elem_of_singleton | done].
      * split; [apply NoDup_nil_2|]. intros term Hterm.
        by apply elem_of_nil in Hterm.
Qed.

Lemma add_lists_document_witness :
  let b := two_documents in
  let doc := [("id", FStr "c"); ("title", FStr "y z")]%string in
  ∃ b',
    Builder.add b doc None = Ok b'
    ∧ indexed_ok b'
    ∧ (∀ f terms term,
         f ∈ JsObject.keys (Builder._fields b) →
         Builder.field_terms b doc f = Ok terms → term ∈ terms →
         listed (Builder.invertedIndex b') (Token.toString term) f "c")
    ∧ ∀ t f d, listed (Builder.invertedIndex b) t f d →
               listed (Builder.invertedIndex b') t f d.
Proof.
  apply (add_lists_document two_documents
           [("id", FStr "c"); ("title", FStr "y z")]%string None "c").
  - apply two_documents_indexed_ok.
  - reflexivity.
  - done.
  - intros f Hf. eexists. vm_compute in Hf.
    apply list_elem_of_singleton in Hf as ->. vm_compute. reflexivity.
Defined.

Lemma createFieldVectors_terms_witness :
  ∃ fieldVectors,
    Builder.createFieldVectors PrimFloat.sqrt PrimFloat.sqrt two_documents
    = Ok fieldVectors
    ∧ ∀ fieldRef termFrequencies,
        JsObject.get_own (Builder.fieldTermFrequencies two_documents) fieldRef
        = Some termFrequencies →
        ∃ v,
          JsObject.get_own fieldVectors fieldRef = Some v
          ∧ sorted_indices (Vector.elements v) = true
          ∧ length (Vector.elements v)
            = length (JsObject.keys termFrequencies)
          ∧ ∀ i, i ∈ (Vector.elements v).*1
                 ↔ ∃ term, term ∈ JsObject.keys termFrequencies
                           ∧ index_in (Builder.invertedIndex two_documents)
                                      term i.
Proof.
  apply (createFieldVectors_terms PrimFloat.sqrt PrimFloat.sqrt two_documents).
  apply two_documents_indexed_ok.
Defined.

(** X30: [build] returns on a builder that is in order, whose objects
    hold every key once with field references as the keys of
    [fieldLengths], and of which no term holds a decimal digit.  The
    index attributes it returns hold the inverted index and the fields of
    the builder, a token set that accepts exactly the terms of the
    inverted index, and under every field reference a vector with one
    component for each distinct term counted under it. *)
Theorem build_returns (log round : float → float) (b : Builder.t)
    (w : world) :
  wf w →
  well_formed b = true →
  indexed_ok b →
  Forall (λ term, Forall (λ c, JsString.is_digit c = false) (chars term))
         (JsObject.keys (Builder.invertedIndex b)) →
  ∃ attrs b' w',
    Builder.build log round b w = Ok (attrs, b', w')
    ∧ attrs_invertedIndex attrs = Builder.invertedIndex b
    ∧ attrs_fields attrs = JsObject.keys (Builder._fields b)
    ∧ attrs_pipeline attrs = Builder.searchPipeline b
    ∧ (∀ cs, accepts w' (attrs_tokenSet attrs) cs
             ↔ ∃ term, term ∈ JsObject.keys (Builder.invertedIndex b)
                       ∧ cs = chars term)
    ∧ ∀ fieldRef termFrequencies,
        JsObject.get_own (Builder.fieldTermFrequencies b) fieldRef
        = Some termFrequencies →
        ∃ v,
          JsObject.get_own (attrs_fieldVectors attrs) fieldRef = Some v
          ∧ sorted_indices (Vector.elements v) = true
          ∧ length (Vector.elements v)
            = length (JsObject.keys termFrequencies)
          ∧ ∀ i, i ∈ (Vector.elements v).*1
                 ↔ ∃ term, term ∈ JsObject.keys termFrequencies
                           ∧ index_in (Builder.invertedIndex b) term i.
Proof.
  intros Hwf Hb Hok Hdig.
  destruct (calculateAverageFieldLengths_returns b Hb) as (avg & Havg).
  destruct (createFieldVectors_spec log round (Builder.with_averages b avg) Hok)
    as (fv & Hfv & Hvec).
  destruct (createTokenSet_spec
              (Builder.with_vectors (Builder.with_averages b avg) fv) w Hwf Hdig)
    as (w' & Hts & _ & _ & _ & Hlang).
  unfold Builder.build. rewrite Havg. cbn [mbind result_bind].
  rewrite Hfv. cbn [mbind result_bind].
  match goal with
  | |- context [Builder.createTokenSet ?b1 ?w1] =>
      replace (Builder.createTokenSet b1 w1) with (Ok (_nextId w, w'))
        by (symmetry; exact Hts)
  end.
  eexists _, _, _. split; [reflexivity|].
  cbn [attrs_invertedIndex attrs_fields attrs_pipeline attrs_tokenSet
       attrs_fieldVectors].
  split; [done|]. split; [done|]. split; [done|]. split; [exact Hlang|].
  intros k tf Hk. by apply (Hvec k).
Qed.

Lemma build_returns_witness :
  let w := (Builder.new initial_world).2 in
  ∃ attrs b' w',
    Builder.build PrimFloat.sqrt PrimFloat.sqrt two_documents w
    = Ok (attrs, b', w')
    ∧ attrs_invertedIndex attrs = Builder.invertedIndex two_documents
    ∧ attrs_fields attrs = JsObject.keys (Builder._fields two_documents)
    ∧ attrs_pipeline attrs = Builder.searchPipeline two_documents
    ∧ (∀ cs, accepts w' (attrs_tokenSet attrs) cs
             ↔ ∃ term,
                 term ∈ JsObject.keys (Builder.invertedIndex two_documents)
                 ∧ cs = chars term)
    ∧ ∀ fieldRef termFrequencies,
        JsObject.get_own (Builder.fieldTermFrequencies two_documents) fieldRef
        = Some termFrequencies →
        ∃ v,
          JsObject.get_own (attrs_fieldVectors attrs) fieldRef = Some v
          ∧ sorted_indices (Vector.elements v) = true
          ∧ length (Vector.elements v)
            = length (JsObject.keys termFrequencies)
          ∧ ∀ i, i ∈ (Vector.elements v).*1
                 ↔ ∃ term, term ∈ JsObject.keys termFrequencies
                           ∧ index_in (Builder.invertedIndex two_documents)
                                      term i.
Proof.
  apply (build_returns PrimFloat.sqrt PrimFloat.sqrt two_documents
           (Builder.new initial_world).2).
  - apply wf_new, wf_initial.
  - by vm_compute.
  - apply two_documents_indexed_ok.
  - assert (JsObject.keys (Builder.invertedIndex two_documents)
            = ["x"; "y"]%string) as -> by (by vm_compute).
    repeat (constructor; try reflexivity).
Defined.
